(** * Phrazagram: the grid-ranked word-grid solver
    (python_scripts/word_grid_solver_general_V10.py), embedded in Rocq.

    Python values are modelled as follows.
    - [str]: a sequence of Unicode code points ([list N]); a character is a
      code point.  Ordering of strings is lexicographic on code points.
    - [int]: [Z]; indices and lengths that the source only ever produces
      non-negative are [nat].
    - [dict]: an insertion-ordered association list ([dict K V]) where the
      iteration order is observable, a [gmap] where it is not.
    - exceptions: the [result] monad ([Ok] / [Raise]).
    - the [unicodedata] tables and the locale-free [str] methods that live in
      the interpreter are a record [UnicodeData] the functions take as an
      argument. *)

From Stdlib Require Import ZArith NArith QArith List String Ascii Lia Permutation.
From stdpp Require Import base option list gmap strings pretty.

Local Open Scope Z_scope.

(** ** Python basics *)
Module Py.

Abbreviation char := N (only parsing).
Abbreviation str := (list N) (only parsing).

(** A string literal of the source (ASCII only). *)
Definition lit (s : string) : str :=
  map (fun a => N_of_ascii a) (list_ascii_of_string s).

(** The exceptions the program can end with.  [UnicodeDecodeError] and
    [OSError] come from reading a file, [OverflowError] from turning an
    integer into a float. *)
Inductive exn :=
  | KeyError | IndexError | ValueError
  | OverflowError | UnicodeDecodeError | OSError.

Inductive result (A : Type) :=
  | Ok (a : A)
  | Raise (e : exn).
Arguments Ok {A} a.
Arguments Raise {A} e.

Definition bind {A B} (m : result A) (k : A -> result B) : result B :=
  match m with
  | Ok a => k a
  | Raise e => Raise e
  end.

Global Instance result_ret : MRet result := fun A a => Ok a.
Global Instance result_bind : MBind result := fun A B k m => bind m k.

Definition of_option {A} (e : exn) (o : option A) : result A :=
  match o with
  | Some a => Ok a
  | None => Raise e
  end.

(** [for x in xs: st = body(x, st)], stopping at the first exception. *)
Fixpoint for_each {A S} (body : A -> S -> result S) (xs : list A) (st : S)
  : result S :=
  match xs with
  | [] => Ok st
  | x :: xs' => st' ← body x st; for_each body xs' st'
  end.

(** *** Comparison of tuples, lists and strings, as [<] on them does it. *)
Definition pair_compare {A B} (cmpA : A -> A -> comparison)
  (cmpB : B -> B -> comparison) (x y : A * B) : comparison :=
  match cmpA (fst x) (fst y) with
  | Eq => cmpB (snd x) (snd y)
  | c => c
  end.

Fixpoint list_compare {A} (cmp : A -> A -> comparison) (a b : list A)
  : comparison :=
  match a, b with
  | [], [] => Eq
  | [], _ :: _ => Lt
  | _ :: _, [] => Gt
  | x :: a', y :: b' =>
      match cmp x y with
      | Eq => list_compare cmp a' b'
      | c => c
      end
  end.

Definition str_compare (a b : str) : comparison := list_compare N.compare a b.

(** [a < b] on strings *)
Definition str_ltb (a b : str) : bool :=
  match str_compare a b with Lt => true | _ => false end.

(** [not (b < a)], the test of a stable ascending sort *)
Definition le_of {A} (cmp : A -> A -> comparison) (a b : A) : bool :=
  match cmp a b with Gt => false | _ => true end.

(** *** [sorted]: a stable sort, by insertion. [leb x y] says that [x] may
    stay in front of [y]. *)
Section Sorted.
Context {A : Type} (leb : A -> A -> bool).

Fixpoint insert_sorted (x : A) (l : list A) : list A :=
  match l with
  | [] => [x]
  | y :: l' => if leb x y then x :: l else y :: insert_sorted x l'
  end.

Definition sorted (l : list A) : list A :=
  fold_right insert_sorted [] l.
End Sorted.

(** *** Insertion-ordered dictionaries. *)
Abbreviation dict K V := (list (K * V)) (only parsing).

Section Dict.
Context {K V : Type} `{EqDecision K}.

Fixpoint dget (k : K) (d : dict K V) : option V :=
  match d with
  | [] => None
  | (k', v) :: d' => if decide (k = k') then Some v else dget k d'
  end.

Definition dmem (k : K) (d : dict K V) : bool :=
  match dget k d with Some _ => true | None => false end.

(** [d[k] = v]: an existing key keeps its place, a new key goes last. *)
Fixpoint dset (k : K) (v : V) (d : dict K V) : dict K V :=
  match d with
  | [] => [(k, v)]
  | (k', v') :: d' =>
      if decide (k = k') then (k, v) :: d' else (k', v') :: dset k v d'
  end.

(** [del d[k]] (the caller checks membership where the source can raise). *)
Fixpoint ddel (k : K) (d : dict K V) : dict K V :=
  match d with
  | [] => []
  | (k', v') :: d' =>
      if decide (k = k') then d' else (k', v') :: ddel k d'
  end.

Definition dkeys (d : dict K V) : list K := map fst d.
Definition dvalues (d : dict K V) : list V := map snd d.
End Dict.

(** [dict(pairs)] / a dict comprehension: later pairs overwrite earlier ones. *)
Definition dict_of_list {K V} `{EqDecision K} (l : list (K * V)) : dict K V :=
  fold_left (fun d kv => dset (fst kv) (snd kv) d) l [].

(** [defaultdict(list)]: [d[k].append(v)]. *)
Definition dappend {K V} `{EqDecision K} (k : K) (v : V)
  (d : dict K (list V)) : dict K (list V) :=
  match dget k d with
  | Some vs => dset k (vs ++ [v]) d
  | None => dset k [v] d
  end.

End Py.
Export Py.

(** ** The Unicode database and [clean_phrase] *)
Module Unicode.

(** The parts of the interpreter the source calls but does not define. *)
Record UnicodeData := {
  (** [unicodedata.normalize("NFKD", s)] *)
  normalize_NFKD : str -> str;
  (** [unicodedata.combining(ch)], the canonical combining class *)
  combining : char -> N;
  (** [s.upper()] *)
  upper : str -> str;
  (** whether [str.strip] removes the character *)
  isspace : char -> bool;
  (** whether the character counts for [str.isdigit] *)
  isdigit_char : char -> bool;
  (** [int(s)] on a string that passed [isdigit]; [None] is [ValueError] *)
  int_of_str : str -> option Z;
  (** [sys.get_int_max_str_digits()]: the longest digit string [int] reads,
      4300 unless it is set otherwise (and then 640 at least); 0 when there
      is no limit, as before Python 3.11 *)
  int_max_str_digits : nat
}.

Fixpoint lstrip (db : UnicodeData) (s : str) : str :=
  match s with
  | [] => []
  | c :: s' => if isspace db c then lstrip db s' else s
  end.

Definition rstrip (db : UnicodeData) (s : str) : str :=
  rev (lstrip db (rev s)).

Definition strip (db : UnicodeData) (s : str) : str :=
  rstrip db (lstrip db s).

(** [s.isdigit()]: non-empty and every character a digit. *)
Definition isdigit (db : UnicodeData) (s : str) : bool :=
  match s with
  | [] => false
  | _ => forallb (isdigit_char db) s
  end.

(** [left, right = s.split("\t", 1)] when ["\t" in s]. *)
Fixpoint split_tab (s : str) : option (str * str) :=
  match s with
  | [] => None
  | c :: s' =>
      if (c =? 9)%N then Some ([], s')
      else match split_tab s' with
           | Some (l, r) => Some (c :: l, r)
           | None => None
           end
  end.

(** The table [single_letter_map] of the source. *)
Definition single_letter_map : dict char str :=
  [ (0xDF%N, lit "S"); (0x1E9E%N, lit "S");
    (0xC6%N, lit "E"); (0xE6%N, lit "e");
    (0x152%N, lit "E"); (0x153%N, lit "e");
    (0xD8%N, lit "O"); (0xF8%N, lit "o");
    (0xD0%N, lit "D"); (0xF0%N, lit "d");
    (0xDE%N, lit "T"); (0xFE%N, lit "t");
    (0x141%N, lit "L"); (0x142%N, lit "l");
    (0xC5%N, lit "A"); (0xE5%N, lit "a") ].

(** [single_letter_map.get(ch, ch)] *)
Definition map_single (ch : char) : str :=
  match dget ch single_letter_map with
  | Some s => s
  | None => [ch]
  end.

Definition is_AZ (ch : char) : bool := ((65 <=? ch) && (ch <=? 90))%N.

Definition no_marks (db : UnicodeData) (p : str) : str :=
  filter (fun ch => combining db ch = 0%N) (normalize_NFKD db p).

Definition mapped (db : UnicodeData) (p : str) : str :=
  concat (map map_single (no_marks db p)).

Definition clean_phrase (db : UnicodeData) (p : str) : str :=
  let upper := upper db (mapped db p) in
  filter (fun ch => is_AZ ch = true) upper.

(** *** What the tables do on ASCII text. *)
Definition is_ascii (c : char) : Prop := (c < 128)%N.

Definition ascii_upper (c : char) : char :=
  if ((97 <=? c) && (c <=? 122))%N then (c - 32)%N else c.

Definition ascii_isspace (c : char) : bool :=
  ((9 <=? c) && (c <=? 13) || (28 <=? c) && (c <=? 32))%N.

Definition ascii_isdigit (c : char) : bool := ((48 <=? c) && (c <=? 57))%N.

Definition decimal (s : str) : Z :=
  fold_left (fun acc c => 10 * acc + (Z.of_N c - 48)) s 0.

(** [int] refuses a digit string with more digits than the limit allows;
    leading zeros count. *)
Definition over_limit (db : UnicodeData) (s : str) : bool :=
  ((0 <? int_max_str_digits db) && (int_max_str_digits db <? length s))%nat.

Record ascii_faithful (db : UnicodeData) : Prop := {
  nfkd_ascii : forall s, Forall is_ascii s -> normalize_NFKD db s = s;
  combining_ascii : forall c, is_ascii c -> combining db c = 0%N;
  upper_ascii : forall s, Forall is_ascii s -> upper db s = map ascii_upper s;
  isspace_ascii : forall c, is_ascii c -> isspace db c = ascii_isspace c;
  isdigit_ascii : forall c, is_ascii c -> isdigit_char db c = ascii_isdigit c;
  int_ascii : forall s, s <> [] -> Forall (fun c => ascii_isdigit c = true) s ->
              int_of_str db s =
              if over_limit db s then None else Some (decimal s)
}.

(** *** A sample of the Unicode Character Database: ASCII, and the entries of
    UnicodeData.txt and SpecialCasing.txt for a few more characters.  It is
    used to run the functions on concrete text; characters outside the sample
    are left alone.
      00E9 -> 0065 0301          00F1 -> 006E 0303
      00C5 -> 0041 030A          00E5 -> 0061 030A
      FB01 -> <compat> 0066 0069 2122 -> <super> 0054 004D
      0301, 0303, 030A: combining class 230. *)
Definition sample_decomposition (c : char) : str :=
  if (c =? 0xE9)%N then [0x65; 0x301]%N
  else if (c =? 0xF1)%N then [0x6E; 0x303]%N
  else if (c =? 0xC5)%N then [0x41; 0x30A]%N
  else if (c =? 0xE5)%N then [0x61; 0x30A]%N
  else if (c =? 0xFB01)%N then [0x66; 0x69]%N
  else if (c =? 0x2122)%N then [0x54; 0x4D]%N
  else [c].

Definition sample_combining (c : char) : N :=
  if ((c =? 0x301) || (c =? 0x303) || (c =? 0x30A))%N then 230%N else 0%N.

Definition sample_upper (c : char) : str :=
  if (c =? 0xDF)%N then lit "SS"
  else if ((0xE0 <=? c) && (c <=? 0xFE) && negb (c =? 0xF7))%N
  then [(c - 32)%N]
  else [ascii_upper c].

(** The substitutions as the specification lists them: sharp s to S, AE and
    ae to E, OE and oe to E, O and o with stroke to O, Eth and eth to D,
    Thorn and thorn to T, L and l with stroke to L, A and a with ring to A. *)
Definition spec_substitution (c : char) : option char :=
  if (c =? 0xDF)%N then Some 83%N
  else if ((c =? 0xC6) || (c =? 0xE6))%N then Some 69%N
  else if ((c =? 0x152) || (c =? 0x153))%N then Some 69%N
  else if ((c =? 0xD8) || (c =? 0xF8))%N then Some 79%N
  else if ((c =? 0xD0) || (c =? 0xF0))%N then Some 68%N
  else if ((c =? 0xDE) || (c =? 0xFE))%N then Some 84%N
  else if ((c =? 0x141) || (c =? 0x142))%N then Some 76%N
  else if ((c =? 0xC5) || (c =? 0xE5))%N then Some 65%N
  else None.

Definition sample_isspace (c : char) : bool :=
  (ascii_isspace c || (c =? 0x85) || (c =? 0xA0) || (c =? 0x1680)
   || (0x2000 <=? c) && (c <=? 0x200A) || (c =? 0x2028) || (c =? 0x2029)
   || (c =? 0x202F) || (c =? 0x205F) || (c =? 0x3000))%N.

Definition sample_int (s : str) : option Z :=
  match s with
  | [] => None
  | _ =>
      if forallb ascii_isdigit s && (length s <=? 4300)%nat
      then Some (decimal s) else None
  end.

Definition ucd_sample : UnicodeData := {|
  normalize_NFKD := fun s => concat (map sample_decomposition s);
  combining := sample_combining;
  upper := fun s => concat (map sample_upper s);
  isspace := sample_isspace;
  isdigit_char := ascii_isdigit;
  int_of_str := sample_int;
  int_max_str_digits := 4300
|}.

(** The text "Straße é Æ ł": a sharp s, a letter with an accent, and two
    letters of the substitution table. *)
Definition strasse : str :=
  [83; 116; 114; 97; 0xDF; 101; 32; 0xE9; 32; 0xC6; 32; 0x142]%N.

End Unicode.
Export Unicode.

(** ** [load_dictionary] *)
Module Dictionary.

(** What [open(path)] and the loop over the lines of the file find: no file
    ([FileNotFoundError], which the source catches); the lines of the file;
    or the lines the loop receives before the read fails with an exception
    that the source does not catch: [UnicodeDecodeError] for bytes that are
    not UTF-8 (the file is decoded block by block, so the lines received may
    be fewer than the lines that stand before the fault), an [OSError] other
    than [FileNotFoundError] when the path is a directory or may not be read
    (then no line has been received). *)
Inductive file :=
  | FileNotFound
  | FileLines (raws : list str)
  | FileError (raws : list str) (e : exn).

Record load_state := {
  total_lines : Z;
  parsed_rated : Z;
  parsed_unrated : Z;
  kept_rated_ge_min : Z;
  kept_unrated : Z;
  (** cleaned word -> highest rating, [None] for unrated *)
  best_by_cleaned : dict str (option Z)
}.

Definition initial_state : load_state := {|
  total_lines := 0; parsed_rated := 0; parsed_unrated := 0;
  kept_rated_ge_min := 0; kept_unrated := 0; best_by_cleaned := []
|}.

Definition set_best (b : dict str (option Z)) (st : load_state) : load_state :=
  {| total_lines := total_lines st; parsed_rated := parsed_rated st;
     parsed_unrated := parsed_unrated st;
     kept_rated_ge_min := kept_rated_ge_min st;
     kept_unrated := kept_unrated st; best_by_cleaned := b |}.

Definition count_parsed (rating : option Z) (st : load_state) : load_state :=
  match rating with
  | None =>
      {| total_lines := total_lines st; parsed_rated := parsed_rated st;
         parsed_unrated := parsed_unrated st + 1;
         kept_rated_ge_min := kept_rated_ge_min st;
         kept_unrated := kept_unrated st;
         best_by_cleaned := best_by_cleaned st |}
  | Some _ =>
      {| total_lines := total_lines st; parsed_rated := parsed_rated st + 1;
         parsed_unrated := parsed_unrated st;
         kept_rated_ge_min := kept_rated_ge_min st;
         kept_unrated := kept_unrated st;
         best_by_cleaned := best_by_cleaned st |}
  end.

Definition count_kept (rating : option Z) (st : load_state) : load_state :=
  match rating with
  | None =>
      {| total_lines := total_lines st; parsed_rated := parsed_rated st;
         parsed_unrated := parsed_unrated st;
         kept_rated_ge_min := kept_rated_ge_min st;
         kept_unrated := kept_unrated st + 1;
         best_by_cleaned := best_by_cleaned st |}
  | Some _ =>
      {| total_lines := total_lines st; parsed_rated := parsed_rated st;
         parsed_unrated := parsed_unrated st;
         kept_rated_ge_min := kept_rated_ge_min st + 1;
         kept_unrated := kept_unrated st;
         best_by_cleaned := best_by_cleaned st |}
  end.

Definition count_line (st : load_state) : load_state :=
  {| total_lines := total_lines st + 1; parsed_rated := parsed_rated st;
     parsed_unrated := parsed_unrated st;
     kept_rated_ge_min := kept_rated_ge_min st;
     kept_unrated := kept_unrated st;
     best_by_cleaned := best_by_cleaned st |}.

(** The ["RATING<TAB>entry"] parse: the rating, if any, and the entry. *)
Definition parse_rating (db : UnicodeData) (line : str)
  : result (option Z * str) :=
  match split_tab line with
  | Some (lft, rgt) =>
      let left_stripped := strip db lft in
      if isdigit db left_stripped then
        r ← of_option ValueError (int_of_str db left_stripped);
        if (1 <=? r) && (r <=? 10) then Ok (Some r, rgt)
        else Ok (None, line)
      else Ok (None, line)
  | None => Ok (None, line)
  end.

(** Deduplicate by keeping the highest rating. *)
Definition keep_best (cleaned : str) (rating : option Z)
  (best : dict str (option Z)) : dict str (option Z) :=
  match dget cleaned best with
  | None => dset cleaned rating best
  | Some None =>
      match rating with
      | Some _ => dset cleaned rating best
      | None => best
      end
  | Some (Some prev) =>
      match rating with
      | Some r => if prev <? r then dset cleaned rating best else best
      | None => best
      end
  end.

Definition consider_entry (db : UnicodeData) (min_rating : Z) (line : str)
  (st : load_state) : result load_state :=
  let line := strip db line in
  match line with
  | [] => Ok st
  | _ =>
      '(rating, entry) ← parse_rating db line;
      let st := count_parsed rating st in
      let cleaned := clean_phrase db entry in
      match cleaned with
      | [] => Ok st
      | _ =>
          let L := length cleaned in
          if ((L <? 4) || (7 <? L))%nat then Ok st
          else
            let include :=
              match rating with
              | None => true
              | Some r => min_rating <=? r
              end in
            if negb include then Ok st
            else
              let st := set_best (keep_best cleaned rating (best_by_cleaned st)) st in
              Ok (count_kept rating st)
      end
  end.

Definition fallback_pool : list str :=
  map lit ["TITLE"; "TENET"; "LEVEL"; "LILITH"; "DENIES"; "GUSTY"; "GUTSY";
           "TATTY"; "ANYHOW"; "ANYHOO"; "WANT"; "WANTS"]%string.

Definition add_fallback (db : UnicodeData) (w : str) (st : load_state)
  : load_state :=
  let c := clean_phrase db w in
  if ((4 <=? length c) && (length c <=? 7))%nat
  then set_best (dset c None (best_by_cleaned st)) st
  else st.

Definition build_by_len (words : list str) : dict nat (list str) :=
  fold_left (fun by_len w => dappend (length w) w by_len) words [].

(** The lines are taken one by one, as the [for raw in f] loop reads them: a
    line that raises ends the load before the file is read further, and a
    read that fails ends it after the lines before it.  The load summary
    that is printed is for observability only and is left out. *)
Definition load_dictionary (db : UnicodeData) (f : file) (min_rating : Z)
  : result (dict nat (list str)) :=
  st ← match f with
       | FileLines raws =>
           for_each (fun raw st => consider_entry db min_rating raw (count_line st))
                    raws initial_state
       | FileError raws e =>
           _ ← for_each (fun raw st => consider_entry db min_rating raw (count_line st))
                        raws initial_state;
           Raise e
       | FileNotFound =>
           Ok (fold_left (fun st w => add_fallback db w st)
                         fallback_pool initial_state)
       end;
  Ok (build_by_len (dkeys (best_by_cleaned st))).

(** The lengths the solver keeps. *)
Definition kept_length (c : str) : Prop := (4 <= length c <= 7)%nat.

(** The upper-cased letters of an ASCII text. *)
Definition letters (s : str) : str :=
  filter (fun ch => is_AZ ch = true) (map ascii_upper s).

(** Every bucket holds words of its length. *)
Definition length_buckets (words_by_len : dict nat (list str)) : Prop :=
  forall L ws w, dget L words_by_len = Some ws -> In w ws -> length w = L.

End Dictionary.
Export Dictionary.

(** ** Slots, crossings and the per-grid search *)
Module Solver.

Inductive orientation := H | V.

Global Instance orientation_eq_dec : EqDecision orientation.
Proof. solve_decision. Defined.

Abbreviation cell := (Z * Z)%type (only parsing).

(** A slot dictionary [{"id", "orient", "length", "cells"}]. *)
Record slot := {
  slot_id : str;
  orient : orientation;
  slot_length : nat;
  cells : list cell
}.

(** An intersection dictionary
    [{"slot_a", "pos_a", "slot_b", "pos_b", "cell"}]. *)
Record intersection := {
  slot_a : str;
  pos_a : nat;
  slot_b : str;
  pos_b : nat;
  xcell : cell
}.

(** *** Orderings used by [sorted] and [list.sort] *)

(** ["H" < "V"] *)
Definition orientation_compare (a b : orientation) : comparison :=
  match a, b with
  | H, H => Eq
  | H, V => Lt
  | V, H => Gt
  | V, V => Eq
  end.

Definition touch := (orientation * nat * nat)%type.
Definition pattern := (orientation * nat * list touch)%type.

Definition touch_compare (a b : touch) : comparison :=
  pair_compare (pair_compare orientation_compare Nat.compare) Nat.compare a b.

Definition pattern_compare (a b : pattern) : comparison :=
  pair_compare (pair_compare orientation_compare Nat.compare)
               (list_compare touch_compare) a b.

Definition class_compare (a b : pattern * list str) : comparison :=
  pair_compare pattern_compare (list_compare str_compare) a b.

(** *** Equivalence classes (dedupe) *)
Fixpoint touches_of (by_id : dict str slot) (sid : str)
  (intersections : list intersection) : result (list touch) :=
  match intersections with
  | [] => Ok []
  | x :: xs =>
      if decide (slot_a x = sid) then
        o ← of_option KeyError (dget (slot_b x) by_id);
        rest ← touches_of by_id sid xs;
        Ok ((orient o, slot_length o, pos_a x) :: rest)
      else if decide (slot_b x = sid) then
        o ← of_option KeyError (dget (slot_a x) by_id);
        rest ← touches_of by_id sid xs;
        Ok ((orient o, slot_length o, pos_b x) :: rest)
      else touches_of by_id sid xs
  end.

Definition make_by_id (slots : list slot) : dict str slot :=
  dict_of_list (map (fun s => (slot_id s, s)) slots).

Definition slot_patterns (slots : list slot) (intersections : list intersection)
  : result (dict str pattern) :=
  let by_id := make_by_id slots in
  for_each (fun s patterns =>
              touches ← touches_of by_id (slot_id s) intersections;
              Ok (dset (slot_id s)
                       (orient s, slot_length s, sorted (le_of touch_compare) touches)
                       patterns))
           slots [].

(** [sid_to_class[sid] = i] for every [sid] of the [i]-th class. *)
Fixpoint number_classes (i : nat) (eq_classes : list (pattern * list str))
  (sid_to_class : dict str nat) : dict str nat :=
  match eq_classes with
  | [] => sid_to_class
  | (_, ids) :: rest =>
      number_classes (S i) rest
        (fold_left (fun d sid => dset sid i d) ids sid_to_class)
  end.

Definition slot_equivalence_classes (slots : list slot)
  (intersections : list intersection)
  : result (list (pattern * list str) * dict str nat) :=
  patterns ← slot_patterns slots intersections;
  let groups : dict pattern (list str) :=
    fold_left (fun g sp => dappend (snd sp) (fst sp) g) patterns [] in
  let eq_classes :=
    map (fun g => (fst g, sorted (le_of str_compare) (snd g))) groups in
  let eq_classes := sorted (le_of class_compare) eq_classes in
  Ok (eq_classes, number_classes 0 eq_classes []).

(** *** Candidate generation *)

(** [Counter(w)]: order of the keys is never observed. *)
Definition counter_get (m : gmap char Z) (ch : char) : Z :=
  default 0 (m !! ch).

Definition counter_add (ch : char) (n : Z) (m : gmap char Z) : gmap char Z :=
  <[ch := counter_get m ch + n]> m.

Definition Counter (letters : str) : gmap char Z :=
  fold_left (fun m ch => counter_add ch 1 m) letters ∅.

Definition counter_values (m : gmap char Z) : list Z :=
  map snd (map_to_list m).

Definition fits_budget (w : str) (budget : gmap char Z) : bool :=
  let cw := Counter w in
  forallb (fun kv => snd kv <=? counter_get budget (fst kv)) (map_to_list cw).

Definition prefilter_candidates (words_by_len : dict nat (list str))
  (slots : list slot) (budget : gmap char Z) : dict str (list str) :=
  fold_left
    (fun cand s =>
       let pool := default [] (dget (slot_length s) words_by_len) in
       dset (slot_id s) (filter (fun w => fits_budget w budget = true) pool) cand)
    slots [].

Definition inter_counts (intersections : list intersection) : dict str Z :=
  fold_left
    (fun d x =>
       let d := dset (slot_a x) (default 0 (dget (slot_a x) d) + 1) d in
       dset (slot_b x) (default 0 (dget (slot_b x) d) + 1) d)
    intersections [].

Definition slot_key := (nat * Z * nat)%type.

Definition slot_key_compare (a b : slot_key) : comparison :=
  pair_compare (pair_compare Nat.compare Z.compare) Nat.compare a b.

Fixpoint slot_keys (cand : dict str (list str)) (inter_count : dict str Z)
  (slots : list slot) : result (list (slot_key * slot)) :=
  match slots with
  | [] => Ok []
  | s :: rest =>
      c ← of_option KeyError (dget (slot_id s) cand);
      keyed ← slot_keys cand inter_count rest;
      Ok ((length c, - default 0 (dget (slot_id s) inter_count), slot_length s, s)
          :: keyed)
  end.

Definition order_slots (slots : list slot) (cand : dict str (list str))
  (intersections : list intersection) : result (list slot) :=
  keyed ← slot_keys cand (inter_counts intersections) slots;
  Ok (map snd (sorted (fun a b => le_of slot_key_compare (fst a) (fst b)) keyed)).

(** *** Solve per grid *)

(** The mutable variables of [find_solutions_for_grid], and the number of
    [time.time()] calls made so far. *)
Record state := {
  budget : gmap char Z;
  cell_letter : gmap cell char;
  cell_usage : gmap cell Z;
  sol : dict str str;
  solutions : list (dict str str);
  seen_signatures : list (list (nat * list str));
  last_ping : Q;
  ticks : nat
}.

(** What the closures read and never write. *)
Record env := {
  by_id : dict str slot;
  cross : dict str (list (str * nat * nat));
  sid_to_class : dict str nat;
  ids : list str;
  cand : dict str (list str);
  clock : nat -> Q;
  start : Q;
  deadline : option Q;
  max_solutions : Z;
  quiet : bool
}.

Definition HEARTBEAT_SEC : Q := 1.

Definition with_core (b : gmap char Z) (cl : gmap cell char) (cu : gmap cell Z)
  (st : state) : state :=
  {| budget := b; cell_letter := cl; cell_usage := cu; sol := sol st;
     solutions := solutions st; seen_signatures := seen_signatures st;
     last_ping := last_ping st; ticks := ticks st |}.

Definition with_sol (s : dict str str) (st : state) : state :=
  {| budget := budget st; cell_letter := cell_letter st;
     cell_usage := cell_usage st; sol := s;
     solutions := solutions st; seen_signatures := seen_signatures st;
     last_ping := last_ping st; ticks := ticks st |}.

(** [time.time()] *)
Definition time (e : env) (st : state) : Q * state :=
  (clock e (ticks st),
   {| budget := budget st; cell_letter := cell_letter st;
      cell_usage := cell_usage st; sol := sol st;
      solutions := solutions st; seen_signatures := seen_signatures st;
      last_ping := last_ping st; ticks := S (ticks st) |}).

(** [time.time() >= deadline] *)
Definition past_deadline (e : env) (st : state) : bool * state :=
  let '(now, st) := time e st in
  (match deadline e with
   | Some d => Qle_bool d now
   | None => false
   end, st).

Definition usage_get (m : gmap cell Z) (c : cell) : Z := default 0 (m !! c).

Definition make_cross (intersections : list intersection)
  : dict str (list (str * nat * nat)) :=
  fold_left
    (fun cr x =>
       let cr := dappend (slot_a x) (slot_b x, pos_a x, pos_b x) cr in
       dappend (slot_b x) (slot_a x, pos_b x, pos_a x) cr)
    intersections [].

Definition class_signature (sid_to_class : dict str nat)
  (current_sol : dict str str) : result (list (nat * list str)) :=
  buckets ← for_each
    (fun sw (buckets : dict nat (list str)) =>
       c ← of_option KeyError (dget (fst sw) sid_to_class);
       Ok (dappend c (snd sw) buckets))
    current_sol [];
  Ok (map (fun cls_idx =>
             (cls_idx,
              sorted (le_of str_compare) (default [] (dget cls_idx buckets))))
          (sorted Nat.leb (dkeys buckets))).

(** [class_members]: the ordered ids of the class [cls]. *)
Fixpoint class_members (e : env) (cls : nat) (sids : list str)
  : result (list str) :=
  match sids with
  | [] => Ok []
  | sid :: rest =>
      c ← of_option KeyError (dget sid (sid_to_class e));
      members ← class_members e cls rest;
      Ok (if decide (c = cls) then sid :: members else members)
  end.

(** The symmetry-break loop of [can_place]: [false] is [return False]. *)
Fixpoint symmetry_ok (st : state) (slot_id : str) (word : str)
  (members : list str) : bool :=
  match members with
  | [] => true
  | prev :: rest =>
      if decide (prev = slot_id) then true
      else
        match dget prev (sol st) with
        | Some placed =>
            if str_ltb word placed then false
            else symmetry_ok st slot_id word rest
        | None => symmetry_ok st slot_id word rest
        end
  end.

(** The crossing loop of [can_place]. *)
Fixpoint crossing_ok (st : state) (word : str)
  (crossings : list (str * nat * nat)) : result bool :=
  match crossings with
  | [] => Ok true
  | (other_id, pos_self, pos_other) :: rest =>
      match dget other_id (sol st) with
      | Some placed =>
          a ← of_option IndexError (word !! pos_self);
          b ← of_option IndexError (placed !! pos_other);
          if decide (a = b) then crossing_ok st word rest else Ok false
      | None => crossing_ok st word rest
      end
  end.

(** The loop of [can_place] that collects [need]; [None] is
    [return False]. *)
Fixpoint need_of (st : state) (word : str) (k : nat) (cs : list cell)
  (need : gmap char Z) : result (option (gmap char Z)) :=
  match cs with
  | [] => Ok (Some need)
  | c :: cs' =>
      ch ← of_option IndexError (word !! k);
      match cell_letter st !! c with
      | Some l =>
          if decide (l = ch) then need_of st word (S k) cs' need
          else Ok None
      | None => need_of st word (S k) cs' (counter_add ch 1 need)
      end
  end.

Definition need_fits (need budget : gmap char Z) : bool :=
  forallb (fun kv => negb (counter_get budget (fst kv) <? snd kv))
          (map_to_list need).

Definition can_place (e : env) (st : state) (slot_id : str) (word : str)
  : result bool :=
  s ← of_option KeyError (dget slot_id (by_id e));
  cls ← of_option KeyError (dget slot_id (sid_to_class e));
  members ← class_members e cls (ids e);
  if negb (symmetry_ok st slot_id word members) then Ok false
  else
    crossed ← crossing_ok st word (default [] (dget slot_id (cross e)));
    if negb crossed then Ok false
    else
      need ← need_of st word 0 (cells s) ∅;
      match need with
      | None => Ok false
      | Some need => Ok (need_fits need (budget st))
      end.

(** The body of the loop of [place], for the cell [c] and its letter. *)
Definition place_cell (ch : char) (c : cell) (st : state) : state :=
  let st :=
    if decide (usage_get (cell_usage st) c = 0)
    then with_core (counter_add ch (-1) (budget st))
                   (<[c := ch]> (cell_letter st)) (cell_usage st) st
    else st in
  with_core (budget st) (cell_letter st)
            (<[c := usage_get (cell_usage st) c + 1]> (cell_usage st)) st.

Fixpoint place_cells (word : str) (k : nat) (cs : list cell) (st : state)
  : result state :=
  match cs with
  | [] => Ok st
  | c :: cs' =>
      ch ← of_option IndexError (word !! k);
      place_cells word (S k) cs' (place_cell ch c st)
  end.

Definition place (e : env) (st : state) (slot_id : str) (word : str)
  : result state :=
  s ← of_option KeyError (dget slot_id (by_id e));
  st ← place_cells word 0 (cells s) st;
  Ok (with_sol (dset slot_id word (sol st)) st).

(** The body of the loop of [unplace]. *)
Definition unplace_cell (ch : char) (c : cell) (st : state) : result state :=
  let st :=
    with_core (budget st) (cell_letter st)
              (<[c := usage_get (cell_usage st) c - 1]> (cell_usage st)) st in
  if decide (usage_get (cell_usage st) c = 0)
  then
    match cell_letter st !! c with
    | Some _ =>
        Ok (with_core (counter_add ch 1 (budget st))
                      (delete c (cell_letter st)) (cell_usage st) st)
    | None => Raise KeyError
    end
  else Ok st.

Fixpoint unplace_cells (word : str) (k : nat) (cs : list cell) (st : state)
  : result state :=
  match cs with
  | [] => Ok st
  | c :: cs' =>
      ch ← of_option IndexError (word !! k);
      st ← unplace_cell ch c st;
      unplace_cells word (S k) cs' st
  end.

Definition unplace (e : env) (st : state) (slot_id : str) (word : str)
  : result state :=
  s ← of_option KeyError (dget slot_id (by_id e));
  st ← unplace_cells word 0 (cells s) st;
  match dget slot_id (sol st) with
  | Some _ => Ok (with_sol (ddel slot_id (sol st)) st)
  | None => Raise KeyError
  end.

(** [maybe_ping]: only its clock reading and [last_ping] are kept, the
    progress line is not. *)
Definition maybe_ping (e : env) (st : state) : state :=
  let '(now, st) := time e st in
  if negb (quiet e) && Qle_bool HEARTBEAT_SEC (now - last_ping st)
  then {| budget := budget st; cell_letter := cell_letter st;
          cell_usage := cell_usage st; sol := sol st;
          solutions := solutions st; seen_signatures := seen_signatures st;
          last_ping := now; ticks := ticks st |}
  else st.

(** [len(solutions) >= max_solutions] *)
Definition enough (e : env) (st : state) : bool :=
  max_solutions e <=? Z.of_nat (length (solutions st)).

(** The goal test and the recording of a solution, [idx == len(ids)]. *)
Definition record_goal (e : env) (st : state) : result state :=
  let values := counter_values (budget st) in
  if forallb (fun v => 0 <=? v) values && (fold_right Z.add 0 values =? 0) then
    sig ← class_signature (sid_to_class e) (sol st);
    if bool_decide (sig ∈ seen_signatures st) then Ok st
    else
      let st :=
        {| budget := budget st; cell_letter := cell_letter st;
           cell_usage := cell_usage st; sol := sol st;
           solutions := solutions st ++ [sol st];
           seen_signatures := seen_signatures st ++ [sig];
           last_ping := last_ping st; ticks := ticks st |} in
      (* the progress line reads the clock *)
      Ok (if quiet e then st else snd (time e st))
  else Ok st.

(** The [for w in cand[sid]] loop of [dfs]; [next] is [dfs(idx + 1)]. *)
Fixpoint try_words (e : env) (next : state -> result state) (sid : str)
  (ws : list str) (st : state) : result state :=
  match ws with
  | [] => Ok st
  | w :: ws' =>
      let '(late, st) := past_deadline e st in
      if late then Ok st
      else
        ok ← can_place e st sid w;
        if (ok : bool) then
          st ← place e st sid w;
          st ← next st;
          st ← unplace e st sid w;
          if enough e st then Ok st
          else
            let '(late, st) := past_deadline e st in
            if late then Ok st
            else try_words e next sid ws' (maybe_ping e st)
        else try_words e next sid ws' st
  end.

(** [dfs(idx)], with [rest = ids[idx:]]. *)
Fixpoint dfs (e : env) (rest : list str) (st : state) : result state :=
  let '(late, st) := past_deadline e st in
  if late then Ok st
  else if enough e st then Ok st
  else
    match rest with
    | [] => record_goal e st
    | sid :: rest' =>
        ws ← of_option KeyError (dget sid (cand e));
        try_words e (dfs e rest') sid ws st
    end.

(** The integers that [float + int] cannot turn into a float: from
    [2^1024 - 2^970] on, an integer rounds (to nearest, ties to even) to
    [2^1024], which is no double, and the addition raises [OverflowError]. *)
Definition float_int_limit : Z := 2 ^ 1024 - 2 ^ 970.

(** [(start + per_grid_time) if per_grid_time and per_grid_time > 0 else
    float("inf")], with [None] for the infinite deadline.  [per_grid_time] is
    an [int], so the sum converts it to a float first, which is what can
    fail; the sum itself is taken exactly, its rounding is not modelled. *)
Definition make_deadline (start : Q) (per_grid_time : Z) : result (option Q) :=
  if 0 <? per_grid_time then
    if float_int_limit <=? per_grid_time then Raise OverflowError
    else Ok (Some (start + inject_Z per_grid_time)%Q)
  else Ok None.

Definition find_solutions_for_grid (slots : list slot)
  (intersections : list intersection) (phrase_letters : str)
  (cand : dict str (list str)) (per_grid_time : Z) (max_solutions : Z)
  (quiet : bool) (clock : nat -> Q) : result (list (dict str str)) :=
  let start := clock 0%nat in
  deadline ← make_deadline start per_grid_time;
  '(eq_classes, sid_to_class) ← slot_equivalence_classes slots intersections;
  ordered ← order_slots slots cand intersections;
  let e := {| by_id := make_by_id slots; cross := make_cross intersections;
              sid_to_class := sid_to_class; ids := map slot_id ordered;
              cand := cand; clock := clock; start := start;
              deadline := deadline; max_solutions := max_solutions;
              quiet := quiet |} in
  let st := {| budget := Counter phrase_letters; cell_letter := ∅;
               cell_usage := ∅; sol := []; solutions := [];
               seen_signatures := []; last_ping := start; ticks := 1 |} in
  st ← dfs e (ids e) st;
  Ok (solutions st).

End Solver.
Export Solver.

(** ** Accounting of the search state *)
Module SolverAccounting.

(** The number of positions [i] of [cs] whose cell has reference count [t]
    in [u] and whose letter [word[k+i]] is [ch]. *)
Fixpoint charged (t : Z) (u : gmap (Z * Z) Z) (word : str) (ch : N)
  (k : nat) (cs : list (Z * Z)) : Z :=
  match cs with
  | [] => 0
  | c :: cs' =>
      (if decide (usage_get u c = t /\ word !! k = Some ch) then 1 else 0)
      + charged t u word ch (S k) cs'
  end.

(** The letter [word[k+i]] that the position of [c] in [cs] holds. *)
Fixpoint letter_at (word : str) (k : nat) (cs : list (Z * Z)) (c : Z * Z)
  : option N :=
  match cs with
  | [] => None
  | c' :: cs' => if decide (c = c') then word !! k else letter_at word (S k) cs' c
  end.

(** The letters [ch] the word needs for cells that no slot has claimed. *)
Fixpoint fresh_need (cl : gmap (Z * Z) N) (word : str) (ch : N)
  (k : nat) (cs : list (Z * Z)) : Z :=
  match cs with
  | [] => 0
  | c :: cs' =>
      (if decide (cl !! c = None /\ word !! k = Some ch) then 1 else 0)
      + fresh_need cl word ch (S k) cs'
  end.

(** States that differ in budget, letters and reference counts only. *)
Record same_frame (st st' : state) : Prop := {
  frame_sol : sol st' = sol st;
  frame_solutions : solutions st' = solutions st;
  frame_seen : seen_signatures st' = seen_signatures st;
  frame_ping : last_ping st' = last_ping st;
  frame_ticks : ticks st' = ticks st
}.

(** States that differ in the clock readings only. *)
Record same_core (st st' : state) : Prop := {
  core_budget : budget st' = budget st;
  core_letter : cell_letter st' = cell_letter st;
  core_usage : cell_usage st' = cell_usage st;
  core_sol : sol st' = sol st;
  core_solutions : solutions st' = solutions st;
  core_seen : seen_signatures st' = seen_signatures st
}.

(** The number of cells of the grid that hold the letter [ch]. *)
Definition letter_count (cl : gmap (Z * Z) N) (ch : N) : Z :=
  Z.of_nat (size (filter (fun kv : (Z * Z) * N => snd kv = ch) cl)).

Section Accounting.
Variables (e : env) (phrase : str).

(** The cells of the slot [sid]; an unknown id has none. *)
Definition cells_of (sid : str) : list (Z * Z) :=
match dget sid (by_id e) with
| Some s => cells s
| None => []
end.

(** The number of assigned slots that run over the cell [c]. *)
Definition cover_count (l : dict str str) (c : Z * Z) : Z :=
Z.of_nat (length (filter (fun sw : str * str => c ∈ cells_of (fst sw)) l)).

(** The invariant of the mutable state of the search: the assigned slots
  are distinct, every assigned word spells the letters of its cells, the
  reference count of a cell is the number of assigned slots over it, a
  cell holds a letter exactly when its count is not zero, and for every
  letter the budget is not negative and, with the cells that hold the
  letter, adds up to its count in the phrase. *)
Record Inv (st : state) : Prop := {
inv_keys : NoDup (dkeys (sol st));
inv_words : forall sid w, In (sid, w) (sol st) ->
  forall i c, cells_of sid !! i = Some c ->
  exists ch, w !! i = Some ch /\ cell_letter st !! c = Some ch;
inv_usage : forall c, usage_get (cell_usage st) c = cover_count (sol st) c;
inv_letter : forall c,
  cell_letter st !! c = None <-> usage_get (cell_usage st) c = 0;
inv_budget : forall ch,
  0 <= counter_get (budget st) ch /\
  counter_get (budget st) ch + letter_count (cell_letter st) ch =
  Z.of_nat (count_occ N.eq_dec phrase ch)
}.

(** The words of the assignment come from the candidate pools. *)
Definition from_cand (s : dict str str) : Prop :=
forall sid w, In (sid, w) s ->
exists ws, dget sid (cand e) = Some ws /\ In w ws.

(** The assignment [s] fills a grid with the letters of the phrase:
  there is one letter per cell, every word spells the letters of its
  cells, only cells of assigned slots hold a letter, and the letters
  are those of the phrase, each as often. *)
Definition filled (s : dict str str) : Prop :=
exists cl : gmap (Z * Z) N,
  (forall sid w, In (sid, w) s ->
   forall i c, cells_of sid !! i = Some c ->
   exists ch, w !! i = Some ch /\ cl !! c = Some ch) /\
  (forall c, is_Some (cl !! c) ->
   exists sid w, In (sid, w) s /\ c ∈ cells_of sid) /\
  (forall ch, letter_count cl ch = Z.of_nat (count_occ N.eq_dec phrase ch)).

(** A solution as the search records it: a word from its pool for every
  slot, in the order of the search, filling the grid. *)
Definition good (s : dict str str) : Prop :=
dkeys s = ids e /\ from_cand s /\ filled s.

(** What a call of [dfs] or a run of its loop does to the state. *)
Definition searched (st st' : state) : Prop :=
Inv st' /\ sol st' = sol st /\
exists new, solutions st' = solutions st ++ new /\ Forall good new.

(** The recorded signatures are distinct and are those of the recorded
  solutions, in order. *)
Definition distinct_signatures (st : state) : Prop :=
NoDup (seen_signatures st) /\
map (class_signature (sid_to_class e)) (solutions st) = map Ok (seen_signatures st).

End Accounting.

End SolverAccounting.
Export SolverAccounting.

(** ** Layout enumeration and ranking *)
Module Layout.

(** [mask]: a list of rows of 0/1 entries. *)
Abbreviation mask := (list (list Z)) (only parsing).

(** [range(a, b)] *)
Definition range (a b : Z) : list Z := seqZ a (b - a).

(** The position [xs[i]] refers to: a negative index counts from the end,
    anything outside is [IndexError]. *)
Definition py_pos {A} (xs : list A) (i : Z) : result nat :=
  let n := Z.of_nat (length xs) in
  let j := if i <? 0 then i + n else i in
  if (0 <=? j) && (j <? n) then Ok (Z.to_nat j) else Raise IndexError.

(** [xs[i]] *)
Definition py_index {A} (xs : list A) (i : Z) : result A :=
  j ← py_pos xs i; of_option IndexError (xs !! j).

(** [xs[i] = v] *)
Definition py_set_index {A} (xs : list A) (i : Z) (v : A) : result (list A) :=
  j ← py_pos xs i; Ok (<[j := v]> xs).

(** [mask[r][c]] *)
Definition mask_get (m : mask) (r c : Z) : result Z :=
  row ← py_index m r; py_index row c.

(** [mask[r][c] = 1] *)
Definition mask_set (m : mask) (r c : Z) : result mask :=
  row ← py_index m r;
  row' ← py_set_index row c 1;
  py_set_index m r row'.

Definition is_empty {A} (l : list A) : bool :=
  match l with [] => true | _ => false end.

(** [itertools.combinations(l, k)] *)
Fixpoint combinations {A} (l : list A) (k : nat) {struct l} : list (list A) :=
  match k, l with
  | O, _ => [[]]
  | S _, [] => []
  | S k', x :: l' => map (cons x) (combinations l' k') ++ combinations l' k
  end.

(** [itertools.product(xs, repeat=n)] *)
Fixpoint product_repeat {A} (xs : list A) (n : nat) : list (list A) :=
  match n with
  | O => [[]]
  | S n' => flat_map (fun x => map (cons x) (product_repeat xs n')) xs
  end.

(** [zip] *)
Fixpoint zip {A B} (a : list A) (b : list B) : list (A * B) :=
  match a, b with
  | x :: a', y :: b' => (x, y) :: zip a' b'
  | _, _ => []
  end.

(** *** Geometry helpers *)
Fixpoint gaps_ok (s : list Z) : bool :=
  match s with
  | a :: (b :: _) as t => (2 <=? b - a) && gaps_ok t
  | _ => true
  end.

Definition nonadjacent (indices : list Z) : bool :=
  gaps_ok (sorted Z.leb indices).

(** A vertical unit: a mirror pair of columns, or the centre column. *)
Inductive vunit :=
  | Pair (a b : Z)
  | Single (c : Z).

Definition symmetric_vertical_units (w : Z) : list vunit :=
  if w =? 4 then [Pair 0 3]
  else if w =? 5 then [Pair 0 4; Pair 1 3; Single 2]
  else if w =? 6 then [Pair 0 5; Pair 1 4]
  else if w =? 7 then [Pair 0 6; Pair 1 5; Pair 2 4; Single 3]
  else [].

Definition unit_cols (u : vunit) : list Z :=
  match u with
  | Pair a b => [a; b]
  | Single c => [c]
  end.

(** The columns are collected in a set and sorted; sorting makes the result
    independent of the order the set is iterated in. *)
Definition expand_units_to_cols (choice : list vunit) : list Z :=
  sorted Z.leb (remove_dups (flat_map unit_cols choice)).

Definition vertical_segment_options (h : Z) : list (Z * Z) :=
  flat_map (fun L => map (fun s => (s, L)) (range 0 (h - L + 1)))
           (range 4 (h + 1)).

Definition horizontal_lengths_allowed (w : Z) : list Z :=
  if w mod 2 =? 0
  then filter (fun L => L mod 2 = 0) (range 4 (w + 1))
  else filter (fun L => L mod 2 = 1) (range 5 (w + 1)).

Definition horizontal_segment_for_width (w L : Z) : Z * Z :=
  let start := (w - L) / 2 in
  (start, start + L - 1).

(** *** Slots and intersections *)

(** [str(n)] for an integer *)
Definition str_of_int (n : Z) : str := lit (pretty n).

Definition across_slot (w : Z) (rl : Z * Z) : slot :=
  let '(r, Lh) := rl in
  let '(cs, ce) := horizontal_segment_for_width w Lh in
  let cells := map (fun c => (r, c)) (range cs (ce + 1)) in
  {| slot_id := lit "H@R" ++ str_of_int r ++ lit ":C" ++ str_of_int cs
                ++ lit "-" ++ str_of_int ce;
     orient := H; slot_length := length cells; cells := cells |}.

Definition down_slot (cv : Z * (Z * Z)) : slot :=
  let '(c, (s, L)) := cv in
  let cells := map (fun r => (r, c)) (range s (s + L)) in
  {| slot_id := lit "V@C" ++ str_of_int c ++ lit ":R" ++ str_of_int s
                ++ lit "-" ++ str_of_int (s + L - 1);
     orient := V; slot_length := length cells; cells := cells |}.

(** [{cell: k for k, cell in enumerate(cells)}] *)
Definition cell_index (cs : list cell) : dict cell nat :=
  dict_of_list (imap (fun k c => (c, k)) cs).

Definition crossings (a b : slot) : list intersection :=
  let ai := cell_index (cells a) in
  omap (fun kc =>
          match dget (snd kc) ai with
          | Some p => Some {| slot_a := slot_id a; pos_a := p;
                              slot_b := slot_id b; pos_b := fst kc;
                              xcell := snd kc |}
          | None => None
          end)
       (imap (fun k c => (k, c)) (cells b)).

Fixpoint all_crossings (slots : list slot) : list intersection :=
  match slots with
  | [] => []
  | a :: rest => flat_map (crossings a) rest ++ all_crossings rest
  end.

Definition seg_compare (a b : Z * Z) : comparison :=
  pair_compare Z.compare Z.compare a b.

Definition col_compare (a b : Z * (Z * Z)) : comparison :=
  pair_compare Z.compare seg_compare a b.

Definition build_slots_and_intersections (w h : Z)
  (h_rows_with_len : list (Z * Z)) (v_cols_with_seg : dict Z (Z * Z))
  : list slot * list intersection :=
  let slots :=
    map (across_slot w) (sorted (le_of seg_compare) h_rows_with_len) ++
    map down_slot (sorted (le_of col_compare) v_cols_with_seg) in
  (slots, all_crossings slots).

(** *** Structural validators *)

(** [[(r, c) for r in range(h) for c in range(w) if mask[r][c] == 1]] *)
Definition filled_cells (m : mask) (h w : Z) : result (list cell) :=
  for_each (fun r acc =>
    for_each (fun c acc =>
                v ← mask_get m r c;
                Ok (if v =? 1 then acc ++ [(r, c)] else acc))
             (range 0 w) acc)
    (range 0 h) [].

Definition neighbours (rc : cell) : list cell :=
  let '(r, c) := rc in [(r + 1, c); (r - 1, c); (r, c + 1); (r, c - 1)].

(** The body of [for dr, dc in ...] in [connected]. *)
Definition visit (m : mask) (h w : Z) (n : cell)
  (sq : gset cell * list cell) : result (gset cell * list cell) :=
  let '(seen, dq) := sq in
  if (0 <=? fst n) && (fst n <? h) && (0 <=? snd n) && (snd n <? w) then
    v ← mask_get m (fst n) (snd n);
    if (v =? 1) && negb (bool_decide (n ∈ seen))
    then Ok ({[n]} ∪ seen, dq ++ [n])
    else Ok (seen, dq)
  else Ok (seen, dq).

(** [while dq: ...]; every turn of the loop takes one unit of fuel, and the
    result is [None] when the fuel runs out before the queue is empty. *)
Fixpoint bfs (fuel : nat) (m : mask) (h w : Z) (seen : gset cell)
  (dq : list cell) : option (result (gset cell)) :=
  match dq with
  | [] => Some (Ok seen)
  | rc :: dq' =>
      match fuel with
      | O => None
      | S fuel' =>
          match for_each (visit m h w) (neighbours rc) (seen, dq') with
          | Ok (seen', dq'') => bfs fuel' m h w seen' dq''
          | Raise e => Some (Raise e)
          end
      end
  end.

(** A cell enters the queue once, so the loop turns at most [h * w] times:
    that much fuel is never used up ([bfs_fuel] below), and the last branch
    is dead code of the model. *)
Definition connected (m : mask) : result bool :=
  let h := Z.of_nat (length m) in
  row0 ← py_index m 0;
  let w := Z.of_nat (length row0) in
  cells ← filled_cells m h w;
  match cells with
  | [] => Ok false
  | start :: _ =>
      match bfs (Z.to_nat h * Z.to_nat w) m h w {[start]} [start] with
      | Some r => seen ← r; Ok (size seen =? length cells)%nat
      | None => Ok false
      end
  end.

Definition is_plain_rectangle (w h : Z) (h_rows_with_len : list (Z * Z))
  (v_cols_with_seg : dict Z (Z * Z)) : bool :=
  let top_full :=
    existsb (fun rl => (fst rl =? 0) && (snd rl =? w)) h_rows_with_len in
  let bot_full :=
    existsb (fun rl => (fst rl =? h - 1) && (snd rl =? w)) h_rows_with_len in
  let full c :=
    match dget c v_cols_with_seg with
    | Some (s, L) => (s =? 0) && (L =? h)
    | None => false
    end in
  top_full && bot_full && full 0 && full (w - 1).

Definition slot_purity_ok (h_rows_with_len : list (Z * Z))
  (v_cols_with_seg : dict Z (Z * Z)) (w : Z) : bool :=
  if is_empty h_rows_with_len && is_empty v_cols_with_seg then false else
  let row_to_span :=
    dict_of_list (map (fun rl => (fst rl, horizontal_segment_for_width w (snd rl)))
                      h_rows_with_len) in
  forallb (fun cv =>
    let '(c, (s, L)) := cv in
    let e := s + L - 1 in
    forallb (fun rs =>
      let '(r, (cs, ce)) := rs in
      if (cs <=? c) && (c <=? ce)
      then (s <=? r) && (r <=? e)
      else negb ((s <=? r) && (r <=? e)))
      row_to_span)
    v_cols_with_seg.

(** *** Enumeration *)

(** The layout tuple
    [(w, h, nH, nV, h_rows_with_len, v_cols_with_seg, mask, total, slots, inter)]. *)
Record layout := {
  lay_w : Z;
  lay_h : Z;
  lay_nH : nat;
  lay_nV : nat;
  lay_h_rows : list (Z * Z);
  lay_v_cols : dict Z (Z * Z);
  lay_mask : list (list Z);
  lay_total : Z;
  lay_slots : list slot;
  lay_inter : list intersection
}.

(** [mask = [[0]*w for _ in range(h)]] and the two painting loops. *)
Definition build_mask (w h : Z) (h_rows_with_len : list (Z * Z))
  (v_cols_with_seg : dict Z (Z * Z)) : result (list (list Z)) :=
  let mask0 := replicate (Z.to_nat h) (replicate (Z.to_nat w) 0) in
  mask1 ← for_each (fun rl m =>
             let '(cs, ce) := horizontal_segment_for_width w (snd rl) in
             for_each (fun c m => mask_set m (fst rl) c) (range cs (ce + 1)) m)
           h_rows_with_len mask0;
  for_each (fun cv m =>
              let '(c, (s, L)) := cv in
              for_each (fun r m => mask_set m r c) (range s (s + L)) m)
           v_cols_with_seg mask1.

(** [sum(sum(r) for r in mask)] *)
Definition mask_total (m : list (list Z)) : Z :=
  fold_right Z.add 0 (map (fold_right Z.add 0) m).

(** The tail of the loop body, from "Build mask" to [layouts.append]; the
    source has it twice, once for [nV > 0] and once for [nV == 0]. *)
Definition emit (w h : Z) (nH nV : nat) (min_intersections : Z)
  (h_rows_with_len : list (Z * Z)) (v_cols_with_seg : dict Z (Z * Z))
  (layouts : list layout) : result (list layout) :=
  m ← build_mask w h h_rows_with_len v_cols_with_seg;
  conn ← connected m;
  if negb conn then Ok layouts else
  if is_plain_rectangle w h h_rows_with_len v_cols_with_seg then Ok layouts else
  let '(slots, inter) :=
    build_slots_and_intersections w h h_rows_with_len v_cols_with_seg in
  if Z.of_nat (length inter) <? min_intersections then Ok layouts else
  Ok (layouts ++
      [ {| lay_w := w; lay_h := h; lay_nH := nH; lay_nV := nV;
           lay_h_rows := h_rows_with_len; lay_v_cols := v_cols_with_seg;
           lay_mask := m; lay_total := mask_total m;
           lay_slots := slots; lay_inter := inter |} ]).

(** [v_cols_with_seg] for one choice of units and segments. *)
Definition assign_units (v_choice : list vunit) (segs : list (Z * Z))
  : dict Z (Z * Z) :=
  fold_left (fun d us =>
               fold_left (fun d c => dset c (snd us) d) (unit_cols (fst us)) d)
            (zip v_choice segs) [].

Definition unit_subsets_for (units : list vunit) (nV : nat)
  : list (list vunit) :=
  flat_map (fun k =>
              filter (fun choice =>
                        let cols := expand_units_to_cols choice in
                        (length cols =? nV)%nat && nonadjacent cols)
                     (combinations units k))
           (seq 1 (length units)).

(** The body of [for (nH, nV) in allowed_fams]. *)
Definition enumerate_family (w h : Z) (units : list vunit)
  (v_opts : list (Z * Z)) (h_lens : list Z) (min_intersections : Z)
  (fam : nat * nat) (layouts : list layout) : result (list layout) :=
  let '(nH, nV) := fam in
  if h <? Z.of_nat nH then Ok layouts else
  let hrow_sets := filter nonadjacent (combinations (range 0 h) nH) in
  if is_empty hrow_sets then Ok layouts else
  let unit_subsets :=
    if (0 <? nV)%nat then unit_subsets_for units nV else [[]] in
  if (0 <? nV)%nat && is_empty unit_subsets then Ok layouts else
  let h_len_combos :=
    if (0 <? nH)%nat then product_repeat h_lens nH else [[]] in
  for_each (fun rows =>
    for_each (fun Ls =>
      let h_rows_with_len := zip rows Ls in
      for_each (fun v_choice layouts =>
        if (nV =? 0)%nat then
          emit w h nH nV min_intersections h_rows_with_len [] layouts
        else
          for_each (fun segs layouts =>
            let v_cols_with_seg := assign_units v_choice segs in
            if negb (slot_purity_ok h_rows_with_len v_cols_with_seg w)
            then Ok layouts
            else emit w h nH nV min_intersections
                      h_rows_with_len v_cols_with_seg layouts)
            (product_repeat v_opts (length v_choice)) layouts)
        unit_subsets)
      h_len_combos)
    hrow_sets layouts.

(** [allowed_fams] is a set of tuples in the source, [{(3,2), (2,3), (1,4)}]
    or [{(3,3), (2,4)}]; the loop takes the families in the order in which
    CPython (3.8 and later, 64 bit) iterates over such a set, which is the
    order of the hashes of the tuples in the table of the set. *)
Definition allowed_fams (total_words : Z) : result (list (nat * nat)) :=
  if total_words =? 5 then Ok [(2, 3); (3, 2); (1, 4)]%nat
  else if total_words =? 6 then Ok [(2, 4); (3, 3)]%nat
  else Raise ValueError.

(** "dedupe by mask" *)
Fixpoint dedupe_by_mask (seen : list (list (list Z))) (layouts : list layout)
  : list layout :=
  match layouts with
  | [] => []
  | lay :: rest =>
      if bool_decide (lay_mask lay ∈ seen) then dedupe_by_mask seen rest
      else lay :: dedupe_by_mask (lay_mask lay :: seen) rest
  end.

(** The loops over the widths and heights, for a list of families. *)
Definition enumerate_sizes (fams : list (nat * nat)) (min_intersections : Z)
  : result (list layout) :=
  for_each (fun w =>
    for_each (fun h layouts =>
      let units := symmetric_vertical_units w in
      if is_empty units then Ok layouts else
      let v_opts := vertical_segment_options h in
      let h_lens := horizontal_lengths_allowed w in
      for_each (enumerate_family w h units v_opts h_lens min_intersections)
               fams layouts)
      [4; 5; 6])
    [4; 5; 6; 7] [].

Definition enumerate_layouts (min_intersections total_words : Z)
  : result (list layout) :=
  allowed ← allowed_fams total_words;
  layouts ← enumerate_sizes allowed min_intersections;
  Ok (dedupe_by_mask [] layouts).

(** *** The layouts [main] attempts *)
Inductive words_mode := Mode5 | Mode6 | Both.

Definition modes_of (m : words_mode) : list Z :=
  match m with
  | Mode5 => [5]
  | Mode6 => [6]
  | Both => [5; 6]
  end.

(** "Enumerate & filter" and "Dedupe across modes by mask". *)
Definition feasible_layouts (mode : words_mode) (min_intersections : Z)
  (letters : str) : result (list layout) :=
  layouts_all ←
    for_each (fun tw acc =>
                ls ← enumerate_layouts min_intersections tw; Ok (acc ++ ls))
             (modes_of mode) [];
  let L := Z.of_nat (length letters) in
  Ok (dedupe_by_mask [] (filter (fun lay => lay_total lay = L) layouts_all)).

(** *** Ranking *)

(** [random.Random]: the generator state, seeding, and [shuffle], which
    returns the shuffled list and the state after it. *)
Record Random := {
  rng : Type;
  seeded : Z -> rng;
  shuffle : forall A : Type, list A -> rng -> list A * rng
}.

(** [len({x["cell"] for x in intersections})] *)
Definition dup_cells (intersections : list intersection) : nat :=
  size (list_to_set (map xcell intersections) : gset cell).

(** [for dup in buckets: rnd.shuffle(buckets[dup])] *)
Fixpoint shuffle_buckets (R : Random) (todo : list (nat * list layout))
  (g : rng R) : dict nat (list layout) * rng R :=
  match todo with
  | [] => ([], g)
  | (dup, lays) :: rest =>
      let '(lays', g') := shuffle R layout lays g in
      let '(rest', g'') := shuffle_buckets R rest g' in
      ((dup, lays') :: rest', g'')
  end.

(** [sorted(..., reverse=True)] on integers *)
Definition sorted_desc (l : list nat) : list nat :=
  sorted (fun a b => b <=? a)%nat l.

(** "Rank by duplicate squares (overlap cells). Ties randomized by seed."
    [buckets] is a [defaultdict(list)]: a missing key reads as the empty
    list. *)
Definition rank_layouts (R : Random) (layouts : list layout) (grid_seed : Z)
  : list layout :=
  let ranked := map (fun lay => (dup_cells (lay_inter lay), lay)) layouts in
  let rnd := seeded R grid_seed in
  let buckets :=
    fold_left (fun b dl => dappend (fst dl) (snd dl) b) ranked [] in
  let shuffled := fst (shuffle_buckets R buckets rnd) in
  let sorted_dups := sorted_desc (dkeys shuffled) in
  fold_left (fun ranked_layouts dup =>
               ranked_layouts ++ default [] (dget dup shuffled))
            sorted_dups [].

(** [ranked_layouts[:k]] with [k = max(0, max_grids)] *)
Definition selected (ranked_layouts : list layout) (max_grids : Z)
  : list layout :=
  take (Z.to_nat (Z.max 0 max_grids)) ranked_layouts.

End Layout.
Export Layout.

(** ** What is claimed of the search *)
Module SolverSpec.

(** Every slot has a word. *)
Definition assigns_all (slots : list slot) (sol : dict str str) : Prop :=
  forall s, In s slots -> exists w, dget (slot_id s) sol = Some w.

(** Wherever two slots run over the same cell, their words have the same
    letter there. *)
Definition crossings_agree (slots : list slot) (sol : dict str str) : Prop :=
  forall a b i j c wa wb,
    In a slots -> In b slots ->
    cells a !! i = Some c -> cells b !! j = Some c ->
    dget (slot_id a) sol = Some wa -> dget (slot_id b) sol = Some wb ->
    exists ch, wa !! i = Some ch /\ wb !! j = Some ch.

Fixpoint index_of (c : Z * Z) (cs : list (Z * Z)) : option nat :=
  match cs with
  | [] => None
  | c' :: cs' => if decide (c = c') then Some 0%nat else S <$> index_of c cs'
  end.

(** The letter that the solution writes into the cell [c]: that of the
    first slot that runs over it. *)
Fixpoint grid_letter (slots : list slot) (sol : dict str str) (c : Z * Z)
  : option N :=
  match slots with
  | [] => None
  | s :: rest =>
      match index_of c (cells s) with
      | Some i => w ← dget (slot_id s) sol; w !! i
      | None => grid_letter rest sol c
      end
  end.

(** The cells of the grid, each once. *)
Definition grid_cells (slots : list slot) : list (Z * Z) :=
  remove_dups (flat_map cells slots).

(** The letters in the cells of the grid are the letters of the phrase,
    every letter as often as the phrase has it. *)
Definition letters_exact (slots : list slot) (phrase : str)
  (sol : dict str str) : Prop :=
  forall ch,
    length (filter (fun c => grid_letter slots sol c = Some ch) (grid_cells slots))
    = count_occ N.eq_dec phrase ch.

(** Every word is from the candidate pool of its slot. *)
Definition from_pools (cand : dict str (list str)) (sol : dict str str) : Prop :=
  forall sid w, dget sid sol = Some w ->
  exists ws, dget sid cand = Some ws /\ In w ws.

(** The constants that the closures of [find_solutions_for_grid] share, and
    the state the search starts in. *)
Definition search_env (slots : list slot) (intersections : list intersection)
  (cand : dict str (list str)) (per_grid_time max_solutions : Z) (quiet : bool)
  (clock : nat -> Q) (sid_to_class : dict str nat) (ordered : list slot) : env :=
  {| by_id := make_by_id slots; cross := make_cross intersections;
     sid_to_class := sid_to_class; ids := map slot_id ordered;
     cand := cand; clock := clock; start := clock 0%nat;
     deadline := if 0 <? per_grid_time
                 then Some (clock 0%nat + inject_Z per_grid_time)%Q else None;
     max_solutions := max_solutions; quiet := quiet |}.

Definition search_start (phrase_letters : str) (clock : nat -> Q) : state :=
  {| budget := Counter phrase_letters; cell_letter := ∅;
     cell_usage := ∅; sol := []; solutions := [];
     seen_signatures := []; last_ping := clock 0%nat; ticks := 1 |}.

End SolverSpec.
Export SolverSpec.

(** ** Well-formed input, and a worked example *)
Module SolverWellFormed.

(** Slots, intersections and candidate pools as a layout provides them:
    distinct slot ids, no cell twice in a slot, intersections between slots
    of the layout at positions inside them, and a pool for every slot whose
    words are long enough for the slot. *)
Record well_formed (slots : list slot) (intersections : list intersection)
  (cand : dict str (list str)) : Prop := {
  wf_ids : NoDup (map slot_id slots);
  wf_cells : forall s, In s slots -> NoDup (cells s);
  wf_inter : forall x, In x intersections ->
    exists a b, In a slots /\ In b slots /\
      slot_id a = slot_a x /\ slot_id b = slot_b x /\
      (pos_a x < length (cells a))%nat /\ (pos_b x < length (cells b))%nat;
  wf_cand : forall s, In s slots ->
    exists ws, dget (slot_id s) cand = Some ws /\
      forall w, In w ws -> (length (cells s) <= length w)%nat
}.

(** The layout of two crossing slots: an across slot in row 0 and a down
    slot in column 1. *)
Definition across0 : slot :=
  {| slot_id := lit "H@R0:C0-3"; orient := H; slot_length := 4;
     cells := [(0, 0); (0, 1); (0, 2); (0, 3)] |}.

Definition down1 : slot :=
  {| slot_id := lit "V@C1:R0-3"; orient := V; slot_length := 4;
     cells := [(0, 1); (1, 1); (2, 1); (3, 1)] |}.

Definition cross01 : intersection :=
  {| slot_a := lit "H@R0:C0-3"; pos_a := 1;
     slot_b := lit "V@C1:R0-3"; pos_b := 0; xcell := (0, 1) |}.

Definition pools : dict str (list str) :=
  [ (lit "H@R0:C0-3", [lit "ABLE"; lit "BOLE"]);
    (lit "V@C1:R0-3", [lit "ABLE"; lit "BOLE"]) ].

Definition still : nat -> Q := fun _ => 0%Q.

Definition able_bole : dict str str :=
  [ (lit "H@R0:C0-3", lit "ABLE"); (lit "V@C1:R0-3", lit "BOLE") ].

(** The environment of the search on the example. *)
Definition example_env : env :=
  search_env [across0; down1] [cross01] pools 0 5 true still
    [(lit "H@R0:C0-3", 0%nat); (lit "V@C1:R0-3", 1%nat)] [across0; down1].


Definition state_of (r : result state) : state :=
  match r with
  | Ok st => st
  | Raise _ => search_start [] still
  end.

(** The state of the example once ABLE is placed in the across slot, and
    once BOLE is placed in the down slot as well; the two words share the
    cell [(0, 1)]. *)
Definition able_placed : state :=
  state_of (place example_env (search_start (lit "ABLEOLE") still)
              (lit "H@R0:C0-3") (lit "ABLE")).

Definition both_placed : state :=
  state_of (place example_env able_placed (lit "V@C1:R0-3") (lit "BOLE")).

(** Candidate lists in which a word stands twice: the search reaches the
    goal LAME/ABLE a second time. *)
Definition repeated_pools : dict str (list str) :=
  [ (lit "H@R0:C0-3", [lit "LAME"; lit "MALE"; lit "LAME"]);
    (lit "V@C1:R0-3", [lit "ABLE"]) ].

Definition able_lame : dict str str :=
  [ (lit "V@C1:R0-3", lit "ABLE"); (lit "H@R0:C0-3", lit "LAME") ].

Definition able_male : dict str str :=
  [ (lit "V@C1:R0-3", lit "ABLE"); (lit "H@R0:C0-3", lit "MALE") ].

Definition repeated_env : env :=
  search_env [across0; down1] [cross01] repeated_pools 0 5 true still
    [(lit "H@R0:C0-3", 0%nat); (lit "V@C1:R0-3", 1%nat)] [down1; across0].

(** What the search does on these lists up to its third goal: the down slot
    comes first, it has the shorter list. *)
Definition goal_again : result state :=
  let e := repeated_env in
  st ← place e (search_start (lit "LAMEBLE") still) (lit "V@C1:R0-3") (lit "ABLE");
  st ← place e st (lit "H@R0:C0-3") (lit "LAME");
  st ← record_goal e st;
  st ← unplace e st (lit "H@R0:C0-3") (lit "LAME");
  st ← place e st (lit "H@R0:C0-3") (lit "MALE");
  st ← record_goal e st;
  st ← unplace e st (lit "H@R0:C0-3") (lit "MALE");
  place e st (lit "H@R0:C0-3") (lit "LAME").

End SolverWellFormed.
Export SolverWellFormed.

(** ** What is claimed of a layout *)
Module LayoutSpec.

(** The cell [(r, c)] is filled: [mask[r][c] == 1], for indices that count
    from the top left corner. *)
Definition is_filled (m : list (list Z)) (p : Z * Z) : Prop :=
  0 <= fst p /\ 0 <= snd p /\ mask_get m (fst p) (snd p) = Ok 1.

(** Neighbours up, down, left and right. *)
Definition adjacent4 (p q : Z * Z) : Prop :=
  (fst p = fst q /\ Z.abs (snd p - snd q) = 1) \/
  (snd p = snd q /\ Z.abs (fst p - fst q) = 1).

Definition step4 (m : list (list Z)) (p q : Z * Z) : Prop :=
  adjacent4 p q /\ is_filled m q.

(** 4-connected: there is a filled cell, and from every filled cell every
    other one is reached by steps between filled neighbours. *)
Definition four_connected (m : list (list Z)) : Prop :=
  (exists p, is_filled m p) /\
  forall p q, is_filled m p -> is_filled m q -> rtc (step4 m) p q.

(** [mask[r][c] = mask[r][w-1-c]] for all cells of the [h] by [w] grid. *)
Definition lr_symmetric (w h : Z) (m : list (list Z)) : Prop :=
  forall r c, 0 <= r < h -> 0 <= c < w ->
    exists v, mask_get m r c = Ok v /\ mask_get m r (w - 1 - c) = Ok v.

(** The number of entries of the mask that are 1. *)
Definition filled_count (m : list (list Z)) : nat :=
  length (filter (fun v => v = 1) (concat m)).

(** No two across slots lie in adjacent rows. *)
Definition rows_apart (slots : list slot) : Prop :=
  forall a b pa pb, In a slots -> In b slots ->
    orient a = H -> orient b = H ->
    In pa (cells a) -> In pb (cells b) -> Z.abs (fst pa - fst pb) <> 1.

(** No two down slots lie in adjacent columns. *)
Definition cols_apart (slots : list slot) : Prop :=
  forall a b pa pb, In a slots -> In b slots ->
    orient a = V -> orient b = V ->
    In pa (cells a) -> In pb (cells b) -> Z.abs (snd pa - snd pb) <> 1.

End LayoutSpec.
Export LayoutSpec.

(** ** Masks and layouts: what the proofs keep track of *)
Module LayoutInvariants.

(** An [h] by [w] mask: [h] rows of [w] entries. *)
Definition rect (h w : Z) (m : list (list Z)) : Prop :=
  Z.of_nat (length m) = h /\ Forall (fun row => Z.of_nat (length row) = w) m.

(** A cell inside the [h] by [w] grid. *)
Definition inb (h w : Z) (p : Z * Z) : Prop :=
  0 <= fst p < h /\ 0 <= snd p < w.

(** The entry of the mask at a cell, 0 outside the mask. *)
Definition mask_at (m : list (list Z)) (p : Z * Z) : Z :=
  default 0 (m !! Z.to_nat (fst p) ≫= fun row => row !! Z.to_nat (snd p)).

(** The cells [build_mask] paints for an across row, *)
Definition hcells (w : Z) (rl : Z * Z) : list (Z * Z) :=
  map (fun c => (fst rl, c))
      (range (fst (horizontal_segment_for_width w (snd rl)))
             (snd (horizontal_segment_for_width w (snd rl)) + 1)).

(** for a down column, *)
Definition vcells (cv : Z * (Z * Z)) : list (Z * Z) :=
  map (fun r => (r, fst cv)) (range (fst (snd cv)) (fst (snd cv) + snd (snd cv))).

(** and in all. *)
Definition slot_cells (w : Z) (hrows : list (Z * Z))
  (vcols : list (Z * (Z * Z))) : list (Z * Z) :=
  flat_map (hcells w) hrows ++ flat_map vcells vcols.

(** All cells of the grid, row by row. *)
Definition all_cells (h w : Z) : list (Z * Z) :=
  flat_map (fun r => map (fun c => (r, c)) (range 0 w)) (range 0 h).

(** The number of cells of the grid the search has not seen. *)
Definition unseen (h w : Z) (seen : gset (Z * Z)) : nat :=
  length (filter (fun p => p ∉ seen) (all_cells h w)).

(** Every cell the search has seen is a filled cell of the grid that is
    reached from [start]. *)
Definition reached (m : list (list Z)) (h w : Z) (start : Z * Z)
  (seen : gset (Z * Z)) : Prop :=
  forall x, x ∈ seen ->
    inb h w x /\ mask_at m x = 1 /\ rtc (step4 m) start x.

(** A unit of columns that the mirror maps to itself. *)
Definition mirror_unit (w : Z) (u : vunit) : Prop :=
  match u with
  | Pair a b => 0 <= a < w /\ b = w - 1 - a
  | Single c => 0 <= c < w /\ c = w - 1 - c
  end.

(** The column dictionary while [assign_units] builds it: distinct keys,
    columns of the chosen units with segments of the chosen ones, and the
    same segment for a column and its mirror image. *)
Definition cols_inv (w : Z) (v_choice : list vunit) (segs : list (Z * Z))
  (d : list (Z * (Z * Z))) : Prop :=
  NoDup (dkeys d) /\
  (forall c seg, dget c d = Some seg ->
     In c (flat_map unit_cols v_choice) /\ In seg segs) /\
  (forall c, dget c d = dget (w - 1 - c) d).

(** The rows and columns of a choice the enumeration makes: sizes in range,
    distinct rows and distinct columns, spans inside the grid and centred,
    columns in mirror pairs, and no two rows or columns next to each
    other. *)
Record geometry (w h : Z) (hrows : list (Z * Z))
  (vcols : list (Z * (Z * Z))) : Prop := {
  g_w : 4 <= w <= 7;
  g_h : 4 <= h <= 6;
  g_rows_nodup : NoDup (map fst hrows);
  g_cols_nodup : NoDup (dkeys vcols);
  g_rows : forall r L, In (r, L) hrows ->
    0 <= r < h /\ 0 <= L <= w /\ 2 * ((w - L) / 2) = w - L;
  g_cols : forall c s L, In (c, (s, L)) vcols ->
    0 <= c < w /\ 0 <= s /\ 0 <= L /\ s + L <= h;
  g_mirror : forall c seg, In (c, seg) vcols -> In (w - 1 - c, seg) vcols;
  g_row_gap : forall r1 L1 r2 L2,
    In (r1, L1) hrows -> In (r2, L2) hrows -> Z.abs (r1 - r2) <> 1;
  g_col_gap : forall c1 s1 c2 s2,
    In (c1, s1) vcols -> In (c2, s2) vcols -> Z.abs (c1 - c2) <> 1
}.

(** What holds of a layout [emit] appends. *)
Record emitted (lay : layout) : Prop := {
  em_geometry :
    geometry (lay_w lay) (lay_h lay) (lay_h_rows lay) (lay_v_cols lay);
  em_mask :
    build_mask (lay_w lay) (lay_h lay) (lay_h_rows lay) (lay_v_cols lay)
    = Ok (lay_mask lay);
  em_connected : connected (lay_mask lay) = Ok true;
  em_total : lay_total lay = mask_total (lay_mask lay);
  em_slots :
    build_slots_and_intersections (lay_w lay) (lay_h lay) (lay_h_rows lay)
      (lay_v_cols lay) = (lay_slots lay, lay_inter lay)
}.

End LayoutInvariants.
Export LayoutInvariants.

(** ** What is claimed of the ranking *)
Module RankSpec.

(** The ranking key of a layout: its number of distinct crossing cells. *)
Definition dup_of (lay : layout) : nat := dup_cells (lay_inter lay).

(** The layouts with [d] crossing cells, in the order of the input. *)
Definition tie (layouts : list layout) (d : nat) : list layout :=
  filter (fun lay => dup_of lay = d) layouts.

(** The distinct values of a list, in the order of their first appearance. *)
Fixpoint first_seen (l : list nat) : list nat :=
  match l with
  | [] => []
  | d :: l' => d :: filter (fun x => x <> d) (first_seen l')
  end.

(** The ties are shuffled one after the other, for the counts [ds], with the
    generator going from one to the next; [shuffled_tie] is what the shuffle
    returns for the tie of [d]. *)
Fixpoint shuffled_tie (R : Random) (layouts : list layout) (ds : list nat)
  (g : rng R) (d : nat) : list layout :=
  match ds with
  | [] => []
  | d' :: ds' =>
      let '(l', g') := shuffle R layout (tie layouts d') g in
      if decide (d' = d) then l' else shuffled_tie R layouts ds' g' d
  end.

(** The order of the tie of [d] that the seed fixes: ties are shuffled in the
    order their counts first appear among the layouts, starting from the
    generator seeded with [grid_seed]. *)
Definition tie_order (R : Random) (layouts : list layout) (grid_seed : Z)
  (d : nat) : list layout :=
  shuffled_tie R layouts (first_seen (map dup_of layouts))
               (seeded R grid_seed) d.

(** [shuffle] rearranges its argument. *)
Definition shuffle_permutes (R : Random) : Prop :=
  forall (A : Type) (l : list A) (g : rng R),
    Permutation (fst (shuffle R A l g)) l.

(** The crossing-cell counts never go up along the list. *)
Definition non_increasing (layouts : list layout) : Prop :=
  forall i j a b, (i <= j)%nat ->
    layouts !! i = Some a -> layouts !! j = Some b ->
    (dup_of b <= dup_of a)%nat.

(** Sorted: every element may stay in front of all later ones. *)
Inductive ordered {A : Type} (leb : A -> A -> bool) : list A -> Prop :=
  | ordered_nil : ordered leb []
  | ordered_cons x l :
      Forall (fun y => leb x y = true) l -> ordered leb l ->
      ordered leb (x :: l).

(** Sorted by falling count. *)
Inductive falling : list layout -> Prop :=
  | falling_nil : falling []
  | falling_cons a l :
      Forall (fun b => (dup_of b <= dup_of a)%nat) l -> falling l ->
      falling (a :: l).

(** The buckets of the ranking, before they are shuffled. *)
Definition buckets_of (layouts : list layout) : list (nat * list layout) :=
  fold_left (fun b dl => dappend (fst dl) (snd dl) b)
            (map (fun lay => (dup_cells (lay_inter lay), lay)) layouts) [].

(** A generator whose [shuffle] reverses the list and counts its calls. *)
Definition reversing : Random :=
  {| rng := Z;
     seeded := fun seed => seed;
     shuffle := fun A l g => (rev l, g + 1) |}.

(** Three layouts to rank: two without a crossing, one with a crossing. *)
Definition sample_layout (w : Z) (inter : list intersection) : layout :=
  {| lay_w := w; lay_h := 4; lay_nH := 0; lay_nV := 0;
     lay_h_rows := []; lay_v_cols := []; lay_mask := []; lay_total := 0;
     lay_slots := []; lay_inter := inter |}.

Definition sample_a : layout := sample_layout 4 [].
Definition sample_b : layout := sample_layout 5 [].
Definition sample_c : layout :=
  sample_layout 6
    [ {| slot_a := lit "H@R0:C0-3"; pos_a := 1;
         slot_b := lit "V@C1:R0-3"; pos_b := 0; xcell := (0, 1) |} ].

End RankSpec.
Export RankSpec.

(** ** More of the dictionary loader: lines it cannot read *)
Module DictionaryEdge.

(** A line whose rating field passes [str.isdigit] and is refused by [int]:
    the field is what stands before the first tab of the stripped line. *)
Definition bad_rating (db : UnicodeData) (line : str) : Prop :=
  exists lft rgt,
    split_tab (strip db line) = Some (lft, rgt) /\
    isdigit db (strip db lft) = true /\
    int_of_str db (strip db lft) = None.

(** The superscript digits U+00B2, U+00B3 and U+00B9 have Numeric_Type=Digit,
    so they count for [str.isdigit]; they are not decimal digits, and [int]
    refuses them. *)
Definition superscript_isdigit (c : char) : bool :=
  (ascii_isdigit c || (c =? 0xB2) || (c =? 0xB3) || (c =? 0xB9))%N.

Definition ucd_superscripts : UnicodeData := {|
  normalize_NFKD := normalize_NFKD ucd_sample;
  combining := combining ucd_sample;
  upper := upper ucd_sample;
  isspace := isspace ucd_sample;
  isdigit_char := superscript_isdigit;
  int_of_str := sample_int;
  int_max_str_digits := int_max_str_digits ucd_sample
|}.

(** The rating the loader has on record for a cleaned word. *)
Definition rating_of (st : load_state) (cleaned : str) : option (option Z) :=
  dget cleaned (best_by_cleaned st).

(** What can end the load of the file [f] with the exception [e]: a line
    with a rating that [int] refuses, among the lines that are read, or the
    failure of the read itself when no such line comes before it. *)
Definition load_fails (db : UnicodeData) (f : file) (e : exn) : Prop :=
  match f with
  | FileNotFound => False
  | FileLines raws => Exists (bad_rating db) raws /\ e = ValueError
  | FileError raws e' =>
      Exists (bad_rating db) raws /\ e = ValueError \/
      ~ Exists (bad_rating db) raws /\ e = e'
  end.

(** A rating field of 4301 digits, one more than [int] reads. *)
Definition long_rating : str := repeat 49%N 4301.

(** The rating 5 written with 4300 zeros before it. *)
Definition padded_rating : str := repeat 48%N 4300 ++ [53%N].

End DictionaryEdge.
Export DictionaryEdge.

(** ** Crossings: what an intersection record says *)
Module CrossingSpec.

(** The record [x] says that the slots [a] and [b] share the cell [xcell x],
    at the positions it gives. *)
Definition crosses (a b : slot) (x : intersection) : Prop :=
  slot_a x = slot_id a /\ slot_b x = slot_id b /\
  cells a !! pos_a x = Some (xcell x) /\
  cells b !! pos_b x = Some (xcell x).

(** [x] is a crossing of two slots of the list, the first of them earlier in
    the list than the second. *)
Definition crossing_of (slots : list slot) (x : intersection) : Prop :=
  exists i j a b, (i < j)%nat /\
    slots !! i = Some a /\ slots !! j = Some b /\ crosses a b x.

End CrossingSpec.
Export CrossingSpec.

(** ** The breadth-first search: what it has covered *)
Module SearchSpec.

(** Every filled neighbour, inside the grid, of the cell [x] has been seen. *)
Definition covered (m : list (list Z)) (h w : Z) (seen : gset (Z * Z))
  (x : Z * Z) : Prop :=
  forall n, In n (neighbours x) -> inb h w n -> mask_at m n = 1 -> n ∈ seen.

(** The state of the search between two turns of its loop: the queue holds
    seen cells only, and a seen cell is in the queue or is covered. *)
Definition frontier (m : list (list Z)) (h w : Z) (seen : gset (Z * Z))
  (dq : list (Z * Z)) : Prop :=
  (forall x, In x dq -> x ∈ seen) /\
  (forall x, x ∈ seen -> In x dq \/ covered m h w seen x).

(** A mask to run [connected] on: an L of three cells in a 2 by 2 grid. *)
Definition corner_mask : list (list Z) := [[1; 1]; [0; 1]].

End SearchSpec.
Export SearchSpec.

(** ** The layouts of the enumeration: what the filters have let through *)
Module EnumerationSpec.

(** Where a layout comes from: its family is one of [fams], it has as many
    rows and columns as its family says, its rows and columns have passed
    [slot_purity_ok] and [is_plain_rectangle], and it has at least
    [min_intersections] intersections. *)
Record chosen (fams : list (nat * nat)) (min_intersections : Z)
  (lay : layout) : Prop := {
  ch_family : In (lay_nH lay, lay_nV lay) fams;
  ch_rows : length (lay_h_rows lay) = lay_nH lay;
  ch_cols : length (lay_v_cols lay) = lay_nV lay;
  ch_pure : (0 < lay_nV lay)%nat ->
    slot_purity_ok (lay_h_rows lay) (lay_v_cols lay) (lay_w lay) = true;
  ch_frame :
    is_plain_rectangle (lay_w lay) (lay_h lay) (lay_h_rows lay) (lay_v_cols lay)
    = false;
  ch_crossings : min_intersections <= Z.of_nat (length (lay_inter lay))
}.

(** Across row purity: in the row of an across slot, every filled cell is a
    cell of the slot. *)
Definition row_pure (lay : layout) : Prop :=
  forall a p c, In a (lay_slots lay) -> orient a = H -> In p (cells a) ->
    0 <= c < lay_w lay -> mask_at (lay_mask lay) (fst p, c) = 1 ->
    In (fst p, c) (cells a).

(** Down column purity: in the column of a down slot, every filled cell is a
    cell of the slot. *)
Definition col_pure (lay : layout) : Prop :=
  forall b p r, In b (lay_slots lay) -> orient b = V -> In p (cells b) ->
    0 <= r < lay_h lay -> mask_at (lay_mask lay) (r, snd p) = 1 ->
    In (r, snd p) (cells b).

(** The plain rectangle frame: across slots over the whole top and bottom
    rows, down slots over the whole left and right columns. *)
Definition plain_frame (lay : layout) : Prop :=
  In (0, lay_w lay) (lay_h_rows lay) /\
  In (lay_h lay - 1, lay_w lay) (lay_h_rows lay) /\
  In (0, (0, lay_h lay)) (lay_v_cols lay) /\
  In (lay_w lay - 1, (0, lay_h lay)) (lay_v_cols lay).

(** The mask is the union of the slots. *)
Definition mask_of_slots (lay : layout) : Prop :=
  rect (lay_h lay) (lay_w lay) (lay_mask lay) /\
  (forall s p, In s (lay_slots lay) -> In p (cells s) ->
     inb (lay_h lay) (lay_w lay) p) /\
  forall q, inb (lay_h lay) (lay_w lay) q ->
    (mask_at (lay_mask lay) q = 1 <->
     exists s, In s (lay_slots lay) /\ In q (cells s)) /\
    (mask_at (lay_mask lay) q = 0 <->
     ~ exists s, In s (lay_slots lay) /\ In q (cells s)).

End EnumerationSpec.
Export EnumerationSpec.

(** ** More of what is claimed of the search *)
Module SearchBounds.

(** No more solutions than asked for; none when the bound is not positive. *)
Definition within_cap (max_solutions : Z) (sols : list (dict str str)) : Prop :=
  Z.of_nat (length sols) <= Z.max 0 max_solutions.

(** Within every equivalence class, the words of the solution do not go down
    along the order in which the search fills the slots. *)
Definition class_sorted (sid_to_class : dict str nat) (ids : list str)
  (sol : dict str str) : Prop :=
  forall i j a b wa wb, (i < j)%nat ->
    ids !! i = Some a -> ids !! j = Some b ->
    dget a sid_to_class = dget b sid_to_class ->
    dget a sol = Some wa -> dget b sol = Some wb ->
    str_ltb wb wa = false.

(** A layout with slots of one class: three across slots of length 4 in the
    rows 0, 2 and 4, and two down slots of length 5 in the columns 0 and 3.
    The across slots are one class, the down slots another.  With the rows
    ABBA, the down words ACADA and AXAYA fill it either way round. *)
Definition ladder : list slot * list intersection :=
  build_slots_and_intersections 4 6 [(0, 4); (2, 4); (4, 4)]
    [(0, (0, 5)); (3, (0, 5))].

Definition ladder_phrase : str := lit "AAAAAABBBBBBCDXY".

Definition ladder_words : dict nat (list str) :=
  [(4%nat, [lit "ABBA"]); (5%nat, [lit "AXAYA"; lit "ACADA"])].

Definition ladder_cand : dict str (list str) :=
  prefilter_candidates ladder_words (fst ladder) (Counter ladder_phrase).

Definition ladder_fill : dict str str :=
  [ (lit "H@R0:C0-3", lit "ABBA"); (lit "H@R2:C0-3", lit "ABBA");
    (lit "H@R4:C0-3", lit "ABBA");
    (lit "V@C0:R0-4", lit "ACADA"); (lit "V@C3:R0-4", lit "AXAYA") ].

Definition ladder_classes : dict str nat :=
  [ (lit "H@R0:C0-3", 0%nat); (lit "H@R2:C0-3", 0%nat);
    (lit "H@R4:C0-3", 0%nat);
    (lit "V@C0:R0-4", 1%nat); (lit "V@C3:R0-4", 1%nat) ].

End SearchBounds.
Export SearchBounds.

(** ** Candidates and the order of the slots: what they come to *)
Module CandidateSpec.

(** The word [w] asks for no letter more often than the budget has it. *)
Definition letters_within (w : str) (budget : gmap char Z) : Prop :=
  forall ch, In ch w ->
    Z.of_nat (count_occ N.eq_dec w ch) <= counter_get budget ch.

(** [words_by_len.get(L, [])] for the length of the slot *)
Definition pool_of (words_by_len : dict nat (list str)) (s : slot) : list str :=
  default [] (dget (slot_length s) words_by_len).

(** The number of intersections a slot id takes part in, as [slot_a] or as
    [slot_b]. *)
Definition crossing_count (intersections : list intersection) (sid : str) : nat :=
  (length (filter (fun x => slot_a x = sid) intersections) +
   length (filter (fun x => slot_b x = sid) intersections))%nat.

(** The number of candidates of a slot that has an entry in [cand]. *)
Definition candidate_count (cand : dict str (list str)) (s : slot) : nat :=
  length (default [] (dget (slot_id s) cand)).

(** The sort key of [order_slots]. *)
Definition search_key (cand : dict str (list str))
  (intersections : list intersection) (s : slot) : slot_key :=
  (candidate_count cand s, - Z.of_nat (crossing_count intersections (slot_id s)),
   slot_length s).

(** [a] may be searched before [b]: it has fewer candidates; or as many, and
    more crossings; or as many of both, and it is not longer. *)
Definition may_precede (cand : dict str (list str))
  (intersections : list intersection) (a b : slot) : Prop :=
  (candidate_count cand a < candidate_count cand b)%nat \/
  (candidate_count cand a = candidate_count cand b /\
   ((crossing_count intersections (slot_id b)
     < crossing_count intersections (slot_id a))%nat \/
    (crossing_count intersections (slot_id a)
     = crossing_count intersections (slot_id b) /\
     (slot_length a <= slot_length b)%nat))).

End CandidateSpec.
Export CandidateSpec.

(** ** Equivalence classes: what puts two slots into one class *)
Module ClassSpec.

(** The pattern of the slot id [sid]: the orientation and the length of a
    slot with this id, and its touches, sorted. *)
Definition has_pattern (slots : list slot) (intersections : list intersection)
  (sid : str) (pat : pattern) : Prop :=
  exists s t, In s slots /\ slot_id s = sid /\
    touches_of (make_by_id slots) sid intersections = Ok t /\
    pat = (orient s, slot_length s, sorted (le_of touch_compare) t).

End ClassSpec.
Export ClassSpec.

(** ** [main]: the loop over the selected layouts *)
Module MainLoop.

(** The arguments of the command line, as [argparse] hands them over;
    [args_dict] is what [open] finds at the path [--dict]. *)
Record Args := {
  args_dict : file;
  args_words_mode : words_mode;
  args_max_grids : Z;
  args_solutions_per_grid : Z;
  args_per_grid_time : Z;
  args_min_intersections : Z;
  args_grid_seed : Z;
  args_quiet : bool;
  args_total_solutions_cap : Z
}.

(** A call of [write_grid_block]: the layout and the solutions it is given.
    The text it writes is not modelled. *)
Record grid_block := {
  block_layout : layout;
  block_solutions : list (dict str str)
}.

(** The variables of the loop: the two counters, and the calls of
    [write_grid_block] made so far, the latest last.  What is printed, and
    the time that has passed, are left out. *)
Record tally := {
  solved_count : Z;
  total_solutions : Z;
  written : list grid_block
}.

Definition write_grid_block (lay : layout) (sols : list (dict str str))
  (t : tally) : tally :=
  {| solved_count := solved_count t; total_solutions := total_solutions t;
     written := written t ++ [{| block_layout := lay; block_solutions := sols |}] |}.

(** [any(len(cand[s['id']]) == 0 for s in slots)] *)
Fixpoint any_empty (cand : dict str (list str)) (slots : list slot)
  : result bool :=
  match slots with
  | [] => Ok false
  | s :: rest =>
      c ← of_option KeyError (dget (slot_id s) cand);
      if (length c =? 0)%nat then Ok true else any_empty cand rest
  end.

Section Grids.
Variables (args : Args) (global_cap : Z).
Variables (letters : str) (words_by_len : dict nat (list str)).
(** [clocks idx] is what [time.time()] returns during the search of the grid
    number [idx]. *)
Variable clocks : nat -> nat -> Q.

(** [args.total_solutions_cap and args.total_solutions_cap > 0] *)
Definition flag_cap_on : bool :=
  negb (args_total_solutions_cap args =? 0) && (0 <? args_total_solutions_cap args).

(** "Respect a global solutions cap by reducing this grid's max if needed":
    the source does it twice, and the second time starts again from
    [args.solutions_per_grid]. *)
Definition grid_max_solutions (total_solutions : Z) : Z :=
  let max_solutions := args_solutions_per_grid args in
  let max_solutions :=
    if flag_cap_on then
      let remaining := args_total_solutions_cap args - total_solutions in
      let remaining := if remaining <=? 0 then 0 else remaining in
      Z.min max_solutions remaining
    else max_solutions in
  let max_solutions := args_solutions_per_grid args in
  if 0 <? global_cap then
    let remaining := global_cap - total_solutions in
    let remaining := if remaining <=? 0 then 0 else remaining in
    Z.min max_solutions remaining
  else max_solutions.

(** One turn of the loop; the boolean says that the loop is left by
    [break]. *)
Definition attempt_grid (idx : nat) (lay : layout) (t : tally)
  : result (tally * bool) :=
  let slots := lay_slots lay in
  let intersections := lay_inter lay in
  let budget := Counter letters in
  let cand := prefilter_candidates words_by_len slots budget in
  none ← any_empty cand slots;
  if (none : bool) then Ok (write_grid_block lay [] t, false)
  else
    let max_solutions := grid_max_solutions (total_solutions t) in
    sols ← find_solutions_for_grid slots intersections letters cand
              (args_per_grid_time args) max_solutions (args_quiet args)
              (clocks idx);
    let t :=
      if is_empty sols then t
      else {| solved_count := solved_count t + 1;
              total_solutions := total_solutions t + Z.of_nat (length sols);
              written := written t |} in
    let t := write_grid_block lay sols t in
    Ok (t, flag_cap_on && (args_total_solutions_cap args <=? total_solutions t)).

(** [for idx, layout in enumerate(selected, idx): ...] *)
Fixpoint attempt_grids (idx : nat) (selected : list layout) (t : tally)
  : result tally :=
  match selected with
  | [] => Ok t
  | lay :: rest =>
      '(t, stop) ← attempt_grid idx lay t;
      if (stop : bool) then Ok t else attempt_grids (S idx) rest t
  end.
End Grids.

(** [main], after the prompts: [min_rating] and [global_cap] are the numbers
    read from them, [phrase] is the phrase of the command line or of the
    prompt.  It returns nothing when it has returned early, and the tally of
    the loop otherwise. *)
Definition main (db : UnicodeData) (R : Random) (clocks : nat -> nat -> Q)
  (args : Args) (min_rating : Z) (phrase : str) (global_cap : Z)
  : result (option tally) :=
  let min_rating := if min_rating <? 1 then 1 else min_rating in
  let min_rating := if 10 <? min_rating then 10 else min_rating in
  let letters := clean_phrase db phrase in
  if is_empty letters then Ok None else
  words_by_len ← load_dictionary db (args_dict args) min_rating;
  layouts ← feasible_layouts (args_words_mode args)
              (args_min_intersections args) letters;
  if (length layouts =? 0)%nat then Ok None else
  let ranked_layouts := rank_layouts R layouts (args_grid_seed args) in
  let selected := selected ranked_layouts (args_max_grids args) in
  t ← attempt_grids args global_cap letters words_by_len clocks 1 selected
        {| solved_count := 0; total_solutions := 0; written := [] |};
  Ok (Some t).

(** A layout none of whose slots has an empty candidate list: the loop does
    not skip it, it calls [find_solutions_for_grid] on it. *)
Definition not_skipped (letters : str) (words_by_len : dict nat (list str))
  (lay : layout) : Prop :=
  any_empty (prefilter_candidates words_by_len (lay_slots lay) (Counter letters))
            (lay_slots lay) = Ok false.

(** The number of solutions handed to [write_grid_block]. *)
Definition solutions_written (t : tally) : Z :=
  Z.of_nat (length (flat_map block_solutions (written t))).

(** The number of blocks that have a solution. *)
Definition grids_solved (t : tally) : Z :=
  Z.of_nat (length (filter (fun b => block_solutions b <> []) (written t))).

(** A layout of two crossing words for a run of the loop, and a pool of
    words for it. *)
Definition crossing_layout : layout :=
  {| lay_w := 4; lay_h := 4; lay_nH := 1; lay_nV := 1;
     lay_h_rows := [(0, 4)]; lay_v_cols := [(1, (0, 4))];
     lay_mask := [[1; 1; 1; 1]; [0; 1; 0; 0]; [0; 1; 0; 0]; [0; 1; 0; 0]];
     lay_total := 7;
     lay_slots := [across0; down1]; lay_inter := [cross01] |}.

Definition crossing_words : dict nat (list str) :=
  [(4%nat, [lit "LAME"; lit "MALE"; lit "ABLE"])].

Definition crossing_args (solutions_per_grid total_solutions_cap : Z) : Args :=
  {| args_dict := FileNotFound; args_words_mode := Both; args_max_grids := 50;
     args_solutions_per_grid := solutions_per_grid; args_per_grid_time := 0;
     args_min_intersections := 0; args_grid_seed := 0; args_quiet := true;
     args_total_solutions_cap := total_solutions_cap |}.


(** The same run with another dictionary file and another time limit. *)
Definition sample_args_with (f : file) (per_grid_time : Z) : Args :=
  {| args_dict := f;
     args_words_mode := Mode5; args_max_grids := 1;
     args_solutions_per_grid := 5; args_per_grid_time := per_grid_time;
     args_min_intersections := 0; args_grid_seed := 0; args_quiet := true;
     args_total_solutions_cap := 0 |}.

Definition start_tally : tally :=
  {| solved_count := 0; total_solutions := 0; written := [] |}.

End MainLoop.
Export MainLoop.

(** * Theorems *)

(** ** Facts about the Python basics *)
Module PyFacts.

Section DictFacts.
Context {K V : Type} `{EqDecision K}.
Implicit Types (d : dict K V) (k : K) (v : V).

Lemma dget_dset k k' v d :
  dget k' (dset k v d) = if decide (k' = k) then Some v else dget k' d.
Proof.
  induction d as [|[k0 v0] d IH]; simpl.
  - destruct (decide (k' = k)); reflexivity.
  - destruct (decide (k = k0)) as [->|Hne]; simpl.
    + destruct (decide (k' = k0)); reflexivity.
    + destruct (decide (k' = k0)) as [->|Hne'].
      * destruct (decide (k0 = k)); congruence.
      * exact IH.
Qed.

Lemma dget_dset_eq k v d : dget k (dset k v d) = Some v.
Proof. rewrite dget_dset. destruct (decide (k = k)); congruence. Qed.

Lemma dget_dset_ne k k' v d : k' <> k -> dget k' (dset k v d) = dget k' d.
Proof. intros. rewrite dget_dset. destruct (decide (k' = k)); congruence. Qed.

Lemma dget_Some_keys k v d : dget k d = Some v -> In k (dkeys d).
Proof.
  induction d as [|[k0 v0] d IH]; simpl; [discriminate|].
  destruct (decide (k = k0)); auto.
Qed.

Lemma dget_None_keys k d : dget k d = None <-> ~ In k (dkeys d).
Proof.
  induction d as [|[k0 v0] d IH]; simpl; [tauto|].
  destruct (decide (k = k0)) as [->|Hne].
  - split; [discriminate | tauto].
  - rewrite IH. split; [intros Hn [Hk|Hk]; [congruence | tauto] | tauto].
Qed.

Lemma keys_dget k d : In k (dkeys d) -> exists v, dget k d = Some v.
Proof.
  intros Hin. destruct (dget k d) eqn:E; [eauto|].
  apply dget_None_keys in E. tauto.
Qed.

Lemma dget_In k v d : dget k d = Some v -> In (k, v) d.
Proof.
  induction d as [|[k0 v0] d IH]; simpl; [discriminate|].
  destruct (decide (k = k0)) as [->|Hne]; [intros [= ->]; auto | auto].
Qed.

Lemma In_dget_nodup k v d : NoDup (dkeys d) -> In (k, v) d -> dget k d = Some v.
Proof.
  induction d as [|[k0 v0] d IH]; simpl; [tauto|].
  intros Hnd [Heq|Hin].
  - inversion Heq; subst. destruct (decide (k = k)); congruence.
  - apply NoDup_cons in Hnd as [Hn Hnd].
    destruct (decide (k = k0)) as [->|Hne]; [|auto].
    exfalso. apply Hn. apply list_elem_of_In.
    change (In k0 (map fst d)). apply in_map_iff. exists (k0, v). auto.
Qed.

Lemma dkeys_dset k v d k' :
  In k' (dkeys (dset k v d)) <-> k' = k \/ In k' (dkeys d).
Proof.
  induction d as [|[k0 v0] d IH]; simpl.
  - intuition congruence.
  - destruct (decide (k = k0)) as [->|Hne]; simpl.
    + intuition congruence.
    + rewrite IH. intuition congruence.
Qed.

Lemma dset_fresh k v d : dget k d = None -> dset k v d = d ++ [(k, v)].
Proof.
  induction d as [|[k0 v0] d IH]; simpl; [reflexivity|].
  destruct (decide (k = k0)); [discriminate|]. intros E. by rewrite IH.
Qed.

Lemma ddel_app_fresh k v d : dget k d = None -> ddel k (d ++ [(k, v)]) = d.
Proof.
  induction d as [|[k0 v0] d IH]; simpl.
  - destruct (decide (k = k)); congruence.
  - destruct (decide (k = k0)); [discriminate|]. intros E. by rewrite IH.
Qed.

Lemma dget_app k d1 d2 :
  dget k (d1 ++ d2) = match dget k d1 with Some v => Some v | None => dget k d2 end.
Proof.
  induction d1 as [|[k0 v0] d1 IH]; simpl; [reflexivity|].
  destruct (decide (k = k0)); auto.
Qed.
End DictFacts.

Section SortedFacts.
Context {A : Type} (leb : A -> A -> bool).

Lemma insert_sorted_perm x l : Permutation (insert_sorted leb x l) (x :: l).
Proof.
  induction l as [|y l IH]; simpl; [reflexivity|].
  destruct (leb x y); [reflexivity|].
  rewrite IH. apply perm_swap.
Qed.

Lemma sorted_perm l : Permutation (sorted leb l) l.
Proof.
  induction l as [|x l IH]; simpl; [reflexivity|].
  unfold sorted in *. simpl. rewrite insert_sorted_perm. by constructor.
Qed.

Lemma sorted_In x l : In x (sorted leb l) <-> In x l.
Proof.
  split; apply Permutation_in; [|symmetry]; apply sorted_perm.
Qed.

Lemma sorted_length l : length (sorted leb l) = length l.
Proof. apply Permutation_length, sorted_perm. Qed.
End SortedFacts.

Lemma dappend_lookup {K V} `{EqDecision K} (k k' : K) (w w' : V)
  (d : dict K (list V)) :
  (exists ws, dget k' (dappend k w d) = Some ws /\ In w' ws) <->
  (exists ws, dget k' d = Some ws /\ In w' ws) \/ (k' = k /\ w' = w).
Proof.
  unfold dappend. destruct (dget k d) as [vs|] eqn:E;
    rewrite dget_dset; destruct (decide (k' = k)) as [->|Hne];
    try (split; [auto | intros [?|[? _]]; [auto | congruence]]); rewrite ?E.
  - split.
    + intros (ws & [= <-] & Hin). apply in_app_iff in Hin as [Hin|[->|[]]]; eauto.
    + intros [(ws & [= <-] & Hin)|[_ ->]];
        (eexists; split; [reflexivity|]); apply in_app_iff; simpl; auto.
  - split.
    + intros (ws & [= <-] & [->|[]]). auto.
    + intros [(ws & Hws & _)|[_ ->]]; [discriminate|].
      eexists; split; [reflexivity|]. simpl; auto.
Qed.

Lemma dict_of_list_from_In {K V} `{EqDecision K} (l : list (K * V))
  (d0 : dict K V) k v :
  dget k (fold_left (fun d kv => dset (fst kv) (snd kv) d) l d0) = Some v ->
  In (k, v) l \/ dget k d0 = Some v.
Proof.
  revert d0. induction l as [|[k1 v1] l IH]; intros d0 Hget; simpl in *; [auto|].
  apply IH in Hget as [Hin|Hget]; [auto|].
  rewrite dget_dset in Hget. destruct (decide (k = k1)) as [->|Hne]; [|auto].
  injection Hget as ->. auto.
Qed.

Lemma dict_of_list_from_fresh {K V} `{EqDecision K} (l : list (K * V))
  (d0 : dict K V) k :
  ~ In k (map fst l) ->
  dget k (fold_left (fun d kv => dset (fst kv) (snd kv) d) l d0) = dget k d0.
Proof.
  revert d0. induction l as [|[k1 v1] l IH]; intros d0 Hnin; simpl in *; [done|].
  rewrite IH by tauto. apply dget_dset_ne. intros ->. tauto.
Qed.

Lemma dict_of_list_In {K V} `{EqDecision K} (l : list (K * V)) k v :
  dget k (dict_of_list l) = Some v -> In (k, v) l.
Proof.
  intros Hget. apply dict_of_list_from_In in Hget as [Hin|Hget]; [done|].
  discriminate.
Qed.

Lemma dict_of_list_NoDup {K V} `{EqDecision K} (l : list (K * V)) k v :
  NoDup (map fst l) -> In (k, v) l -> dget k (dict_of_list l) = Some v.
Proof.
  unfold dict_of_list. generalize (@nil (K * V)) as d0.
  induction l as [|[k1 v1] l IH]; intros d0 Hnd Hin; [destruct Hin|].
  simpl in *. apply NoDup_cons in Hnd as [Hnin Hnd].
  destruct Hin as [[= -> ->]|Hin]; [|by apply IH].
  rewrite dict_of_list_from_fresh.
  - apply dget_dset_eq.
  - intros Hk. apply Hnin. by apply list_elem_of_In.
Qed.

Lemma bind_Ok {A B} (m : result A) (k : A -> result B) b :
  (m ≫= k) = Ok b -> exists a, m = Ok a /\ k a = Ok b.
Proof. destruct m; simpl; [eauto | discriminate]. Qed.

End PyFacts.
Export PyFacts.

(** ** [clean_phrase] and [load_dictionary] *)
Module DictionaryFacts.

Lemma filter_length_le {A} (P : A -> Prop) `{forall x, Decision (P x)} (l : list A) :
  (length (filter P l) <= length l)%nat.
Proof.
  induction l as [|x l IH]; simpl; [lia|].
  rewrite filter_cons. destruct (decide (P x)); simpl; lia.
Qed.

Lemma filter_Forall {A} (P : A -> Prop) `{forall x, Decision (P x)} (l : list A) :
  Forall P (filter P l).
Proof.
  induction l as [|x l IH]; [constructor|].
  rewrite filter_cons. destruct (decide (P x)); [constructor|]; auto.
Qed.

Lemma map_single_length ch : length (map_single ch) = 1%nat.
Proof.
  unfold map_single.
  destruct (dget ch single_letter_map) as [s|] eqn:E; [|reflexivity].
  apply dget_In in E. simpl in E.
  repeat (destruct E as [E|E]; [inversion E; reflexivity|]). destruct E.
Qed.

Lemma mapped_length db p : length (mapped db p) = length (no_marks db p).
Proof.
  unfold mapped. induction (no_marks db p) as [|c l IH]; simpl; [reflexivity|].
  rewrite length_app, map_single_length, IH. reflexivity.
Qed.

Lemma clean_phrase_is_AZ db p : Forall (fun c => is_AZ c = true) (clean_phrase db p).
Proof. unfold clean_phrase. apply filter_Forall. Qed.

(** *** ASCII text *)
Lemma concat_map_singleton {A B} (f : A -> list B) (g : A -> B) (l : list A) :
  Forall (fun x => f x = [g x]) l -> concat (map f l) = map g l.
Proof.
  induction 1 as [|x l Hx _ IH]; simpl; [reflexivity|]. by rewrite Hx, IH.
Qed.

Lemma map_single_ascii c : is_ascii c -> map_single c = [c].
Proof.
  unfold is_ascii, map_single. intros Hc.
  destruct (dget c single_letter_map) as [s|] eqn:E; [|reflexivity].
  apply dget_In in E. simpl in E.
  repeat (destruct E as [E|E]; [inversion E; subst; lia|]). destruct E.
Qed.

Lemma no_marks_ascii db p :
  ascii_faithful db -> Forall is_ascii p -> no_marks db p = p.
Proof.
  intros Hdb Hp. unfold no_marks. rewrite (nfkd_ascii db Hdb p Hp).
  induction Hp as [|c l Hc _ IH]; [reflexivity|].
  rewrite filter_cons. destruct (decide (combining db c = 0%N)) as [|Hn].
  - by rewrite IH.
  - destruct Hn. by apply (combining_ascii db Hdb).
Qed.

Lemma clean_phrase_ascii db p :
  ascii_faithful db -> Forall is_ascii p ->
  clean_phrase db p = filter (fun ch => is_AZ ch = true) (map ascii_upper p).
Proof.
  intros Hdb Hp. unfold clean_phrase, mapped.
  rewrite (no_marks_ascii db p Hdb Hp).
  rewrite (concat_map_singleton map_single (fun c => c)), map_id.
  - by rewrite (upper_ascii db Hdb p Hp).
  - eapply Forall_impl; [exact Hp|]. intros c Hc. by apply map_single_ascii.
Qed.

Lemma ucd_sample_faithful : ascii_faithful ucd_sample.
Proof.
  split; simpl.
  - intros s Hs. induction Hs as [|c l Hc _ IH]; simpl; [reflexivity|].
    rewrite IH. unfold is_ascii in Hc. unfold sample_decomposition.
    repeat match goal with
           | |- context [(c =? ?k)%N] =>
               destruct (N.eqb_spec c k); [subst; simpl in Hc; lia|]
           end.
    reflexivity.
  - intros c Hc. unfold is_ascii in Hc. unfold sample_combining.
    repeat match goal with
           | |- context [(c =? ?k)%N] =>
               destruct (N.eqb_spec c k); [subst; simpl in Hc; lia|]
           end.
    reflexivity.
  - intros s Hs. induction Hs as [|c l Hc _ IH]; simpl; [reflexivity|].
    rewrite IH. unfold is_ascii in Hc. unfold sample_upper.
    destruct (N.eqb_spec c 223); [subst; simpl in Hc; lia|].
    destruct (N.leb_spec 224 c); [|reflexivity].
    lia.
  - intros c Hc. unfold is_ascii in Hc. unfold sample_isspace.
    repeat match goal with
           | |- context [(c =? ?k)%N] =>
               destruct (N.eqb_spec c k); [subst; simpl in Hc; lia|]
           end.
    destruct (N.leb_spec 8192 c); [lia|].
    simpl. by rewrite !orb_false_r.
  - reflexivity.
  - intros s Hne Hs. unfold sample_int, over_limit.
    destruct s; [congruence|].
    assert (forallb ascii_isdigit (n :: s) = true) as ->.
    { apply forallb_forall. intros x Hx.
      rewrite Forall_forall in Hs. apply Hs. by apply list_elem_of_In. }
    cbn [int_max_str_digits ucd_sample].
    replace (0 <? 4300)%nat with true by reflexivity.
    generalize (length (n :: s)). intros k.
    destruct (Nat.leb_spec k 4300), (Nat.ltb_spec 4300 k);
      simpl; try reflexivity; lia.
Qed.

(** *** Claim C5 *)

(** C5, the part that fails: the ligature U+FB01 is one character, NFKD
    decomposes it into the two letters f and i, and [clean_phrase] returns
    the two-letter string FI: the output is longer than the input. *)
Lemma clean_phrase_ligature_grows :
  clean_phrase ucd_sample [0xFB01%N] = lit "FI" /\
  ~ (length (clean_phrase ucd_sample [0xFB01%N]) <= length [0xFB01%N])%nat.
Proof. split; [reflexivity | vm_compute; lia]. Qed.

Lemma map_single_table c :
  is_ascii c \/ is_Some (dget c single_letter_map) ->
  exists l, map_single c = [l] /\ is_ascii l.
Proof.
  intros [Hc|[s Hs]].
  - exists c. split; [by apply map_single_ascii | exact Hc].
  - unfold map_single. rewrite Hs. apply dget_In in Hs. simpl in Hs.
    unfold is_ascii.
    repeat (destruct Hs as [Hs|Hs];
            [inversion Hs; subst; eexists; split; [reflexivity | simpl; lia]|]).
    destruct Hs.
Qed.

Lemma mapped_table_ascii (l : str) :
  Forall (fun c => is_ascii c \/ is_Some (dget c single_letter_map)) l ->
  Forall is_ascii (concat (map map_single l)).
Proof.
  induction 1 as [|c l Hc _ IH]; simpl; [constructor|].
  destruct (map_single_table c Hc) as (x & -> & Hx). by constructor.
Qed.

(** The text that NFKD and the removal of marks leave is made of ASCII
    characters and of characters of the table: the table is applied, and
    what is returned are the letters of the result. *)
Lemma clean_phrase_table db p :
  ascii_faithful db ->
  Forall (fun c => is_ascii c \/ is_Some (dget c single_letter_map))
         (no_marks db p) ->
  clean_phrase db p = letters (concat (map map_single (no_marks db p))).
Proof.
  intros Hdb Hp. unfold clean_phrase, mapped, letters.
  by rewrite (upper_ascii db Hdb _ (mapped_table_ascii _ Hp)).
Qed.

(** C5 as amended.  [clean_phrase] reads its input and three tables of the
    interpreter (NFKD, combining classes, upper-casing) and nothing else.
    Its output holds only the letters A-Z.  Every entry of the substitution
    table replaces one character by one ASCII letter.  When the text that
    NFKD and the removal of marks leave is made of ASCII characters and of
    characters of the table, the output is the upper-cased letters of that
    text with the table applied, and it is no longer than that text; so a
    character that the specification lists, when NFKD leaves it alone, comes
    out as the letter the specification gives.  The output is no longer than
    the uppercased text, whose source is no longer than the NFKD
    decomposition; so it is no longer than the input when the decomposition
    without its marks is no longer than the input and upper-casing does not
    make the text longer.  On ASCII input the output is the upper-cased
    letters of the input, so it is no longer than the input. *)
Theorem clean_phrase_normalizes (db : UnicodeData) (p : str) :
  (forall db',
     normalize_NFKD db' = normalize_NFKD db -> combining db' = combining db ->
     upper db' = upper db -> clean_phrase db' p = clean_phrase db p) /\
  Forall (fun c => is_AZ c = true) (clean_phrase db p) /\
  Forall (fun kv => map_single (fst kv) = snd kv /\
                    exists c, snd kv = [c] /\ is_AZ (ascii_upper c) = true)
         single_letter_map /\
  (ascii_faithful db ->
   Forall (fun c => is_ascii c \/ is_Some (dget c single_letter_map))
          (no_marks db p) ->
   clean_phrase db p =
     filter (fun ch => is_AZ ch = true)
            (map ascii_upper (concat (map map_single (no_marks db p)))) /\
   (length (clean_phrase db p) <= length (no_marks db p))%nat) /\
  (forall c l,
     spec_substitution c = Some l -> ascii_faithful db ->
     normalize_NFKD db [c] = [c] -> combining db c = 0%N ->
     clean_phrase db [c] = [l]) /\
  (length (clean_phrase db p) <= length (upper db (mapped db p)))%nat /\
  (length (mapped db p) <= length (normalize_NFKD db p))%nat /\
  ((length (no_marks db p) <= length p)%nat ->
   (length (upper db (mapped db p)) <= length (mapped db p))%nat ->
   (length (clean_phrase db p) <= length p)%nat) /\
  (ascii_faithful db -> Forall is_ascii p ->
   clean_phrase db p = filter (fun ch => is_AZ ch = true) (map ascii_upper p) /\
   (length (clean_phrase db p) <= length p)%nat).
Proof.
  assert (Hup : (length (clean_phrase db p) <= length (upper db (mapped db p)))%nat)
    by (unfold clean_phrase; apply filter_length_le).
  assert (Hmap : (length (mapped db p) <= length (normalize_NFKD db p))%nat).
  { rewrite mapped_length. unfold no_marks. apply filter_length_le. }
  split.
  { intros db' Hn Hc Hu. unfold clean_phrase, mapped, no_marks.
    by rewrite Hn, Hc, Hu. }
  split; [apply clean_phrase_is_AZ|].
  split.
  { repeat constructor; simpl; eexists; split; reflexivity. }
  split.
  { intros Hdb Hp. rewrite (clean_phrase_table db p Hdb Hp).
    split; [reflexivity|]. unfold letters.
    etransitivity; [apply filter_length_le|].
    rewrite length_map. fold (mapped db p). by rewrite mapped_length. }
  split.
  { intros c l Hspec Hdb Hn Hc.
    assert (Hno : no_marks db [c] = [c]).
    { unfold no_marks. rewrite Hn, filter_cons, filter_nil.
      by destruct (decide (combining db c = 0%N)). }
    assert (Htab : is_Some (dget c single_letter_map) /\
                   letters (map_single c) = [l]).
    { unfold spec_substitution in Hspec.
      repeat match type of Hspec with
             | context [(c =? ?k)%N] =>
                 destruct (N.eqb_spec c k);
                   [subst c; injection Hspec as <-; split; [by eexists | reflexivity]|]
             end.
      discriminate. }
    destruct Htab as [Hkey Hl].
    rewrite (clean_phrase_table db [c] Hdb); rewrite Hno.
    - simpl. by rewrite app_nil_r.
    - constructor; [by right | constructor]. }
  split; [exact Hup|]. split; [exact Hmap|].
  split.
  { intros Hn Hu. etransitivity; [exact Hup|].
    etransitivity; [exact Hu|]. by rewrite mapped_length. }
  intros Hdb Hp. rewrite (clean_phrase_ascii db p Hdb Hp). split; [reflexivity|].
  etransitivity; [apply filter_length_le|]. by rewrite length_map.
Qed.

(** On the text "Straße é Æ ł": the sharp s becomes one S, not the SS of
    [upper]; the accent is dropped; Æ becomes E and ł becomes L; the nine
    letters that come out are fewer than the twelve characters that went
    in. *)
Lemma clean_phrase_normalizes_witness :
  clean_phrase ucd_sample strasse = lit "STRASEEEL" /\
  (length (clean_phrase ucd_sample strasse) <= length strasse)%nat /\
  clean_phrase ucd_sample [0xDF%N] = lit "S" /\
  clean_phrase ucd_sample [0x142%N] = lit "L".
Proof.
  destruct (clean_phrase_normalizes ucd_sample strasse)
    as (_ & _ & _ & Htable & Hspec & _ & _ & Hbound & _).
  destruct Htable as [Heq _]; [exact ucd_sample_faithful | |].
  { vm_compute.
    repeat (constructor; [first [left; reflexivity | right; by eexists]|]).
    constructor. }
  split; [rewrite Heq; reflexivity|].
  split; [apply Hbound; vm_compute; lia|].
  split.
  - apply (Hspec 0xDF%N 83%N); [reflexivity | exact ucd_sample_faithful | | ];
      reflexivity.
  - apply (Hspec 0x142%N 76%N); [reflexivity | exact ucd_sample_faithful | | ];
      reflexivity.
Defined.

(** *** Claim C8 *)
Lemma build_by_len_lookup_from (words : list str) (d : dict nat (list str)) L w :
  (exists ws, dget L (fold_left (fun by_len w => dappend (length w) w by_len) words d)
              = Some ws /\ In w ws) <->
  (exists ws, dget L d = Some ws /\ In w ws) \/ (In w words /\ L = length w).
Proof.
  revert d. induction words as [|x words IH]; intros d; simpl.
  - tauto.
  - rewrite IH, dappend_lookup. intuition (subst; auto).
Qed.

Lemma build_by_len_lookup (words : list str) L w :
  (exists ws, dget L (build_by_len words) = Some ws /\ In w ws) <->
  In w words /\ L = length w.
Proof.
  unfold build_by_len. rewrite build_by_len_lookup_from. simpl.
  split; [intros [(ws & [=] & _)|H]; exact H | auto].
Qed.

Lemma add_fallback_keys db (x : str) (st : load_state) c :
  In c (dkeys (best_by_cleaned (add_fallback db x st))) <->
  In c (dkeys (best_by_cleaned st)) \/ (c = clean_phrase db x /\ kept_length c).
Proof.
  unfold add_fallback, kept_length.
  destruct (Nat.leb_spec 4 (length (clean_phrase db x)));
    destruct (Nat.leb_spec (length (clean_phrase db x)) 7); simpl;
    try rewrite dkeys_dset; intuition (subst; auto; lia).
Qed.

Lemma fallback_keys db (pool : list str) (st : load_state) c :
  In c (dkeys (best_by_cleaned (fold_left (fun st w => add_fallback db w st) pool st))) <->
  In c (dkeys (best_by_cleaned st)) \/
  (exists w, In w pool /\ c = clean_phrase db w /\ kept_length c).
Proof.
  revert st. induction pool as [|x pool IH]; intros st; simpl.
  - split; [auto | intros [H|(w & [] & _)]; exact H].
  - rewrite IH, add_fallback_keys. split.
    + intros [[H|[-> H]]|(w & Hw & Hc)]; eauto 6.
    + intros [H|(w & [<-|Hw] & -> & Hc)]; eauto 6.
Qed.

(** C8: with the dictionary file missing, [load_dictionary] raises nothing and
    returns buckets that hold exactly the cleaned words of the built-in pool
    whose cleaned length is between 4 and 7, each in the bucket of its
    length. *)
Theorem load_dictionary_missing_file (db : UnicodeData) (min_rating : Z) :
  exists by_len,
    load_dictionary db FileNotFound min_rating = Ok by_len /\
    forall L w,
      (exists ws, dget L by_len = Some ws /\ In w ws) <->
      ((exists f, In f fallback_pool /\ w = clean_phrase db f) /\
       L = length w /\ (4 <= L <= 7)%nat).
Proof.
  eexists. split; [reflexivity|].
  intros L w. rewrite build_by_len_lookup, fallback_keys. simpl.
  unfold kept_length. split.
  - intros [[[]|(f & Hf & -> & Hk)] ->]. eauto.
  - intros [(f & Hf & ->) [-> Hk]]. split; [right; eauto | reflexivity].
Qed.

Example load_dictionary_missing_file_sample :
  load_dictionary ucd_sample FileNotFound 1 =
  Ok [ (5%nat, map lit ["TITLE"; "TENET"; "LEVEL"; "GUSTY"; "GUTSY"; "TATTY"; "WANTS"]%string);
       (6%nat, map lit ["LILITH"; "DENIES"; "ANYHOW"; "ANYHOO"]%string);
       (4%nat, map lit ["WANT"]%string) ].
Proof. reflexivity. Qed.

(** *** Claim C10 *)
Lemma lstrip_app db (a b : str) :
  lstrip db (a ++ b) =
  match lstrip db a with [] => lstrip db b | r => r ++ b end.
Proof.
  induction a as [|c a IH]; simpl; [reflexivity|].
  destruct (isspace db c); [exact IH | reflexivity].
Qed.

Lemma lstrip_head db (c : char) (s : str) :
  isspace db c = false -> lstrip db (c :: s) = c :: s.
Proof. simpl. by intros ->. Qed.

Lemma rstrip_app_nonspace db (n x : str) :
  n <> [] -> Forall (fun c => isspace db c = false) n ->
  rstrip db (n ++ x) = n ++ rstrip db x.
Proof.
  intros Hne Hn. unfold rstrip. rewrite rev_app_distr, lstrip_app.
  assert (Hrn : lstrip db (rev n) = rev n).
  { destruct (rev n) as [|c r] eqn:E.
    - apply (f_equal (@rev _)) in E. rewrite rev_involutive in E. by destruct Hne.
    - apply lstrip_head. rewrite Forall_forall in Hn. apply Hn.
      apply list_elem_of_In, in_rev. rewrite E. by left. }
  destruct (lstrip db (rev x)) as [|c r].
  - rewrite Hrn, rev_involutive. simpl. by rewrite app_nil_r.
  - by rewrite rev_app_distr, rev_involutive.
Qed.

Lemma rstrip_cons db (c : char) (s : str) :
  rstrip db (c :: s) = [] \/ rstrip db (c :: s) = c :: rstrip db s.
Proof.
  unfold rstrip. simpl. rewrite lstrip_app.
  destruct (lstrip db (rev s)) as [|d r].
  - simpl. destruct (isspace db c); simpl; auto.
  - right. by rewrite rev_app_distr.
Qed.

Lemma split_tab_app (n w : str) :
  Forall (fun c => c <> 9%N) n -> split_tab (n ++ 9%N :: w) = Some (n, w).
Proof.
  induction 1 as [|c n Hc _ IH]; simpl; [reflexivity|].
  destruct (N.eqb_spec c 9); [contradiction|]. by rewrite IH.
Qed.

Lemma split_tab_none (n : str) :
  Forall (fun c => c <> 9%N) n -> split_tab n = None.
Proof.
  induction 1 as [|c n Hc _ IH]; simpl; [reflexivity|].
  destruct (N.eqb_spec c 9); [contradiction|]. by rewrite IH.
Qed.

Lemma letters_app (a b : str) : letters (a ++ b) = letters a ++ letters b.
Proof. unfold letters. by rewrite map_app, filter_app. Qed.

Lemma letters_rev (a : str) : letters (rev a) = rev (letters a).
Proof.
  induction a as [|c a IH]; [reflexivity|].
  simpl rev. rewrite letters_app, IH.
  change (c :: a) with ([c] ++ a). rewrite letters_app, rev_app_distr.
  f_equal. unfold letters. simpl map. rewrite filter_cons, filter_nil.
  by destruct (decide (is_AZ (ascii_upper c) = true)).
Qed.

Lemma letters_nonletter (c : char) (s : str) :
  is_AZ (ascii_upper c) = false -> letters (c :: s) = letters s.
Proof.
  intros Hc. unfold letters. simpl map. rewrite filter_cons.
  destruct (decide (is_AZ (ascii_upper c) = true)); [congruence | reflexivity].
Qed.

Lemma space_not_letter (c : char) :
  ascii_isspace c = true -> is_AZ (ascii_upper c) = false.
Proof.
  unfold ascii_isspace, is_AZ, ascii_upper. intros H.
  destruct (N.leb_spec 97 c), (N.leb_spec c 122); simpl;
    destruct (N.leb_spec 9 c), (N.leb_spec c 13), (N.leb_spec 28 c),
      (N.leb_spec c 32); simpl in H; try discriminate;
    apply andb_false_iff; rewrite !N.leb_gt; lia.
Qed.

Lemma digit_not_letter (c : char) :
  ascii_isdigit c = true -> is_AZ (ascii_upper c) = false.
Proof.
  unfold ascii_isdigit, is_AZ, ascii_upper. intros H.
  apply andb_true_iff in H as [H1 H2]. apply N.leb_le in H1, H2.
  destruct (N.leb_spec 97 c); simpl; [lia|].
  apply andb_false_iff; rewrite !N.leb_gt; lia.
Qed.

Lemma lstrip_Forall db (P : char -> Prop) (s : str) :
  Forall P s -> Forall P (lstrip db s).
Proof.
  induction 1 as [|c s Hc Hs IH]; simpl; [constructor|].
  destruct (isspace db c); [exact IH | by constructor].
Qed.

Lemma strip_Forall db (P : char -> Prop) (s : str) :
  Forall P s -> Forall P (strip db s).
Proof.
  intros H. unfold strip, rstrip.
  apply Forall_rev, lstrip_Forall, Forall_rev, lstrip_Forall, H.
Qed.

Lemma letters_lstrip db (s : str) :
  ascii_faithful db -> Forall is_ascii s -> letters (lstrip db s) = letters s.
Proof.
  intros Hdb. induction 1 as [|c s Hc Hs IH]; simpl; [reflexivity|].
  destruct (isspace db c) eqn:E; [|reflexivity].
  rewrite (isspace_ascii db Hdb c Hc) in E.
  by rewrite IH, letters_nonletter by by apply space_not_letter.
Qed.

Lemma letters_strip db (s : str) :
  ascii_faithful db -> Forall is_ascii s -> letters (strip db s) = letters s.
Proof.
  intros Hdb Hs. unfold strip, rstrip.
  rewrite letters_rev, letters_lstrip, letters_rev, rev_involutive; auto.
  - by apply letters_lstrip.
  - by apply Forall_rev, lstrip_Forall.
Qed.

Lemma digit_facts (c : char) :
  ascii_isdigit c = true ->
  is_ascii c /\ c <> 9%N /\ ascii_isspace c = false.
Proof.
  unfold ascii_isdigit, is_ascii, ascii_isspace. intros H.
  apply andb_true_iff in H as [H1 H2]. apply N.leb_le in H1, H2.
  repeat split; [lia | lia |].
  destruct (N.leb_spec 9 c), (N.leb_spec c 13), (N.leb_spec 28 c),
    (N.leb_spec c 32); simpl; try reflexivity; lia.
Qed.

Lemma keep_best_unrated_keys (cleaned : str) (best : dict str (option Z)) :
  In cleaned (dkeys (keep_best cleaned None best)).
Proof.
  unfold keep_best. destruct (dget cleaned best) as [[prev|]|] eqn:E.
  - eapply dget_Some_keys, E.
  - eapply dget_Some_keys, E.
  - apply dkeys_dset. by left.
Qed.

Lemma strip_digit_line db (n word : str) :
  ascii_faithful db ->
  n <> [] -> Forall (fun c => ascii_isdigit c = true) n ->
  strip db (n ++ 9%N :: word) = n ++ rstrip db (9%N :: word) /\
  strip db n = n.
Proof.
  intros Hdb Hne Hn.
  assert (Hsp : Forall (fun c => isspace db c = false) n).
  { eapply Forall_impl; [exact Hn|]. intros c Hc. simpl in Hc.
    destruct (digit_facts c Hc) as (Ha & _ & Hs).
    by rewrite (isspace_ascii db Hdb c Ha). }
  unfold strip. destruct n as [|c n]; [congruence|].
  inversion Hsp as [|? ? Hc Hn']; subst.
  split.
  - change ((c :: n) ++ 9%N :: word) with (c :: (n ++ 9%N :: word)).
    rewrite lstrip_head by done.
    change (c :: (n ++ 9%N :: word)) with ((c :: n) ++ 9%N :: word).
    by apply rstrip_app_nonspace.
  - rewrite lstrip_head by done.
    rewrite <- (app_nil_r (c :: n)) at 1.
    rewrite rstrip_app_nonspace by done. by rewrite app_nil_r.
Qed.

Lemma parse_rating_out_of_range db (n word : str) :
  ascii_faithful db ->
  n <> [] -> Forall (fun c => ascii_isdigit c = true) n ->
  over_limit db n = false ->
  ~ (1 <= decimal n <= 10) ->
  parse_rating db (strip db (n ++ 9%N :: word)) =
  Ok (None, strip db (n ++ 9%N :: word)).
Proof.
  intros Hdb Hne Hn Hlim Hr.
  destruct (strip_digit_line db n word Hdb Hne Hn) as [-> Hsn].
  assert (Htab : Forall (fun c => c <> 9%N) n).
  { eapply Forall_impl; [exact Hn|]. intros c Hc. apply (digit_facts c Hc). }
  unfold parse_rating.
  destruct (rstrip_cons db 9%N word) as [->| ->].
  - rewrite app_nil_r. by rewrite split_tab_none.
  - rewrite split_tab_app by done. rewrite Hsn.
    assert (isdigit db n = true) as ->.
    { unfold isdigit. destruct n as [|c n]; [congruence|].
      apply forallb_forall. intros x Hx.
      rewrite Forall_forall in Hn. apply list_elem_of_In in Hx.
      specialize (Hn x Hx). simpl in Hn.
      destruct (digit_facts x Hn) as (Ha & _).
      by rewrite (isdigit_ascii db Hdb x Ha). }
    rewrite (int_ascii db Hdb n Hne Hn), Hlim. simpl.
    destruct (Z.leb_spec 1 (decimal n)), (Z.leb_spec (decimal n) 10);
      simpl; try reflexivity. lia.
Qed.

(** One line [n<TAB>word] whose digit string [n], within the digit limit of
    [int], is not a rating between 1 and 10: it is parsed as one unrated
    entry, the whole stripped line; [clean_phrase] leaves only letters of it
    (for ASCII text exactly the cleaned word, the digits and the tab being
    dropped); and when the cleaned length is between 4 and 7 the cleaned word
    is kept whatever [min_rating] is. *)
Lemma consider_entry_out_of_range
  (db : UnicodeData) (min_rating : Z) (n word : str) (st : load_state) :
  ascii_faithful db ->
  n <> [] -> Forall (fun c => ascii_isdigit c = true) n ->
  over_limit db n = false ->
  ~ (1 <= decimal n <= 10) ->
  let line := n ++ 9%N :: word in
  let entry := strip db line in
  let cleaned := clean_phrase db entry in
  parse_rating db entry = Ok (None, entry) /\
  Forall (fun c => is_AZ c = true) cleaned /\
  (Forall is_ascii word -> cleaned = clean_phrase db word) /\
  exists st',
    consider_entry db min_rating line st = Ok st' /\
    parsed_rated st' = parsed_rated st /\
    parsed_unrated st' = parsed_unrated st + 1 /\
    kept_rated_ge_min st' = kept_rated_ge_min st /\
    ((4 <= length cleaned <= 7)%nat ->
     In cleaned (dkeys (best_by_cleaned st')) /\
     kept_unrated st' = kept_unrated st + 1) /\
    (~ (4 <= length cleaned <= 7)%nat ->
     best_by_cleaned st' = best_by_cleaned st).
Proof.
  intros Hdb Hne Hn Hlim Hr line entry cleaned.
  pose proof (parse_rating_out_of_range db n word Hdb Hne Hn Hlim Hr) as Hparse.
  fold line in Hparse. fold entry in Hparse.
  split; [exact Hparse|].
  split; [apply clean_phrase_is_AZ|].
  split.
  { intros Hw.
    assert (Hline : Forall is_ascii line).
    { apply Forall_app. split.
      - eapply Forall_impl; [exact Hn|]. intros c Hc. apply (digit_facts c Hc).
      - constructor; [unfold is_ascii; lia | exact Hw]. }
    unfold cleaned, entry.
    rewrite !clean_phrase_ascii; auto; [|by apply strip_Forall].
    fold (letters (strip db line)). fold (letters word).
    rewrite letters_strip by done. unfold line.
    rewrite letters_app.
    assert (letters n = []) as ->.
    { clear -Hn. induction Hn as [|c n Hc _ IH]; [reflexivity|].
      rewrite letters_nonletter; [exact IH | by apply digit_not_letter]. }
    simpl. apply letters_nonletter. reflexivity. }
  unfold consider_entry. fold line. fold entry.
  assert (Hentry : entry <> []).
  { unfold entry, line.
    destruct (strip_digit_line db n word Hdb Hne Hn) as [-> _].
    destruct n; [congruence | discriminate]. }
  destruct entry as [|e0 entry'] eqn:Eentry; [congruence|].
  rewrite Hparse. simpl. fold cleaned.
  destruct cleaned as [|c0 cl] eqn:Ecl.
  { eexists. split; [reflexivity|]. simpl.
    repeat split; try reflexivity; intros; simpl in *; lia. }
  destruct (Nat.ltb_spec (length (c0 :: cl)) 4);
    destruct (Nat.ltb_spec 7 (length (c0 :: cl))); simpl;
    (eexists; split; [reflexivity|]); simpl;
    repeat split; try reflexivity; try (intros; simpl in *; lia).
  apply keep_best_unrated_keys.
Qed.

End DictionaryFacts.

(** ** The search: bookkeeping of [place] and [unplace] *)
Module SolverFacts.

Lemma usage_get_insert (m : gmap (Z * Z) Z) c c' v :
  usage_get (<[c := v]> m) c' = if decide (c' = c) then v else usage_get m c'.
Proof.
  unfold usage_get. destruct (decide (c' = c)) as [->|Hne].
  - by rewrite lookup_insert_eq.
  - by rewrite lookup_insert_ne.
Qed.

Lemma counter_get_add (m : gmap N Z) ch ch' n :
  counter_get (counter_add ch n m) ch' =
  counter_get m ch' + (if decide (ch' = ch) then n else 0).
Proof.
  unfold counter_add, counter_get at 1. destruct (decide (ch' = ch)) as [->|Hne].
  - rewrite lookup_insert_eq. reflexivity.
  - rewrite lookup_insert_ne by done. fold (counter_get m ch'). lia.
Qed.

Lemma charged_ext t u1 u2 word ch k cs :
  (forall c, c ∈ cs -> usage_get u1 c = usage_get u2 c) ->
  charged t u1 word ch k cs = charged t u2 word ch k cs.
Proof.
  revert k. induction cs as [|c cs IH]; intros k Hu; simpl; [reflexivity|].
  rewrite (Hu c) by left. rewrite IH; [reflexivity|].
  intros c' Hc'. apply Hu. by right.
Qed.

Lemma charged_shift t d u1 u2 word ch k cs :
  (forall c, c ∈ cs -> usage_get u1 c = usage_get u2 c + d) ->
  charged (t + d) u1 word ch k cs = charged t u2 word ch k cs.
Proof.
  revert k. induction cs as [|c cs IH]; intros k Hu; simpl; [reflexivity|].
  rewrite (Hu c) by left. rewrite IH by (intros c' Hc'; apply Hu; by right).
  destruct (decide (usage_get u2 c + d = t + d /\ word !! k = Some ch)) as [[]|Hn];
    destruct (decide (usage_get u2 c = t /\ word !! k = Some ch)) as [[]|Hn'];
    try reflexivity; exfalso.
  - apply Hn'. split; [lia | done].
  - apply Hn. split; [lia | done].
Qed.

Lemma charged_nonneg t u word ch k cs : 0 <= charged t u word ch k cs.
Proof.
  revert k. induction cs as [|c cs IH]; intros k; simpl; [lia|].
  specialize (IH (S k)). destruct (decide _); lia.
Qed.

Lemma letter_at_lookup word k cs c i :
  NoDup cs -> cs !! i = Some c -> letter_at word k cs c = word !! (k + i)%nat.
Proof.
  revert k i. induction cs as [|c' cs IH]; intros k i Hnd Hi; [done|].
  apply NoDup_cons in Hnd as [Hnin Hnd]. simpl.
  destruct i as [|i]; simpl in Hi.
  - injection Hi as ->. destruct (decide (c = c)); [|done]. f_equal. lia.
  - destruct (decide (c = c')) as [->|Hne].
    + exfalso. apply Hnin. eapply list_elem_of_lookup_2, Hi.
    + rewrite (IH (S k) i Hnd Hi). f_equal. lia.
Qed.

(** *** [place] and [unplace]: the loops over the cells of the slot *)
Lemma same_frame_refl st : same_frame st st.
Proof. by split. Qed.

Lemma same_frame_trans st1 st2 st3 :
  same_frame st1 st2 -> same_frame st2 st3 -> same_frame st1 st3.
Proof. intros [] []. split; congruence. Qed.

Lemma letter_count_insert cl c l ch :
  cl !! c = None ->
  letter_count (<[c := l]> cl) ch =
  letter_count cl ch + (if decide (l = ch) then 1 else 0).
Proof.
  intros Hnone. unfold letter_count.
  destruct (decide (l = ch)) as [->|Hne].
  - rewrite map_filter_insert_True by done.
    rewrite map_size_insert_None; [lia|].
    apply map_lookup_filter_None. by left.
  - rewrite map_filter_insert_not' ; [lia | done |].
    intros y Hy. congruence.
Qed.

Lemma letter_count_delete cl c l ch :
  cl !! c = Some l ->
  letter_count (delete c cl) ch =
  letter_count cl ch - (if decide (l = ch) then 1 else 0).
Proof.
  intros Hsome.
  rewrite <- (insert_delete_id cl c l Hsome) at 2.
  rewrite letter_count_insert by apply lookup_delete_eq. lia.
Qed.

Lemma letter_count_nonneg cl ch : 0 <= letter_count cl ch.
Proof. unfold letter_count. lia. Qed.

Section PlaceCell.
Variables (ch : N) (c : Z * Z) (st : state).

Lemma place_cell_frame : same_frame st (place_cell ch c st).
Proof. unfold place_cell. case_decide; by split. Qed.

Lemma place_cell_usage c' :
  usage_get (cell_usage (place_cell ch c st)) c' =
  usage_get (cell_usage st) c' + (if decide (c' = c) then 1 else 0).
Proof.
  unfold place_cell. case_decide; simpl; rewrite usage_get_insert;
    case_decide; subst; lia.
Qed.

Lemma place_cell_letter c' :
  cell_letter (place_cell ch c st) !! c' =
  if decide (c' = c /\ usage_get (cell_usage st) c = 0)
  then Some ch else cell_letter st !! c'.
Proof.
  unfold place_cell. destruct (decide (usage_get (cell_usage st) c = 0));
    simpl; case_decide as Hd.
  - destruct Hd as [-> _]. by rewrite lookup_insert_eq.
  - rewrite lookup_insert_ne; [done|]. intros <-. by destruct Hd.
  - by destruct Hd.
  - done.
Qed.

Lemma place_cell_budget ch' :
  counter_get (budget (place_cell ch c st)) ch' =
  counter_get (budget st) ch' -
  (if decide (usage_get (cell_usage st) c = 0 /\ Some ch = Some ch')
   then 1 else 0).
Proof.
  unfold place_cell. destruct (decide (usage_get (cell_usage st) c = 0));
    simpl; [rewrite counter_get_add|]; repeat case_decide;
    try lia; exfalso; naive_solver.
Qed.

Lemma place_cell_count ch' :
  (usage_get (cell_usage st) c = 0 -> cell_letter st !! c = None) ->
  letter_count (cell_letter (place_cell ch c st)) ch' =
  letter_count (cell_letter st) ch' +
  (if decide (usage_get (cell_usage st) c = 0 /\ Some ch = Some ch')
   then 1 else 0).
Proof.
  intros Hfresh. unfold place_cell.
  destruct (decide (usage_get (cell_usage st) c = 0)) as [Hz|Hnz]; simpl.
  - rewrite letter_count_insert by auto.
    repeat case_decide; try lia; exfalso; naive_solver.
  - case_decide; [naive_solver | lia].
Qed.
End PlaceCell.

Section UnplaceCell.
Variables (ch : N) (c : Z * Z) (st st1 : state).
Hypothesis Hrun : unplace_cell ch c st = Ok st1.

Lemma unplace_cell_inv :
  (usage_get (cell_usage st) c = 1 /\ is_Some (cell_letter st !! c) /\
   st1 = with_core (counter_add ch 1 (budget st)) (delete c (cell_letter st))
           (<[c := 0]> (cell_usage st)) st) \/
  (usage_get (cell_usage st) c <> 1 /\
   st1 = with_core (budget st) (cell_letter st)
           (<[c := usage_get (cell_usage st) c - 1]> (cell_usage st)) st).
Proof.
  unfold unplace_cell in Hrun. simpl in Hrun.
  rewrite usage_get_insert in Hrun.
  destruct (decide (c = c)); [|done].
  destruct (decide (usage_get (cell_usage st) c - 1 = 0)) as [Hz|Hnz].
  - left. destruct (cell_letter st !! c) eqn:E; [|discriminate].
    injection Hrun as <-. split; [lia|]. split; [by eexists|].
    unfold with_core; simpl. by rewrite Hz.
  - right. injection Hrun as <-. split; [lia | done].
Qed.

Lemma unplace_cell_frame : same_frame st st1.
Proof. destruct unplace_cell_inv as [(_ & _ & ->)|(_ & ->)]; by split. Qed.

Lemma unplace_cell_usage c' :
  usage_get (cell_usage st1) c' =
  usage_get (cell_usage st) c' - (if decide (c' = c) then 1 else 0).
Proof.
  destruct unplace_cell_inv as [(Hu & _ & ->)|(_ & ->)]; simpl;
    rewrite usage_get_insert; case_decide; subst; lia.
Qed.

Lemma unplace_cell_letter c' :
  cell_letter st1 !! c' =
  if decide (c' = c /\ usage_get (cell_usage st) c = 1)
  then None else cell_letter st !! c'.
Proof.
  destruct unplace_cell_inv as [(Hu & _ & ->)|(Hu & ->)]; simpl;
    case_decide as Hd.
  - destruct Hd as [-> _]. by rewrite lookup_delete_eq.
  - rewrite lookup_delete_ne; [done|]. intros <-. by destruct Hd.
  - by destruct Hd.
  - done.
Qed.

Lemma unplace_cell_budget ch' :
  counter_get (budget st1) ch' =
  counter_get (budget st) ch' +
  (if decide (usage_get (cell_usage st) c = 1 /\ Some ch = Some ch')
   then 1 else 0).
Proof.
  destruct unplace_cell_inv as [(Hu & _ & ->)|(Hu & ->)]; simpl;
    [rewrite counter_get_add|]; repeat case_decide;
    try lia; exfalso; naive_solver.
Qed.

Lemma unplace_cell_count ch' :
  (usage_get (cell_usage st) c = 1 -> cell_letter st !! c = Some ch) ->
  letter_count (cell_letter st1) ch' =
  letter_count (cell_letter st) ch' -
  (if decide (usage_get (cell_usage st) c = 1 /\ Some ch = Some ch')
   then 1 else 0).
Proof.
  intros Hheld.
  destruct unplace_cell_inv as [(Hu & _ & ->)|(Hu & ->)]; simpl.
  - rewrite (letter_count_delete _ _ ch) by auto.
    repeat case_decide; try lia; exfalso; naive_solver.
  - case_decide; [naive_solver | lia].
Qed.
End UnplaceCell.

Lemma unplace_cell_ok ch c st :
  (usage_get (cell_usage st) c = 1 -> is_Some (cell_letter st !! c)) ->
  exists st1, unplace_cell ch c st = Ok st1.
Proof.
  intros Hheld. unfold unplace_cell. simpl. rewrite usage_get_insert.
  destruct (decide (c = c)); [|done].
  case_decide as Hz; [|by eexists].
  destruct Hheld as [l ->]; [lia | by eexists].
Qed.

Lemma place_cells_frame word cs : forall k st st',
  place_cells word k cs st = Ok st' -> same_frame st st'.
Proof.
  induction cs as [|c cs IH]; intros k st st' Hrun; simpl in Hrun.
  - injection Hrun as <-. apply same_frame_refl.
  - destruct (word !! k) as [ch|]; [|discriminate]. simpl in Hrun.
    apply IH in Hrun. eapply same_frame_trans; [|exact Hrun].
    apply place_cell_frame.
Qed.

Lemma unplace_cells_frame word cs : forall k st st',
  unplace_cells word k cs st = Ok st' -> same_frame st st'.
Proof.
  induction cs as [|c cs IH]; intros k st st' Hrun; simpl in Hrun.
  - injection Hrun as <-. apply same_frame_refl.
  - destruct (word !! k) as [ch|]; [|discriminate]. simpl in Hrun.
    destruct (unplace_cell ch c st) as [st1|] eqn:E; [|discriminate].
    simpl in Hrun. apply IH in Hrun.
    eapply same_frame_trans; [|exact Hrun]. by eapply unplace_cell_frame.
Qed.

Ltac split_cases :=
  repeat case_decide; try lia; try done; exfalso;
  repeat match goal with
         | H : context [_ ∈ _ :: _] |- _ => rewrite elem_of_cons in H
         end;
  intuition (subst; try lia; try congruence; try done).

Lemma place_cells_spec word cs : forall k st st',
  NoDup cs ->
  place_cells word k cs st = Ok st' ->
  (forall c, usage_get (cell_usage st') c =
             usage_get (cell_usage st) c + (if decide (c ∈ cs) then 1 else 0)) /\
  (forall c, cell_letter st' !! c =
             if decide (c ∈ cs /\ usage_get (cell_usage st) c = 0)
             then letter_at word k cs c else cell_letter st !! c) /\
  (forall ch, counter_get (budget st') ch =
              counter_get (budget st) ch - charged 0 (cell_usage st) word ch k cs) /\
  (forall i c, cs !! i = Some c -> is_Some (word !! (k + i)%nat)).
Proof.
  induction cs as [|c cs IH]; intros k st st' Hnd Hrun; simpl in Hrun.
  - injection Hrun as <-. split; [|split; [|split]].
    + intros c. case_decide as Hin; [by inversion Hin | lia].
    + intros c. case_decide as Hin; [destruct Hin as [Hin _]; by inversion Hin | done].
    + intros ch. simpl. lia.
    + intros i c Hi. done.
  - apply NoDup_cons in Hnd as [Hnin Hnd].
    destruct (word !! k) as [l|] eqn:Ew; [|discriminate]. simpl in Hrun.
    apply IH in Hrun as (Hu & Hl & Hb & Hw); [|done].
    split; [|split; [|split]].
    + intros c'. rewrite Hu, place_cell_usage. clear IH Hu Hl Hb Hw.
      split_cases.
    + intros c'. rewrite Hl, place_cell_usage, place_cell_letter. simpl.
      rewrite Ew. clear IH Hu Hl Hb Hw. split_cases.
    + intros ch. rewrite Hb, place_cell_budget. simpl. rewrite Ew.
      rewrite (charged_ext 0 (cell_usage (place_cell l c st)) (cell_usage st)).
      * clear IH Hu Hl Hb Hw. split_cases.
      * intros c' Hc'. rewrite place_cell_usage. clear IH Hu Hl Hb Hw.
        split_cases.
    + intros i c' Hi. destruct i as [|i]; simpl in Hi.
      * rewrite Nat.add_0_r. rewrite Ew. by eexists.
      * replace (k + S i)%nat with (S k + i)%nat by lia. eapply Hw, Hi.
Qed.

Lemma place_cells_count word cs : forall k st st',
  NoDup cs ->
  (forall c, c ∈ cs -> usage_get (cell_usage st) c = 0 -> cell_letter st !! c = None) ->
  place_cells word k cs st = Ok st' ->
  forall ch, letter_count (cell_letter st') ch =
             letter_count (cell_letter st) ch + charged 0 (cell_usage st) word ch k cs.
Proof.
  induction cs as [|c cs IH]; intros k st st' Hnd Hfresh Hrun ch; simpl in Hrun.
  - injection Hrun as <-. simpl. lia.
  - apply NoDup_cons in Hnd as [Hnin Hnd].
    destruct (word !! k) as [l|] eqn:Ew; [|discriminate]. simpl in Hrun.
    rewrite (IH _ _ _ Hnd) with (2 := Hrun).
    + rewrite place_cell_count by (apply Hfresh; by left). simpl. rewrite Ew.
      rewrite (charged_ext 0 (cell_usage (place_cell l c st)) (cell_usage st)); [lia|].
      intros c' Hc'. rewrite place_cell_usage. clear IH Hfresh Hrun.
      split_cases.
    + intros c' Hc'. rewrite place_cell_usage, place_cell_letter.
      assert (Hne : c' <> c) by (intros ->; done).
      destruct (decide (c' = c)); [done|]. intros Hz.
      case_decide as Hd; [by destruct Hd|].
      apply Hfresh; [by right | lia].
Qed.

Lemma place_cells_ok word cs : forall k st,
  (forall i c, cs !! i = Some c -> is_Some (word !! (k + i)%nat)) ->
  exists st', place_cells word k cs st = Ok st'.
Proof.
  induction cs as [|c cs IH]; intros k st Hw; simpl; [by eexists|].
  destruct (Hw 0%nat c eq_refl) as [l Hl]. rewrite Nat.add_0_r in Hl.
  rewrite Hl. simpl. apply IH. intros i c' Hi.
  replace (S k + i)%nat with (k + S i)%nat by lia. by apply (Hw (S i) c').
Qed.

Lemma unplace_cells_spec word cs : forall k st st',
  NoDup cs ->
  unplace_cells word k cs st = Ok st' ->
  (forall c, usage_get (cell_usage st') c =
             usage_get (cell_usage st) c - (if decide (c ∈ cs) then 1 else 0)) /\
  (forall c, cell_letter st' !! c =
             if decide (c ∈ cs /\ usage_get (cell_usage st) c = 1)
             then None else cell_letter st !! c) /\
  (forall ch, counter_get (budget st') ch =
              counter_get (budget st) ch + charged 1 (cell_usage st) word ch k cs).
Proof.
  induction cs as [|c cs IH]; intros k st st' Hnd Hrun; simpl in Hrun.
  - injection Hrun as <-. split; [|split].
    + intros c. case_decide as Hin; [by inversion Hin | lia].
    + intros c. case_decide as Hin; [destruct Hin as [Hin _]; by inversion Hin | done].
    + intros ch. simpl. lia.
  - apply NoDup_cons in Hnd as [Hnin Hnd].
    destruct (word !! k) as [l|] eqn:Ew; [|discriminate]. simpl in Hrun.
    destruct (unplace_cell l c st) as [st1|] eqn:E; [|discriminate].
    simpl in Hrun.
    apply IH in Hrun as (Hu & Hl & Hb); [|done].
    split; [|split].
    + intros c'. rewrite Hu, (unplace_cell_usage _ _ _ _ E).
      clear IH Hu Hl Hb E. split_cases.
    + intros c'.
      rewrite Hl, (unplace_cell_usage _ _ _ _ E), (unplace_cell_letter _ _ _ _ E).
      clear IH Hu Hl Hb E. split_cases.
    + intros ch. rewrite Hb, (unplace_cell_budget _ _ _ _ E). simpl. rewrite Ew.
      rewrite (charged_ext 1 (cell_usage st1) (cell_usage st)).
      * clear IH Hu Hl Hb E. split_cases.
      * intros c' Hc'. rewrite (unplace_cell_usage _ _ _ _ E).
        clear IH Hu Hl Hb E. split_cases.
Qed.

Lemma unplace_cells_count word cs : forall k st st',
  NoDup cs ->
  (forall i c, cs !! i = Some c -> usage_get (cell_usage st) c = 1 ->
               is_Some (word !! (k + i)%nat) /\
               cell_letter st !! c = word !! (k + i)%nat) ->
  unplace_cells word k cs st = Ok st' ->
  forall ch, letter_count (cell_letter st') ch =
             letter_count (cell_letter st) ch - charged 1 (cell_usage st) word ch k cs.
Proof.
  induction cs as [|c cs IH]; intros k st st' Hnd Hheld Hrun ch; simpl in Hrun.
  - injection Hrun as <-. simpl. lia.
  - apply NoDup_cons in Hnd as [Hnin Hnd].
    destruct (word !! k) as [l|] eqn:Ew; [|discriminate]. simpl in Hrun.
    destruct (unplace_cell l c st) as [st1|] eqn:E; [|discriminate].
    simpl in Hrun.
    rewrite (IH _ _ _ Hnd) with (2 := Hrun).
    + rewrite (unplace_cell_count _ _ _ _ E).
      * simpl. rewrite Ew. rewrite (charged_ext 1 (cell_usage st1) (cell_usage st)); [lia|].
        intros c' Hc'. rewrite (unplace_cell_usage _ _ _ _ E).
        clear IH Hheld Hrun E. split_cases.
      * intros Hone. destruct (Hheld 0%nat c eq_refl Hone) as [_ Hc].
        rewrite Nat.add_0_r in Hc. congruence.
    + intros i c' Hi.
      assert (Hne : c' <> c).
      { intros ->. apply Hnin. eapply list_elem_of_lookup_2, Hi. }
      rewrite (unplace_cell_usage _ _ _ _ E), (unplace_cell_letter _ _ _ _ E).
      replace (S k + i)%nat with (k + S i)%nat by lia.
      destruct (decide (c' = c)); [done|]. intros Hone.
      case_decide as Hd; [by destruct Hd|].
      apply (Hheld (S i) c' Hi). lia.
Qed.

Lemma unplace_cells_ok word cs : forall k st,
  NoDup cs ->
  (forall i c, cs !! i = Some c -> is_Some (word !! (k + i)%nat)) ->
  (forall c, c ∈ cs -> usage_get (cell_usage st) c = 1 ->
             is_Some (cell_letter st !! c)) ->
  exists st', unplace_cells word k cs st = Ok st'.
Proof.
  induction cs as [|c cs IH]; intros k st Hnd Hw Hheld; simpl; [by eexists|].
  apply NoDup_cons in Hnd as [Hnin Hnd].
  destruct (Hw 0%nat c eq_refl) as [l Hl]. rewrite Nat.add_0_r in Hl.
  rewrite Hl. simpl.
  destruct (unplace_cell_ok l c st) as [st1 E]; [apply Hheld; by left|].
  rewrite E. simpl. apply IH; [done | |].
  - intros i c' Hi.
    replace (S k + i)%nat with (k + S i)%nat by lia. by apply (Hw (S i) c').
  - intros c' Hc'.
    rewrite (unplace_cell_usage _ _ _ _ E), (unplace_cell_letter _ _ _ _ E).
    assert (Hne : c' <> c) by (intros ->; done).
    destruct (decide (c' = c)); [done|]. intros Hone.
    case_decide as Hd; [by destruct Hd|].
    apply Hheld; [by right | lia].
Qed.

End SolverFacts.

(** ** The search: the invariant of the mutable state *)
Module SolverInvariant.
Import SolverFacts.

Lemma counter_get_Counter_from (p : str) (m : gmap N Z) ch :
  counter_get (fold_left (fun m ch => counter_add ch 1 m) p m) ch =
  counter_get m ch + Z.of_nat (count_occ N.eq_dec p ch).
Proof.
  revert m. induction p as [|x p IH]; intros m; simpl; [lia|].
  rewrite IH, counter_get_add.
  destruct (N.eq_dec x ch) as [->|Hne]; case_decide; subst; try done; lia.
Qed.

Lemma counter_get_Counter (p : str) ch :
  counter_get (Counter p) ch = Z.of_nat (count_occ N.eq_dec p ch).
Proof. unfold Counter. by rewrite counter_get_Counter_from. Qed.

Lemma counter_values_get (m : gmap N Z) v :
  In v (counter_values m) -> exists ch, m !! ch = Some v /\ counter_get m ch = v.
Proof.
  unfold counter_values. intros Hin. apply in_map_iff in Hin as ([ch v'] & <- & Hin).
  apply list_elem_of_In, elem_of_map_to_list in Hin.
  exists ch. split; [done|]. unfold counter_get. by rewrite Hin.
Qed.

Lemma get_counter_values (m : gmap N Z) ch v :
  m !! ch = Some v -> In v (counter_values m).
Proof.
  intros Hm. unfold counter_values. apply in_map_iff. exists (ch, v).
  split; [done|]. by apply list_elem_of_In, elem_of_map_to_list.
Qed.

Lemma sum_zero_all_zero (l : list Z) :
  (forall v, In v l -> 0 <= v) -> fold_right Z.add 0 l = 0 ->
  forall v, In v l -> v = 0.
Proof.
  induction l as [|x l IH]; intros Hpos Hsum v Hin; [destruct Hin|].
  simpl in Hsum.
  assert (0 <= x) by (apply Hpos; by left).
  assert (0 <= fold_right Z.add 0 l).
  { clear -Hpos. induction l as [|y l IH]; simpl; [lia|].
    assert (0 <= y) by (apply Hpos; right; by left).
    assert (0 <= fold_right Z.add 0 l); [|lia].
    apply IH. intros v [->|Hv]; apply Hpos; [by left | right; by right]. }
  destruct Hin as [->|Hin]; [lia|].
  apply IH; [|lia|done]. intros v' Hv'. apply Hpos. by right.
Qed.

Section Invariant.
Variables (e : env) (phrase : str).

Local Abbreviation cells_of := (cells_of e).
Local Abbreviation cover_count := (cover_count e).
Local Abbreviation Inv := (Inv e phrase).
Local Abbreviation inv_keys := (inv_keys e phrase).
Local Abbreviation inv_words := (inv_words e phrase).
Local Abbreviation inv_usage := (inv_usage e phrase).
Local Abbreviation inv_letter := (inv_letter e phrase).
Local Abbreviation inv_budget := (inv_budget e phrase).

Lemma Inv_ext st st' :
  budget st' = budget st -> cell_letter st' = cell_letter st ->
  cell_usage st' = cell_usage st -> sol st' = sol st ->
  Inv st -> Inv st'.
Proof.
  intros Hb Hl Hu Hs [].
  split; rewrite ?Hb, ?Hl, ?Hu, ?Hs; assumption.
Qed.

Lemma cover_count_nonneg l c : 0 <= cover_count l c.
Proof. unfold cover_count. lia. Qed.

Lemma cover_count_app l1 l2 c :
  cover_count (l1 ++ l2) c = cover_count l1 c + cover_count l2 c.
Proof. unfold cover_count. rewrite filter_app, length_app. lia. Qed.

Lemma cover_count_single sid w c :
  cover_count [(sid, w)] c = if decide (c ∈ cells_of sid) then 1 else 0.
Proof.
  unfold cover_count. rewrite filter_cons, filter_nil. simpl.
  by case_decide.
Qed.

Lemma cover_count_cons sw l c :
  cover_count (sw :: l) c =
  (if decide (c ∈ cells_of (fst sw)) then 1 else 0) + cover_count l c.
Proof.
  unfold cover_count. rewrite filter_cons. case_decide; simpl; lia.
Qed.

Lemma cover_count_pos l sid w c :
  In (sid, w) l -> c ∈ cells_of sid -> 1 <= cover_count l c.
Proof.
  induction l as [|sw l IH]; intros Hin Hc; [destruct Hin|].
  rewrite cover_count_cons. pose proof (cover_count_nonneg l c).
  destruct Hin as [->|Hin].
  - simpl. case_decide; [lia | done].
  - specialize (IH Hin Hc). case_decide; lia.
Qed.

Lemma In_ddel (l : dict str str) sid sid' w' :
  NoDup (dkeys l) ->
  (In (sid', w') (ddel sid l) <-> In (sid', w') l /\ sid' <> sid).
Proof.
  induction l as [|[k v] l IH]; intros Hnd; simpl; [tauto|].
  apply NoDup_cons in Hnd as [Hnin Hnd].
  destruct (decide (sid = k)) as [->|Hne].
  - split.
    + intros Hin. split; [by right|]. intros ->. apply Hnin.
      apply list_elem_of_In. change (In k (map fst l)).
      apply in_map_iff. by exists (k, w').
    + intros [[Heq|Hin] Hn]; [congruence | done].
  - simpl. rewrite IH by done. split.
    + intros [Heq|[Hin Hn]]; [|tauto]. split; [by left | congruence].
    + intros [[Heq|Hin] Hn]; [by left | tauto].
Qed.

Lemma dkeys_ddel_NoDup (l : dict str str) sid :
  NoDup (dkeys l) -> NoDup (dkeys (ddel sid l)).
Proof.
  induction l as [|[k v] l IH]; intros Hnd; simpl; [done|].
  apply NoDup_cons in Hnd as [Hnin Hnd].
  destruct (decide (sid = k)); [done|]. simpl.
  apply NoDup_cons. split; [|by apply IH].
  intros Hin. apply Hnin. apply list_elem_of_In in Hin.
  apply list_elem_of_In. unfold dkeys in *.
  apply in_map_iff in Hin as ([k' v'] & Hk & Hin). simpl in Hk. subst k'.
  assert (Hnd' : NoDup (dkeys l)) by done.
  apply (In_ddel l sid k v' Hnd') in Hin as [Hin _].
  apply in_map_iff. by exists (k, v').
Qed.

Lemma cover_count_ddel (l : dict str str) sid w c :
  NoDup (dkeys l) -> In (sid, w) l ->
  cover_count (ddel sid l) c =
  cover_count l c - (if decide (c ∈ cells_of sid) then 1 else 0).
Proof.
  induction l as [|[k v] l IH]; intros Hnd Hin; [destruct Hin|].
  apply NoDup_cons in Hnd as [Hnin Hnd]. simpl.
  destruct (decide (sid = k)) as [->|Hne].
  - rewrite cover_count_cons. simpl. lia.
  - destruct Hin as [Heq|Hin]; [congruence|].
    rewrite !cover_count_cons, IH by done. simpl. lia.
Qed.

(** *** [can_place] *)

Lemma fresh_need_charged cl u word ch k cs :
  (forall c, c ∈ cs -> cl !! c = None <-> usage_get u c = 0) ->
  fresh_need cl word ch k cs = charged 0 u word ch k cs.
Proof.
  revert k. induction cs as [|c cs IH]; intros k Hiff; simpl; [done|].
  rewrite IH by (intros c' Hc'; apply Hiff; by right).
  pose proof (Hiff c (list_elem_of_here _ _)) as Hc.
  repeat case_decide; try lia; exfalso; tauto.
Qed.

Lemma need_of_spec st word cs : forall k need0 need,
  need_of st word k cs need0 = Ok (Some need) ->
  (forall i c, cs !! i = Some c ->
     exists ch, word !! (k + i)%nat = Some ch /\
                forall l, cell_letter st !! c = Some l -> l = ch) /\
  (forall ch, counter_get need ch =
              counter_get need0 ch + fresh_need (cell_letter st) word ch k cs).
Proof.
  induction cs as [|c cs IH]; intros k need0 need Hrun; simpl in Hrun.
  - injection Hrun as <-. split; [done|]. intros ch. simpl. lia.
  - destruct (word !! k) as [l|] eqn:Ew; [|discriminate]. simpl in Hrun.
    destruct (cell_letter st !! c) as [l'|] eqn:Ec.
    + destruct (decide (l' = l)) as [->|]; [|discriminate].
      apply IH in Hrun as [Hw Hn]. split.
      * intros i c' Hi. destruct i as [|i]; simpl in Hi.
        -- injection Hi as <-. rewrite Nat.add_0_r. exists l.
           split; [done|]. intros l0. rewrite Ec. congruence.
        -- replace (k + S i)%nat with (S k + i)%nat by lia. by apply Hw.
      * intros ch. rewrite Hn. simpl. rewrite Ec.
        case_decide as Hd; [by destruct Hd | lia].
    + apply IH in Hrun as [Hw Hn]. split.
      * intros i c' Hi. destruct i as [|i]; simpl in Hi.
        -- injection Hi as <-. rewrite Nat.add_0_r. exists l.
           split; [done|]. intros l0. rewrite Ec. congruence.
        -- replace (k + S i)%nat with (S k + i)%nat by lia. by apply Hw.
      * intros ch. rewrite Hn, counter_get_add. simpl. rewrite Ec, Ew.
        repeat case_decide; try lia; exfalso; intuition congruence.
Qed.

Lemma need_fits_spec need b :
  need_fits need b = true ->
  (forall ch, 0 <= counter_get b ch) ->
  forall ch, counter_get need ch <= counter_get b ch.
Proof.
  intros Hfit Hpos ch. unfold need_fits in Hfit.
  rewrite forallb_forall in Hfit.
  unfold counter_get at 1. destruct (need !! ch) as [v|] eqn:E; simpl.
  - specialize (Hfit (ch, v)). simpl in Hfit.
    apply negb_true_iff, Z.ltb_ge in Hfit; [done|].
    by apply list_elem_of_In, elem_of_map_to_list.
  - apply Hpos.
Qed.

Lemma can_place_spec st sid w :
  can_place e st sid w = Ok true ->
  exists s, dget sid (by_id e) = Some s /\
    (forall i c, cells s !! i = Some c ->
       exists ch, w !! i = Some ch /\
                  forall l, cell_letter st !! c = Some l -> l = ch) /\
    ((forall ch, 0 <= counter_get (budget st) ch) ->
     forall ch, fresh_need (cell_letter st) w ch 0 (cells s)
                <= counter_get (budget st) ch).
Proof.
  unfold can_place. intros Hrun.
  destruct (dget sid (by_id e)) as [s|]; [|discriminate]. simpl in Hrun.
  destruct (dget sid (sid_to_class e)) as [cls|]; [|discriminate].
  simpl in Hrun.
  destruct (class_members e cls (ids e)) as [members|]; [|discriminate].
  simpl in Hrun.
  destruct (symmetry_ok st sid w members); [|discriminate]. simpl in Hrun.
  destruct (crossing_ok st w _) as [[|]|]; try discriminate. simpl in Hrun.
  destruct (need_of st w 0 (cells s) ∅) as [[need|]|] eqn:En; try discriminate.
  simpl in Hrun. injection Hrun as Hfit.
  apply need_of_spec in En as [Hw Hn].
  exists s. split; [done|]. split; [exact Hw|].
  intros Hpos ch.
  pose proof (need_fits_spec _ _ Hfit Hpos ch) as Hle.
  rewrite Hn in Hle. unfold counter_get at 1 in Hle.
  rewrite lookup_empty in Hle. simpl in Hle. lia.
Qed.

(** *** [place] and [unplace] keep the invariant *)
Hypothesis cells_NoDup :
  forall sid s, dget sid (by_id e) = Some s -> NoDup (cells s).

Lemma place_inv st sid w st' :
  Inv st -> dget sid (sol st) = None ->
  can_place e st sid w = Ok true ->
  place e st sid w = Ok st' ->
  Inv st' /\ sol st' = sol st ++ [(sid, w)] /\
  solutions st' = solutions st /\ seen_signatures st' = seen_signatures st /\
  ticks st' = ticks st /\ last_ping st' = last_ping st.
Proof.
  intros HI Hfree Hcan Hrun.
  apply can_place_spec in Hcan as (s & Hs & Hw & Hneed).
  unfold place in Hrun. rewrite Hs in Hrun. simpl in Hrun.
  destruct (place_cells w 0 (cells s) st) as [st1|] eqn:E1; [|discriminate].
  simpl in Hrun. injection Hrun as <-.
  pose proof (cells_NoDup sid s Hs) as Hnd.
  pose proof (place_cells_frame _ _ _ _ _ E1) as [Fs Fl Fn Fp Ft].
  pose proof (place_cells_spec _ _ _ _ _ Hnd E1) as (Hu & Hl & Hb & _).
  assert (Hcount := place_cells_count _ _ _ _ _ Hnd
                      (fun c _ Hz => proj2 (inv_letter st HI c) Hz) E1).
  assert (Hcells : cells_of sid = cells s) by (unfold cells_of; by rewrite Hs).
  assert (Hsol : sol (with_sol (dset sid w (sol st1)) st1) = sol st ++ [(sid, w)]).
  { simpl. rewrite Fs. by apply dset_fresh. }
  split; [|by repeat split].
  split; simpl; rewrite ?Fs, ?dset_fresh by done.
  - unfold dkeys. rewrite map_app. simpl. apply NoDup_app.
    split; [apply (inv_keys st HI)|]. split; [|apply NoDup_singleton].
    intros k Hk Hk'. apply list_elem_of_singleton in Hk'. subst k.
    apply dget_None_keys in Hfree. apply Hfree. by apply list_elem_of_In.
  - intros sid' w' Hin i c Hi. rewrite Hl.
    apply in_app_iff in Hin as [Hin|[[= <- <-]|[]]].
    + destruct (inv_words st HI sid' w' Hin i c Hi) as (ch & Hch & Hc).
      exists ch. split; [done|]. case_decide as Hd; [|done].
      destruct Hd as [_ Hz]. apply (inv_letter st HI) in Hz. congruence.
    + rewrite Hcells in Hi. destruct (Hw i c Hi) as (ch & Hch & Hsame).
      exists ch. split; [done|]. case_decide as Hd.
      * by rewrite (letter_at_lookup w 0 (cells s) c i Hnd Hi).
      * destruct (cell_letter st !! c) as [l|] eqn:Ec.
        -- f_equal. by apply Hsame.
        -- destruct Hd. split; [by eapply list_elem_of_lookup_2|].
           by apply (inv_letter st HI).
  - intros c. rewrite Hu, cover_count_app, cover_count_single, Hcells.
    by rewrite (inv_usage st HI).
  - intros c. rewrite Hu, Hl.
    pose proof (cover_count_nonneg (sol st) c) as Hpos.
    rewrite <- (inv_usage st HI) in Hpos.
    pose proof (inv_letter st HI c) as Hiff.
    destruct (decide (c ∈ cells s)) as [Hin|Hnin].
    + apply list_elem_of_lookup_1 in Hin as Hi. destruct Hi as [i Hi].
      destruct (Hw i c Hi) as (ch & Hch & _).
      case_decide as Hd.
      * rewrite (letter_at_lookup w 0 (cells s) c i Hnd Hi). simpl.
        rewrite Hch. split; [done | lia].
      * split; [|lia]. intros Hnone. destruct Hd. split; [done | tauto].
    + case_decide as Hd; [by destruct Hd|]. rewrite Z.add_0_r. done.
  - intros ch. rewrite Hb, Hcount.
    destruct (inv_budget st HI ch) as [Hpos Hsum].
    assert (Hle := Hneed (fun ch => proj1 (inv_budget st HI ch)) ch).
    rewrite (fresh_need_charged _ (cell_usage st)) in Hle
      by (intros c _; apply (inv_letter st HI)).
    split; lia.
Qed.

Lemma place_ok st sid w :
  can_place e st sid w = Ok true -> exists st', place e st sid w = Ok st'.
Proof.
  intros Hcan. apply can_place_spec in Hcan as (s & Hs & Hw & _).
  unfold place. rewrite Hs. simpl.
  destruct (place_cells_ok w (cells s) 0 st) as [st1 ->]; [|by eexists].
  intros i c Hi. simpl. destruct (Hw i c Hi) as (ch & -> & _). by eexists.
Qed.

Lemma unplace_inv st sid w s :
  Inv st -> In (sid, w) (sol st) -> dget sid (by_id e) = Some s ->
  exists st', unplace e st sid w = Ok st' /\
    Inv st' /\ sol st' = ddel sid (sol st) /\
    solutions st' = solutions st /\ seen_signatures st' = seen_signatures st /\
    ticks st' = ticks st /\ last_ping st' = last_ping st.
Proof.
  intros HI Hin Hs.
  pose proof (cells_NoDup sid s Hs) as Hnd.
  assert (Hcells : cells_of sid = cells s) by (unfold cells_of; by rewrite Hs).
  assert (Hwords : forall i c, cells s !! i = Some c ->
            exists ch, w !! i = Some ch /\ cell_letter st !! c = Some ch).
  { intros i c Hi. apply (inv_words st HI sid w Hin). by rewrite Hcells. }
  assert (Hcover : forall c, c ∈ cells s -> 1 <= usage_get (cell_usage st) c).
  { intros c Hc. rewrite (inv_usage st HI).
    eapply cover_count_pos; [exact Hin | by rewrite Hcells]. }
  destruct (unplace_cells_ok w (cells s) 0 st Hnd) as [st1 E1].
  { intros i c Hi. simpl. destruct (Hwords i c Hi) as (ch & -> & _). by eexists. }
  { intros c Hc Hone. destruct (cell_letter st !! c) eqn:Ec; [by eexists|].
    apply (inv_letter st HI) in Ec. lia. }
  pose proof (unplace_cells_frame _ _ _ _ _ E1) as [Fs Fl Fn Fp Ft].
  pose proof (unplace_cells_spec _ _ _ _ _ Hnd E1) as (Hu & Hl & Hb).
  assert (Hcount : forall ch, letter_count (cell_letter st1) ch =
            letter_count (cell_letter st) ch
            - charged 1 (cell_usage st) w ch 0 (cells s)).
  { eapply unplace_cells_count; [exact Hnd | | exact E1].
    intros i c Hi _. destruct (Hwords i c Hi) as (ch & Hch & Hc).
    simpl. rewrite Hch. split; [by eexists | done]. }
  unfold unplace. rewrite Hs. simpl. rewrite E1. simpl. rewrite Fs.
  rewrite (In_dget_nodup sid w (sol st) (inv_keys st HI) Hin).
  eexists. split; [reflexivity|]. split; [|by repeat split].
  split; simpl.
  - apply dkeys_ddel_NoDup, (inv_keys st HI).
  - intros sid' w' Hin' i c Hi. rewrite Hl.
    assert (Hin2 := Hin').
    apply (In_ddel _ _ _ _ (inv_keys st HI)) in Hin2 as [Hin2 Hne].
    destruct (inv_words st HI sid' w' Hin2 i c Hi) as (ch & Hch & Hc).
    exists ch. split; [done|]. case_decide as Hd; [|done].
    destruct Hd as [Hcs Hone]. exfalso.
    assert (1 <= cover_count (ddel sid (sol st)) c).
    { eapply cover_count_pos; [exact Hin'|]. by eapply list_elem_of_lookup_2. }
    rewrite (cover_count_ddel _ sid w c (inv_keys st HI) Hin) in *.
    rewrite <- (inv_usage st HI), Hcells in *.
    case_decide; [lia | done].
  - intros c. rewrite Hu, (cover_count_ddel _ sid w c (inv_keys st HI) Hin).
    by rewrite (inv_usage st HI), Hcells.
  - intros c. rewrite Hu, Hl.
    pose proof (inv_letter st HI c) as Hiff.
    destruct (decide (c ∈ cells s)) as [Hc|Hc].
    + specialize (Hcover c Hc). case_decide as Hd.
      * destruct Hd as [_ Hone]. split; [lia | done].
      * split; [intros Hnone; apply Hiff in Hnone; lia|].
        intros Hz. destruct Hd. split; [done | lia].
    + case_decide as Hd; [by destruct Hd|]. by rewrite Z.sub_0_r.
  - intros ch. rewrite Hb, Hcount.
    destruct (inv_budget st HI ch) as [Hpos Hsum].
    pose proof (charged_nonneg 1 (cell_usage st) w ch 0 (cells s)).
    split; lia.
Qed.

Lemma Inv_initial st :
  budget st = Counter phrase -> cell_letter st = ∅ -> cell_usage st = ∅ ->
  sol st = [] -> Inv st.
Proof.
  intros Hb Hl Hu Hs. split; rewrite ?Hb, ?Hl, ?Hu, ?Hs.
  - constructor.
  - intros sid w [].
  - intros c. reflexivity.
  - intros c. rewrite lookup_empty. unfold usage_get.
    by rewrite lookup_empty.
  - intros ch. rewrite counter_get_Counter. unfold letter_count.
    rewrite map_filter_empty, map_size_empty. lia.
Qed.

Lemma Inv_guard st :
  Inv st -> forallb (fun v => 0 <=? v) (counter_values (budget st)) = true.
Proof.
  intros HI. apply forallb_forall. intros v Hv.
  apply counter_values_get in Hv as (ch & _ & <-).
  apply Z.leb_le, (inv_budget st HI).
Qed.

Lemma Inv_goal st :
  Inv st ->
  fold_right Z.add 0 (counter_values (budget st)) = 0 ->
  forall ch, letter_count (cell_letter st) ch =
             Z.of_nat (count_occ N.eq_dec phrase ch).
Proof.
  intros HI Hsum ch.
  destruct (inv_budget st HI ch) as [_ <-].
  assert (counter_get (budget st) ch = 0) as ->; [|lia].
  unfold counter_get. destruct (budget st !! ch) as [v|] eqn:E; [|done].
  simpl. eapply sum_zero_all_zero; [|exact Hsum|by eapply get_counter_values].
  intros v' Hv'. apply counter_values_get in Hv' as (ch' & _ & <-).
  apply (inv_budget st HI).
Qed.
End Invariant.

End SolverInvariant.

(** ** The search: what [dfs] returns *)
Module SolverSearch.
Import SolverFacts SolverInvariant.

Lemma time_core e st : same_core st (snd (time e st)).
Proof. by split. Qed.

Lemma past_deadline_core e st : same_core st (snd (past_deadline e st)).
Proof. unfold past_deadline. by split. Qed.

Lemma maybe_ping_core e st : same_core st (maybe_ping e st).
Proof. unfold maybe_ping, time. destruct (_ && _); by split. Qed.

Lemma enough_core e st st' : same_core st st' -> enough e st' = enough e st.
Proof. intros []. unfold enough. congruence. Qed.

Opaque past_deadline maybe_ping enough can_place place unplace record_goal.

Section Search.
Variables (e : env) (phrase : str).
Hypothesis cells_NoDup :
  forall sid s, dget sid (by_id e) = Some s -> NoDup (cells s).
Hypothesis ids_NoDup : NoDup (ids e).

Local Abbreviation Inv := (Inv e phrase).
Local Abbreviation cells_of := (cells_of e).
Local Abbreviation from_cand := (from_cand e).
Local Abbreviation filled := (filled e phrase).
Local Abbreviation good := (good e phrase).
Local Abbreviation searched := (searched e phrase).

Lemma searched_core st st' : same_core st st' -> Inv st -> searched st st'.
Proof.
  intros [] HI. split; [by apply (Inv_ext e phrase st)|]. split; [done|].
  exists []. rewrite app_nil_r. by split.
Qed.

Lemma searched_trans st1 st2 st3 :
  searched st1 st2 -> searched st2 st3 -> searched st1 st3.
Proof.
  intros (_ & Hs & n1 & Hn1 & Hg1) (HI & Hs' & n2 & Hn2 & Hg2).
  split; [done|]. split; [congruence|].
  exists (n1 ++ n2). split; [by rewrite Hn2, Hn1, app_assoc|].
  by apply Forall_app.
Qed.

Lemma cover_count_witness l c :
  cover_count e l c <> 0 -> exists sid w, In (sid, w) l /\ c ∈ cells_of sid.
Proof.
  induction l as [|[sid w] l IH]; [done|].
  rewrite cover_count_cons. simpl. case_decide as Hd.
  - intros _. exists sid, w. split; [by left | done].
  - intros Hn. destruct IH as (sid' & w' & Hin & Hc); [lia|].
    exists sid', w'. split; [by right | done].
Qed.

Lemma record_goal_searched st st' :
  Inv st -> dkeys (sol st) = ids e -> from_cand (sol st) ->
  record_goal e st = Ok st' -> searched st st'.
Proof.
  intros HI Hkeys Hcand Hrun. Transparent record_goal.
  unfold record_goal in Hrun. Opaque record_goal.
  destruct (forallb _ _ && _) eqn:Egoal; cycle 1.
  { injection Hrun as <-. apply searched_core; [by split | done]. }
  apply andb_true_iff in Egoal as [_ Hsum]. apply Z.eqb_eq in Hsum.
  destruct (class_signature (sid_to_class e) (sol st)) as [sig|]; [|discriminate].
  simpl in Hrun. case_bool_decide.
  { injection Hrun as <-. apply searched_core; [by split | done]. }
  assert (Hgood : good (sol st)).
  { split; [done|]. split; [done|].
    exists (cell_letter st). split; [apply (inv_words _ _ _ HI)|]. split.
    - intros c [l Hl]. apply cover_count_witness.
      rewrite <- (inv_usage _ _ _ HI). intros Hz.
      apply (proj2 (inv_letter e phrase st HI c)) in Hz. congruence.
    - exact (Inv_goal e phrase st HI Hsum). }
  destruct (quiet e); injection Hrun as <-;
    (split; [by apply (Inv_ext e phrase st)|]); (split; [done|]);
    exists [sol st]; (split; [done | by constructor]).
Qed.

Lemma unplace_fun st sid w s st' :
  Inv st -> In (sid, w) (sol st) -> dget sid (by_id e) = Some s ->
  unplace e st sid w = Ok st' ->
  Inv st' /\ sol st' = ddel sid (sol st) /\
  solutions st' = solutions st /\ seen_signatures st' = seen_signatures st.
Proof.
  intros HI Hin Hs Hrun.
  destruct (unplace_inv e phrase cells_NoDup st sid w s HI Hin Hs)
    as (st2 & Hrun2 & H1 & H2 & H3 & H4 & _).
  rewrite Hrun in Hrun2. injection Hrun2 as <-. done.
Qed.

Section Loop.
Variables (placed : list str) (sid : str) (words : list str)
          (next : state -> result state).
Hypothesis sid_fresh : ~ In sid placed.
Hypothesis cand_sid : dget sid (cand e) = Some words.
Hypothesis next_searched : forall st st',
  dkeys (sol st) = placed ++ [sid] -> Inv st -> from_cand (sol st) ->
  next st = Ok st' -> searched st st'.

Lemma try_words_searched ws : forall st st',
  (forall w, In w ws -> In w words) ->
  dkeys (sol st) = placed -> Inv st -> from_cand (sol st) ->
  try_words e next sid ws st = Ok st' -> searched st st'.
Proof.
  induction ws as [|w ws IH]; intros st st' Hsub Hkeys HI Hcand Hrun;
    simpl in Hrun.
  { injection Hrun as <-. apply searched_core; [by split | done]. }
  pose proof (past_deadline_core e st) as Hc0.
  destruct (past_deadline e st) as [late st0]. simpl in Hc0, Hrun.
  assert (HI0 : Inv st0) by (destruct Hc0; by apply (Inv_ext e phrase st)).
  assert (Hs0 : sol st0 = sol st) by apply Hc0.
  eapply searched_trans; [apply (searched_core st st0 Hc0 HI)|].
  destruct late.
  { injection Hrun as <-. apply searched_core; [by split | done]. }
  destruct (can_place e st0 sid w) as [[|]|] eqn:Ecan; simpl in Hrun;
    try discriminate; cycle 1.
  { apply IH; [intros w' Hw'; apply Hsub; by right | congruence | done
               | | exact Hrun].
    intros sid' w' Hin. apply Hcand. congruence. }
  destruct (place e st0 sid w) as [st1|] eqn:Eplace; [|discriminate].
  simpl in Hrun.
  destruct (next st1) as [st2|] eqn:Enext; [|discriminate]. simpl in Hrun.
  destruct (unplace e st2 sid w) as [st3|] eqn:Eun; [|discriminate].
  simpl in Hrun.
  assert (Hfree : dget sid (sol st0) = None).
  { apply dget_None_keys. rewrite Hs0, Hkeys. done. }
  destruct (place_inv e phrase cells_NoDup st0 sid w st1 HI0 Hfree Ecan Eplace)
    as (HI1 & Hs1 & Hn1 & _).
  assert (Hsearch2 : searched st1 st2).
  { apply next_searched; [| done | | done].
    - rewrite Hs1. unfold dkeys. rewrite map_app. simpl.
      unfold dkeys in Hkeys. by rewrite Hs0, Hkeys.
    - intros sid' w' Hin. rewrite Hs1 in Hin.
      apply in_app_iff in Hin as [Hin|[[= <- <-]|[]]].
      + apply Hcand. by rewrite <- Hs0.
      + exists words. split; [done|]. apply Hsub. by left. }
  destruct Hsearch2 as (HI2 & Hs2 & new & Hn2 & Hg2).
  apply can_place_spec in Ecan as (s & Hs & _).
  assert (Hin2 : In (sid, w) (sol st2)).
  { rewrite Hs2, Hs1. apply in_app_iff. right. by left. }
  destruct (unplace_fun st2 sid w s st3 HI2 Hin2 Hs Eun)
    as (HI3 & Hs3 & Hn3 & _).
  assert (Hsol3 : sol st3 = sol st0).
  { rewrite Hs3, Hs2, Hs1. by apply ddel_app_fresh. }
  assert (Hstep : searched st0 st3).
  { split; [done|]. split; [done|]. exists new.
    split; [congruence | done]. }
  eapply searched_trans; [exact Hstep|].
  destruct (enough e st3).
  { injection Hrun as <-. apply searched_core; [by split | done]. }
  pose proof (past_deadline_core e st3) as Hc3.
  destruct (past_deadline e st3) as [late3 st4]. simpl in Hc3, Hrun.
  assert (HI4 : Inv st4) by (destruct Hc3; by apply (Inv_ext e phrase st3)).
  eapply searched_trans; [apply (searched_core st3 st4 Hc3 HI3)|].
  destruct late3.
  { injection Hrun as <-. apply searched_core; [by split | done]. }
  pose proof (maybe_ping_core e st4) as Hc4.
  assert (HI5 : Inv (maybe_ping e st4)) by (destruct Hc4; by apply (Inv_ext e phrase st4)).
  eapply searched_trans; [apply (searched_core _ _ Hc4 HI4)|].
  apply IH; auto.
  - intros w' Hw'. apply Hsub. by right.
  - destruct Hc4, Hc3. congruence.
  - destruct Hc4, Hc3. intros sid' w' Hin. apply Hcand. congruence.
Qed.
End Loop.

Lemma dfs_searched rest : forall placed st st',
  ids e = placed ++ rest ->
  dkeys (sol st) = placed -> Inv st -> from_cand (sol st) ->
  dfs e rest st = Ok st' -> searched st st'.
Proof.
  induction rest as [|sid rest IH]; intros placed st st' Hids Hkeys HI Hcand Hrun;
    simpl in Hrun;
    pose proof (past_deadline_core e st) as Hc0;
    destruct (past_deadline e st) as [late st0]; simpl in Hc0, Hrun;
    assert (HI0 : Inv st0) by (destruct Hc0; by apply (Inv_ext e phrase st));
    (eapply searched_trans; [apply (searched_core st st0 Hc0 HI)|]);
    (destruct late;
     [injection Hrun as <-; apply searched_core; [by split | done]|]);
    (destruct (enough e st0);
     [injection Hrun as <-; apply searched_core; [by split | done]|]).
  - apply record_goal_searched; auto.
    + destruct Hc0. rewrite Hids, app_nil_r. congruence.
    + destruct Hc0. intros sid' w' Hin. apply Hcand. congruence.
  - destruct (dget sid (cand e)) as [ws|] eqn:Ews; [|discriminate].
    simpl in Hrun.
    assert (Hnd := ids_NoDup). rewrite Hids in Hnd.
    apply NoDup_app in Hnd as (_ & Hdisj & _).
    eapply (try_words_searched placed sid ws (dfs e rest)); eauto.
    + intros Hin. apply (Hdisj sid); [by apply list_elem_of_In | by left].
    + intros st1 st1' Hk1 HI1 Hc1 Hrun1.
      eapply (IH (placed ++ [sid])); eauto.
      by rewrite <- app_assoc.
    + destruct Hc0. congruence.
    + destruct Hc0. intros sid' w' Hin. apply Hcand. congruence.
Qed.
End Search.

(** *** Signatures of the recorded solutions *)
Section Signatures.
Variable e : env.
Local Abbreviation distinct_signatures := (distinct_signatures e).

Lemma distinct_core st st' :
  solutions st' = solutions st -> seen_signatures st' = seen_signatures st ->
  distinct_signatures st -> distinct_signatures st'.
Proof. unfold distinct_signatures. by intros -> ->. Qed.

Lemma place_frame st sid w st' :
  place e st sid w = Ok st' ->
  solutions st' = solutions st /\ seen_signatures st' = seen_signatures st.
Proof.
  Transparent place. unfold place. Opaque place. intros Hrun.
  destruct (dget sid (by_id e)); [|discriminate]. simpl in Hrun.
  destruct (place_cells _ _ _ _) as [st1|] eqn:E; [|discriminate].
  injection Hrun as <-. apply place_cells_frame in E as []. by split.
Qed.

Lemma unplace_frame st sid w st' :
  unplace e st sid w = Ok st' ->
  solutions st' = solutions st /\ seen_signatures st' = seen_signatures st.
Proof.
  Transparent unplace. unfold unplace. Opaque unplace. intros Hrun.
  destruct (dget sid (by_id e)); [|discriminate]. simpl in Hrun.
  destruct (unplace_cells _ _ _ _) as [st1|] eqn:E; [|discriminate].
  simpl in Hrun. destruct (dget sid (sol st1)); [|discriminate].
  injection Hrun as <-. apply unplace_cells_frame in E as []. by split.
Qed.

Lemma record_goal_distinct st st' :
  distinct_signatures st -> record_goal e st = Ok st' ->
  distinct_signatures st'.
Proof.
  intros HD Hrun. Transparent record_goal.
  unfold record_goal in Hrun. Opaque record_goal.
  destruct (forallb _ _ && _); [|by injection Hrun as <-].
  destruct (class_signature (sid_to_class e) (sol st)) as [sig|] eqn:Esig; [|discriminate].
  simpl in Hrun. case_bool_decide as Hseen; [by injection Hrun as <-|].
  destruct HD as [Hnd Hmap].
  assert (HD' : forall st1, solutions st1 = solutions st ++ [sol st] ->
            seen_signatures st1 = seen_signatures st ++ [sig] ->
            distinct_signatures st1).
  { intros st1 Hs1 Hs2. unfold distinct_signatures. rewrite Hs1, Hs2. split.
    - apply NoDup_app. split; [done|]. split; [|apply NoDup_singleton].
      intros x Hx Hx'. apply list_elem_of_singleton in Hx'. by subst.
    - rewrite !map_app, Hmap. simpl. by rewrite Esig. }
  destruct (quiet e); injection Hrun as <-; by apply HD'.
Qed.

Lemma try_words_distinct next sid ws :
  (forall st st', distinct_signatures st -> next st = Ok st' ->
                  distinct_signatures st') ->
  forall st st', distinct_signatures st ->
  try_words e next sid ws st = Ok st' -> distinct_signatures st'.
Proof.
  intros Hnext. induction ws as [|w ws IH]; intros st st' HD Hrun;
    simpl in Hrun; [by injection Hrun as <-|].
  pose proof (past_deadline_core e st) as Hc0.
  destruct (past_deadline e st) as [late st0]. simpl in Hc0, Hrun.
  assert (HD0 : distinct_signatures st0)
    by (destruct Hc0; by eapply distinct_core).
  destruct late; [by injection Hrun as <-|].
  destruct (can_place e st0 sid w) as [[|]|]; simpl in Hrun;
    try discriminate; [|by eapply IH].
  destruct (place e st0 sid w) as [st1|] eqn:Eplace; [|discriminate].
  simpl in Hrun.
  destruct (next st1) as [st2|] eqn:Enext; [|discriminate]. simpl in Hrun.
  destruct (unplace e st2 sid w) as [st3|] eqn:Eun; [|discriminate].
  simpl in Hrun.
  apply place_frame in Eplace as [Hp1 Hp2].
  apply unplace_frame in Eun as [Hu1 Hu2].
  assert (HD1 : distinct_signatures st1) by by eapply distinct_core.
  assert (HD2 : distinct_signatures st2) by by eapply Hnext.
  assert (HD3 : distinct_signatures st3) by by eapply distinct_core.
  destruct (enough e st3); [by injection Hrun as <-|].
  pose proof (past_deadline_core e st3) as Hc3.
  destruct (past_deadline e st3) as [late3 st4]. simpl in Hc3, Hrun.
  assert (HD4 : distinct_signatures st4)
    by (destruct Hc3; by eapply distinct_core).
  destruct late3; [by injection Hrun as <-|].
  eapply IH; [|exact Hrun].
  destruct (maybe_ping_core e st4). by eapply distinct_core.
Qed.

Lemma dfs_distinct rest : forall st st',
  distinct_signatures st -> dfs e rest st = Ok st' -> distinct_signatures st'.
Proof.
  induction rest as [|sid rest IH]; intros st st' HD Hrun; simpl in Hrun;
    pose proof (past_deadline_core e st) as Hc0;
    destruct (past_deadline e st) as [late st0]; simpl in Hc0, Hrun;
    assert (HD0 : distinct_signatures st0)
      by (destruct Hc0; by eapply distinct_core);
    (destruct late; [by injection Hrun as <-|]);
    (destruct (enough e st0); [by injection Hrun as <-|]).
  - by eapply record_goal_distinct.
  - destruct (dget sid (cand e)) as [ws|]; [|discriminate]. simpl in Hrun.
    eapply try_words_distinct; [|exact HD0|exact Hrun]. apply IH.
Qed.
End Signatures.

Transparent past_deadline maybe_ping enough can_place place unplace record_goal.

End SolverSearch.

(** ** The search: [find_solutions_for_grid] *)
Module SolverTheorems.
Import SolverFacts SolverInvariant SolverSearch.

(** The deadline: the conversion of the time limit to a float is all that
    can fail. *)
Lemma float_int_limit_pos : 0 < float_int_limit.
Proof. by vm_compute. Qed.

Lemma make_deadline_Ok start pgt d :
  make_deadline start pgt = Ok d ->
  d = if 0 <? pgt then Some (start + inject_Z pgt)%Q else None.
Proof.
  unfold make_deadline. destruct (0 <? pgt); [|by intros [= <-]].
  destruct (float_int_limit <=? pgt); [discriminate | by intros [= <-]].
Qed.

Lemma make_deadline_within start pgt :
  pgt < float_int_limit ->
  make_deadline start pgt =
  Ok (if 0 <? pgt then Some (start + inject_Z pgt)%Q else None).
Proof.
  intros Hlt. unfold make_deadline. destruct (0 <? pgt); [|done].
  by destruct (Z.leb_spec float_int_limit pgt); [lia|].
Qed.

Lemma make_deadline_overflow start pgt :
  float_int_limit <= pgt -> make_deadline start pgt = Raise OverflowError.
Proof.
  intros Hle. pose proof float_int_limit_pos. unfold make_deadline.
  destruct (Z.ltb_spec 0 pgt); [|lia].
  by destruct (Z.leb_spec float_int_limit pgt); [|lia].
Qed.

Lemma find_solutions_overflow slots inter phrase cand pgt maxs q clock :
  float_int_limit <= pgt ->
  find_solutions_for_grid slots inter phrase cand pgt maxs q clock
  = Raise OverflowError.
Proof.
  intros Hle. unfold find_solutions_for_grid.
  by rewrite make_deadline_overflow.
Qed.

Lemma find_solutions_unfold slots inter phrase cand pgt maxs q clock sols :
  find_solutions_for_grid slots inter phrase cand pgt maxs q clock = Ok sols ->
  exists eqc stc ordered st',
    slot_equivalence_classes slots inter = Ok (eqc, stc) /\
    order_slots slots cand inter = Ok ordered /\
    dfs (search_env slots inter cand pgt maxs q clock stc ordered)
        (map slot_id ordered) (search_start phrase clock) = Ok st' /\
    sols = solutions st'.
Proof.
  unfold find_solutions_for_grid. intros Hrun.
  apply bind_Ok in Hrun as (d & Hd & Hrun). apply make_deadline_Ok in Hd as ->.
  destruct (slot_equivalence_classes slots inter) as [[eqc stc]|]; [|discriminate].
  simpl in Hrun.
  destruct (order_slots slots cand inter) as [ordered|]; [|discriminate].
  simpl in Hrun.
  match type of Hrun with
  | (?d ≫= _) = _ => destruct d as [st'|] eqn:Edfs; [|discriminate]
  end.
  simpl in Hrun. injection Hrun as <-.
  exists eqc, stc, ordered, st'. repeat split. exact Edfs.
Qed.

Lemma slot_keys_snd cand ic slots keyed :
  slot_keys cand ic slots = Ok keyed -> map snd keyed = slots.
Proof.
  revert keyed. induction slots as [|s slots IH]; intros keyed Hrun;
    simpl in Hrun.
  - by injection Hrun as <-.
  - destruct (dget (slot_id s) cand); [|discriminate]. simpl in Hrun.
    destruct (slot_keys cand ic slots) as [k|]; [|discriminate].
    simpl in Hrun. injection Hrun as <-. simpl. f_equal. by apply IH.
Qed.

Lemma order_slots_perm slots cand inter ordered :
  order_slots slots cand inter = Ok ordered -> Permutation ordered slots.
Proof.
  unfold order_slots. intros Hrun.
  destruct (slot_keys cand _ slots) as [keyed|] eqn:E; [|discriminate].
  simpl in Hrun. injection Hrun as <-.
  rewrite <- (slot_keys_snd _ _ _ _ E).
  apply Permutation_map, sorted_perm.
Qed.

Lemma make_by_id_In slots sid s :
  dget sid (make_by_id slots) = Some s -> In s slots /\ slot_id s = sid.
Proof.
  unfold make_by_id. intros Hget. apply dict_of_list_In in Hget.
  apply in_map_iff in Hget as (s' & [= <- <-] & Hin). done.
Qed.

Lemma make_by_id_NoDup slots s :
  NoDup (map slot_id slots) -> In s slots ->
  dget (slot_id s) (make_by_id slots) = Some s.
Proof.
  intros Hnd Hin. unfold make_by_id. apply dict_of_list_NoDup.
  - by rewrite map_map.
  - apply in_map_iff. by exists s.
Qed.

Lemma filter_length_ext {A} (P Q : A -> Prop) `{forall x, Decision (P x)}
  `{forall x, Decision (Q x)} (l : list A) :
  (forall x, x ∈ l -> P x <-> Q x) ->
  length (filter P l) = length (filter Q l).
Proof.
  induction l as [|x l IH]; intros Hext; [done|].
  rewrite !filter_cons.
  pose proof (Hext x (list_elem_of_here _ _)).
  assert (length (filter P l) = length (filter Q l)).
  { apply IH. intros y Hy. apply Hext. by right. }
  repeat case_decide; simpl; try lia; tauto.
Qed.

Lemma letter_count_list ch : forall (l : list (Z * Z)) (m : gmap (Z * Z) N),
  NoDup l -> (forall c, is_Some (m !! c) -> c ∈ l) ->
  letter_count m ch = Z.of_nat (length (filter (fun c => m !! c = Some ch) l)).
Proof.
  induction l as [|c l IH]; intros m Hnd Hdom.
  - assert (m = ∅) as ->.
    { apply map_empty. intros c. destruct (m !! c) eqn:E; [|done].
      exfalso. eapply not_elem_of_nil, Hdom. by eexists. }
    unfold letter_count. by rewrite map_filter_empty, map_size_empty.
  - apply NoDup_cons in Hnd as [Hnin Hnd].
    assert (Hrest : letter_count (delete c m) ch =
              Z.of_nat (length (filter (fun c' => m !! c' = Some ch) l))).
    { rewrite (IH (delete c m) Hnd).
      - f_equal. apply filter_length_ext. intros c' Hc'.
        rewrite lookup_delete_ne; [done|]. by intros ->.
      - intros c' Hc'. destruct (decide (c' = c)) as [->|Hne].
        + rewrite lookup_delete_eq in Hc'. by destruct Hc'.
        + rewrite lookup_delete_ne in Hc' by done.
          apply Hdom, elem_of_cons in Hc' as [|]; done. }
    rewrite filter_cons. destruct (m !! c) as [x|] eqn:Ec.
    + rewrite (letter_count_delete m c x ch Ec) in Hrest.
      repeat case_decide; simpl length; try lia; congruence.
    + rewrite delete_id in Hrest by done.
      case_decide; [congruence | done].
Qed.

Lemma index_of_Some c cs i : index_of c cs = Some i -> cs !! i = Some c.
Proof.
  revert i. induction cs as [|c' cs IH]; intros i Hi; simpl in Hi; [done|].
  destruct (decide (c = c')) as [->|Hne].
  - by injection Hi as <-.
  - destruct (index_of c cs) as [j|]; [|done]. injection Hi as <-.
    simpl. by apply IH.
Qed.

Lemma index_of_None c cs : index_of c cs = None -> c ∉ cs.
Proof.
  induction cs as [|c' cs IH]; intros Hi; simpl in Hi; [apply not_elem_of_nil|].
  destruct (decide (c = c')) as [->|Hne]; [done|].
  destruct (index_of c cs) as [j|]; [done|].
  apply not_elem_of_cons. split; [done | by apply IH].
Qed.

Lemma grid_letter_map (cl : gmap (Z * Z) N) sol : forall slots,
  (forall s, In s slots -> forall i c, cells s !! i = Some c ->
     exists w ch, dget (slot_id s) sol = Some w /\ w !! i = Some ch /\
                  cl !! c = Some ch) ->
  forall c, In c (flat_map cells slots) -> grid_letter slots sol c = cl !! c.
Proof.
  induction slots as [|s slots IH]; intros Hspell c Hc; [destruct Hc|].
  simpl. destruct (index_of c (cells s)) as [i|] eqn:Ei.
  - apply index_of_Some in Ei.
    destruct (Hspell s (or_introl eq_refl) i c Ei) as (w & ch & -> & Hw & ->).
    done.
  - apply index_of_None in Ei. simpl in Hc.
    apply in_app_iff in Hc as [Hc|Hc]; [by apply list_elem_of_In in Hc|].
    apply IH; [|done]. intros s' Hs'. apply Hspell. by right.
Qed.

(** From the solutions [dfs] records to solutions of the grid. *)
Section Bridge.
Variables (slots : list slot) (e : env) (phrase : str).
Hypothesis slots_NoDup : NoDup (map slot_id slots).
Hypothesis e_by_id : by_id e = make_by_id slots.
Hypothesis e_ids : Permutation (ids e) (map slot_id slots).

Lemma cells_of_slot s : In s slots -> cells_of e (slot_id s) = cells s.
Proof.
  intros Hin. unfold cells_of. rewrite e_by_id.
  by rewrite (make_by_id_NoDup slots s slots_NoDup Hin).
Qed.

Lemma cells_of_grid sid c :
  c ∈ cells_of e sid -> In c (flat_map cells slots).
Proof.
  unfold cells_of. rewrite e_by_id.
  destruct (dget sid (make_by_id slots)) as [s|] eqn:E.
  - intros Hc. apply make_by_id_In in E as [Hin _].
    apply in_flat_map. exists s. split; [done | by apply list_elem_of_In].
  - intros Hc. by apply not_elem_of_nil in Hc.
Qed.

Lemma good_valid sol :
  good e phrase sol ->
  assigns_all slots sol /\ crossings_agree slots sol /\
  letters_exact slots phrase sol /\ from_pools (cand e) sol.
Proof.
  intros (Hkeys & Hcand & cl & Hspell & Hdom & Hcount).
  assert (Hall : assigns_all slots sol).
  { intros s Hs. apply keys_dget. rewrite Hkeys.
    eapply Permutation_in; [symmetry; exact e_ids|].
    apply in_map_iff. by exists s. }
  assert (Hslot : forall s, In s slots -> forall i c, cells s !! i = Some c ->
            forall w, dget (slot_id s) sol = Some w ->
            exists ch, w !! i = Some ch /\ cl !! c = Some ch).
  { intros s Hs i c Hi w Hw. apply (Hspell (slot_id s) w).
    - by apply dget_In.
    - by rewrite cells_of_slot. }
  split; [done|]. split; [|split].
  - intros a b i j c wa wb Ha Hb Hi Hj Hwa Hwb.
    destruct (Hslot a Ha i c Hi wa Hwa) as (ch & Hch & Hc).
    destruct (Hslot b Hb j c Hj wb Hwb) as (ch' & Hch' & Hc').
    exists ch. split; [done | congruence].
  - intros ch. apply Nat2Z.inj. rewrite <- Hcount.
    rewrite (letter_count_list ch (grid_cells slots) cl).
    + f_equal. apply filter_length_ext. intros c Hc.
      unfold grid_cells in Hc. rewrite elem_of_remove_dups in Hc.
      rewrite (grid_letter_map cl sol slots); [done| |by apply list_elem_of_In].
      intros s Hs i c' Hi. destruct (Hall s Hs) as [w Hw].
      destruct (Hslot s Hs i c' Hi w Hw) as (ch' & Hch' & Hc').
      by exists w, ch'.
    + apply NoDup_remove_dups.
    + intros c Hc. destruct (Hdom c Hc) as (sid & w & _ & Hcov).
      apply elem_of_remove_dups, list_elem_of_In. by eapply cells_of_grid.
  - intros sid w Hw. apply Hcand. by apply dget_In.
Qed.
End Bridge.

(** Solutions returned for slots with distinct ids and, within each slot,
    distinct cells. *)
Lemma find_solutions_good slots inter phrase cand pgt maxs q clock sols :
  NoDup (map slot_id slots) ->
  (forall s, In s slots -> NoDup (cells s)) ->
  find_solutions_for_grid slots inter phrase cand pgt maxs q clock = Ok sols ->
  forall sol, In sol sols ->
    assigns_all slots sol /\ crossings_agree slots sol /\
    letters_exact slots phrase sol /\ from_pools cand sol.
Proof.
  intros Hids Hcells Hrun sol Hsol.
  apply find_solutions_unfold in Hrun
    as (eqc & stc & ordered & st' & _ & Hord & Hdfs & ->).
  set (e := search_env slots inter cand pgt maxs q clock stc ordered) in *.
  apply order_slots_perm in Hord.
  assert (Hperm : Permutation (ids e) (map slot_id slots))
    by (by apply Permutation_map).
  assert (Hnd : NoDup (ids e)).
  { by rewrite Hperm. }
  assert (Hcn : forall sid s, dget sid (by_id e) = Some s -> NoDup (cells s)).
  { intros sid s Hs. apply make_by_id_In in Hs as [Hin _]. by apply Hcells. }
  destruct (dfs_searched e phrase Hcn Hnd (ids e) [] (search_start phrase clock) st')
    as (_ & _ & new & Hnew & Hgood); try done.
  - by apply Inv_initial.
  - intros sid w [].
  - simpl in Hnew. subst new. rewrite Forall_forall in Hgood.
    apply (good_valid slots e phrase Hids eq_refl Hperm).
    apply Hgood. by apply list_elem_of_In.
Qed.

(** *** Claim C1 *)

(** C1: for slots with distinct ids that do not repeat a cell, every
    solution [find_solutions_for_grid] returns gives every slot a word, the
    words of two slots agree on every cell the slots share (so on the cell
    of every crossing), and the letters in the cells of the grid, each cell
    counted once, are exactly the letters of the phrase. *)
Theorem find_solutions_sound
  (slots : list slot) (intersections : list intersection) (phrase_letters : str)
  (cand : dict str (list str)) (per_grid_time max_solutions : Z)
  (quiet : bool) (clock : nat -> Q) (sols : list (dict str str)) :
  NoDup (map slot_id slots) ->
  (forall s, In s slots -> NoDup (cells s)) ->
  find_solutions_for_grid slots intersections phrase_letters cand
    per_grid_time max_solutions quiet clock = Ok sols ->
  forall sol, In sol sols ->
    assigns_all slots sol /\
    crossings_agree slots sol /\
    (forall x a b wa wb, In x intersections -> In a slots -> In b slots ->
       cells a !! pos_a x = Some (xcell x) ->
       cells b !! pos_b x = Some (xcell x) ->
       dget (slot_id a) sol = Some wa -> dget (slot_id b) sol = Some wb ->
       exists ch, wa !! pos_a x = Some ch /\ wb !! pos_b x = Some ch) /\
    letters_exact slots phrase_letters sol.
Proof.
  intros Hids Hcells Hrun sol Hsol.
  destruct (find_solutions_good _ _ _ _ _ _ _ _ _ Hids Hcells Hrun sol Hsol)
    as (Hall & Hcross & Hexact & _).
  split; [done|]. split; [done|]. split; [|done].
  intros x a b wa wb _ Ha Hb Hca Hcb Hwa Hwb.
  exact (Hcross a b _ _ _ wa wb Ha Hb Hca Hcb Hwa Hwb).
Qed.

(** *** Claim C3 *)

(** C3: the solutions returned for one layout have pairwise different
    signatures, and a goal state whose signature has been seen leaves the
    state as it is. *)
Theorem solutions_distinct_signatures
  (slots : list slot) (intersections : list intersection) (phrase_letters : str)
  (cand : dict str (list str)) (per_grid_time max_solutions : Z)
  (quiet : bool) (clock : nat -> Q) (sols : list (dict str str)) :
  find_solutions_for_grid slots intersections phrase_letters cand
    per_grid_time max_solutions quiet clock = Ok sols ->
  exists eq_classes sid_to_class,
    slot_equivalence_classes slots intersections = Ok (eq_classes, sid_to_class) /\
    NoDup (map (class_signature sid_to_class) sols) /\
    (forall sol, In sol sols -> exists sig, class_signature sid_to_class sol = Ok sig) /\
    (forall e st sig,
       class_signature (Solver.sid_to_class e) (sol st) = Ok sig ->
       sig ∈ seen_signatures st -> record_goal e st = Ok st).
Proof.
  intros Hrun.
  apply find_solutions_unfold in Hrun
    as (eqc & stc & ordered & st' & Heq & _ & Hdfs & ->).
  exists eqc, stc. split; [done|].
  apply dfs_distinct in Hdfs as [Hnd Hmap].
  - simpl in Hmap. split; [|split].
    + rewrite Hmap. apply NoDup_fmap_2; [|done]. by intros a b [=].
    + intros sol Hsol.
      apply (in_map (class_signature stc)) in Hsol. rewrite Hmap in Hsol.
      apply in_map_iff in Hsol as (sig & Hsig & _). by exists sig.
    + intros e st sig Hsig Hseen. unfold record_goal.
      destruct (forallb _ _ && _); [|done].
      rewrite Hsig. simpl. by rewrite bool_decide_eq_true_2.
  - split; [constructor | done].
Qed.

(** *** Claim C4 *)

(** C4: in a state where a cell without references holds no letter, for a
    slot that does not repeat a cell and is not assigned, [place] charges the
    budget one letter for each cell of the slot whose reference count is
    zero and nothing for the others, and [unplace] after [place] gives back
    the budget, the reference counts, the letters of the cells and the
    assignment. *)
Theorem place_unplace_restores
  (e : env) (st st1 : state) (slot_id : str) (word : str) (s : slot) :
  dget slot_id (by_id e) = Some s ->
  NoDup (cells s) ->
  (forall c, c ∈ cells s -> usage_get (cell_usage st) c = 0 ->
             cell_letter st !! c = None) ->
  dget slot_id (sol st) = None ->
  place e st slot_id word = Ok st1 ->
  (forall ch, counter_get (budget st1) ch =
              counter_get (budget st) ch
              - charged 0 (cell_usage st) word ch 0 (cells s)) /\
  exists st2,
    unplace e st1 slot_id word = Ok st2 /\
    (forall ch, counter_get (budget st2) ch = counter_get (budget st) ch) /\
    cell_letter st2 = cell_letter st /\
    (forall c, usage_get (cell_usage st2) c = usage_get (cell_usage st) c) /\
    sol st2 = sol st /\
    solutions st2 = solutions st /\ seen_signatures st2 = seen_signatures st.
Proof.
  intros Hs Hnd Hfresh Hfree Hplace.
  unfold place in Hplace. rewrite Hs in Hplace. simpl in Hplace.
  destruct (place_cells word 0 (cells s) st) as [st0|] eqn:E0; [|discriminate].
  simpl in Hplace. injection Hplace as <-.
  pose proof (place_cells_frame _ _ _ _ _ E0) as [Fs Fl Fn _ _].
  pose proof (place_cells_spec _ _ _ _ _ Hnd E0) as (Hu & Hl & Hb & Hw).
  split; [exact Hb|].
  set (st1 := with_sol (dset slot_id word (sol st0)) st0).
  destruct (unplace_cells_ok word (cells s) 0 st1 Hnd Hw) as [st2 E2].
  { intros c Hc Hone. simpl in Hone |- *. rewrite Hu in Hone. rewrite Hl.
    rewrite (decide_True _ _ Hc) in Hone.
    apply list_elem_of_lookup_1 in Hc as Hi. destruct Hi as [i Hi].
    rewrite decide_True by (split; [done | lia]).
    rewrite (letter_at_lookup word 0 (cells s) c i Hnd Hi). by eapply Hw. }
  pose proof (unplace_cells_frame _ _ _ _ _ E2) as [Fs2 Fl2 Fn2 _ _].
  pose proof (unplace_cells_spec _ _ _ _ _ Hnd E2) as (Hu2 & Hl2 & Hb2).
  unfold unplace. rewrite Hs. simpl. rewrite E2. simpl. rewrite Fs2. simpl.
  rewrite dget_dset_eq. eexists. split; [reflexivity|]. simpl.
  split; [|split; [|split; [|split; [|split]]]].
  - intros ch. rewrite Hb2. simpl. rewrite Hb.
    rewrite (charged_shift 0 1 (cell_usage st0) (cell_usage st)); [lia|].
    intros c Hc. rewrite Hu. case_decide; [lia | done].
  - apply map_eq. intros c. rewrite Hl2. simpl. rewrite Hu, Hl.
    destruct (decide (c ∈ cells s)) as [Hc|Hc].
    + destruct (decide (usage_get (cell_usage st) c = 0)) as [Hz|Hnz].
      * rewrite Hz. case_decide as Hd; [by rewrite Hfresh|].
        destruct Hd. split; [done | lia].
      * case_decide as Hd; [destruct Hd; lia|].
        case_decide as Hd'; [by destruct Hd' | done].
    + case_decide as Hd; [by destruct Hd|].
      case_decide as Hd'; [by destruct Hd' | done].
  - intros c. rewrite Hu2. simpl. rewrite Hu. case_decide; lia.
  - rewrite Fs, dset_fresh by done. by apply ddel_app_fresh.
  - rewrite Fl2. simpl. exact Fl.
  - rewrite Fn2. simpl. exact Fn.
Qed.

(** *** Claim C9 *)

(** C9: the search keeps an invariant of its mutable state which says, among
    other things, that for every letter the budget is not negative and that
    budget plus the number of cells holding the letter is the count of the
    letter in the phrase.  It holds in the initial state, a [place] that
    [can_place] allowed keeps it, [unplace] of an assigned slot keeps it,
    every call of [dfs] returns in a state where it holds, and in a state
    where it holds the test that no budget value is negative is true. *)
Theorem budget_invariant (e : env) (phrase_letters : str) :
  (forall sid s, dget sid (by_id e) = Some s -> NoDup (cells s)) ->
  NoDup (ids e) ->
  (forall st, budget st = Counter phrase_letters -> cell_letter st = ∅ ->
              cell_usage st = ∅ -> sol st = [] -> Inv e phrase_letters st) /\
  (forall st sid w st',
     Inv e phrase_letters st -> dget sid (sol st) = None ->
     can_place e st sid w = Ok true -> place e st sid w = Ok st' ->
     Inv e phrase_letters st') /\
  (forall st sid w st',
     Inv e phrase_letters st -> In (sid, w) (sol st) ->
     unplace e st sid w = Ok st' -> Inv e phrase_letters st') /\
  (forall rest placed st st',
     ids e = placed ++ rest -> dkeys (sol st) = placed ->
     Inv e phrase_letters st -> from_cand e (sol st) ->
     dfs e rest st = Ok st' -> Inv e phrase_letters st') /\
  (forall st, Inv e phrase_letters st ->
     (forall ch,
        0 <= counter_get (budget st) ch /\
        counter_get (budget st) ch + letter_count (cell_letter st) ch
        = Z.of_nat (count_occ N.eq_dec phrase_letters ch)) /\
     forallb (fun v => 0 <=? v) (counter_values (budget st)) = true).
Proof.
  intros Hcells Hids. split; [|split; [|split; [|split]]].
  - intros st. apply Inv_initial.
  - intros st sid w st' HI Hfree Hcan Hplace.
    by destruct (place_inv e phrase_letters Hcells st sid w st' HI Hfree Hcan Hplace).
  - intros st sid w st' HI Hin Hun.
    assert (exists s, dget sid (by_id e) = Some s) as [s Hs].
    { unfold unplace in Hun. destruct (dget sid (by_id e)); [by eexists | done]. }
    destruct (unplace_inv e phrase_letters Hcells st sid w s HI Hin Hs)
      as (st2 & Hrun2 & HI2 & _).
    rewrite Hun in Hrun2. by injection Hrun2 as <-.
  - intros rest placed st st' Hsplit Hkeys HI Hcand Hrun.
    by destruct (dfs_searched e phrase_letters Hcells Hids rest placed st st'
                   Hsplit Hkeys HI Hcand Hrun).
  - intros st HI. split; [apply (inv_budget _ _ _ HI) | by eapply Inv_guard].
Qed.

End SolverTheorems.

(** ** The search raises nothing on well-formed input *)
Module SolverTotal.
Import SolverFacts SolverInvariant SolverSearch SolverTheorems.

Lemma fold_dappend_lookup {A K V} `{EqDecision K} (key : A -> K) (val : A -> V)
  (l : list A) (d : dict K (list V)) k v :
  (exists vs, dget k (fold_left (fun g a => dappend (key a) (val a) g) l d) = Some vs
              /\ In v vs) <->
  (exists vs, dget k d = Some vs /\ In v vs) \/
  (exists a, In a l /\ key a = k /\ val a = v).
Proof.
  revert d. induction l as [|a l IH]; intros d; simpl.
  - split; [auto | intros [H|(a & [] & _)]; exact H].
  - rewrite IH, dappend_lookup. split.
    + intros [[H|[Hk Hv]]|(a' & Ha' & Hk)]; subst; eauto 6.
    + intros [H|(a' & [Heq|Ha'] & Hk & Hv)]; subst; eauto 6.
Qed.

Lemma touches_of_ok by_id sid inter :
  (forall x, In x inter ->
     is_Some (dget (slot_a x) by_id) /\ is_Some (dget (slot_b x) by_id)) ->
  exists t, touches_of by_id sid inter = Ok t.
Proof.
  induction inter as [|x inter IH]; intros Hwf; simpl; [by eexists|].
  destruct IH as [t Ht]; [intros y Hy; apply Hwf; by right|].
  destruct (Hwf x (or_introl eq_refl)) as [[a Ha] [b Hb]].
  rewrite Ht, Ha, Hb. simpl. repeat case_decide; by eexists.
Qed.

Lemma slot_patterns_from by_id inter (slots : list slot) :
  (forall x, In x inter ->
     is_Some (dget (slot_a x) by_id) /\ is_Some (dget (slot_b x) by_id)) ->
  forall d : dict str pattern,
  exists d',
    for_each (fun s patterns =>
                touches ← touches_of by_id (slot_id s) inter;
                Ok (dset (slot_id s)
                         (orient s, slot_length s,
                          sorted (le_of touch_compare) touches)
                         patterns)) slots d = Ok d' /\
    forall k, In k (dkeys d) \/ In k (map slot_id slots) -> In k (dkeys d').
Proof.
  intros Hwf. induction slots as [|s slots IH]; intros d; simpl.
  - exists d. split; [done|]. intros k [H|[]]. done.
  - destruct (touches_of_ok by_id (slot_id s) inter Hwf) as [t ->]. simpl.
    destruct (IH (dset (slot_id s)
                    (orient s, slot_length s, sorted (le_of touch_compare) t) d))
      as (d' & -> & Hk).
    exists d'. split; [done|]. intros k Hin. apply Hk.
    rewrite dkeys_dset. destruct Hin as [H|[<-|H]]; auto.
Qed.

Lemma slot_patterns_ok slots inter :
  (forall x, In x inter ->
     is_Some (dget (slot_a x) (make_by_id slots)) /\
     is_Some (dget (slot_b x) (make_by_id slots))) ->
  exists patterns,
    slot_patterns slots inter = Ok patterns /\
    forall s, In s slots -> In (slot_id s) (dkeys patterns).
Proof.
  intros Hwf. unfold slot_patterns.
  destruct (slot_patterns_from (make_by_id slots) inter slots Hwf [])
    as (patterns & Hp & Hkeys).
  exists patterns. split; [exact Hp|].
  intros s Hs. apply Hkeys. right. apply in_map_iff. by exists s.
Qed.

Lemma number_classes_keys classes : forall i (d : dict str nat) sid,
  In sid (dkeys d) \/ (exists p sids, In (p, sids) classes /\ In sid sids) ->
  In sid (dkeys (number_classes i classes d)).
Proof.
  induction classes as [|[p sids] classes IH]; intros i d sid Hin; simpl.
  - destruct Hin as [H|(p & sids & [] & _)]. done.
  - apply IH.
    assert (Hfold : forall (l : list str) (d0 : dict str nat),
              In sid (dkeys d0) \/ In sid l ->
              In sid (dkeys (fold_left (fun d sid => dset sid i d) l d0))).
    { induction l as [|x l IHl]; intros d0 H0; simpl; [by destruct H0|].
      apply IHl. rewrite dkeys_dset. destruct H0 as [H0|[<-|H0]]; auto. }
    destruct Hin as [H|(p' & sids' & [[= <- <-]|Hin] & Hs)].
    + left. apply Hfold. by left.
    + left. apply Hfold. by right.
    + right. by exists p', sids'.
Qed.

Lemma slot_equivalence_classes_ok slots inter :
  (forall x, In x inter ->
     is_Some (dget (slot_a x) (make_by_id slots)) /\
     is_Some (dget (slot_b x) (make_by_id slots))) ->
  exists eqc stc,
    slot_equivalence_classes slots inter = Ok (eqc, stc) /\
    forall s, In s slots -> is_Some (dget (slot_id s) stc).
Proof.
  intros Hwf. unfold slot_equivalence_classes.
  destruct (slot_patterns_ok slots inter Hwf) as (patterns & -> & Hkeys).
  simpl. eexists _, _. split; [reflexivity|].
  intros s Hs.
  assert (Hk : In (slot_id s) (dkeys patterns)) by by apply Hkeys.
  apply keys_dget in Hk as [pat Hpat]. apply dget_In in Hpat.
  destruct (keys_dget (slot_id s)
    (number_classes 0
       (sorted (le_of class_compare)
          (map (fun g => (fst g, sorted (le_of str_compare) (snd g)))
             (fold_left (fun g sp => dappend (snd sp) (fst sp) g) patterns [])))
       [])) as [c Hc]; [|by eexists].
  apply number_classes_keys. right.
  pose proof (proj2 (fold_dappend_lookup (A:=str * pattern) snd fst patterns []
                       pat (slot_id s))) as Hgrp.
  destruct Hgrp as (sids & Hget & Hin).
  { right. by exists (slot_id s, pat). }
  exists pat, (sorted (le_of str_compare) sids). split.
  - apply sorted_In. apply in_map_iff. exists (pat, sids).
    split; [done|]. by apply dget_In.
  - by apply sorted_In.
Qed.

Lemma slot_keys_ok cand ic slots :
  (forall s, In s slots -> is_Some (dget (slot_id s) cand)) ->
  exists keyed, slot_keys cand ic slots = Ok keyed.
Proof.
  induction slots as [|s slots IH]; intros Hwf; simpl; [by eexists|].
  destruct (Hwf s (or_introl eq_refl)) as [ws ->]. simpl.
  destruct IH as [keyed ->]; [intros s' Hs'; apply Hwf; by right|].
  by eexists.
Qed.

Lemma make_cross_In inter sid other ps po :
  In (other, ps, po) (default [] (dget sid (make_cross inter))) ->
  exists x, In x inter /\
    ((slot_a x = sid /\ other = slot_b x /\ ps = pos_a x /\ po = pos_b x) \/
     (slot_b x = sid /\ other = slot_a x /\ ps = pos_b x /\ po = pos_a x)).
Proof.
  unfold make_cross.
  assert (Hgen : forall (d : dict str (list (str * nat * nat))),
    (exists vs, dget sid (fold_left
         (fun cr x =>
            dappend (slot_b x) (slot_a x, pos_b x, pos_a x)
              (dappend (slot_a x) (slot_b x, pos_a x, pos_b x) cr))
         inter d) = Some vs /\ In (other, ps, po) vs) ->
    (exists vs, dget sid d = Some vs /\ In (other, ps, po) vs) \/
    exists x, In x inter /\
      ((slot_a x = sid /\ other = slot_b x /\ ps = pos_a x /\ po = pos_b x) \/
       (slot_b x = sid /\ other = slot_a x /\ ps = pos_b x /\ po = pos_a x))).
  { induction inter as [|x inter IH]; intros d Hin; simpl in Hin; [by left|].
    apply IH in Hin as [Hin|(y & Hy & Hcase)].
    - apply dappend_lookup in Hin as [Hin|[-> [= -> -> ->]]].
      + apply dappend_lookup in Hin as [Hin|[-> [= -> -> ->]]].
        * by left.
        * right. exists x. split; [by left|]. by left.
      + right. exists x. split; [by left|]. by right.
    - right. exists y. split; [by right | done]. }
  intros Hin. destruct (dget sid (fold_left _ inter [])) as [vs|] eqn:E;
    [|destruct Hin].
  destruct (Hgen []) as [(vs' & [=] & _)|H]; [|done].
  exists vs. done.
Qed.

Section Total.
Variables (e : env) (phrase : str).
Hypothesis cells_NoDup :
  forall sid s, dget sid (by_id e) = Some s -> NoDup (cells s).
Hypothesis ids_NoDup : NoDup (ids e).
Hypothesis ids_by_id :
  forall sid, In sid (ids e) -> is_Some (dget sid (by_id e)).
Hypothesis ids_class :
  forall sid, In sid (ids e) -> is_Some (dget sid (sid_to_class e)).
Hypothesis ids_cand :
  forall sid, In sid (ids e) ->
  exists ws, dget sid (cand e) = Some ws /\
    forall w, In w ws -> (length (cells_of e sid) <= length w)%nat.
Hypothesis cross_wf :
  forall sid other ps po, In sid (ids e) ->
  In (other, ps, po) (default [] (dget sid (cross e))) ->
  (ps < length (cells_of e sid))%nat /\ (po < length (cells_of e other))%nat.

Local Abbreviation Inv := (Inv e phrase).

Lemma class_members_ok cls l :
  (forall sid, In sid l -> is_Some (dget sid (sid_to_class e))) ->
  exists m, class_members e cls l = Ok m.
Proof.
  induction l as [|sid l IH]; intros Hl; simpl; [by eexists|].
  destruct (Hl sid (or_introl eq_refl)) as [c ->]. simpl.
  destruct IH as [m ->]; [intros s Hs; apply Hl; by right|]. by eexists.
Qed.

Lemma crossing_ok_ok st w crossings :
  (forall other ps po, In (other, ps, po) crossings ->
     is_Some (w !! ps) /\
     forall placed, dget other (sol st) = Some placed -> is_Some (placed !! po)) ->
  exists b, crossing_ok st w crossings = Ok b.
Proof.
  induction crossings as [|[[other ps] po] crossings IH]; intros Hwf; simpl;
    [by eexists|].
  destruct IH as [b Hb]; [intros o p1 p2 Hin; apply Hwf; by right|].
  destruct (Hwf other ps po (or_introl eq_refl)) as [[a Ha] Hplaced].
  destruct (dget other (sol st)) as [placed|]; [|by eexists].
  destruct (Hplaced placed eq_refl) as [b' Hb'].
  rewrite Ha, Hb'. simpl. case_decide; by eexists.
Qed.

Lemma need_of_ok st word cs : forall k need0,
  (forall i c, cs !! i = Some c -> is_Some (word !! (k + i)%nat)) ->
  exists r, need_of st word k cs need0 = Ok r.
Proof.
  induction cs as [|c cs IH]; intros k need0 Hw; simpl; [by eexists|].
  destruct (Hw 0%nat c eq_refl) as [l Hl]. rewrite Nat.add_0_r in Hl.
  rewrite Hl. simpl.
  assert (Hw' : forall i c', cs !! i = Some c' -> is_Some (word !! (S k + i)%nat)).
  { intros i c' Hi. replace (S k + i)%nat with (k + S i)%nat by lia.
    by apply (Hw (S i) c'). }
  destruct (cell_letter st !! c); [case_decide; [|by eexists]|]; by apply IH.
Qed.

Lemma can_place_ok st sid w :
  Inv st -> In sid (ids e) ->
  (length (cells_of e sid) <= length w)%nat ->
  exists b, can_place e st sid w = Ok b.
Proof.
  intros HI Hsid Hlen. unfold can_place.
  destruct (ids_by_id sid Hsid) as [s Hs].
  destruct (ids_class sid Hsid) as [cls Hcls].
  destruct (class_members_ok cls (ids e) ids_class) as [members Hm].
  assert (Hcells : cells_of e sid = cells s) by (unfold cells_of; by rewrite Hs).
  rewrite Hs, Hcls. simpl. rewrite Hm. simpl.
  destruct (symmetry_ok st sid w members); simpl; [|by eexists].
  destruct (crossing_ok_ok st w (default [] (dget sid (cross e)))) as [b ->].
  { intros other ps po Hin.
    destruct (cross_wf sid other ps po Hsid Hin) as [Hps Hpo]. split.
    - apply lookup_lt_is_Some. lia.
    - intros placed Hplaced. apply dget_In in Hplaced.
      apply lookup_lt_is_Some in Hpo as [c Hc].
      destruct (inv_words _ _ _ HI other placed Hplaced po c Hc) as (ch & -> & _).
      by eexists. }
  simpl. destruct b; simpl; [|by eexists].
  destruct (need_of_ok st w (cells s) 0%nat ∅) as [[need|] ->]; simpl;
    try by eexists.
  intros i c Hi. simpl. apply lookup_lt_is_Some.
  apply lookup_lt_Some in Hi. rewrite Hcells in Hlen. lia.
Qed.

Lemma class_signature_ok (l : dict str str) :
  (forall sid w, In (sid, w) l -> is_Some (dget sid (sid_to_class e))) ->
  exists sig, class_signature (sid_to_class e) l = Ok sig.
Proof.
  intros Hl. unfold class_signature.
  assert (Hfe : forall (l : dict str str) (d : dict nat (list str)),
    (forall sid w, In (sid, w) l -> is_Some (dget sid (sid_to_class e))) ->
    exists b, for_each
      (fun sw buckets =>
         c ← of_option KeyError (dget (fst sw) (sid_to_class e));
         Ok (dappend c (snd sw) buckets)) l d = Ok b).
  { clear. induction l as [|[sid w] l IH]; intros d Hl; simpl; [by eexists|].
    destruct (Hl sid w (or_introl eq_refl)) as [c ->]. simpl.
    apply IH. intros s w' Hin. eapply Hl. by right. }
  destruct (Hfe l [] Hl) as [b ->]. by eexists.
Qed.

Lemma record_goal_ok st :
  (forall sid, In sid (dkeys (sol st)) -> In sid (ids e)) ->
  exists st', record_goal e st = Ok st'.
Proof.
  intros Hkeys. unfold record_goal.
  destruct (forallb _ _ && _); [|by eexists].
  destruct (class_signature_ok (sol st)) as [sig ->].
  { intros sid w Hin. apply ids_class, Hkeys.
    apply in_map_iff. by exists (sid, w). }
  simpl. case_bool_decide; by eexists.
Qed.

Opaque past_deadline maybe_ping enough can_place place unplace record_goal.

Lemma try_words_total placed sid words next :
  In sid (ids e) -> ~ In sid placed ->
  dget sid (cand e) = Some words ->
  (forall w, In w words -> (length (cells_of e sid) <= length w)%nat) ->
  (forall st, dkeys (sol st) = placed ++ [sid] -> Inv st ->
              from_cand e (sol st) ->
              exists st', next st = Ok st' /\ searched e phrase st st') ->
  forall ws st,
    (forall w, In w ws -> In w words) ->
    dkeys (sol st) = placed -> Inv st -> from_cand e (sol st) ->
    exists st', try_words e next sid ws st = Ok st'.
Proof.
  intros Hsid Hfresh Hwords Hlen Hnext.
  induction ws as [|w ws IH]; intros st Hsub Hkeys HI Hcand; simpl;
    [by eexists|].
  pose proof (past_deadline_core e st) as Hc0.
  destruct (past_deadline e st) as [late st0]. simpl in Hc0.
  assert (HI0 : Inv st0) by (destruct Hc0; by apply (Inv_ext e phrase st)).
  assert (Hs0 : sol st0 = sol st) by apply Hc0.
  destruct late; [by eexists|].
  assert (Hw : In w words) by (apply Hsub; by left).
  destruct (can_place_ok st0 sid w HI0 Hsid (Hlen w Hw)) as [b Ecan].
  rewrite Ecan. simpl. destruct b; cycle 1.
  { apply IH; [intros w' Hw'; apply Hsub; by right | congruence | done |].
    intros sid' w' Hin. apply Hcand. congruence. }
  destruct (place_ok e st0 sid w Ecan) as [st1 Eplace].
  rewrite Eplace. simpl.
  assert (Hfree : dget sid (sol st0) = None).
  { apply dget_None_keys. by rewrite Hs0, Hkeys. }
  destruct (place_inv e phrase cells_NoDup st0 sid w st1 HI0 Hfree Ecan Eplace)
    as (HI1 & Hs1 & Hn1 & _).
  destruct (Hnext st1) as (st2 & Enext & HI2 & Hs2 & new & Hn2 & Hg2);
    [| done | |].
  { rewrite Hs1. unfold dkeys. rewrite map_app. simpl.
    unfold dkeys in Hkeys. by rewrite Hs0, Hkeys. }
  { intros sid' w' Hin. rewrite Hs1 in Hin.
    apply in_app_iff in Hin as [Hin|[[= <- <-]|[]]].
    - apply Hcand. by rewrite <- Hs0.
    - by exists words. }
  rewrite Enext. simpl.
  destruct (ids_by_id sid Hsid) as [s Hs].
  assert (Hin2 : In (sid, w) (sol st2)).
  { rewrite Hs2, Hs1. apply in_app_iff. right. by left. }
  destruct (unplace_inv e phrase cells_NoDup st2 sid w s HI2 Hin2 Hs)
    as (st3 & Eun & HI3 & Hs3 & _).
  rewrite Eun. simpl.
  assert (Hsol3 : sol st3 = sol st0).
  { rewrite Hs3, Hs2, Hs1. by apply ddel_app_fresh. }
  destruct (enough e st3); [by eexists|].
  pose proof (past_deadline_core e st3) as Hc3.
  destruct (past_deadline e st3) as [late3 st4]. simpl in Hc3.
  destruct late3; [by eexists|].
  pose proof (maybe_ping_core e st4) as Hc4.
  apply IH.
  - intros w' Hw'. apply Hsub. by right.
  - destruct Hc4, Hc3. congruence.
  - destruct Hc4, Hc3.
    apply (Inv_ext e phrase st3); [congruence..|done].
  - destruct Hc4, Hc3. intros sid' w' Hin. apply Hcand. congruence.
Qed.

Lemma dfs_total rest : forall placed st,
  ids e = placed ++ rest ->
  dkeys (sol st) = placed -> Inv st -> from_cand e (sol st) ->
  exists st', dfs e rest st = Ok st'.
Proof.
  induction rest as [|sid rest IH]; intros placed st Hids Hkeys HI Hcand;
    simpl;
    pose proof (past_deadline_core e st) as Hc0;
    destruct (past_deadline e st) as [late st0]; simpl in Hc0;
    assert (HI0 : Inv st0) by (destruct Hc0; by apply (Inv_ext e phrase st));
    (destruct late; [by eexists|]);
    (destruct (enough e st0); [by eexists|]).
  - apply record_goal_ok. intros sid Hin.
    destruct Hc0. rewrite Hids, app_nil_r. congruence.
  - assert (Hsid : In sid (ids e)).
    { rewrite Hids. apply in_app_iff. right. by left. }
    destruct (ids_cand sid Hsid) as (ws & Hws & Hlen).
    rewrite Hws. simpl.
    assert (Hnd := ids_NoDup). rewrite Hids in Hnd.
    apply NoDup_app in Hnd as (_ & Hdisj & _).
    apply (try_words_total placed sid ws (dfs e rest)); auto.
    + intros Hin. apply (Hdisj sid); [by apply list_elem_of_In | by left].
    + intros st1 Hk1 HI1 Hc1.
      destruct (IH (placed ++ [sid]) st1) as [st1' E1]; auto.
      { by rewrite <- app_assoc. }
      exists st1'. split; [done|].
      eapply (dfs_searched e phrase cells_NoDup ids_NoDup rest (placed ++ [sid]));
        eauto.
      by rewrite <- app_assoc.
    + destruct Hc0. congruence.
    + destruct Hc0. intros sid' w' Hin. apply Hcand. congruence.
Qed.

Transparent past_deadline maybe_ping enough can_place place unplace record_goal.
End Total.

End SolverTotal.

(** ** The search on well-formed input, and a worked example *)
Module SolverTotalTheorems.
Import SolverFacts SolverInvariant SolverSearch SolverTheorems SolverTotal.

Lemma find_solutions_fold slots inter phrase cand pgt maxs q clock :
  pgt < float_int_limit ->
  find_solutions_for_grid slots inter phrase cand pgt maxs q clock =
  (r ← slot_equivalence_classes slots inter;
   ordered ← order_slots slots cand inter;
   st ← dfs (search_env slots inter cand pgt maxs q clock (snd r) ordered)
            (map slot_id ordered) (search_start phrase clock);
   Ok (solutions st)).
Proof.
  intros Hlt. unfold find_solutions_for_grid.
  rewrite make_deadline_within by done. simpl.
  destruct (slot_equivalence_classes slots inter) as [[eqc stc]|]; reflexivity.
Qed.

Lemma find_solutions_ok slots inter phrase cand pgt maxs q clock :
  well_formed slots inter cand ->
  pgt < float_int_limit ->
  exists sols,
    find_solutions_for_grid slots inter phrase cand pgt maxs q clock = Ok sols.
Proof.
  intros [Hids Hcells Hinter Hcand] Hlt.
  rewrite find_solutions_fold by done.
  destruct (slot_equivalence_classes_ok slots inter) as (eqc & stc & -> & Hclass).
  { intros x Hx.
    destruct (Hinter x Hx) as (a & b & Ha & Hb & <- & <- & _).
    rewrite !make_by_id_NoDup by done. split; by eexists. }
  simpl. unfold order_slots.
  destruct (slot_keys_ok cand (inter_counts inter) slots) as [keyed Hkeyed].
  { intros s Hs. destruct (Hcand s Hs) as (ws & -> & _). by eexists. }
  rewrite Hkeyed. simpl.
  set (ordered := map snd (sorted _ keyed)).
  assert (Hord : Permutation ordered slots).
  { unfold ordered. rewrite <- (slot_keys_snd _ _ _ _ Hkeyed).
    apply Permutation_map, sorted_perm. }
  set (e := search_env slots inter cand pgt maxs q clock stc ordered).
  assert (Hperm : Permutation (ids e) (map slot_id slots))
    by (by apply Permutation_map).
  assert (Hslot : forall sid, In sid (ids e) ->
            exists s, In s slots /\ slot_id s = sid).
  { intros sid Hsid. eapply Permutation_in in Hsid; [|exact Hperm].
    apply in_map_iff in Hsid as (s & <- & Hs). by exists s. }
  assert (Hcells_of : forall s, In s slots -> cells_of e (slot_id s) = cells s).
  { intros s Hs. by apply (cells_of_slot slots e Hids eq_refl). }
  destruct (dfs_total e phrase) with (rest := ids e) (placed := @nil (list N))
    (st := search_start phrase clock) as [st' Hdfs]; try done.
  - intros sid s Hs. apply make_by_id_In in Hs as [Hin _]. by apply Hcells.
  - by rewrite Hperm.
  - intros sid Hsid. destruct (Hslot sid Hsid) as (s & Hs & <-).
    simpl. rewrite make_by_id_NoDup by done. by eexists.
  - intros sid Hsid. destruct (Hslot sid Hsid) as (s & Hs & <-).
    by apply Hclass.
  - intros sid Hsid. destruct (Hslot sid Hsid) as (s & Hs & <-).
    destruct (Hcand s Hs) as (ws & Hws & Hlen). exists ws.
    split; [done|]. rewrite Hcells_of by done. exact Hlen.
  - intros sid other ps po Hsid Hin. simpl in Hin.
    apply make_cross_In in Hin as (x & Hx & Hcase).
    destruct (Hinter x Hx) as (a & b & Ha & Hb & Hida & Hidb & Hpa & Hpb).
    destruct Hcase as [(<- & -> & -> & ->)|(<- & -> & -> & ->)];
      rewrite <- Hida, <- Hidb, !Hcells_of by done; done.
  - by apply Inv_initial.
  - intros sid w [].
  - change (ids e) with (map slot_id ordered) in Hdfs.
    rewrite Hdfs. simpl. by eexists.
Qed.

(** *** Claim C6 *)


(** *** The example layout *)
Lemma example_ids : NoDup (map slot_id [across0; down1]).
Proof. apply (bool_decide_unpack _). by vm_compute. Qed.

Lemma example_cells s : In s [across0; down1] -> NoDup (cells s).
Proof.
  intros [<-|[<-|[]]]; apply (bool_decide_unpack _); by vm_compute.
Qed.


Lemma example_run :
  find_solutions_for_grid [across0; down1] [cross01] (lit "ABLEOLE") pools
    0 5 true still = Ok [able_bole].
Proof. by vm_compute. Qed.

Lemma find_solutions_sound_witness :
  assigns_all [across0; down1] able_bole /\
  crossings_agree [across0; down1] able_bole /\
  letters_exact [across0; down1] (lit "ABLEOLE") able_bole.
Proof.
  destruct (find_solutions_sound [across0; down1] [cross01] (lit "ABLEOLE")
              pools 0 5 true still [able_bole] example_ids example_cells
              example_run able_bole (or_introl eq_refl))
    as (H1 & H2 & _ & H3).
  exact (conj H1 (conj H2 H3)).
Defined.

Lemma repeated_run :
  find_solutions_for_grid [across0; down1] [cross01] (lit "LAMEBLE")
    repeated_pools 0 5 true still = Ok [able_lame; able_male].
Proof. by vm_compute. Qed.

Lemma goal_again_run :
  exists st sig,
    goal_again = Ok st /\
    sol st = able_lame /\
    solutions st = [able_lame; able_male] /\
    forallb (fun v => v =? 0) (counter_values (budget st)) = true /\
    class_signature (sid_to_class repeated_env) (sol st) = Ok sig /\
    sig ∈ seen_signatures st.
Proof.
  eexists. eexists. split; [by vm_compute|].
  split; [by vm_compute|]. split; [by vm_compute|]. split; [by vm_compute|].
  split; [by vm_compute|].
  apply (bool_decide_unpack _). by vm_compute.
Qed.

(** Two solutions with different signatures are returned, and the goal that
    is reached a second time, in a state whose budget is used up, is not
    recorded. *)
Lemma solutions_distinct_signatures_witness :
  exists sid_to_class st,
    NoDup (map (class_signature sid_to_class) [able_lame; able_male]) /\
    goal_again = Ok st /\
    sol st = able_lame /\
    solutions st = [able_lame; able_male] /\
    forallb (fun v => v =? 0) (counter_values (budget st)) = true /\
    record_goal repeated_env st = Ok st.
Proof.
  destruct (solutions_distinct_signatures [across0; down1] [cross01]
              (lit "LAMEBLE") repeated_pools 0 5 true still
              [able_lame; able_male] repeated_run)
    as (eqc & stc & _ & Hnd & _ & Hseen).
  destruct goal_again_run as (st & sig & Hrun & Hsol & Hsols & Hzero & Hsig & Hin).
  exists stc, st. split; [exact Hnd|]. split; [exact Hrun|].
  split; [exact Hsol|]. split; [exact Hsols|]. split; [exact Hzero|].
  exact (Hseen repeated_env st sig Hsig Hin).
Defined.

Lemma example_env_cells sid s :
  dget sid (by_id example_env) = Some s -> NoDup (cells s).
Proof.
  intros Hs. apply make_by_id_In in Hs as [Hin _]. by apply example_cells.
Qed.

Lemma able_placed_run :
  place example_env (search_start (lit "ABLEOLE") still)
    (lit "H@R0:C0-3") (lit "ABLE") = Ok able_placed.
Proof. by vm_compute. Qed.

Lemma both_placed_run :
  place example_env able_placed (lit "V@C1:R0-3") (lit "BOLE") = Ok both_placed.
Proof. by vm_compute. Qed.

Lemma able_placed_fresh c :
  c ∈ cells down1 -> usage_get (cell_usage able_placed) c = 0 ->
  cell_letter able_placed !! c = None.
Proof.
  intros Hc. simpl in Hc.
  repeat (apply elem_of_cons in Hc as [->|Hc]);
    [| | | |by apply not_elem_of_nil in Hc]; by vm_compute.
Qed.

(** BOLE is placed down across the B of ABLE: the shared cell [(0, 1)] has a
    reference already, so the one B of the phrase is not charged again, the
    letter O of a fresh cell is; after [unplace] the shared cell still holds
    its B for the across word. *)
Lemma place_unplace_restores_witness :
  exists st1 st2,
    usage_get (cell_usage able_placed) (0, 1) = 1 /\
    counter_get (budget able_placed) 66%N = 0 /\
    place example_env able_placed (lit "V@C1:R0-3") (lit "BOLE") = Ok st1 /\
    counter_get (budget st1) 66%N = 0 /\
    counter_get (budget st1) 79%N = counter_get (budget able_placed) 79%N - 1 /\
    unplace example_env st1 (lit "V@C1:R0-3") (lit "BOLE") = Ok st2 /\
    cell_letter st2 = cell_letter able_placed /\
    cell_letter st2 !! (0, 1) = Some 66%N /\
    usage_get (cell_usage st2) (0, 1) = 1 /\
    counter_get (budget st2) 79%N = 1 /\
    sol st2 = sol able_placed.
Proof.
  destruct (place_unplace_restores example_env able_placed both_placed
              (lit "V@C1:R0-3") (lit "BOLE") down1)
    as (Hcharge & st2 & Hun & Hb & Hl & Hu & Hs & _).
  - reflexivity.
  - apply example_cells. right. by left.
  - exact able_placed_fresh.
  - by vm_compute.
  - exact both_placed_run.
  - exists both_placed, st2.
    split; [by vm_compute|]. split; [by vm_compute|].
    split; [exact both_placed_run|].
    split; [rewrite Hcharge; by vm_compute|].
    split; [rewrite Hcharge; by vm_compute|].
    split; [exact Hun|]. split; [exact Hl|].
    split; [rewrite Hl; by vm_compute|].
    split; [rewrite Hu; by vm_compute|].
    split; [rewrite Hb; by vm_compute|].
    exact Hs.
Defined.

Lemma example_env_ids : NoDup (ids example_env).
Proof. apply (bool_decide_unpack _). by vm_compute. Qed.

Lemma example_dfs_run :
  exists st', dfs example_env (ids example_env)
                (search_start (lit "ABLEOLE") still) = Ok st' /\
              solutions st' = [able_bole].
Proof. eexists. split; by vm_compute. Qed.

Lemma both_unplaced_run :
  exists st', unplace example_env both_placed (lit "V@C1:R0-3") (lit "BOLE")
              = Ok st'.
Proof. eexists. by vm_compute. Qed.

(** The invariant along the path of the search to the goal ABLE/BOLE and back:
    it holds after each of the two [place], the second over a shared cell; in
    the goal state the E of the phrase is conserved (none left, two in the
    grid) and the guard of the goal test is true; it holds after the
    [unplace]; and it holds when [dfs] returns. *)
Lemma budget_invariant_witness :
  Inv example_env (lit "ABLEOLE") able_placed /\
  Inv example_env (lit "ABLEOLE") both_placed /\
  counter_get (budget both_placed) 69%N = 0 /\
  letter_count (cell_letter both_placed) 69%N = 2 /\
  forallb (fun v => 0 <=? v) (counter_values (budget both_placed)) = true /\
  (exists st', unplace example_env both_placed (lit "V@C1:R0-3") (lit "BOLE")
               = Ok st' /\ Inv example_env (lit "ABLEOLE") st') /\
  (exists st', dfs example_env (ids example_env)
                 (search_start (lit "ABLEOLE") still) = Ok st' /\
               solutions st' = [able_bole] /\
               Inv example_env (lit "ABLEOLE") st').
Proof.
  destruct (budget_invariant example_env (lit "ABLEOLE") example_env_cells
              example_env_ids)
    as (Hinit & Hplace & Hunplace & Hdfs & Hguard).
  assert (H0 : Inv example_env (lit "ABLEOLE")
                 (search_start (lit "ABLEOLE") still)) by (by apply Hinit).
  assert (H1 : Inv example_env (lit "ABLEOLE") able_placed).
  { apply (Hplace (search_start (lit "ABLEOLE") still) (lit "H@R0:C0-3")
             (lit "ABLE") able_placed H0);
      [reflexivity | by vm_compute | exact able_placed_run]. }
  assert (H2 : Inv example_env (lit "ABLEOLE") both_placed).
  { apply (Hplace able_placed (lit "V@C1:R0-3") (lit "BOLE") both_placed H1);
      [by vm_compute | by vm_compute | exact both_placed_run]. }
  destruct (Hguard both_placed H2) as [Hcons Hall].
  split; [exact H1|]. split; [exact H2|].
  split; [by vm_compute|].
  split.
  { destruct (Hcons 69%N) as [_ Hsum].
    assert (Hb : counter_get (budget both_placed) 69%N = 0) by (by vm_compute).
    rewrite Hb, Z.add_0_l in Hsum. rewrite Hsum. by vm_compute. }
  split; [exact Hall|].
  split.
  - destruct both_unplaced_run as [st' Hrun]. exists st'. split; [exact Hrun|].
    apply (Hunplace both_placed (lit "V@C1:R0-3") (lit "BOLE") st' H2);
      [|exact Hrun].
    apply list_elem_of_In, (bool_decide_unpack _). by vm_compute.
  - destruct example_dfs_run as (st' & Hrun & Hsols). exists st'.
    split; [exact Hrun|]. split; [exact Hsols|].
    apply (Hdfs (ids example_env) [] (search_start (lit "ABLEOLE") still) st');
      [reflexivity | reflexivity | exact H0 | by intros sid w [] | exact Hrun].
Defined.




End SolverTotalTheorems.

(** ** Masks: painting and the breadth-first search *)
Module MaskFacts.
Import PyFacts.

(** *** Loops *)
Lemma for_each_inv {A S} (I : S -> Prop) (body : A -> S -> result S) xs st :
  (forall x s, In x xs -> I s -> exists s', body x s = Ok s' /\ I s') ->
  I st -> exists st', for_each body xs st = Ok st' /\ I st'.
Proof.
  revert st. induction xs as [|x xs IH]; intros st Hbody Hst; simpl.
  - by exists st.
  - destruct (Hbody x st) as (s' & -> & Hs'); [by left|done|]. simpl.
    apply IH; [|done]. intros y s Hy. apply Hbody. by right.
Qed.

Lemma for_each_ok_inv {A S} (I : S -> Prop) (body : A -> S -> result S)
  xs st st' :
  (forall x s s', In x xs -> I s -> body x s = Ok s' -> I s') ->
  I st -> for_each body xs st = Ok st' -> I st'.
Proof.
  revert st. induction xs as [|x xs IH]; intros st Hbody Hst; simpl.
  - by intros [= <-].
  - destruct (body x st) as [s|] eqn:E; simpl; [|done].
    apply IH.
    + intros y s0 s1 Hy. apply Hbody. by right.
    + apply (Hbody x st s); auto. by left.
Qed.

Lemma for_each_ext {A S} (f g : A -> S -> result S) xs st :
  (forall x s, In x xs -> f x s = g x s) ->
  for_each f xs st = for_each g xs st.
Proof.
  revert st. induction xs as [|x xs IH]; intros st Hfg; simpl; [done|].
  rewrite Hfg by (by left). destruct (g x st); simpl; [|done].
  apply IH. intros y s Hy. apply Hfg. by right.
Qed.

Lemma for_each_app {A S} (body : A -> S -> result S) xs ys st :
  for_each body (xs ++ ys) st =
  (st' ← for_each body xs st; for_each body ys st').
Proof.
  revert st. induction xs as [|x xs IH]; intros st; simpl; [done|].
  destruct (body x st); simpl; [apply IH|done].
Qed.

Lemma for_each_map {A B S} (f : A -> B) (body : B -> S -> result S) xs st :
  for_each (fun x => body (f x)) xs st = for_each body (map f xs) st.
Proof.
  revert st. induction xs as [|x xs IH]; intros st; simpl; [done|].
  destruct (body (f x) st); simpl; [apply IH|done].
Qed.

Lemma for_each_flat_map {A B S} (g : A -> list B) (body : B -> S -> result S)
  xs st :
  for_each (fun x s => for_each body (g x) s) xs st =
  for_each body (flat_map g xs) st.
Proof.
  revert st. induction xs as [|x xs IH]; intros st; simpl; [done|].
  rewrite for_each_app. destruct (for_each body (g x) st); simpl; [apply IH|done].
Qed.

Lemma bind_ret {A B} (a : A) (k : A -> result B) : (x ← Ok a; k x) = k a.
Proof. reflexivity. Qed.

(** *** Ranges and indices *)
Lemma In_range a b x : In x (range a b) <-> a <= x < b.
Proof. unfold range. rewrite <- list_elem_of_In, elem_of_seqZ. lia. Qed.

Lemma NoDup_range a b : NoDup (range a b).
Proof. apply NoDup_seqZ. Qed.

Lemma length_range a b : length (range a b) = Z.to_nat (b - a).
Proof. unfold range. by rewrite length_seqZ. Qed.

Lemma py_pos_nonneg {A} (xs : list A) i :
  0 <= i < Z.of_nat (length xs) -> py_pos xs i = Ok (Z.to_nat i).
Proof.
  intros Hi. unfold py_pos.
  destruct (Z.ltb_spec i 0); [lia|].
  destruct (Z.leb_spec 0 i); [|lia].
  destruct (Z.ltb_spec i (Z.of_nat (length xs))); [done|lia].
Qed.

Lemma py_pos_Ok_nonneg {A} (xs : list A) i j :
  0 <= i -> py_pos xs i = Ok j ->
  i < Z.of_nat (length xs) /\ j = Z.to_nat i.
Proof.
  intros Hi. unfold py_pos.
  destruct (Z.ltb_spec i 0); [lia|].
  destruct (Z.leb_spec 0 i); [|lia].
  destruct (Z.ltb_spec i (Z.of_nat (length xs))); simpl; [|done].
  by intros [= <-].
Qed.

(** *** Rectangular masks *)
Lemma rect_row h w m r :
  rect h w m -> 0 <= r < h ->
  exists row, m !! Z.to_nat r = Some row /\ Z.of_nat (length row) = w.
Proof.
  intros [Hlen Hrows] Hr.
  destruct (lookup_lt_is_Some_2 m (Z.to_nat r)) as [row Hrow]; [lia|].
  exists row. split; [done|].
  rewrite Forall_forall in Hrows. apply Hrows.
  by apply list_elem_of_lookup_2 with (Z.to_nat r).
Qed.

Lemma mask_get_rect h w m p :
  rect h w m -> inb h w p -> mask_get m (fst p) (snd p) = Ok (mask_at m p).
Proof.
  intros Hrect [Hr Hc].
  destruct (rect_row h w m (fst p) Hrect Hr) as (row & Hrow & Hlen).
  unfold mask_get, py_index, mask_at.
  rewrite py_pos_nonneg by (destruct Hrect; lia). simpl.
  rewrite Hrow. simpl.
  rewrite py_pos_nonneg by lia. simpl.
  destruct (lookup_lt_is_Some_2 row (Z.to_nat (snd p))) as [v Hv]; [lia|].
  by rewrite Hv.
Qed.

Lemma is_filled_rect h w m p :
  rect h w m -> is_filled m p <-> inb h w p /\ mask_at m p = 1.
Proof.
  intros Hrect. split.
  - intros (Hr & Hc & Hget).
    assert (Hin : inb h w p).
    { unfold mask_get, py_index in Hget.
      destruct (py_pos m (fst p)) as [j|] eqn:Hj; simpl in Hget; [|done].
      apply py_pos_Ok_nonneg in Hj as [Hlt ->]; [|done].
      destruct (rect_row h w m (fst p) Hrect) as (row & Hrow & Hlen);
        [destruct Hrect; lia|].
      rewrite Hrow in Hget. simpl in Hget.
      destruct (py_pos row (snd p)) as [k|] eqn:Hk; simpl in Hget; [|done].
      apply py_pos_Ok_nonneg in Hk as [Hlt' ->]; [|done].
      destruct Hrect. split; lia. }
    split; [done|]. rewrite (mask_get_rect h w) in Hget by done.
    by injection Hget.
  - intros [[Hr Hc] Hat]. split; [lia|]. split; [lia|].
    rewrite (mask_get_rect h w) by done. by rewrite Hat.
Qed.

Lemma mask_set_rect h w m p :
  rect h w m -> inb h w p ->
  exists m', mask_set m (fst p) (snd p) = Ok m' /\ rect h w m' /\
    forall q, inb h w q ->
      mask_at m' q = if bool_decide (q = p) then 1 else mask_at m q.
Proof.
  intros Hrect [Hr Hc].
  destruct (rect_row h w m (fst p) Hrect Hr) as (row & Hrow & Hlen).
  unfold mask_set, py_index, py_set_index.
  rewrite py_pos_nonneg by (destruct Hrect; lia). simpl.
  rewrite Hrow. simpl.
  rewrite py_pos_nonneg by lia. simpl.
  eexists. split; [reflexivity|]. split.
  - destruct Hrect as [Hh Hrows]. split; [by rewrite length_insert|].
    apply Forall_insert; [done|]. by rewrite length_insert.
  - intros q [Hqr Hqc]. unfold mask_at.
    destruct (decide (Z.to_nat (fst q) = Z.to_nat (fst p))) as [Er|Er].
    + rewrite Er, list_lookup_insert_eq by (destruct Hrect; lia). simpl.
      destruct (decide (Z.to_nat (snd q) = Z.to_nat (snd p))) as [Ec|Ec].
      * rewrite Ec, list_lookup_insert_eq by lia. simpl.
        rewrite bool_decide_eq_true_2; [done|].
        destruct p, q; simpl in *. f_equal; lia.
      * rewrite list_lookup_insert_ne by done.
        rewrite bool_decide_eq_false_2 by (intros ->; done).
        by rewrite Hrow.
    + rewrite list_lookup_insert_ne by done.
      by rewrite bool_decide_eq_false_2 by (intros ->; done).
Qed.

(** Painting a list of cells. *)
Lemma paint_spec h w cs m :
  rect h w m -> Forall (inb h w) cs ->
  exists m',
    for_each (fun p m => mask_set m (fst p) (snd p)) cs m = Ok m' /\
    rect h w m' /\
    forall q, inb h w q ->
      mask_at m' q = if bool_decide (q ∈ cs) then 1 else mask_at m q.
Proof.
  revert m. induction cs as [|p cs IH]; intros m Hrect Hcs.
  - exists m. split; [done|]. split; [done|]. intros q _.
    rewrite bool_decide_eq_false_2; [done|]. apply not_elem_of_nil.
  - apply Forall_cons in Hcs as [Hp Hcs].
    destruct (mask_set_rect h w m p Hrect Hp) as (m1 & Hset & Hrect1 & Hat1).
    destruct (IH m1 Hrect1 Hcs) as (m' & Hrun & Hrect' & Hat').
    exists m'. simpl. rewrite Hset. simpl. split; [done|]. split; [done|].
    intros q Hq. rewrite Hat', Hat1 by done.
    destruct (decide (q ∈ cs)) as [Hin|Hin].
    + rewrite !bool_decide_eq_true_2; [done| |done].
      by apply list_elem_of_further.
    + rewrite (bool_decide_eq_false_2 (q ∈ cs)) by done.
      destruct (decide (q = p)) as [->|Hne].
      * rewrite !bool_decide_eq_true_2; [done| |done]. by left.
      * rewrite !bool_decide_eq_false_2; [done| |done].
        rewrite elem_of_cons. tauto.
Qed.

Lemma rect_blank h w :
  0 <= h -> 0 <= w ->
  rect h w (replicate (Z.to_nat h) (replicate (Z.to_nat w) 0)).
Proof.
  intros Hh Hw. split.
  - rewrite length_replicate. lia.
  - apply Forall_replicate. rewrite length_replicate. lia.
Qed.

Lemma mask_at_blank h w q :
  mask_at (replicate (Z.to_nat h) (replicate (Z.to_nat w) 0)) q = 0.
Proof.
  unfold mask_at.
  destruct (replicate (Z.to_nat h) _ !! Z.to_nat (fst q)) as [row|] eqn:E;
    simpl; [|done].
  apply lookup_replicate in E as [-> _].
  destruct (replicate (Z.to_nat w) 0 !! Z.to_nat (snd q)) as [v|] eqn:E';
    simpl; [|done].
  by apply lookup_replicate in E' as [-> _].
Qed.

(** *** The cells [build_mask] paints *)
Lemma paint_rows w hrows (m0 : list (list Z)) :
  for_each (fun rl m =>
              let '(cs, ce) := horizontal_segment_for_width w (snd rl) in
              for_each (fun c m => mask_set m (fst rl) c) (range cs (ce + 1)) m)
           hrows m0 =
  for_each (fun p m => mask_set m (fst p) (snd p)) (flat_map (hcells w) hrows) m0.
Proof.
  rewrite <- for_each_flat_map. apply for_each_ext.
  intros [r Lh] m _. unfold hcells. simpl. by rewrite <- for_each_map.
Qed.

Lemma paint_cols (vcols : list (Z * (Z * Z))) (m0 : list (list Z)) :
  for_each (fun cv m =>
              let '(c, (s, L)) := cv in
              for_each (fun r m => mask_set m r c) (range s (s + L)) m)
           vcols m0 =
  for_each (fun p m => mask_set m (fst p) (snd p)) (flat_map vcells vcols) m0.
Proof.
  rewrite <- for_each_flat_map. apply for_each_ext.
  intros [c [s L]] m _. unfold vcells. simpl. by rewrite <- for_each_map.
Qed.

Lemma build_mask_paint w h hrows vcols :
  build_mask w h hrows vcols =
  for_each (fun p m => mask_set m (fst p) (snd p)) (slot_cells w hrows vcols)
           (replicate (Z.to_nat h) (replicate (Z.to_nat w) 0)).
Proof.
  unfold build_mask, slot_cells.
  rewrite for_each_app, paint_rows.
  destruct (for_each _ (flat_map (hcells w) hrows) _) as [m1|]; simpl;
    [|reflexivity].
  apply paint_cols.
Qed.

Lemma build_mask_spec w h hrows vcols :
  0 <= h -> 0 <= w -> Forall (inb h w) (slot_cells w hrows vcols) ->
  exists m, build_mask w h hrows vcols = Ok m /\ rect h w m /\
    forall q, inb h w q ->
      mask_at m q = if bool_decide (q ∈ slot_cells w hrows vcols) then 1 else 0.
Proof.
  intros Hh Hw Hin. rewrite build_mask_paint.
  destruct (paint_spec h w (slot_cells w hrows vcols) _ (rect_blank h w Hh Hw) Hin)
    as (m & Hrun & Hrect & Hat).
  exists m. split; [done|]. split; [done|].
  intros q Hq. rewrite Hat by done. by rewrite mask_at_blank.
Qed.

(** *** Entries and their sum *)
Lemma rect_entries h w m :
  rect h w m ->
  (forall q, inb h w q -> mask_at m q = 0 \/ mask_at m q = 1) ->
  Forall (fun v => v = 0 \/ v = 1) (concat m).
Proof.
  intros [Hh Hrows] Hat. apply Forall_forall. intros v Hv.
  apply list_elem_of_In, in_concat in Hv as (row & Hrow & Hv).
  apply list_elem_of_In, list_elem_of_lookup in Hrow as [i Hi].
  apply list_elem_of_In, list_elem_of_lookup in Hv as [j Hj].
  assert (Hlen : Z.of_nat (length row) = w).
  { rewrite Forall_forall in Hrows. apply Hrows.
    by apply list_elem_of_lookup_2 with i. }
  pose proof (lookup_lt_Some _ _ _ Hi). pose proof (lookup_lt_Some _ _ _ Hj).
  specialize (Hat (Z.of_nat i, Z.of_nat j)).
  unfold mask_at in Hat. simpl in Hat. rewrite !Nat2Z.id, Hi in Hat.
  simpl in Hat. rewrite Hj in Hat. simpl in Hat.
  apply Hat. split; simpl; lia.
Qed.

Lemma sum_count (l : list Z) :
  Forall (fun v => v = 0 \/ v = 1) l ->
  fold_right Z.add 0 l = Z.of_nat (length (filter (fun v => v = 1) l)).
Proof.
  induction 1 as [|v l [->| ->] _ IH]; [done| |].
  - rewrite filter_cons_False by done. simpl. lia.
  - rewrite filter_cons_True by done. simpl. lia.
Qed.

Lemma mask_total_count (m : list (list Z)) :
  Forall (fun v => v = 0 \/ v = 1) (concat m) ->
  mask_total m = Z.of_nat (filled_count m).
Proof.
  unfold mask_total, filled_count.
  induction m as [|row m IH]; [done|].
  intros Hall. change (concat (row :: m)) with (row ++ concat m) in *.
  apply Forall_app in Hall as [Hrow Hrest].
  rewrite filter_app, length_app. simpl.
  rewrite IH, sum_count by done. lia.
Qed.

(** *** All cells of the grid, and the filled ones *)
Lemma In_all_cells h w p : In p (all_cells h w) <-> inb h w p.
Proof.
  unfold all_cells, inb. rewrite in_flat_map. split.
  - intros (r & Hr & Hp). apply in_map_iff in Hp as (c & <- & Hc).
    apply In_range in Hr, Hc. simpl. lia.
  - intros [Hr Hc]. exists (fst p). split; [apply In_range; lia|].
    apply in_map_iff. exists (snd p). split; [by destruct p|].
    apply In_range. lia.
Qed.

Lemma length_all_cells h w :
  length (all_cells h w) = (Z.to_nat h * Z.to_nat w)%nat.
Proof.
  unfold all_cells. rewrite <- (Z.sub_0_r h) at 2. rewrite <- length_range.
  induction (range 0 h) as [|r rs IH]; simpl; [done|].
  rewrite length_app, length_map, length_range, IH. f_equal. lia.
Qed.

Lemma NoDup_all_cells h w : NoDup (all_cells h w).
Proof.
  unfold all_cells. pose proof (NoDup_range 0 h) as Hnd.
  induction Hnd as [|r rs Hr _ IH]; simpl; [constructor|].
  apply NoDup_app. split; [|split; [|done]].
  - apply NoDup_fmap_2; [|apply NoDup_range]. by intros c1 c2 [= ->].
  - intros p Hp1 Hp2.
    apply list_elem_of_In, in_map_iff in Hp1 as (c & <- & _).
    apply list_elem_of_In, in_flat_map in Hp2 as (r' & Hr' & Hp2).
    apply in_map_iff in Hp2 as (c' & [= -> _] & _).
    by apply Hr, list_elem_of_In.
Qed.

Lemma filled_cells_in m h w cells :
  filled_cells m h w = Ok cells -> forall p, In p cells -> inb h w p.
Proof.
  unfold filled_cells.
  apply (for_each_ok_inv (fun acc => forall p, In p acc -> inb h w p));
    [|by intros p []].
  intros r acc acc' Hr Hacc.
  apply (for_each_ok_inv (fun acc => forall p, In p acc -> inb h w p));
    [|done].
  intros c a a' Hc Ha.
  destruct (mask_get m r c) as [v|]; simpl; [|done].
  intros [= <-]. destruct (v =? 1); [|done].
  intros p Hp. apply in_app_or in Hp as [Hp|[<-|[]]]; [by apply Ha|].
  apply In_range in Hr, Hc. split; simpl; lia.
Qed.

Lemma filled_row h w m r cs acc :
  rect h w m -> 0 <= r < h -> (forall c, In c cs -> 0 <= c < w) ->
  for_each (fun c acc =>
              v ← mask_get m r c;
              Ok (if v =? 1 then acc ++ [(r, c)] else acc)) cs acc =
  Ok (acc ++ filter (fun p => mask_at m p = 1) (map (fun c => (r, c)) cs)).
Proof.
  intros Hrect Hr. revert acc. induction cs as [|c cs IH]; intros acc Hcs.
  - simpl. by rewrite app_nil_r.
  - assert (Hg : mask_get m r c = Ok (mask_at m (r, c))).
    { apply (mask_get_rect h w m (r, c) Hrect).
      split; simpl; [done|]. apply Hcs. by left. }
    cbn [for_each map]. rewrite Hg, bind_ret. cbn beta. rewrite bind_ret.
    rewrite IH by (intros; apply Hcs; by right).
    destruct (Z.eqb_spec (mask_at m (r, c)) 1) as [E|E].
    + rewrite filter_cons_True by done. by rewrite <- app_assoc.
    + by rewrite filter_cons_False by done.
Qed.

Lemma filled_cells_rect h w m :
  rect h w m ->
  filled_cells m h w = Ok (filter (fun p => mask_at m p = 1) (all_cells h w)).
Proof.
  intros Hrect. unfold filled_cells, all_cells.
  assert (Hgen : forall rs acc, (forall r, In r rs -> 0 <= r < h) ->
    for_each (fun r acc =>
      for_each (fun c acc =>
                  v ← mask_get m r c;
                  Ok (if v =? 1 then acc ++ [(r, c)] else acc))
               (range 0 w) acc) rs acc =
    Ok (acc ++ filter (fun p => mask_at m p = 1)
                 (flat_map (fun r => map (fun c => (r, c)) (range 0 w)) rs))).
  { induction rs as [|r rs IH]; intros acc Hin.
    - simpl. by rewrite app_nil_r.
    - cbn [for_each flat_map].
      rewrite (filled_row h w);
        [|done|apply Hin; by left|intros c Hc; apply In_range in Hc; lia].
      rewrite bind_ret, IH by (intros; apply Hin; by right).
      by rewrite filter_app, app_assoc. }
  rewrite Hgen; [done|]. intros r Hr. apply In_range in Hr. lia.
Qed.

(** *** The search never runs out of fuel *)
Lemma filter_length_mono {A} (P Q : A -> Prop)
  `{forall x, Decision (P x)} `{forall x, Decision (Q x)} (l : list A) :
  (forall x, P x -> Q x) ->
  (length (filter P l) <= length (filter Q l))%nat.
Proof.
  intros HPQ. induction l as [|x l IH]; simpl; [done|].
  destruct (decide (P x)) as [HP|HP].
  - rewrite !filter_cons_True by auto. simpl. lia.
  - rewrite (filter_cons_False P) by done.
    destruct (decide (Q x)).
    + rewrite filter_cons_True by done. simpl. lia.
    + by rewrite filter_cons_False by done.
Qed.

Lemma filter_length_strict {A} (P Q : A -> Prop)
  `{forall x, Decision (P x)} `{forall x, Decision (Q x)} (l : list A) a :
  (forall x, P x -> Q x) -> In a l -> Q a -> ~ P a ->
  (length (filter P l) < length (filter Q l))%nat.
Proof.
  intros HPQ. induction l as [|x l IH]; simpl; [done|].
  intros [->|Hin] HQ HP.
  - rewrite (filter_cons_False P), (filter_cons_True Q) by done. simpl.
    pose proof (filter_length_mono P Q l HPQ). lia.
  - specialize (IH Hin HQ HP).
    destruct (decide (P x)) as [HPx|HPx].
    + rewrite !filter_cons_True by auto. simpl. lia.
    + rewrite (filter_cons_False P) by done.
      destruct (decide (Q x)).
      * rewrite filter_cons_True by done. simpl. lia.
      * by rewrite filter_cons_False by done.
Qed.

Lemma filter_length_lt {A} (P : A -> Prop) `{forall x, Decision (P x)}
  (l : list A) a :
  In a l -> ~ P a -> (length (filter P l) < length l)%nat.
Proof.
  induction l as [|x l IH]; simpl; [done|].
  assert (Hle : forall l' : list A, (length (filter P l') <= length l')%nat).
  { induction l' as [|y l' IH']; simpl; [done|].
    destruct (decide (P y)).
    - rewrite filter_cons_True by done. simpl. lia.
    - rewrite filter_cons_False by done. lia. }
  intros [->|Hin] HP.
  - rewrite filter_cons_False by done. specialize (Hle l). lia.
  - specialize (IH Hin HP). destruct (decide (P x)).
    + rewrite filter_cons_True by done. simpl. lia.
    + rewrite filter_cons_False by done. lia.
Qed.

Lemma unseen_add h w n seen :
  inb h w n -> n ∉ seen -> (unseen h w ({[n]} ∪ seen) < unseen h w seen)%nat.
Proof.
  intros Hin Hn. unfold unseen.
  apply filter_length_strict with (a := n).
  - intros x Hx. set_solver.
  - by apply In_all_cells.
  - done.
  - set_solver.
Qed.

Lemma inb_true h w (n : Z * Z) :
  (0 <=? fst n) && (fst n <? h) && (0 <=? snd n) && (snd n <? w) = true <->
  inb h w n.
Proof.
  unfold inb. rewrite !andb_true_iff, !Z.leb_le, !Z.ltb_lt. tauto.
Qed.

Lemma visit_measure m h w n seen dq seen' dq' :
  visit m h w n (seen, dq) = Ok (seen', dq') ->
  (unseen h w seen' + length dq' <= unseen h w seen + length dq)%nat.
Proof.
  unfold visit.
  destruct ((0 <=? fst n) && (fst n <? h) && (0 <=? snd n) && (snd n <? w))
    eqn:Hb; [|by intros [= <- <-]].
  destruct (mask_get m (fst n) (snd n)) as [v|]; simpl; [|done].
  destruct ((v =? 1) && negb (bool_decide (n ∈ seen))) eqn:Hv;
    [|by intros [= <- <-]].
  intros [= <- <-]. rewrite length_app. simpl.
  apply andb_true_iff in Hv as [_ Hv]. apply negb_true_iff in Hv.
  apply bool_decide_eq_false in Hv.
  apply inb_true in Hb.
  pose proof (unseen_add h w n seen Hb Hv). lia.
Qed.

Lemma visits_measure m h w ns seen dq seen' dq' :
  for_each (visit m h w) ns (seen, dq) = Ok (seen', dq') ->
  (unseen h w seen' + length dq' <= unseen h w seen + length dq)%nat.
Proof.
  intros Hrun.
  apply (for_each_ok_inv
           (fun sq => (unseen h w (fst sq) + length (snd sq)
                       <= unseen h w seen + length dq)%nat)
           _ _ _ _ ) in Hrun; [done| |simpl; lia].
  intros x [s d] [s' d'] _ Hle Hx. simpl in *.
  apply visit_measure in Hx. lia.
Qed.

Lemma bfs_fuel m h w fuel seen dq :
  (unseen h w seen + length dq <= fuel)%nat ->
  exists r, bfs fuel m h w seen dq = Some r.
Proof.
  revert seen dq. induction fuel as [|fuel IH]; intros seen dq Hle.
  - destruct dq; simpl in *; [by eexists|lia].
  - destruct dq as [|rc dq]; simpl; [by eexists|].
    destruct (for_each (visit m h w) (neighbours rc) (seen, dq))
      as [[seen' dq']|e] eqn:E; [|by eexists].
    apply visits_measure in E. apply IH. simpl in Hle. lia.
Qed.

(** The last branch of [connected] is never taken: the fuel it gives to the
    search is enough for every mask. *)
Lemma connected_fuel (m : list (list Z)) start rest :
  filled_cells m (Z.of_nat (length m)) (Z.of_nat (length (default [] (head m))))
    = Ok (start :: rest) ->
  exists r,
    bfs (Z.to_nat (Z.of_nat (length m)) *
         Z.to_nat (Z.of_nat (length (default [] (head m)))))
        m (Z.of_nat (length m)) (Z.of_nat (length (default [] (head m))))
        {[start]} [start] = Some r.
Proof.
  intros Hcells. apply bfs_fuel.
  set (h := Z.of_nat (length m)) in *.
  set (w := Z.of_nat (length (default [] (head m)))) in *.
  rewrite <- length_all_cells. simpl.
  assert (Hin : inb h w start)
    by (apply (filled_cells_in m h w _ Hcells); by left).
  assert (unseen h w {[start]} < length (all_cells h w))%nat; [|lia].
  unfold unseen. apply filter_length_lt with (a := start).
  - by apply In_all_cells.
  - set_solver.
Qed.

(** *** Soundness of the search on a rectangular mask *)
Section Search.
Variables (m : list (list Z)) (h w : Z) (start : Z * Z).
Hypothesis Hrect : rect h w m.
Local Abbreviation reached := (reached m h w start).

Lemma In_neighbours p n : In n (neighbours p) -> adjacent4 p n.
Proof.
  destruct p as [r c]. unfold adjacent4. simpl.
  intros [<-|[<-|[<-|[<-|[]]]]]; simpl; lia.
Qed.

Lemma visit_reached p n seen dq :
  reached seen -> p ∈ seen -> In n (neighbours p) ->
  (forall x, In x dq -> x ∈ seen) ->
  exists seen' dq',
    visit m h w n (seen, dq) = Ok (seen', dq') /\
    reached seen' /\ p ∈ seen' /\ (forall x, In x dq' -> x ∈ seen').
Proof.
  intros Hseen Hp Hn Hdq. unfold visit.
  destruct ((0 <=? fst n) && (fst n <? h) && (0 <=? snd n) && (snd n <? w))
    eqn:Hb; [|by exists seen, dq].
  assert (Hin : inb h w n) by (by apply inb_true).
  rewrite (mask_get_rect h w m n Hrect Hin). simpl.
  destruct ((mask_at m n =? 1) && negb (bool_decide (n ∈ seen))) eqn:Hv;
    [|by exists seen, dq].
  apply andb_true_iff in Hv as [Hv _]. apply Z.eqb_eq in Hv.
  eexists _, _. split; [reflexivity|]. split; [|split].
  - intros x Hx. apply elem_of_union in Hx as [Hx|Hx]; [|by apply Hseen].
    apply elem_of_singleton in Hx as ->. split; [done|]. split; [done|].
    eapply rtc_r; [apply Hseen, Hp|].
    split; [by apply In_neighbours|].
    by apply (is_filled_rect h w).
  - set_solver.
  - intros x Hx. apply in_app_or in Hx as [Hx|[<-|[]]]; [|set_solver].
    apply Hdq in Hx. set_solver.
Qed.

Lemma visits_reached p ns seen dq :
  reached seen -> p ∈ seen -> (forall n, In n ns -> In n (neighbours p)) ->
  (forall x, In x dq -> x ∈ seen) ->
  exists seen' dq',
    for_each (visit m h w) ns (seen, dq) = Ok (seen', dq') /\
    reached seen' /\ (forall x, In x dq' -> x ∈ seen').
Proof.
  intros Hseen Hp Hns Hdq.
  destruct (for_each_inv
              (fun sq => reached (fst sq) /\ p ∈ fst sq /\
                         forall x, In x (snd sq) -> x ∈ fst sq)
              (visit m h w) ns (seen, dq)) as ([s d] & Hrun & Hr & _ & Hd).
  - intros n [s d] Hn (Hr & Hps & Hd). simpl in Hr, Hps, Hd.
    destruct (visit_reached p n s d Hr Hps (Hns n Hn) Hd)
      as (s' & d' & -> & Hr' & Hp' & Hd').
    by exists (s', d').
  - done.
  - by exists s, d.
Qed.

Lemma bfs_sound fuel seen dq r :
  reached seen -> (forall x, In x dq -> x ∈ seen) ->
  bfs fuel m h w seen dq = Some r ->
  exists seen', r = Ok seen' /\ reached seen'.
Proof.
  revert seen dq. induction fuel as [|fuel IH]; intros seen dq Hseen Hdq.
  - destruct dq; simpl; [|done]. intros [= <-]. by exists seen.
  - destruct dq as [|p dq]; simpl; [intros [= <-]; by exists seen|].
    destruct (visits_reached p (neighbours p) seen dq)
      as (s' & d' & -> & Hr' & Hd'); auto.
    + apply Hdq. by left.
    + intros x Hx. apply Hdq. by right.
    + by apply IH.
Qed.
End Search.

Lemma step4_back m p q :
  is_filled m p -> rtc (step4 m) p q -> rtc (step4 m) q p /\ is_filled m q.
Proof.
  intros Hp Hpq. induction Hpq as [p|p x q [Hadj Hx] _ IH]; [by split|].
  destruct (IH Hx) as [Hback Hq]. split; [|done].
  eapply rtc_r; [exact Hback|]. split; [|done].
  destruct Hadj as [[E1 E2]|[E1 E2]]; [left|right]; split; auto; lia.
Qed.

Lemma connected_rect h w m :
  rect h w m -> 0 < h -> exists b, connected m = Ok b.
Proof.
  intros Hrect Hh. unfold connected.
  destruct (rect_row h w m 0 Hrect) as (row0 & Hrow0 & Hlen0); [lia|].
  unfold py_index at 1. rewrite py_pos_nonneg by (destruct Hrect; lia).
  simpl. rewrite Hrow0. simpl.
  destruct Hrect as [Hlen Hrows]. rewrite Hlen, Hlen0.
  rewrite (filled_cells_rect h w) by done. simpl.
  destruct (filter _ _) as [|start rest] eqn:Hcells; [by eexists|].
  destruct (bfs _ m h w {[start]} [start]) as [r|] eqn:Hbfs; [|by eexists].
  assert (Hstart : In start (start :: rest)) by (by left).
  rewrite <- Hcells in Hstart.
  apply list_elem_of_In, list_elem_of_filter in Hstart as [Hat Hin].
  apply list_elem_of_In, In_all_cells in Hin.
  edestruct (bfs_sound m h w start (conj Hlen Hrows))
    as (seen' & -> & _); [| |exact Hbfs|by eexists].
  - intros x Hx. apply elem_of_singleton in Hx as ->.
    split; [done|]. split; [done|]. apply rtc_refl.
  - intros x [<-|[]]. set_solver.
Qed.

Lemma connected_sound h w m :
  rect h w m -> connected m = Ok true -> four_connected m.
Proof.
  intros Hrect. unfold connected.
  destruct (py_index m 0) as [row0|] eqn:Hrow0; simpl; [|done].
  assert (Hh : Z.of_nat (length m) = h) by apply Hrect.
  assert (Hw : Z.of_nat (length row0) = w).
  { unfold py_index in Hrow0.
    destruct (py_pos m 0) as [j|] eqn:Hj; simpl in Hrow0; [|done].
    apply py_pos_Ok_nonneg in Hj as [Hlt ->]; [|done].
    destruct (rect_row h w m 0 Hrect) as (row & Hrow & Hlen); [lia|].
    rewrite Hrow in Hrow0. simpl in Hrow0. by injection Hrow0 as <-. }
  rewrite Hh, Hw. rewrite (filled_cells_rect h w) by done. simpl.
  destruct (filter _ _) as [|start rest] eqn:Hcells; [done|].
  destruct (bfs _ m h w {[start]} [start]) as [r|] eqn:Hbfs; [|done].
  assert (Hstart : In start (start :: rest)) by (by left).
  rewrite <- Hcells in Hstart.
  apply list_elem_of_In, list_elem_of_filter in Hstart as [Hat Hin].
  apply list_elem_of_In, In_all_cells in Hin.
  assert (Hfs : is_filled m start) by (by apply (is_filled_rect h w)).
  edestruct (bfs_sound m h w start Hrect)
    as (seen & -> & Hreached); [| |exact Hbfs|].
  { intros x Hx. apply elem_of_singleton in Hx as ->.
    split; [done|]. split; [done|]. apply rtc_refl. }
  { intros x [<-|[]]. set_solver. }
  simpl. intros [= Hsize]. apply Nat.eqb_eq in Hsize.
  set (cells := start :: rest) in *.
  assert (Hnd : NoDup cells).
  { rewrite <- Hcells. apply NoDup_filter, NoDup_all_cells. }
  assert (Hsub : seen ⊆ list_to_set cells).
  { intros x Hx. destruct (Hreached x Hx) as (Hx1 & Hx2 & _).
    apply elem_of_list_to_set. rewrite <- Hcells.
    apply list_elem_of_filter. split; [done|].
    by apply list_elem_of_In, In_all_cells. }
  assert (Heq : seen = list_to_set cells).
  { apply set_subseteq_size_eq; [done|].
    rewrite size_list_to_set by done. subst cells. simpl. lia. }
  split; [by exists start|].
  assert (Hreach : forall q, is_filled m q -> rtc (step4 m) start q).
  { intros q Hq. apply (is_filled_rect h w) in Hq as [Hq1 Hq2]; [|done].
    apply Hreached. rewrite Heq. apply elem_of_list_to_set.
    rewrite <- Hcells. apply list_elem_of_filter. split; [done|].
    by apply list_elem_of_In, In_all_cells. }
  intros p q Hp Hq.
  destruct (step4_back m start p Hfs (Hreach p Hp)) as [Hback _].
  etrans; [exact Hback|]. by apply Hreach.
Qed.

End MaskFacts.

(** ** The enumeration: what holds of every layout it emits *)
Module LayoutFacts.
Import PyFacts MaskFacts.

(** *** [itertools] *)
Lemma In_combinations {A} (l : list A) k c :
  In c (combinations l k) -> length c = k /\ forall x, In x c -> In x l.
Proof.
  revert k c. induction l as [|x l IH]; intros [|k] c; simpl.
  - intros [<-|[]]. split; [done|]. intros y [].
  - intros [].
  - intros [<-|[]]. split; [done|]. intros y [].
  - intros Hc. apply in_app_or in Hc as [Hc|Hc].
    + apply in_map_iff in Hc as (c' & <- & Hc').
      destruct (IH _ _ Hc') as [Hlen Hsub]. split; [simpl; lia|].
      intros y [<-|Hy]; auto.
    + destruct (IH _ _ Hc) as [Hlen Hsub]. split; auto.
Qed.

Lemma In_product_repeat {A} (xs : list A) n c :
  In c (product_repeat xs n) -> length c = n /\ forall x, In x c -> In x xs.
Proof.
  revert c. induction n as [|n IH]; intros c; simpl.
  - intros [<-|[]]. split; [done|]. intros y [].
  - intros Hc. apply in_flat_map in Hc as (x & Hx & Hc).
    apply in_map_iff in Hc as (c' & <- & Hc').
    destruct (IH _ Hc') as [Hlen Hsub]. split; [simpl; lia|].
    intros y [<-|Hy]; auto.
Qed.

Lemma In_zip {A B} (la : list A) (lb : list B) a b :
  In (a, b) (zip la lb) -> In a la /\ In b lb.
Proof.
  revert lb. induction la as [|x la IH]; intros [|y lb]; simpl; try done.
  intros [[= -> ->]|Hin]; [auto|]. apply IH in Hin. tauto.
Qed.

Lemma fold_left_inv {A B} (I : A -> Prop) (f : A -> B -> A) (l : list B) a :
  (forall x a, In x l -> I a -> I (f a x)) -> I a -> I (fold_left f l a).
Proof.
  revert a. induction l as [|x l IH]; intros a Hf Ha; simpl; [done|].
  apply IH; [|apply Hf; auto; by left].
  intros y b Hy. apply Hf. by right.
Qed.

(** *** Non-adjacency *)
Lemma gaps_ok_far a t :
  gaps_ok (a :: t) = true -> Forall (fun b => a + 2 <= b) t.
Proof.
  revert a. induction t as [|b t IH]; intros a; [by constructor|].
  cbn [gaps_ok]. intros Hg. apply andb_true_iff in Hg as [Hab Hg].
  apply Z.leb_le in Hab. constructor; [lia|].
  eapply Forall_impl; [apply IH, Hg|]. simpl. intros. lia.
Qed.

Lemma gaps_ok_tail a t : gaps_ok (a :: t) = true -> gaps_ok t = true.
Proof.
  destruct t as [|b t]; [done|]. cbn [gaps_ok].
  intros Hg. by apply andb_true_iff in Hg as [_ Hg].
Qed.

Lemma gaps_ok_apart s a b :
  gaps_ok s = true -> In a s -> In b s -> Z.abs (a - b) <> 1.
Proof.
  induction s as [|x s IH]; [done|]. intros Hg.
  pose proof (gaps_ok_far x s Hg) as Hfar. rewrite Forall_forall in Hfar.
  specialize (IH (gaps_ok_tail x s Hg)).
  intros [<-|Ha] [<-|Hb]; [lia| | |by apply IH].
  - apply list_elem_of_In, Hfar in Hb. lia.
  - apply list_elem_of_In, Hfar in Ha. lia.
Qed.

Lemma gaps_ok_NoDup s : gaps_ok s = true -> NoDup s.
Proof.
  induction s as [|x s IH]; intros Hg; [constructor|].
  apply NoDup_cons. split; [|apply IH, (gaps_ok_tail x), Hg].
  pose proof (gaps_ok_far x s Hg) as Hfar. rewrite Forall_forall in Hfar.
  intros Hx. apply Hfar in Hx. lia.
Qed.

Lemma nonadjacent_NoDup l : nonadjacent l = true -> NoDup l.
Proof.
  unfold nonadjacent. intros Hg. apply gaps_ok_NoDup in Hg.
  by rewrite (sorted_perm Z.leb l) in Hg.
Qed.

Lemma NoDup_zip_fst {A B} (la : list A) (lb : list B) :
  NoDup la -> NoDup (map fst (zip la lb)).
Proof.
  intros Hnd. revert lb. induction Hnd as [|x la Hx Hnd IH]; intros [|y lb];
    simpl; try constructor; [|apply IH].
  intros Hin. apply Hx.
  apply list_elem_of_In, in_map_iff in Hin as ([a b] & <- & Hin).
  apply In_zip in Hin as [Ha _]. by apply list_elem_of_In.
Qed.

Lemma nonadjacent_apart l a b :
  nonadjacent l = true -> In a l -> In b l -> Z.abs (a - b) <> 1.
Proof.
  unfold nonadjacent. intros Hg Ha Hb.
  apply (gaps_ok_apart _ a b Hg); by apply sorted_In.
Qed.

(** *** The choices of the enumeration *)
Lemma In_horizontal_lengths w L :
  In L (horizontal_lengths_allowed w) ->
  4 <= L <= w /\ 2 * ((w - L) / 2) = w - L.
Proof.
  unfold horizontal_lengths_allowed.
  destruct (Z.eqb_spec (w mod 2) 0) as [Hw|Hw]; intros HL;
    apply list_elem_of_In, list_elem_of_filter in HL as [HL Hin];
    apply list_elem_of_In, In_range in Hin;
    (split; [lia|]); Z.div_mod_to_equations; lia.
Qed.

Lemma In_vertical_segments h s L :
  In (s, L) (vertical_segment_options h) -> 0 <= s /\ 4 <= L /\ s + L <= h.
Proof.
  unfold vertical_segment_options. intros Hin.
  apply in_flat_map in Hin as (L' & HL & Hin).
  apply in_map_iff in Hin as (s' & [= -> ->] & Hs).
  apply In_range in HL, Hs. lia.
Qed.

Lemma In_units w u : In u (symmetric_vertical_units w) -> mirror_unit w u.
Proof.
  unfold symmetric_vertical_units.
  destruct (Z.eqb_spec w 4) as [->|_]; [|
  destruct (Z.eqb_spec w 5) as [->|_]; [|
  destruct (Z.eqb_spec w 6) as [->|_]; [|
  destruct (Z.eqb_spec w 7) as [->|_]; [|intros []]]]];
    simpl; intros Hu; repeat (destruct Hu as [<-|Hu]; [simpl; lia|]);
    destruct Hu.
Qed.

Lemma mirror_unit_cols w u c :
  mirror_unit w u -> In c (unit_cols u) ->
  0 <= c < w /\ In (w - 1 - c) (unit_cols u).
Proof.
  destruct u as [a b|c']; simpl.
  - intros [Ha ->] [<-|[<-|[]]]; (split; [lia|]); [right; left|left]; lia.
  - intros [Hc Hm] [<-|[]]. split; [lia|]. left. lia.
Qed.

(** *** The column dictionary *)
Lemma dset_NoDup {K V} `{EqDecision K} (k : K) (v : V) (d : list (K * V)) :
  NoDup (dkeys d) -> NoDup (dkeys (dset k v d)).
Proof.
  induction d as [|[k0 v0] d IH]; simpl.
  - intros _. apply NoDup_singleton.
  - intros Hnd. apply NoDup_cons in Hnd as [Hk0 Hnd].
    destruct (decide (k = k0)) as [->|Hne]; simpl.
    + by apply NoDup_cons.
    + apply NoDup_cons. split; [|by apply IH].
      intros Hin. apply list_elem_of_In, dkeys_dset in Hin as [->|Hin];
        [done|]. by apply Hk0, list_elem_of_In.
Qed.

Section Columns.
Variables (w : Z) (v_choice : list vunit) (segs : list (Z * Z)).
Hypothesis units_mirror : forall u, In u v_choice -> mirror_unit w u.
Local Abbreviation cols_inv := (cols_inv w v_choice segs).

Lemma cols_inv_step u seg d :
  In u v_choice -> In seg segs -> cols_inv d ->
  cols_inv (fold_left (fun d c => dset c seg d) (unit_cols u) d).
Proof.
  intros Hu Hseg (Hnd & Hin & Hmir).
  pose proof (units_mirror u Hu) as Hmu.
  assert (Hcols : forall c, In c (unit_cols u) ->
                            In c (flat_map unit_cols v_choice)).
  { intros c Hc. apply in_flat_map. by exists u. }
  destruct u as [a b|c0]; simpl in *.
  - destruct Hmu as [Ha ->]. split; [by do 2 apply dset_NoDup|]. split.
    + intros c s. rewrite !dget_dset.
      destruct (decide (c = w - 1 - a)) as [->|_];
        [intros [= <-]; auto|].
      destruct (decide (c = a)) as [->|_]; [intros [= <-]; auto|].
      apply Hin.
    + intros c. rewrite !dget_dset.
      destruct (decide (c = w - 1 - a)), (decide (c = a)),
        (decide (w - 1 - c = w - 1 - a)), (decide (w - 1 - c = a));
        try done; try lia; apply Hmir.
  - destruct Hmu as [Hc Hm]. split; [by apply dset_NoDup|]. split.
    + intros c s. rewrite !dget_dset.
      destruct (decide (c = c0)) as [->|_]; [intros [= <-]; auto|].
      apply Hin.
    + intros c. rewrite !dget_dset.
      destruct (decide (c = c0)), (decide (w - 1 - c = c0));
        try done; try lia; apply Hmir.
Qed.

Lemma assign_units_inv : cols_inv (assign_units v_choice segs).
Proof.
  unfold assign_units.
  apply (fold_left_inv cols_inv).
  - intros [u seg] d Hin Hd. apply In_zip in Hin as [Hu Hseg].
    by apply cols_inv_step.
  - split; [constructor|]. split; [|done]. intros c seg [=].
Qed.
End Columns.

(** *** Geometry of a choice *)
Lemma geometry_of w h rows Ls v_choice segs :
  4 <= w <= 7 -> 4 <= h <= 6 ->
  (forall r, In r rows -> 0 <= r < h) ->
  nonadjacent rows = true ->
  (forall L, In L Ls -> In L (horizontal_lengths_allowed w)) ->
  (forall u, In u v_choice -> In u (symmetric_vertical_units w)) ->
  nonadjacent (expand_units_to_cols v_choice) = true ->
  (forall seg, In seg segs -> In seg (vertical_segment_options h)) ->
  geometry w h (zip rows Ls) (assign_units v_choice segs).
Proof.
  intros Hw Hh Hrows Hgap HLs Hunits Hcgap Hsegs.
  assert (Hmu : forall u, In u v_choice -> mirror_unit w u)
    by (intros u Hu; apply In_units; auto).
  destruct (assign_units_inv w v_choice segs Hmu) as (Hnd & Hin & Hmir).
  assert (Hget : forall c seg, In (c, seg) (assign_units v_choice segs) ->
            In c (flat_map unit_cols v_choice) /\ In seg segs).
  { intros c seg Hc. apply Hin. by apply In_dget_nodup. }
  split; try done.
  - apply NoDup_zip_fst. by apply nonadjacent_NoDup.
  - intros r L Hin'. apply In_zip in Hin' as [Hr HL].
    split; [auto|]. apply HLs, In_horizontal_lengths in HL. lia.
  - intros c s L Hc. destruct (Hget _ _ Hc) as [Hcol Hseg].
    apply in_flat_map in Hcol as (u & Hu & Hcu).
    destruct (mirror_unit_cols w u c (Hmu u Hu) Hcu) as [Hcw _].
    apply Hsegs, In_vertical_segments in Hseg. lia.
  - intros c seg Hc. apply dget_In. rewrite <- Hmir. by apply In_dget_nodup.
  - intros r1 L1 r2 L2 H1 H2.
    apply In_zip in H1 as [H1 _]. apply In_zip in H2 as [H2 _].
    by apply (nonadjacent_apart rows).
  - intros c1 s1 c2 s2 H1 H2.
    destruct (Hget _ _ H1) as [Hc1 _]. destruct (Hget _ _ H2) as [Hc2 _].
    assert (Hexp : forall c, In c (flat_map unit_cols v_choice) ->
              In c (expand_units_to_cols v_choice)).
    { intros c Hc. unfold expand_units_to_cols. apply sorted_In.
      apply list_elem_of_In. rewrite elem_of_remove_dups.
      by apply list_elem_of_In. }
    apply (nonadjacent_apart (expand_units_to_cols v_choice)); auto.
Qed.

(** *** Cells of the slots *)
Lemma In_hcells w rl p :
  In p (hcells w rl) <->
  fst p = fst rl /\
  (w - snd rl) / 2 <= snd p <= (w - snd rl) / 2 + snd rl - 1.
Proof.
  unfold hcells. simpl. rewrite in_map_iff. split.
  - intros (c & <- & Hc). apply In_range in Hc. simpl. lia.
  - intros [Hr Hc]. exists (snd p). split; [destruct p; simpl in *; by subst|].
    apply In_range. lia.
Qed.

Lemma In_vcells cv p :
  In p (vcells cv) <->
  snd p = fst cv /\ fst (snd cv) <= fst p < fst (snd cv) + snd (snd cv).
Proof.
  unfold vcells. rewrite in_map_iff. split.
  - intros (r & <- & Hr). apply In_range in Hr. simpl. lia.
  - intros [Hc Hr]. exists (fst p). split; [destruct p; simpl in *; by subst|].
    apply In_range. lia.
Qed.

Lemma slot_cells_inb w h hrows vcols :
  geometry w h hrows vcols -> Forall (inb h w) (slot_cells w hrows vcols).
Proof.
  intros G. apply Forall_forall. intros p Hp.
  apply list_elem_of_In, in_app_or in Hp as [Hp|Hp];
    apply in_flat_map in Hp as (x & Hx & Hp).
  - destruct x as [r L]. apply In_hcells in Hp as [Hr Hc]. simpl in *.
    destruct (g_rows _ _ _ _ G r L Hx) as (Hr' & HL & Heven).
    split; lia.
  - destruct x as [c [s L]]. apply In_vcells in Hp as [Hc Hr]. simpl in *.
    destruct (g_cols _ _ _ _ G c s L Hx) as (Hc' & Hs & HL & Hh).
    split; lia.
Qed.

Lemma slot_cells_mirror w h hrows vcols r c :
  geometry w h hrows vcols ->
  In (r, c) (slot_cells w hrows vcols) ->
  In (r, w - 1 - c) (slot_cells w hrows vcols).
Proof.
  intros G Hp. unfold slot_cells in *. apply in_or_app.
  apply in_app_or in Hp as [Hp|Hp];
    apply in_flat_map in Hp as (x & Hx & Hp); [left|right]; apply in_flat_map.
  - exists x. split; [done|]. destruct x as [r' L].
    apply In_hcells in Hp as [Hr Hc]. apply In_hcells. simpl in *.
    destruct (g_rows _ _ _ _ G r' L Hx) as (_ & _ & Heven). lia.
  - destruct x as [c' seg]. exists (w - 1 - c', seg).
    split; [by apply (g_mirror _ _ _ _ G)|].
    apply In_vcells in Hp as [Hc Hr]. apply In_vcells. simpl in *. lia.
Qed.

(** *** What [emit] appends *)
Lemma geometry_mask w h hrows vcols :
  geometry w h hrows vcols ->
  exists m, build_mask w h hrows vcols = Ok m /\ rect h w m /\
    forall q, inb h w q ->
      mask_at m q = if bool_decide (q ∈ slot_cells w hrows vcols) then 1 else 0.
Proof.
  intros G. apply build_mask_spec.
  - pose proof (g_h _ _ _ _ G). lia.
  - pose proof (g_w _ _ _ _ G). lia.
  - by apply slot_cells_inb.
Qed.

Lemma emit_emitted w h nH nV min_intersections hrows vcols layouts :
  geometry w h hrows vcols -> Forall emitted layouts ->
  exists layouts',
    emit w h nH nV min_intersections hrows vcols layouts = Ok layouts' /\
    Forall emitted layouts'.
Proof.
  intros G Hls. unfold emit.
  destruct (geometry_mask w h hrows vcols G) as (m & Hm & Hrect & Hat).
  rewrite Hm, bind_ret.
  assert (Hh : 0 < h) by (pose proof (g_h _ _ _ _ G); lia).
  destruct (connected_rect h w m Hrect Hh) as [b Hb].
  rewrite Hb, bind_ret.
  destruct b; cbn [negb]; [|by eexists].
  destruct (is_plain_rectangle w h hrows vcols); [by eexists|].
  destruct (build_slots_and_intersections w h hrows vcols)
    as [slots inter] eqn:Hslots.
  destruct (Z.of_nat (length inter) <? min_intersections); [by eexists|].
  eexists. split; [reflexivity|].
  apply Forall_app. split; [done|]. apply Forall_singleton.
  by split.
Qed.

(** *** The loops *)
Lemma enumerate_family_emitted w h min_intersections fam layouts :
  4 <= w <= 7 -> 4 <= h <= 6 -> Forall emitted layouts ->
  exists layouts',
    enumerate_family w h (symmetric_vertical_units w)
      (vertical_segment_options h) (horizontal_lengths_allowed w)
      min_intersections fam layouts = Ok layouts' /\
    Forall emitted layouts'.
Proof.
  intros Hw Hh Hls. destruct fam as [nH nV]. unfold enumerate_family.
  destruct (h <? Z.of_nat nH); [by eexists|].
  destruct (is_empty (filter nonadjacent (combinations (range 0 h) nH)));
    [by eexists|].
  destruct ((0 <? nV)%nat && is_empty _); [by eexists|].
  apply (for_each_inv (Forall emitted)); [|done].
  intros rows ls Hrows Hls1.
  apply list_elem_of_In, list_elem_of_filter in Hrows as [Hgap Hrows].
  apply Is_true_true in Hgap.
  apply list_elem_of_In, In_combinations in Hrows as [_ Hrows].
  assert (Hrows' : forall r, In r rows -> 0 <= r < h).
  { intros r Hr. apply Hrows, In_range in Hr. lia. }
  apply (for_each_inv (Forall emitted)); [|done].
  intros Ls ls2 HLs Hls2.
  assert (HLs' : forall L, In L Ls -> In L (horizontal_lengths_allowed w)).
  { destruct (0 <? nH)%nat.
    - by apply In_product_repeat in HLs as [_ HLs].
    - destruct HLs as [<-|[]]. intros L []. }
  apply (for_each_inv (Forall emitted)); [|done].
  intros v_choice ls3 Hvc Hls3.
  assert (Hvc' : (forall u, In u v_choice ->
                            In u (symmetric_vertical_units w)) /\
                 nonadjacent (expand_units_to_cols v_choice) = true).
  { destruct (0 <? nV)%nat.
    - unfold unit_subsets_for in Hvc.
      apply in_flat_map in Hvc as (k & _ & Hvc).
      apply list_elem_of_In, list_elem_of_filter in Hvc as [Hok Hvc].
      apply Is_true_true, andb_true_iff in Hok as [_ Hok].
      by apply list_elem_of_In, In_combinations in Hvc as [_ Hvc].
    - destruct Hvc as [<-|[]]. split; [intros u []|done]. }
  destruct Hvc' as [Hunits Hcgap].
  destruct (nV =? 0)%nat.
  - apply emit_emitted; [|done].
    apply (geometry_of w h rows Ls [] []); try done; by intros ? [].
  - apply (for_each_inv (Forall emitted)); [|done].
    intros segs ls4 Hsegs Hls4.
    apply In_product_repeat in Hsegs as [_ Hsegs].
    destruct (slot_purity_ok _ _ w); simpl; [|by eexists].
    apply emit_emitted; [|done]. by apply geometry_of.
Qed.

Lemma enumerate_sizes_emitted fams min_intersections :
  exists layouts,
    enumerate_sizes fams min_intersections = Ok layouts /\
    Forall emitted layouts.
Proof.
  unfold enumerate_sizes.
  apply (for_each_inv (Forall emitted)); [|done].
  intros w ls Hw Hls.
  apply (for_each_inv (Forall emitted)); [|done].
  intros h ls1 Hh Hls1.
  destruct (is_empty (symmetric_vertical_units w)); [by eexists|].
  apply (for_each_inv (Forall emitted)); [|done].
  intros fam ls2 _ Hls2.
  apply enumerate_family_emitted; [| |done].
  - simpl in Hw. lia.
  - simpl in Hh. lia.
Qed.

Lemma In_dedupe_by_mask seen layouts lay :
  In lay (dedupe_by_mask seen layouts) -> In lay layouts.
Proof.
  revert seen. induction layouts as [|x layouts IH]; intros seen; simpl;
    [done|].
  destruct (bool_decide (lay_mask x ∈ seen)).
  - intros Hin. right. by apply IH in Hin.
  - intros [<-|Hin]; [by left|]. right. by apply IH in Hin.
Qed.

Lemma enumerate_layouts_emitted min_intersections total_words :
  total_words = 5 \/ total_words = 6 ->
  exists layouts,
    enumerate_layouts min_intersections total_words = Ok layouts /\
    Forall emitted layouts.
Proof.
  intros Htw. unfold enumerate_layouts.
  assert (exists fams, allowed_fams total_words = Ok fams) as [fams ->].
  { destruct Htw as [-> | ->]; by eexists. }
  rewrite bind_ret.
  destruct (enumerate_sizes_emitted fams min_intersections) as (ls & -> & Hls).
  rewrite bind_ret. eexists. split; [reflexivity|].
  rewrite Forall_forall in Hls. apply Forall_forall.
  intros lay Hlay. apply Hls.
  by apply list_elem_of_In, In_dedupe_by_mask, list_elem_of_In in Hlay.
Qed.

Lemma feasible_layouts_emitted mode min_intersections letters :
  exists layouts,
    feasible_layouts mode min_intersections letters = Ok layouts /\
    forall lay, In lay layouts ->
      emitted lay /\ lay_total lay = Z.of_nat (length letters).
Proof.
  unfold feasible_layouts.
  destruct (for_each_inv (Forall emitted)
              (fun tw acc =>
                 ls ← enumerate_layouts min_intersections tw; Ok (acc ++ ls))
              (modes_of mode) []) as (all & -> & Hall); [|done|].
  - intros tw acc Htw Hacc.
    destruct (enumerate_layouts_emitted min_intersections tw) as (ls & -> & Hls).
    { destruct mode; simpl in Htw; lia. }
    rewrite bind_ret. eexists. split; [reflexivity|].
    by apply Forall_app.
  - rewrite bind_ret. eexists. split; [reflexivity|].
    intros lay Hlay. apply In_dedupe_by_mask in Hlay.
    apply list_elem_of_In, list_elem_of_filter in Hlay as [Htot Hlay].
    split; [|done]. rewrite Forall_forall in Hall. by apply Hall.
Qed.

End LayoutFacts.

(** ** The layouts [main] attempts *)
Module LayoutTheorems.
Import PyFacts MaskFacts LayoutFacts.

Lemma emitted_mask lay :
  emitted lay ->
  rect (lay_h lay) (lay_w lay) (lay_mask lay) /\
  forall q, inb (lay_h lay) (lay_w lay) q ->
    mask_at (lay_mask lay) q =
    if bool_decide (q ∈ slot_cells (lay_w lay) (lay_h_rows lay) (lay_v_cols lay))
    then 1 else 0.
Proof.
  intros E.
  destruct (geometry_mask _ _ _ _ (em_geometry lay E)) as (m & Hm & Hrect & Hat).
  rewrite (em_mask lay E) in Hm. injection Hm as <-. by split.
Qed.

Lemma emitted_connected lay : emitted lay -> four_connected (lay_mask lay).
Proof.
  intros E. destruct (emitted_mask lay E) as [Hrect _].
  exact (connected_sound _ _ _ Hrect (em_connected lay E)).
Qed.

Lemma emitted_symmetric lay :
  emitted lay -> lr_symmetric (lay_w lay) (lay_h lay) (lay_mask lay).
Proof.
  intros E. destruct (emitted_mask lay E) as [Hrect Hat].
  pose proof (em_geometry lay E) as G.
  intros r c Hr Hc. exists (mask_at (lay_mask lay) (r, c)).
  assert (Hq : inb (lay_h lay) (lay_w lay) (r, c)) by (by split).
  assert (Hq' : inb (lay_h lay) (lay_w lay) (r, lay_w lay - 1 - c))
    by (split; simpl; lia).
  split; [exact (mask_get_rect _ _ _ (r, c) Hrect Hq)|].
  pose proof (mask_get_rect _ _ _ (r, lay_w lay - 1 - c) Hrect Hq') as Hg.
  simpl in Hg. rewrite Hg.
  f_equal. rewrite !Hat by done.
  destruct (decide ((r, c) ∈ slot_cells (lay_w lay) (lay_h_rows lay)
                                        (lay_v_cols lay))) as [Hin|Hin].
  - rewrite !bool_decide_eq_true_2; [done|done|].
    by apply list_elem_of_In, (slot_cells_mirror _ (lay_h lay)), list_elem_of_In.
  - rewrite !bool_decide_eq_false_2; [done|done|].
    intros Hin'. apply Hin.
    apply list_elem_of_In, (slot_cells_mirror _ (lay_h lay)) in Hin'; [|done].
    apply list_elem_of_In.
    by replace (lay_w lay - 1 - (lay_w lay - 1 - c)) with c in Hin' by lia.
Qed.

Lemma emitted_count lay :
  emitted lay -> lay_total lay = Z.of_nat (filled_count (lay_mask lay)).
Proof.
  intros E. destruct (emitted_mask lay E) as [Hrect Hat].
  rewrite (em_total lay E). apply mask_total_count.
  apply (rect_entries _ _ _ Hrect). intros q Hq. rewrite Hat by done.
  destruct (bool_decide _); auto.
Qed.

Lemma emitted_slots lay a :
  emitted lay -> In a (lay_slots lay) ->
  (exists rl, In rl (lay_h_rows lay) /\ a = across_slot (lay_w lay) rl) \/
  (exists cv, In cv (lay_v_cols lay) /\ a = down_slot cv).
Proof.
  intros E Ha. pose proof (em_slots lay E) as Hs.
  unfold build_slots_and_intersections in Hs. injection Hs as Hs _.
  rewrite <- Hs in Ha. apply in_app_or in Ha as [Ha|Ha];
    apply in_map_iff in Ha as (x & <- & Hx); apply sorted_In in Hx;
    [left|right]; by exists x.
Qed.

Lemma across_slot_row w rl p :
  orient (across_slot w rl) = H /\
  (In p (cells (across_slot w rl)) -> fst p = fst rl).
Proof.
  destruct rl as [r L]. unfold across_slot. simpl. split; [done|].
  intros Hp. by apply in_map_iff in Hp as (c & <- & _).
Qed.

Lemma down_slot_col cv p :
  orient (down_slot cv) = V /\
  (In p (cells (down_slot cv)) -> snd p = fst cv).
Proof.
  destruct cv as [c [s L]]. unfold down_slot. simpl. split; [done|].
  intros Hp. by apply in_map_iff in Hp as (r & <- & _).
Qed.

Lemma emitted_rows_apart lay : emitted lay -> rows_apart (lay_slots lay).
Proof.
  intros E a b pa pb Ha Hb Hoa Hob Hpa Hpb.
  pose proof (em_geometry lay E) as G.
  destruct (emitted_slots lay a E Ha) as [(ra & Hra & ->)|(cv & _ & ->)];
    [|by rewrite (proj1 (down_slot_col cv pa)) in Hoa].
  destruct (emitted_slots lay b E Hb) as [(rb & Hrb & ->)|(cv & _ & ->)];
    [|by rewrite (proj1 (down_slot_col cv pb)) in Hob].
  apply (across_slot_row _ ra pa) in Hpa.
  apply (across_slot_row _ rb pb) in Hpb. rewrite Hpa, Hpb.
  destruct ra as [r1 L1], rb as [r2 L2].
  exact (g_row_gap _ _ _ _ G r1 L1 r2 L2 Hra Hrb).
Qed.

Lemma emitted_cols_apart lay : emitted lay -> cols_apart (lay_slots lay).
Proof.
  intros E a b pa pb Ha Hb Hoa Hob Hpa Hpb.
  pose proof (em_geometry lay E) as G.
  destruct (emitted_slots lay a E Ha) as [(rl & _ & ->)|(ca & Hca & ->)];
    [by rewrite (proj1 (across_slot_row (lay_w lay) rl pa)) in Hoa|].
  destruct (emitted_slots lay b E Hb) as [(rl & _ & ->)|(cb & Hcb & ->)];
    [by rewrite (proj1 (across_slot_row (lay_w lay) rl pb)) in Hob|].
  apply (down_slot_col ca pa) in Hpa.
  apply (down_slot_col cb pb) in Hpb. rewrite Hpa, Hpb.
  destruct ca as [c1 s1], cb as [c2 s2].
  exact (g_col_gap _ _ _ _ G c1 s1 c2 s2 Hca Hcb).
Qed.

(** *** Claim C2 *)

(** C2: for every word mode, intersection threshold and phrase, the
    enumeration and the phrase-length filter of [main] return a list of
    layouts (no exception is raised), and every layout in it has a mask that
    is 4-connected and left-right symmetric, has as many filled cells as the
    phrase has letters, and has no two across slots in adjacent rows and no
    two down slots in adjacent columns. *)
Theorem attempted_layouts_valid
  (mode : words_mode) (min_intersections : Z) (letters : str) :
  exists layouts,
    feasible_layouts mode min_intersections letters = Ok layouts /\
    forall lay, In lay layouts ->
      four_connected (lay_mask lay) /\
      lr_symmetric (lay_w lay) (lay_h lay) (lay_mask lay) /\
      filled_count (lay_mask lay) = length letters /\
      rows_apart (lay_slots lay) /\
      cols_apart (lay_slots lay).
Proof.
  destruct (feasible_layouts_emitted mode min_intersections letters)
    as (layouts & Hrun & Hall).
  exists layouts. split; [exact Hrun|].
  intros lay Hlay. destruct (Hall lay Hlay) as [E Htotal].
  split; [by apply emitted_connected|].
  split; [by apply emitted_symmetric|].
  split; [|split; [by apply emitted_rows_apart|by apply emitted_cols_apart]].
  rewrite (emitted_count lay E) in Htotal. lia.
Qed.

Lemma feasible_sample :
  match feasible_layouts Mode5 0 (lit "ABCDEFGHIJKLMNOP") with
  | Ok (_ :: _) => true
  | _ => false
  end = true.
Proof. vm_compute. reflexivity. Qed.

Lemma attempted_layouts_valid_witness :
  exists layouts lay,
    feasible_layouts Mode5 0 (lit "ABCDEFGHIJKLMNOP") = Ok layouts /\
    In lay layouts /\
    four_connected (lay_mask lay) /\
    filled_count (lay_mask lay) = 16%nat.
Proof.
  destruct (attempted_layouts_valid Mode5 0 (lit "ABCDEFGHIJKLMNOP"))
    as (layouts & Hrun & Hall).
  destruct layouts as [|lay rest].
  { pose proof feasible_sample as Hs. rewrite Hrun in Hs. discriminate. }
  exists (lay :: rest), lay. split; [exact Hrun|]. split; [by left|].
  destruct (Hall lay (or_introl eq_refl)) as (Hconn & _ & Hcount & _).
  by split.
Defined.

End LayoutTheorems.

(** ** What [main] passes to the search *)
Module MainFacts.
Import PyFacts DictionaryFacts MaskFacts LayoutFacts LayoutTheorems.
Import SolverTheorems SolverTotalTheorems.

(** *** Slot ids *)
Lemma str_of_int_digit r : 0 <= r <= 9 -> str_of_int r = [Z.to_N (48 + r)].
Proof.
  intros Hr.
  assert (r = 0 \/ r = 1 \/ r = 2 \/ r = 3 \/ r = 4 \/ r = 5 \/ r = 6 \/
          r = 7 \/ r = 8 \/ r = 9) as Hcases by lia.
  repeat (destruct Hcases as [->|Hcases]; [by vm_compute|]).
  subst. by vm_compute.
Qed.

Lemma across_id w r L :
  0 <= r <= 9 ->
  exists rest,
    slot_id (across_slot w (r, L)) =
    [72%N; 64%N; 82%N; Z.to_N (48 + r)] ++ rest.
Proof.
  intros Hr. unfold across_slot. simpl.
  rewrite (str_of_int_digit r Hr). by eexists.
Qed.

Lemma down_id c s L :
  0 <= c <= 9 ->
  exists rest,
    slot_id (down_slot (c, (s, L))) =
    [86%N; 64%N; 67%N; Z.to_N (48 + c)] ++ rest.
Proof.
  intros Hc. unfold down_slot. simpl.
  rewrite (str_of_int_digit c Hc). by eexists.
Qed.

Lemma keyed_inj {K V} `{EqDecision K} (l : list (K * V)) k v v' :
  NoDup (map fst l) -> In (k, v) l -> In (k, v') l -> v = v'.
Proof.
  intros Hnd H1 H2.
  apply (In_dget_nodup k v l Hnd) in H1. apply (In_dget_nodup k v' l Hnd) in H2.
  congruence.
Qed.

Lemma emitted_slot_list lay :
  emitted lay ->
  lay_slots lay =
    map (across_slot (lay_w lay))
        (sorted (le_of seg_compare) (lay_h_rows lay)) ++
    map down_slot (sorted (le_of col_compare) (lay_v_cols lay)) /\
  lay_inter lay = all_crossings (lay_slots lay).
Proof.
  intros E. pose proof (em_slots lay E) as Hs.
  unfold build_slots_and_intersections in Hs. injection Hs as Hs Hi.
  split; [done|]. by rewrite <- Hi, Hs.
Qed.

Lemma emitted_ids_NoDup lay : emitted lay -> NoDup (map slot_id (lay_slots lay)).
Proof.
  intros E. destruct (emitted_slot_list lay E) as [-> _].
  pose proof (em_geometry lay E) as G.
  pose proof (g_h _ _ _ _ G) as Hh. pose proof (g_w _ _ _ _ G) as Hw.
  rewrite map_app. apply NoDup_app. split; [|split].
  - rewrite map_map.
    apply (NoDup_fmap_2_strong (fun x => slot_id (across_slot (lay_w lay) x))).
    + intros [r1 L1] [r2 L2] H1 H2 Hid.
      apply list_elem_of_In, sorted_In in H1, H2.
      destruct (g_rows _ _ _ _ G r1 L1 H1) as (Hr1 & _).
      destruct (g_rows _ _ _ _ G r2 L2 H2) as (Hr2 & _).
      destruct (across_id (lay_w lay) r1 L1) as [rest1 E1]; [lia|].
      destruct (across_id (lay_w lay) r2 L2) as [rest2 E2]; [lia|].
      rewrite E1, E2 in Hid. injection Hid as Hd _.
      assert (r1 = r2) as -> by lia. f_equal.
      exact (keyed_inj _ r2 L1 L2 (g_rows_nodup _ _ _ _ G) H1 H2).
    + rewrite (sorted_perm _ (lay_h_rows lay)).
      exact (NoDup_fmap_1 fst _ (g_rows_nodup _ _ _ _ G)).
  - intros id Ha Hb.
    apply list_elem_of_In, in_map_iff in Ha as (a & <- & Ha).
    apply in_map_iff in Ha as ([r L] & <- & Hrl). apply sorted_In in Hrl.
    apply list_elem_of_In, in_map_iff in Hb as (b & Hid & Hb).
    apply in_map_iff in Hb as ([c [s L']] & <- & Hcv). apply sorted_In in Hcv.
    destruct (g_rows _ _ _ _ G r L Hrl) as (Hr & _).
    destruct (g_cols _ _ _ _ G c s L' Hcv) as (Hc & _).
    destruct (across_id (lay_w lay) r L) as [rest1 E1]; [lia|].
    destruct (down_id c s L') as [rest2 E2]; [lia|].
    rewrite E1, E2 in Hid. discriminate.
  - rewrite map_map.
    apply (NoDup_fmap_2_strong (fun x => slot_id (down_slot x))).
    + intros [c1 [s1 L1]] [c2 [s2 L2]] H1 H2 Hid.
      apply list_elem_of_In, sorted_In in H1, H2.
      destruct (g_cols _ _ _ _ G c1 s1 L1 H1) as (Hc1 & _).
      destruct (g_cols _ _ _ _ G c2 s2 L2 H2) as (Hc2 & _).
      destruct (down_id c1 s1 L1) as [rest1 E1]; [lia|].
      destruct (down_id c2 s2 L2) as [rest2 E2]; [lia|].
      rewrite E1, E2 in Hid. injection Hid as Hd _.
      assert (c1 = c2) as -> by lia. f_equal.
      exact (keyed_inj _ c2 _ _ (g_cols_nodup _ _ _ _ G) H1 H2).
    + rewrite (sorted_perm _ (lay_v_cols lay)).
      exact (NoDup_fmap_1 fst _ (g_cols_nodup _ _ _ _ G)).
Qed.

Lemma emitted_slot_cells lay s :
  emitted lay -> In s (lay_slots lay) ->
  NoDup (cells s) /\ slot_length s = length (cells s).
Proof.
  intros E Hs.
  destruct (emitted_slots lay s E Hs) as [([r L] & _ & ->)|([c [s' L]] & _ & ->)].
  - unfold across_slot. simpl. split; [|done].
    apply NoDup_fmap_2; [|apply NoDup_range]. by intros c1 c2 [= ->].
  - unfold down_slot. simpl. split; [|done].
    apply NoDup_fmap_2; [|apply NoDup_range]. by intros r1 r2 [= ->].
Qed.

(** *** Crossings *)
Lemma crossings_wf a b x :
  In x (crossings a b) ->
  slot_a x = slot_id a /\ slot_b x = slot_id b /\
  (pos_a x < length (cells a))%nat /\ (pos_b x < length (cells b))%nat.
Proof.
  unfold crossings. intros Hx.
  apply list_elem_of_In, list_elem_of_omap in Hx as ([k c] & Hkc & Hx).
  apply elem_of_lookup_imap in Hkc as (i & c' & [= -> ->] & Hi).
  simpl in Hx.
  destruct (dget c' (cell_index (cells a))) as [p|] eqn:Hp; [|done].
  injection Hx as <-. simpl.
  apply dict_of_list_In, list_elem_of_In, elem_of_lookup_imap in Hp
    as (j & c'' & [= -> ->] & Hj).
  apply lookup_lt_Some in Hi, Hj. done.
Qed.

Lemma all_crossings_wf slots x :
  In x (all_crossings slots) ->
  exists a b, In a slots /\ In b slots /\
    slot_id a = slot_a x /\ slot_id b = slot_b x /\
    (pos_a x < length (cells a))%nat /\ (pos_b x < length (cells b))%nat.
Proof.
  induction slots as [|a rest IH]; simpl; [done|].
  intros Hx. apply in_app_or in Hx as [Hx|Hx].
  - apply in_flat_map in Hx as (b & Hb & Hx).
    destruct (crossings_wf a b x Hx) as (Ha' & Hb' & Hpa & Hpb).
    exists a, b. auto 10.
  - destruct (IH Hx) as (a' & b' & Ha' & Hb' & H). exists a', b'. auto.
Qed.

(** *** Candidates *)
Lemma prefilter_candidates_dict words_by_len slots budget :
  prefilter_candidates words_by_len slots budget =
  dict_of_list
    (map (fun s =>
            (slot_id s,
             filter (fun w => fits_budget w budget = true)
                    (default [] (dget (slot_length s) words_by_len))))
         slots).
Proof.
  unfold prefilter_candidates, dict_of_list.
  generalize (@nil (list N * list (list N))).
  induction slots as [|s slots IH]; intros d; simpl; [done|]. apply IH.
Qed.

Lemma prefilter_candidates_lookup words_by_len slots budget s :
  NoDup (map slot_id slots) -> In s slots ->
  dget (slot_id s) (prefilter_candidates words_by_len slots budget) =
  Some (filter (fun w => fits_budget w budget = true)
               (default [] (dget (slot_length s) words_by_len))).
Proof.
  intros Hnd Hs. rewrite prefilter_candidates_dict.
  apply dict_of_list_NoDup.
  - by rewrite map_map.
  - apply in_map_iff. by exists s.
Qed.

Lemma load_dictionary_buckets db f min_rating by_len :
  load_dictionary db f min_rating = Ok by_len -> length_buckets by_len.
Proof.
  unfold load_dictionary. intros Hload.
  apply bind_Ok in Hload as (st & _ & [= <-]).
  intros L ws w Hws Hw.
  destruct (proj1 (build_by_len_lookup (dkeys (best_by_cleaned st)) L w))
    as [_ ->]; [|done].
  by exists ws.
Qed.

(** The slots and crossings of an emitted layout, with the candidates
    [prefilter_candidates] gives them, are well formed. *)
Lemma emitted_well_formed lay words_by_len budget :
  emitted lay -> length_buckets words_by_len ->
  well_formed (lay_slots lay) (lay_inter lay)
    (prefilter_candidates words_by_len (lay_slots lay) budget).
Proof.
  intros E Hbuckets. pose proof (emitted_ids_NoDup lay E) as Hids. split.
  - exact Hids.
  - intros s Hs. by apply (emitted_slot_cells lay s E).
  - intros x Hx. destruct (emitted_slot_list lay E) as [_ Hinter].
    rewrite Hinter in Hx. by apply all_crossings_wf.
  - intros s Hs. eexists. split.
    + by apply prefilter_candidates_lookup.
    + intros w Hw. apply list_elem_of_In, list_elem_of_filter in Hw as [_ Hw].
      destruct (emitted_slot_cells lay s E Hs) as [_ Hlen].
      destruct (dget (slot_length s) words_by_len) as [ws|] eqn:Hws;
        simpl in Hw; [|by apply elem_of_nil in Hw].
      apply list_elem_of_In in Hw.
      rewrite (Hbuckets _ _ _ Hws Hw), Hlen. done.
Qed.

(** On every layout [main] attempts, with the candidates it computes from
    the loaded dictionary, the search returns solutions, and each of them
    fills the grid with the letters of the phrase. *)
Lemma main_search_sound (mode : words_mode) (min_intersections : Z)
  (letters : list N) (db : UnicodeData) (f : file) (min_rating : Z)
  (per_grid_time max_solutions : Z) (quiet : bool) (clock : nat -> Q)
  layouts by_len lay :
  feasible_layouts mode min_intersections letters = Ok layouts ->
  load_dictionary db f min_rating = Ok by_len ->
  In lay layouts ->
  per_grid_time < float_int_limit ->
  exists sols,
    find_solutions_for_grid (lay_slots lay) (lay_inter lay) letters
      (prefilter_candidates by_len (lay_slots lay) (Counter letters))
      per_grid_time max_solutions quiet clock = Ok sols /\
    forall sol, In sol sols ->
      assigns_all (lay_slots lay) sol /\
      crossings_agree (lay_slots lay) sol /\
      letters_exact (lay_slots lay) letters sol.
Proof.
  intros Hlayouts Hload Hlay Hlt.
  destruct (feasible_layouts_emitted mode min_intersections letters)
    as (layouts' & Hrun & Hall).
  rewrite Hlayouts in Hrun. injection Hrun as <-.
  destruct (Hall lay Hlay) as [E _].
  pose proof (emitted_well_formed lay by_len (Counter letters) E
                (load_dictionary_buckets _ _ _ _ Hload)) as Hwf.
  destruct (find_solutions_ok _ _ letters _ per_grid_time max_solutions
              quiet clock Hwf Hlt) as [sols Hsols].
  exists sols. split; [exact Hsols|]. intros sol Hsol.
  destruct (find_solutions_good _ _ _ _ _ _ _ _ _
              (wf_ids _ _ _ Hwf) (wf_cells _ _ _ Hwf) Hsols sol Hsol)
    as (H1 & H2 & H3 & _).
  done.
Qed.

End MainFacts.

(** ** Ranking *)
Module RankFacts.
Import PyFacts.

(** *** Lists *)
Lemma filter_all {A} (P : A -> Prop) `{forall x, Decision (P x)} (l : list A) :
  (forall x, In x l -> P x) -> filter P l = l.
Proof.
  induction l as [|x l IH]; intros HP; [done|].
  rewrite filter_cons_True by (apply HP; by left).
  f_equal. apply IH. intros y Hy. apply HP. by right.
Qed.

Lemma filter_none {A} (P : A -> Prop) `{forall x, Decision (P x)} (l : list A) :
  (forall x, In x l -> ~ P x) -> filter P l = [].
Proof.
  induction l as [|x l IH]; intros HP; [done|].
  rewrite filter_cons_False by (apply HP; by left).
  apply IH. intros y Hy. apply HP. by right.
Qed.

Lemma In_filter {A} (P : A -> Prop) `{forall x, Decision (P x)} (l : list A) x :
  In x (filter P l) <-> P x /\ In x l.
Proof. by rewrite <- !list_elem_of_In, list_elem_of_filter. Qed.

Lemma fold_left_flat_map {A B} (f : A -> list B) (l : list A) (acc : list B) :
  fold_left (fun acc x => acc ++ f x) l acc = acc ++ flat_map f l.
Proof.
  revert acc. induction l as [|x l IH]; intros acc; simpl.
  - by rewrite app_nil_r.
  - by rewrite IH, app_assoc.
Qed.

Lemma flat_map_ext_in {A B} (f g : A -> list B) (l : list A) :
  (forall x, In x l -> f x = g x) -> flat_map f l = flat_map g l.
Proof.
  induction l as [|x l IH]; intros Hfg; simpl; [done|].
  rewrite Hfg by (by left). f_equal. apply IH. intros y Hy. apply Hfg. by right.
Qed.

Lemma flat_map_perm_in {A B} (f g : A -> list B) (l : list A) :
  (forall x, In x l -> Permutation (f x) (g x)) ->
  Permutation (flat_map f l) (flat_map g l).
Proof.
  induction l as [|x l IH]; intros Hfg; simpl; [done|].
  apply Permutation_app; [apply Hfg; by left|].
  apply IH. intros y Hy. apply Hfg. by right.
Qed.

(** *** [sorted] sorts *)
Section Ordered.
Context {A : Type} (leb : A -> A -> bool).
Hypothesis leb_total : forall a b, leb a b = false -> leb b a = true.
Hypothesis leb_trans :
  forall a b c, leb a b = true -> leb b c = true -> leb a c = true.
Local Abbreviation ordered := (ordered leb).

Lemma insert_sorted_ordered x l :
  ordered l -> ordered (insert_sorted leb x l).
Proof.
  induction 1 as [|y l Hy Hl IH]; simpl.
  - constructor; [constructor|constructor].
  - destruct (leb x y) eqn:Hxy.
    + constructor; [|by constructor].
      constructor; [done|].
      eapply Forall_impl; [exact Hy|]. simpl. intros z Hz.
      by apply leb_trans with y.
    + constructor; [|done].
      rewrite (insert_sorted_perm leb x l).
      constructor; [by apply leb_total|done].
Qed.

Lemma sorted_ordered l : ordered (sorted leb l).
Proof.
  induction l as [|x l IH]; simpl; [constructor|].
  by apply insert_sorted_ordered.
Qed.
End Ordered.

Lemma sorted_desc_ordered l :
  ordered (fun a b => b <=? a)%nat (sorted_desc l).
Proof.
  apply sorted_ordered.
  - intros a b Hab. apply Nat.leb_le. apply Nat.leb_gt in Hab. lia.
  - intros a b c Hab Hbc. apply Nat.leb_le in Hab, Hbc. apply Nat.leb_le. lia.
Qed.

Lemma sorted_desc_In l d : In d (sorted_desc l) <-> In d l.
Proof. apply sorted_In. Qed.

Lemma sorted_desc_perm l : Permutation (sorted_desc l) l.
Proof. apply sorted_perm. Qed.

(** *** Dictionaries with computed values *)
Lemma dget_map_keys {V} (f : nat -> V) (ks : list nat) d :
  dget d (map (fun k => (k, f k)) ks) = if decide (d ∈ ks) then Some (f d) else None.
Proof.
  induction ks as [|k ks IH]; cbn [map dget].
  - destruct (decide (d ∈ [])) as [Hd|_]; [by apply elem_of_nil in Hd|done].
  - destruct (decide (d = k)) as [->|Hne].
    + destruct (decide (k ∈ k :: ks)) as [_|Hn]; [done|].
      exfalso. apply Hn. by left.
    + rewrite IH.
      destruct (decide (d ∈ ks)) as [H1|H1],
               (decide (d ∈ k :: ks)) as [H2|H2]; try done.
      * exfalso. apply H2. by right.
      * apply elem_of_cons in H2 as [?|?]; done.
Qed.

Lemma dset_map_keys {V} (f : nat -> V) (ks : list nat) d v :
  NoDup ks -> d ∈ ks ->
  dset d v (map (fun k => (k, f k)) ks) =
  map (fun k => (k, if decide (k = d) then v else f k)) ks.
Proof.
  induction ks as [|k ks IH]; intros Hnd Hd; [by apply elem_of_nil in Hd|].
  apply NoDup_cons in Hnd as [Hk Hnd]. cbn [map dset].
  destruct (decide (d = k)) as [->|Hne].
  - destruct (decide (k = k)) as [_|?]; [|done]. f_equal.
    apply map_ext_in. intros k' Hk'.
    destruct (decide (k' = k)) as [->|_]; [|done].
    exfalso. by apply Hk, list_elem_of_In.
  - destruct (decide (k = d)) as [?|_]; [congruence|]. f_equal.
    apply IH; [done|]. apply elem_of_cons in Hd as [?|?]; done.
Qed.

(** *** The distinct counts *)
Lemma first_seen_In l d : In d (first_seen l) <-> In d l.
Proof.
  induction l as [|a l IH]; simpl; [done|].
  rewrite In_filter, IH. destruct (decide (d = a)) as [->|Hne]; [tauto|].
  split; [tauto|]. intros [<-|Hd]; [done|]. right. by split.
Qed.

Lemma first_seen_NoDup l : NoDup (first_seen l).
Proof.
  induction l as [|a l IH]; simpl; [constructor|].
  apply NoDup_cons. split; [|by apply NoDup_filter].
  rewrite list_elem_of_filter. tauto.
Qed.

Lemma first_seen_snoc l d :
  first_seen (l ++ [d]) =
  if decide (d ∈ first_seen l) then first_seen l else first_seen l ++ [d].
Proof.
  induction l as [|a l IH]; cbn [app first_seen].
  - destruct (decide (d ∈ [])) as [Hd|_]; [by apply elem_of_nil in Hd|done].
  - rewrite IH.
    destruct (decide (d ∈ first_seen l)) as [Hd|Hd],
      (decide (d ∈ a :: filter (fun x => x <> a) (first_seen l))) as [Hd'|Hd'];
      try done.
    + exfalso. apply Hd'. destruct (decide (d = a)) as [->|Hne]; [by left|].
      right. by apply list_elem_of_filter.
    + rewrite filter_app. apply elem_of_cons in Hd' as [->|Hd'].
      * rewrite (filter_cons_False _ a) by tauto. by rewrite app_nil_r.
      * apply list_elem_of_filter in Hd' as [_ ?]. done.
    + rewrite filter_app. rewrite (filter_cons_True _ d); [done|].
      intros ->. apply Hd'. by left.
Qed.

(** *** The buckets *)
Lemma tie_snoc l x d :
  tie (l ++ [x]) d = if decide (dup_of x = d) then tie l d ++ [x] else tie l d.
Proof.
  unfold tie. rewrite filter_app.
  destruct (decide (dup_of x = d)).
  - by rewrite (filter_cons_True _ x) by done.
  - rewrite (filter_cons_False _ x) by done. by rewrite app_nil_r.
Qed.

Lemma tie_nil l d : ~ In d (map dup_of l) -> tie l d = [].
Proof.
  intros Hd. apply filter_none. intros x Hx Hdx. apply Hd.
  apply in_map_iff. by exists x.
Qed.

Lemma buckets_spec l :
  buckets_of l = map (fun d => (d, tie l d)) (first_seen (map dup_of l)).
Proof.
  induction l as [|x l IH] using rev_ind; [done|].
  unfold buckets_of. rewrite map_app, fold_left_app. simpl.
  fold (buckets_of l). rewrite IH.
  rewrite map_app. simpl. rewrite first_seen_snoc.
  fold (dup_of x). unfold dappend. rewrite dget_map_keys.
  destruct (decide (dup_of x ∈ first_seen (map dup_of l))) as [Hd|Hd].
  - rewrite dset_map_keys by (done || apply first_seen_NoDup).
    apply map_ext_in. intros k _. f_equal. rewrite tie_snoc.
    destruct (decide (k = dup_of x)) as [->|Hne].
    + by rewrite decide_True.
    + by rewrite decide_False.
  - rewrite dset_fresh by (rewrite dget_map_keys; by rewrite decide_False).
    rewrite map_app. simpl. f_equal.
    + apply map_ext_in. intros k Hk. f_equal. rewrite tie_snoc.
      rewrite decide_False; [done|]. intros <-. by apply Hd, list_elem_of_In.
    + rewrite tie_snoc, decide_True by done.
      rewrite tie_nil; [done|]. intros Hin. apply Hd.
      by apply list_elem_of_In, first_seen_In.
Qed.

Lemma shuffle_buckets_spec R l ks g :
  NoDup ks ->
  fst (shuffle_buckets R (map (fun d => (d, tie l d)) ks) g) =
  map (fun d => (d, shuffled_tie R l ks g d)) ks.
Proof.
  revert g. induction ks as [|d ks IH]; intros g Hnd; [done|].
  apply NoDup_cons in Hnd as [Hd Hnd]. simpl.
  destruct (shuffle R layout (tie l d) g) as [l' g'] eqn:E.
  specialize (IH g' Hnd).
  destruct (shuffle_buckets R _ g') as [rest g''] eqn:E2. simpl in *.
  rewrite decide_True by done. f_equal. rewrite IH.
  apply map_ext_in. intros k Hk.
  rewrite decide_False; [done|]. intros ->. by apply Hd, list_elem_of_In.
Qed.

(** The ranking, in closed form. *)
Lemma rank_layouts_spec R l seed :
  rank_layouts R l seed =
  flat_map (tie_order R l seed) (sorted_desc (first_seen (map dup_of l))).
Proof.
  unfold rank_layouts.
  change (fold_left _ (map _ l) []) with (buckets_of l).
  rewrite buckets_spec, shuffle_buckets_spec by apply first_seen_NoDup.
  rewrite fold_left_flat_map. simpl.
  unfold dkeys. rewrite map_map. simpl. rewrite map_id.
  apply flat_map_ext_in. intros d Hd.
  rewrite dget_map_keys, decide_True; [done|].
  by apply list_elem_of_In, sorted_desc_In.
Qed.

(** *** Ties *)
Section Ties.
Variable R : Random.
Hypothesis Hperm : shuffle_permutes R.

Lemma shuffled_tie_perm l ks g d :
  In d ks -> Permutation (shuffled_tie R l ks g d) (tie l d).
Proof.
  revert g. induction ks as [|k ks IH]; intros g Hd; [destruct Hd|].
  simpl. pose proof (Hperm layout (tie l k) g) as Hp.
  destruct (shuffle R layout (tie l k) g) as [l' g'].
  destruct (decide (k = d)) as [->|Hne]; [done|].
  apply IH. destruct Hd; [done|done].
Qed.

Lemma shuffled_tie_nil l ks g d : ~ In d ks -> shuffled_tie R l ks g d = [].
Proof.
  revert g. induction ks as [|k ks IH]; intros g Hd; [done|].
  simpl. destruct (shuffle R layout (tie l k) g) as [l' g'].
  rewrite decide_False by (intros ->; apply Hd; by left).
  apply IH. intros Hin. apply Hd. by right.
Qed.

Lemma tie_order_perm l seed d :
  Permutation (tie_order R l seed d) (tie l d).
Proof.
  unfold tie_order.
  destruct (decide (d ∈ first_seen (map dup_of l))) as [Hd|Hd].
  - by apply shuffled_tie_perm, list_elem_of_In.
  - rewrite shuffled_tie_nil by (by rewrite <- list_elem_of_In).
    rewrite tie_nil; [done|]. intros Hin. apply Hd.
    by apply list_elem_of_In, first_seen_In.
Qed.

Lemma tie_order_dup l seed d lay :
  In lay (tie_order R l seed d) -> dup_of lay = d.
Proof.
  intros Hin. apply (Permutation_in _ (tie_order_perm l seed d)) in Hin.
  by apply In_filter in Hin as [? _].
Qed.

Lemma filter_ties_out l seed ds d :
  ~ In d ds ->
  filter (fun lay => dup_of lay = d) (flat_map (tie_order R l seed) ds) = [].
Proof.
  intros Hd. apply filter_none. intros lay Hlay Hdup.
  apply in_flat_map in Hlay as (k & Hk & Hlay).
  apply tie_order_dup in Hlay. apply Hd. by rewrite <- Hdup, Hlay.
Qed.

Lemma filter_ties_in l seed ds d :
  NoDup ds -> In d ds ->
  filter (fun lay => dup_of lay = d) (flat_map (tie_order R l seed) ds) =
  tie_order R l seed d.
Proof.
  induction ds as [|k ds IH]; intros Hnd Hd; [destruct Hd|].
  apply NoDup_cons in Hnd as [Hk Hnd]. simpl. rewrite filter_app.
  destruct (decide (k = d)) as [->|Hne].
  - rewrite filter_all by (intros lay; apply tie_order_dup).
    rewrite filter_ties_out by (by rewrite <- list_elem_of_In).
    by rewrite app_nil_r.
  - rewrite (filter_none _ (tie_order R l seed k)).
    + apply IH; [done|]. destruct Hd; [done|done].
    + intros lay Hlay Hdup. apply tie_order_dup in Hlay. congruence.
Qed.

(** Sorted by count, as a property of neighbours and of any two places. *)
Lemma falling_app l1 l2 :
  falling l1 -> falling l2 ->
  (forall a b, In a l1 -> In b l2 -> (dup_of b <= dup_of a)%nat) ->
  falling (l1 ++ l2).
Proof.
  induction 1 as [|a l1 Ha Hl1 IH]; intros Hl2 Hle; [done|].
  simpl. constructor.
  - apply Forall_app. split; [done|].
    apply Forall_forall. intros b Hb. apply Hle; [by left|].
    by apply list_elem_of_In.
  - apply IH; [done|]. intros x y Hx. apply Hle. by right.
Qed.

Lemma falling_same l d :
  (forall a, In a l -> dup_of a = d) -> falling l.
Proof.
  induction l as [|a l IH]; intros Hd; constructor.
  - apply Forall_forall. intros b Hb.
    rewrite (Hd a), (Hd b); [done|right; by apply list_elem_of_In|by left].
  - apply IH. intros b Hb. apply Hd. by right.
Qed.

Lemma falling_ties l seed ds :
  ordered (fun a b => b <=? a)%nat ds ->
  falling (flat_map (tie_order R l seed) ds).
Proof.
  induction 1 as [|d ds Hd Hds IH]; simpl; [constructor|].
  apply falling_app; [|done|].
  - apply (falling_same _ d). intros a. apply tie_order_dup.
  - intros a b Ha Hb. apply tie_order_dup in Ha.
    apply in_flat_map in Hb as (k & Hk & Hb). apply tie_order_dup in Hb.
    rewrite Forall_forall in Hd. apply list_elem_of_In, Hd in Hk.
    apply Nat.leb_le in Hk. lia.
Qed.

Lemma falling_non_increasing l : falling l -> non_increasing l.
Proof.
  induction 1 as [|x l Hx Hl IH]; intros i j a b Hij Ha Hb;
    [by rewrite lookup_nil in Ha|].
  destruct i as [|i], j as [|j]; simpl in *; try lia.
  - injection Ha as <-. by injection Hb as <-.
  - injection Ha as <-. rewrite Forall_forall in Hx. apply Hx.
    by apply list_elem_of_lookup_2 with j.
  - apply (IH i j); [lia|done|done].
Qed.

Lemma ties_cover (l : list layout) ks :
  NoDup ks -> (forall x, In x l -> In (dup_of x) ks) ->
  Permutation (flat_map (tie l) ks) l.
Proof.
  intros Hnd. induction l as [|x l IH]; intros Hks.
  - induction ks as [|k ks IHk]; [done|]. simpl. apply IHk.
    + by apply NoDup_cons in Hnd as [_ ?].
    + intros x [].
  - assert (Hx : Permutation (flat_map (tie (x :: l)) ks)
                             (x :: flat_map (tie l) ks)).
    { specialize (Hks x (or_introl eq_refl)). clear IH.
      induction ks as [|k ks IHk]; [destruct Hks|].
      apply NoDup_cons in Hnd as [Hk Hnd]. simpl.
      destruct (decide (dup_of x = k)) as [E|E].
      - unfold tie at 1. rewrite filter_cons_True by done.
        simpl. apply Permutation_cons; [done|].
        apply Permutation_app_head.
        rewrite (flat_map_ext_in (tie (x :: l)) (tie l)); [done|].
        intros k' Hk'. unfold tie. rewrite filter_cons_False; [done|].
        intros E'. apply Hk. apply list_elem_of_In. congruence.
      - unfold tie at 1. rewrite filter_cons_False by done.
        fold (tie l k). rewrite IHk; [|done|].
        + apply Permutation_sym, Permutation_middle.
        + destruct Hks as [?|?]; [congruence|done]. }
    rewrite Hx. apply Permutation_cons; [done|].
    apply IH. intros y Hy. apply Hks. by right.
Qed.
End Ties.

End RankFacts.

Module RankTheorems.
Import PyFacts RankFacts.

(** *** Claim C7 *)

(** C7: the ranked order is a function of the layout list and the seed: it
    is the concatenation, by falling crossing-cell count, of the ties, each
    in the order [tie_order] gives it, so two runs on the same list with the
    same seed return the same order.  When [shuffle] rearranges its
    argument, the ranked list is a rearrangement of the layouts, the counts
    never go up along it, and the layouts with a given count come in the
    order the seeded shuffle returned for them, which is a rearrangement of
    their order in the input. *)
Theorem ranking_deterministic (R : Random) (layouts : list layout)
  (grid_seed : Z) :
  shuffle_permutes R ->
  rank_layouts R layouts grid_seed =
    flat_map (tie_order R layouts grid_seed)
             (sorted_desc (first_seen (map dup_of layouts))) /\
  (forall layouts' grid_seed',
     layouts' = layouts -> grid_seed' = grid_seed ->
     rank_layouts R layouts' grid_seed' = rank_layouts R layouts grid_seed) /\
  Permutation (rank_layouts R layouts grid_seed) layouts /\
  non_increasing (rank_layouts R layouts grid_seed) /\
  forall d,
    filter (fun lay => dup_of lay = d) (rank_layouts R layouts grid_seed) =
      tie_order R layouts grid_seed d /\
    Permutation (tie_order R layouts grid_seed d) (tie layouts d).
Proof.
  intros Hperm.
  pose proof (rank_layouts_spec R layouts grid_seed) as Hspec.
  pose proof (first_seen_NoDup (map dup_of layouts)) as Hnd.
  pose proof (sorted_desc_perm (first_seen (map dup_of layouts))) as Hsorted.
  split; [exact Hspec|]. split; [by intros ? ? -> ->|].
  split; [|split].
  - rewrite Hspec.
    rewrite (flat_map_perm_in _ (tie layouts));
      [|intros d _; by apply tie_order_perm].
    rewrite Hsorted. apply ties_cover; [done|].
    intros x Hx. apply first_seen_In, in_map_iff. by exists x.
  - rewrite Hspec. apply falling_non_increasing, falling_ties; [done|].
    apply sorted_desc_ordered.
  - intros d. split; [|by apply tie_order_perm].
    rewrite Hspec.
    destruct (decide (d ∈ sorted_desc (first_seen (map dup_of layouts))))
      as [Hd|Hd].
    + apply filter_ties_in; [done| |by apply list_elem_of_In].
      by rewrite Hsorted.
    + rewrite filter_ties_out by (done || by rewrite <- list_elem_of_In).
      unfold tie_order. rewrite shuffled_tie_nil; [done|].
      intros Hin. apply Hd. by apply list_elem_of_In, sorted_desc_In.
Qed.

Lemma reversing_permutes : shuffle_permutes reversing.
Proof. intros A l g. simpl. symmetry. apply Permutation_rev. Qed.

Lemma ranking_deterministic_witness :
  rank_layouts reversing [sample_a; sample_b; sample_c] 7
    = [sample_c; sample_b; sample_a] /\
  non_increasing (rank_layouts reversing [sample_a; sample_b; sample_c] 7).
Proof.
  destruct (ranking_deterministic reversing [sample_a; sample_b; sample_c] 7
              reversing_permutes) as (Hspec & _ & _ & Hfalling & _).
  split; [|exact Hfalling]. rewrite Hspec. by vm_compute.
Defined.

End RankTheorems.

(** ** More about [clean_phrase] and [load_dictionary] *)
Module DictionaryMore.
Import PyFacts DictionaryFacts.

(** *** Cleaning twice *)
Lemma AZ_is_ascii (c : char) : is_AZ c = true -> is_ascii c.
Proof.
  unfold is_AZ, is_ascii. intros H.
  apply andb_true_iff in H as [H1 H2]. apply N.leb_le in H1, H2. lia.
Qed.

Lemma AZ_upper (c : char) : is_AZ c = true -> ascii_upper c = c.
Proof.
  unfold is_AZ, ascii_upper. intros H.
  apply andb_true_iff in H as [H1 H2]. apply N.leb_le in H1, H2.
  destruct (N.leb_spec 97 c); [lia | reflexivity].
Qed.

Lemma letters_AZ (s : str) :
  Forall (fun c => is_AZ c = true) s -> letters s = s.
Proof.
  induction 1 as [|c s Hc _ IH]; [reflexivity|].
  unfold letters in *. simpl map. rewrite filter_cons.
  rewrite (AZ_upper c Hc). rewrite decide_True by done. by rewrite IH.
Qed.

(** With a Unicode database that is right about ASCII, cleaning a cleaned
    phrase gives the same phrase. *)
Theorem clean_phrase_idempotent (db : UnicodeData) (p : str) :
  ascii_faithful db ->
  clean_phrase db (clean_phrase db p) = clean_phrase db p.
Proof.
  intros Hdb. pose proof (clean_phrase_is_AZ db p) as HAZ.
  rewrite (clean_phrase_ascii db (clean_phrase db p) Hdb).
  - apply (letters_AZ _ HAZ).
  - eapply Forall_impl; [exact HAZ|]. intros c Hc. by apply AZ_is_ascii.
Qed.

Lemma clean_phrase_idempotent_witness :
  clean_phrase ucd_sample (clean_phrase ucd_sample [0xE9; 0x74; 0xE9; 0x21]%N)
  = lit "ETE".
Proof.
  rewrite (clean_phrase_idempotent ucd_sample [0xE9; 0x74; 0xE9; 0x21]%N
             ucd_sample_faithful).
  reflexivity.
Defined.

(** *** Rated lines *)
Lemma rstrip_keep db (c : char) (s : str) :
  rstrip db s <> [] -> rstrip db (c :: s) = c :: rstrip db s.
Proof.
  unfold rstrip. intros Hne. simpl rev. rewrite lstrip_app.
  destruct (lstrip db (rev s)) as [|d r]; [done|].
  by rewrite rev_app_distr.
Qed.

Lemma isdigit_ascii_digits db (n : str) :
  ascii_faithful db -> n <> [] -> Forall (fun c => ascii_isdigit c = true) n ->
  isdigit db n = true.
Proof.
  intros Hdb Hne Hn. unfold isdigit. destruct n as [|c n]; [congruence|].
  apply forallb_forall. intros x Hx.
  rewrite Forall_forall in Hn. apply list_elem_of_In in Hx.
  specialize (Hn x Hx). simpl in Hn.
  destruct (digit_facts x Hn) as (Ha & _).
  by rewrite (isdigit_ascii db Hdb x Ha).
Qed.

Lemma parse_rating_in_range db (n entry : str) :
  ascii_faithful db ->
  n <> [] -> Forall (fun c => ascii_isdigit c = true) n ->
  over_limit db n = false ->
  1 <= decimal n <= 10 -> rstrip db entry <> [] ->
  strip db (n ++ 9%N :: entry) = n ++ 9%N :: rstrip db entry /\
  parse_rating db (strip db (n ++ 9%N :: entry)) =
  Ok (Some (decimal n), rstrip db entry).
Proof.
  intros Hdb Hne Hn Hlim Hr Hentry.
  destruct (strip_digit_line db n entry Hdb Hne Hn) as [-> Hsn].
  rewrite (rstrip_keep db 9%N entry Hentry). split; [reflexivity|].
  assert (Htab : Forall (fun c => c <> 9%N) n).
  { eapply Forall_impl; [exact Hn|]. intros c Hc. apply (digit_facts c Hc). }
  unfold parse_rating. rewrite split_tab_app by done. rewrite Hsn.
  rewrite (isdigit_ascii_digits db n Hdb Hne Hn).
  rewrite (int_ascii db Hdb n Hne Hn), Hlim. simpl.
  destruct (Z.leb_spec 1 (decimal n)), (Z.leb_spec (decimal n) 10);
    simpl; try reflexivity; lia.
Qed.

Lemma keep_best_rated (cleaned : str) (r : Z) (best : dict str (option Z)) :
  dget cleaned (keep_best cleaned (Some r) best) =
  match dget cleaned best with
  | Some (Some prev) => Some (Some (Z.max prev r))
  | _ => Some (Some r)
  end.
Proof.
  unfold keep_best. destruct (dget cleaned best) as [[prev|]|] eqn:E.
  - destruct (Z.ltb_spec prev r).
    + rewrite dget_dset_eq. do 2 f_equal. lia.
    + rewrite E. do 2 f_equal. lia.
  - apply dget_dset_eq.
  - apply dget_dset_eq.
Qed.

Lemma keep_best_other (cleaned c : str) rating (best : dict str (option Z)) :
  c <> cleaned -> dget c (keep_best cleaned rating best) = dget c best.
Proof.
  intros Hne. unfold keep_best.
  destruct (dget cleaned best) as [[prev|]|]; destruct rating as [r|];
    try reflexivity; try (by apply dget_dset_ne).
  destruct (prev <? r); [by apply dget_dset_ne | reflexivity].
Qed.

Lemma letters_digits (n : str) :
  Forall (fun c => ascii_isdigit c = true) n -> letters n = [].
Proof.
  induction 1 as [|c n Hc _ IH]; [reflexivity|].
  rewrite letters_nonletter; [exact IH | by apply digit_not_letter].
Qed.

Lemma rstrip_blank_tab db (entry : str) :
  ascii_faithful db -> rstrip db entry = [] -> rstrip db (9%N :: entry) = [].
Proof.
  intros Hdb He. unfold rstrip in *. simpl rev. rewrite lstrip_app.
  apply (f_equal (@rev _)) in He. rewrite rev_involutive in He. simpl in He.
  rewrite He. simpl.
  rewrite (isspace_ascii db Hdb 9%N) by (unfold is_ascii; lia). reflexivity.
Qed.

(** A line [n<TAB>entry] whose digit string [n], within the digit limit of
    [int], is a rating between 1 and 10.  When something other than white
    space follows the tab, the line is parsed as a rated entry: if the cleaned
    entry has 4 to 7 letters and the rating is at least [min_rating], the word
    is kept, and the rating on record for it is the largest seen so far (a
    rating replaces "unrated"), the ratings of other words stay; if the
    rating is below [min_rating], or the length is not 4 to 7, nothing is
    kept.  When only white space follows the tab, [strip] removes the tab
    with it, and the line counts as one unrated entry that leaves no word. *)
Theorem consider_entry_rated
  (db : UnicodeData) (min_rating : Z) (n entry : str) (st : load_state) :
  ascii_faithful db ->
  n <> [] -> Forall (fun c => ascii_isdigit c = true) n ->
  over_limit db n = false ->
  1 <= decimal n <= 10 ->
  let r := decimal n in
  let cleaned := clean_phrase db (rstrip db entry) in
  (rstrip db entry <> [] ->
   exists st',
    consider_entry db min_rating (n ++ 9%N :: entry) st = Ok st' /\
    parsed_rated st' = parsed_rated st + 1 /\
    parsed_unrated st' = parsed_unrated st /\
    kept_unrated st' = kept_unrated st /\
    ((4 <= length cleaned <= 7)%nat -> min_rating <= r ->
     rating_of st' cleaned =
       match rating_of st cleaned with
       | Some (Some prev) => Some (Some (Z.max prev r))
       | _ => Some (Some r)
       end /\
     (forall c, c <> cleaned -> rating_of st' c = rating_of st c) /\
     kept_rated_ge_min st' = kept_rated_ge_min st + 1) /\
    (~ ((4 <= length cleaned <= 7)%nat /\ min_rating <= r) ->
     best_by_cleaned st' = best_by_cleaned st /\
     kept_rated_ge_min st' = kept_rated_ge_min st)) /\
  (rstrip db entry = [] ->
   consider_entry db min_rating (n ++ 9%N :: entry) st =
   Ok (count_parsed None st)).
Proof.
  intros Hdb Hne Hn Hlim Hr r cleaned. split; intros Hentry.
  - destruct (parse_rating_in_range db n entry Hdb Hne Hn Hlim Hr Hentry)
      as [Hstrip Hparse].
    unfold consider_entry. rewrite Hparse, Hstrip.
    destruct (n ++ 9%N :: rstrip db entry) as [|c0 l0] eqn:El.
    { destruct n; [congruence | discriminate]. }
    simpl. fold cleaned. fold r.
    destruct cleaned as [|c1 cl] eqn:Ecl.
    { eexists. split; [reflexivity|]. simpl.
      repeat split; try reflexivity; intros; simpl in *; lia. }
    destruct (Nat.ltb_spec (length (c1 :: cl)) 4);
      destruct (Nat.ltb_spec 7 (length (c1 :: cl))); simpl;
      try (eexists; split; [reflexivity|]; simpl;
           repeat split; try reflexivity; intros; simpl in *; lia).
    destruct (Z.leb_spec min_rating r); simpl.
    + eexists. split; [reflexivity|]. simpl.
      split; [reflexivity|]. split; [reflexivity|]. split; [reflexivity|].
      split.
      * intros _ _. split; [|split; [|reflexivity]].
        -- unfold rating_of. simpl. apply keep_best_rated.
        -- intros c Hc. unfold rating_of. simpl. by apply keep_best_other.
      * intros Hnot. destruct Hnot. split; [simpl in *; lia | done].
    + eexists. split; [reflexivity|]. simpl.
      split; [reflexivity|]. split; [reflexivity|]. split; [reflexivity|].
      split; [intros; lia | done].
  - destruct (strip_digit_line db n entry Hdb Hne Hn) as [Hstrip _].
    rewrite (rstrip_blank_tab db entry Hdb Hentry), app_nil_r in Hstrip.
    assert (Htab : Forall (fun c => c <> 9%N) n).
    { eapply Forall_impl; [exact Hn|]. intros c Hc. apply (digit_facts c Hc). }
    assert (Hascii : Forall is_ascii n).
    { eapply Forall_impl; [exact Hn|]. intros c Hc. apply (digit_facts c Hc). }
    unfold consider_entry. rewrite Hstrip.
    destruct n as [|c0 n0] eqn:En; [congruence|]. rewrite <- En in *.
    unfold parse_rating. rewrite (split_tab_none n Htab). simpl.
    rewrite (clean_phrase_ascii db n Hdb Hascii).
    fold (letters n). by rewrite (letters_digits n Hn).
Qed.

Lemma consider_entry_rated_witness :
  (exists st',
    consider_entry ucd_sample 5 (lit "9" ++ 9%N :: lit "zoomers")
      (set_best [(lit "ZOOMERS", Some 7)] initial_state) = Ok st' /\
    rating_of st' (lit "ZOOMERS") = Some (Some 9)) /\
  consider_entry ucd_sample 5 (lit "9" ++ 9%N :: lit "  ") initial_state =
  Ok (count_parsed None initial_state).
Proof.
  split.
  - destruct (consider_entry_rated ucd_sample 5 (lit "9") (lit "zoomers")
                (set_best [(lit "ZOOMERS", Some 7)] initial_state)
                ucd_sample_faithful)
      as [(st' & Hrun & _ & _ & _ & Hkept & _) _].
    + discriminate.
    + repeat constructor.
    + reflexivity.
    + vm_compute. split; discriminate.
    + discriminate.
    + exists st'. split; [exact Hrun|].
      destruct Hkept as (Hrating & _).
      * vm_compute. lia.
      * vm_compute. discriminate.
      * etransitivity; [exact Hrating | reflexivity].
  - refine (proj2 (consider_entry_rated ucd_sample 5 (lit "9") (lit "  ")
                     initial_state ucd_sample_faithful _ _ _ _) _).
    + discriminate.
    + repeat constructor.
    + reflexivity.
    + vm_compute. split; discriminate.
    + reflexivity.
Defined.

(** The rating 5 with 4300 zeros before it has more digits than [int] reads:
    the line is not rated, the load raises. *)
Example consider_entry_padded_rating :
  decimal padded_rating = 5 /\
  over_limit ucd_sample padded_rating = true /\
  consider_entry ucd_sample 1 (padded_rating ++ 9%N :: lit "zoomers")
    initial_state = Raise ValueError.
Proof.
  split; [vm_compute; reflexivity|].
  split; vm_compute; reflexivity.
Qed.

(** *** The words that are returned *)
Lemma keep_best_keys (cleaned c : str) rating (best : dict str (option Z)) :
  In c (dkeys (keep_best cleaned rating best)) <->
  c = cleaned \/ In c (dkeys best).
Proof.
  unfold keep_best.
  destruct (dget cleaned best) as [[prev|]|] eqn:E; destruct rating as [r|];
    try destruct (prev <? r); rewrite ?dkeys_dset; try tauto;
    (split; [tauto|]); (intros [->|]; [|done]);
    eapply dget_Some_keys, E.
Qed.

Lemma keep_best_NoDup (cleaned : str) rating (best : dict str (option Z)) :
  NoDup (dkeys best) -> NoDup (dkeys (keep_best cleaned rating best)).
Proof.
  intros Hnd. unfold keep_best.
  destruct (dget cleaned best) as [[prev|]|]; destruct rating as [r|];
    try destruct (prev <? r); try done; by apply LayoutFacts.dset_NoDup.
Qed.

Lemma consider_entry_keys db min_rating line st st' c :
  consider_entry db min_rating line st = Ok st' ->
  In c (dkeys (best_by_cleaned st')) ->
  In c (dkeys (best_by_cleaned st)) \/
  (exists entry, c = clean_phrase db entry /\ kept_length c).
Proof.
  unfold consider_entry. destruct (strip db line) as [|c0 l0] eqn:El.
  { intros [= <-]. auto. }
  destruct (parse_rating db (c0 :: l0)) as [[rating entry]|]; [|discriminate].
  simpl. destruct (clean_phrase db entry) as [|c1 cl] eqn:Ecl.
  { intros [= <-]. destruct rating; simpl; auto. }
  destruct (Nat.ltb_spec (length (c1 :: cl)) 4);
    destruct (Nat.ltb_spec 7 (length (c1 :: cl))); simpl;
    try (intros [= <-]; destruct rating; simpl; auto).
  destruct (negb _).
  { intros [= <-]. destruct rating; simpl; auto. }
  intros [= <-] Hc.
  assert (Hk : In c (dkeys (keep_best (c1 :: cl) rating
                                      (best_by_cleaned (count_parsed rating st))))).
  { destruct rating; exact Hc. }
  apply keep_best_keys in Hk as [->|Hk].
  - right. exists entry. split; [done|]. unfold kept_length. simpl in *. lia.
  - left. destruct rating; exact Hk.
Qed.

Lemma consider_entry_NoDup db min_rating line st st' :
  consider_entry db min_rating line st = Ok st' ->
  NoDup (dkeys (best_by_cleaned st)) -> NoDup (dkeys (best_by_cleaned st')).
Proof.
  unfold consider_entry. destruct (strip db line) as [|c0 l0] eqn:El.
  { by intros [= <-]. }
  destruct (parse_rating db (c0 :: l0)) as [[rating entry]|]; [|discriminate].
  simpl. destruct (clean_phrase db entry) as [|c1 cl] eqn:Ecl.
  { intros [= <-]. by destruct rating. }
  destruct (Nat.ltb_spec (length (c1 :: cl)) 4);
    destruct (Nat.ltb_spec 7 (length (c1 :: cl))); simpl;
    try (intros [= <-]; by destruct rating).
  destruct (negb _).
  { intros [= <-]. by destruct rating. }
  intros [= <-] Hnd.
  assert (NoDup (dkeys (keep_best (c1 :: cl) rating
                                  (best_by_cleaned (count_parsed rating st))))).
  { apply keep_best_NoDup. by destruct rating. }
  by destruct rating.
Qed.

Lemma add_fallback_NoDup db w st :
  NoDup (dkeys (best_by_cleaned st)) ->
  NoDup (dkeys (best_by_cleaned (add_fallback db w st))).
Proof.
  intros Hnd. unfold add_fallback. destruct (_ && _); [|done].
  simpl. by apply LayoutFacts.dset_NoDup.
Qed.

(** The words of a run, before they are put into buckets. *)
Lemma loaded_words db f min_rating st :
  match f with
  | FileLines raws =>
      for_each (fun raw st => consider_entry db min_rating raw (count_line st))
               raws initial_state
  | FileError raws e =>
      _ ← for_each (fun raw st => consider_entry db min_rating raw (count_line st))
                   raws initial_state;
      Raise e
  | FileNotFound =>
      Ok (fold_left (fun st w => add_fallback db w st) fallback_pool initial_state)
  end = Ok st ->
  NoDup (dkeys (best_by_cleaned st)) /\
  forall c, In c (dkeys (best_by_cleaned st)) ->
    kept_length c /\ exists entry, c = clean_phrase db entry.
Proof.
  destruct f as [|raws|raws e];
    [| |by intros Hrun; apply bind_Ok in Hrun as (? & _ & [=])].
  - intros Hrun.
    assert (st = fold_left (fun st w => add_fallback db w st)
                           fallback_pool initial_state) as -> by congruence.
    clear Hrun. split.
    + apply (LayoutFacts.fold_left_inv
               (fun st => NoDup (dkeys (best_by_cleaned st)))).
      * intros w st' _. apply add_fallback_NoDup.
      * constructor.
    + intros c Hc. apply fallback_keys in Hc as [[]|(w & _ & -> & Hk)].
      split; [done | by exists w].
  - intros Hrun.
    apply (MaskFacts.for_each_ok_inv
             (fun st => NoDup (dkeys (best_by_cleaned st)) /\
                        forall c, In c (dkeys (best_by_cleaned st)) ->
                          kept_length c /\ exists entry, c = clean_phrase db entry))
      in Hrun; [done| |].
    + intros raw s s' _ [Hnd Hall] Hstep. split.
      * by apply (consider_entry_NoDup _ _ _ _ _ Hstep).
      * intros c Hc.
        apply (consider_entry_keys _ _ _ _ _ _ Hstep) in Hc
          as [Hc|(entry & -> & Hk)]; [by apply Hall|].
        split; [done | by exists entry].
    + split; [constructor | intros c []].
Qed.

Lemma build_by_len_NoDup (words : list str) : forall (d : dict nat (list str)),
  NoDup words ->
  (forall L ws, dget L d = Some ws ->
     NoDup ws /\ forall w, In w ws -> ~ In w words) ->
  forall L ws,
    dget L (fold_left (fun by_len w => dappend (length w) w by_len) words d)
    = Some ws ->
    NoDup ws.
Proof.
  induction words as [|x words IH]; intros d Hnd Hd L ws Hget; simpl in Hget.
  { by apply (Hd L ws). }
  apply NoDup_cons in Hnd as [Hx Hnd].
  apply (IH (dappend (length x) x d) Hnd) in Hget; [done|].
  intros L' ws' Hget'. unfold dappend in Hget'.
  destruct (dget (length x) d) as [vs|] eqn:Evs;
    rewrite dget_dset in Hget'; destruct (decide (L' = length x)) as [->|Hne].
  - injection Hget' as <-. destruct (Hd _ _ Evs) as [Hvs Hout]. split.
    + apply NoDup_app. split; [done|]. split; [|apply NoDup_singleton].
      intros w Hw Hw'. apply list_elem_of_singleton in Hw'. subst.
      apply (Hout x); [by apply list_elem_of_In | by left].
    + intros w Hw Hin. apply in_app_iff in Hw as [Hw|[<-|[]]].
      * apply (Hout w Hw). by right.
      * apply Hx. by apply list_elem_of_In.
  - destruct (Hd _ _ Hget') as [Hws Hout]. split; [done|].
    intros w Hw Hin. apply (Hout w Hw). by right.
  - injection Hget' as <-. split; [apply NoDup_singleton|].
    intros w [<-|[]] Hin. apply Hx. by apply list_elem_of_In.
  - destruct (Hd _ _ Hget') as [Hws Hout]. split; [done|].
    intros w Hw Hin. apply (Hout w Hw). by right.
Qed.


(** Whatever the file holds, or when it is missing: every word that
    [load_dictionary] returns is in the bucket of its length, has 4 to 7
    letters, all of them A-Z, is the cleaned form of some entry, and is in
    its bucket once. *)
Theorem load_dictionary_words
  (db : UnicodeData) (f : file) (min_rating : Z) (by_len : dict nat (list str)) :
  load_dictionary db f min_rating = Ok by_len ->
  forall L ws, dget L by_len = Some ws ->
    NoDup ws /\
    forall w, In w ws ->
      length w = L /\ (4 <= L <= 7)%nat /\
      Forall (fun c => is_AZ c = true) w /\
      exists entry, w = clean_phrase db entry.
Proof.
  unfold load_dictionary. intros Hload.
  apply bind_Ok in Hload as (st & Hst & [= <-]).
  apply loaded_words in Hst as [Hnd Hall].
  intros L ws Hws. split.
  - apply (build_by_len_NoDup _ [] Hnd) with (L := L); [|exact Hws].
    intros L' ws' [=].
  - intros w Hw.
    destruct (proj1 (build_by_len_lookup (dkeys (best_by_cleaned st)) L w))
      as [Hin ->]; [by exists ws|].
    destruct (Hall w Hin) as (Hk & entry & ->).
    split; [done|]. split; [exact Hk|].
    split; [apply clean_phrase_is_AZ | by exists entry].
Qed.

Lemma load_dictionary_words_witness :
  exists ws,
    dget 7%nat [(7%nat, [lit "ZOOMERS"])] = Some ws /\ NoDup ws /\
    forall w, In w ws -> length w = 7%nat.
Proof.
  destruct (load_dictionary_words ucd_sample
              (FileLines [lit "9" ++ 9%N :: lit "zoomers"; lit "Zoomers!";
                          lit "3" ++ 9%N :: lit "abacus"; lit "cat"])
              5 [(7%nat, [lit "ZOOMERS"])] eq_refl 7%nat [lit "ZOOMERS"] eq_refl)
    as [Hnd Hall].
  exists [lit "ZOOMERS"]. split; [reflexivity|]. split; [exact Hnd|].
  intros w Hw. by destruct (Hall w Hw).
Defined.

(** *** Lines that cannot be read *)
Lemma parse_rating_raises db (line : str) :
  (exists lft rgt,
     split_tab line = Some (lft, rgt) /\ isdigit db (strip db lft) = true /\
     int_of_str db (strip db lft) = None) /\
  parse_rating db line = Raise ValueError \/
  ~ (exists lft rgt,
       split_tab line = Some (lft, rgt) /\ isdigit db (strip db lft) = true /\
       int_of_str db (strip db lft) = None) /\
  exists v, parse_rating db line = Ok v.
Proof.
  unfold parse_rating. destruct (split_tab line) as [[lft rgt]|].
  - destruct (isdigit db (strip db lft)) eqn:Ed.
    + destruct (int_of_str db (strip db lft)) as [r|] eqn:Ei.
      * right. split.
        { intros (l' & r' & [= <- <-] & _ & Hn). congruence. }
        simpl. destruct (_ && _); by eexists.
      * left. split; [by exists lft, rgt | reflexivity].
    + right. split; [|by eexists].
      intros (l' & r' & [= <- <-] & Hd & _). congruence.
  - right. split; [|by eexists]. by intros (l' & r' & [=] & _).
Qed.

Lemma consider_entry_raises db min_rating (line : str) st :
  bad_rating db line /\ consider_entry db min_rating line st = Raise ValueError \/
  ~ bad_rating db line /\ exists st', consider_entry db min_rating line st = Ok st'.
Proof.
  unfold bad_rating, consider_entry.
  destruct (strip db line) as [|c0 l0] eqn:El.
  { right. split; [|by eexists]. by intros (l' & r' & [=] & _). }
  destruct (parse_rating_raises db (c0 :: l0)) as [[Hbad ->]|[Hok [[rating entry] ->]]].
  - left. done.
  - right. split; [done|]. simpl.
    destruct (clean_phrase db entry); [by eexists|].
    destruct (_ || _)%bool; [by eexists|]. destruct (negb _); by eexists.
Qed.

Lemma for_each_raises {A S} (bad : A -> Prop) (body : A -> S -> result S) e :
  (forall x s, bad x /\ body x s = Raise e \/
               ~ bad x /\ exists s', body x s = Ok s') ->
  forall xs st,
    Exists bad xs /\ for_each body xs st = Raise e \/
    ~ Exists bad xs /\ exists st', for_each body xs st = Ok st'.
Proof.
  intros Hbody. induction xs as [|x xs IH]; intros st; simpl.
  - right. split; [by intros H%Exists_nil | by eexists].
  - destruct (Hbody x st) as [[Hx ->]|[Hx [s' ->]]]; simpl.
    + left. split; [by left | done].
    + destruct (IH s') as [[Hex Hr]|[Hex Hr]].
      * left. split; [by right | done].
      * right. split; [|done]. intros H. apply Exists_cons in H as [|]; done.
Qed.

Lemma load_dictionary_raise_iff db (f : file) (min_rating : Z) (e : exn) :
  load_dictionary db f min_rating = Raise e <-> load_fails db f e.
Proof.
  unfold load_dictionary, load_fails. destruct f as [|raws|raws e'].
  - simpl. split; [discriminate | done].
  - destruct (for_each_raises (bad_rating db)
                (fun raw st => consider_entry db min_rating raw (count_line st))
                ValueError
                (fun x s => consider_entry_raises db min_rating x (count_line s))
                raws initial_state) as [[Hex ->]|[Hex [st ->]]]; simpl.
    + split; [by intros [= <-] | by intros [_ ->]].
    + split; [discriminate | by intros [? _]].
  - destruct (for_each_raises (bad_rating db)
                (fun raw st => consider_entry db min_rating raw (count_line st))
                ValueError
                (fun x s => consider_entry_raises db min_rating x (count_line s))
                raws initial_state) as [[Hex ->]|[Hex [st ->]]]; simpl.
    + split; [intros [= <-]; by left | by intros [[_ ->]|[? _]]].
    + split; [intros [= <-]; by right | by intros [[? _]|[_ ->]]].
Qed.

Lemma load_dictionary_cases db (f : file) (min_rating : Z) :
  (exists e, load_fails db f e /\ load_dictionary db f min_rating = Raise e) \/
  (forall e, ~ load_fails db f e) /\
  exists by_len, load_dictionary db f min_rating = Ok by_len.
Proof.
  destruct (load_dictionary db f min_rating) as [by_len|e] eqn:E.
  - right. split; [|by eexists]. intros e He.
    apply (load_dictionary_raise_iff db f min_rating) in He. congruence.
  - left. exists e. split; [|done]. by apply (load_dictionary_raise_iff db f min_rating).
Qed.

(** [load_dictionary] raises an exception in two cases only.  One is a line
    whose rating field passes [isdigit] and that [int] refuses, among the
    lines that are read: the exception is then [ValueError].  The other is a
    read of the file that fails with something else than
    [FileNotFoundError]: the exception is then the one of the read, unless a
    line read before it has raised [ValueError] already.  With the file
    missing it raises nothing. *)
Theorem load_dictionary_raises
  (db : UnicodeData) (f : file) (min_rating : Z) :
  ((exists e, load_dictionary db f min_rating = Raise e) <->
   match f with
   | FileNotFound => False
   | FileLines raws => Exists (bad_rating db) raws
   | FileError raws e' => True
   end) /\
  (forall e, load_dictionary db f min_rating = Raise e <->
     match f with
     | FileNotFound => False
     | FileLines raws => Exists (bad_rating db) raws /\ e = ValueError
     | FileError raws e' =>
         Exists (bad_rating db) raws /\ e = ValueError \/
         ~ Exists (bad_rating db) raws /\ e = e'
     end) /\
  (exists by_len, load_dictionary db FileNotFound min_rating = Ok by_len).
Proof.
  assert (Hiff : forall e, load_dictionary db f min_rating = Raise e <->
                           load_fails db f e)
    by (intros e; apply load_dictionary_raise_iff).
  split; [|split].
  - split.
    + intros [e He]. apply Hiff in He. destruct f as [|raws|raws e']; simpl in He.
      * done.
      * by destruct He.
      * done.
    + destruct f as [|raws|raws e']; [done | |].
      * intros Hex. exists ValueError. by apply Hiff.
      * intros _. unfold load_dictionary.
        destruct (for_each _ raws initial_state) as [st|e]; simpl; by eexists.
  - intros e. rewrite Hiff. by destruct f.
  - by eexists.
Qed.

(** A file whose second line has the rating field "²". *)
Example load_dictionary_superscript_rating :
  load_dictionary ucd_superscripts
    (FileLines [lit "9" ++ 9%N :: lit "zoomers"; 0xB2%N :: 9%N :: lit "word"]) 1
  = Raise ValueError.
Proof. reflexivity. Qed.

(** A file that is not UTF-8 after its first line, and a path that is a
    directory. *)
Example load_dictionary_undecodable :
  load_dictionary ucd_sample
    (FileError [lit "9" ++ 9%N :: lit "zoomers"] UnicodeDecodeError) 1
  = Raise UnicodeDecodeError /\
  load_dictionary ucd_sample (FileError [] OSError) 1 = Raise OSError.
Proof. split; reflexivity. Qed.

(** *** Claim C10 *)
Lemma consider_entry_keeps db min_rating line st st' c :
  consider_entry db min_rating line st = Ok st' ->
  In c (dkeys (best_by_cleaned st)) -> In c (dkeys (best_by_cleaned st')).
Proof.
  unfold consider_entry. destruct (strip db line) as [|c0 l0] eqn:El.
  { by intros [= <-]. }
  destruct (parse_rating db (c0 :: l0)) as [[rating entry]|]; [|discriminate].
  simpl. destruct (clean_phrase db entry) as [|c1 cl] eqn:Ecl.
  { intros [= <-]. by destruct rating. }
  destruct (Nat.ltb_spec (length (c1 :: cl)) 4);
    destruct (Nat.ltb_spec 7 (length (c1 :: cl))); simpl;
    try (intros [= <-]; by destruct rating).
  destruct (negb _).
  { intros [= <-]. by destruct rating. }
  intros [= <-] Hc.
  assert (Hk : In c (dkeys (keep_best (c1 :: cl) rating
                                      (best_by_cleaned (count_parsed rating st))))).
  { apply keep_best_keys. right. by destruct rating. }
  by destruct rating.
Qed.

Lemma for_each_keeps db min_rating raws : forall st st' c,
  for_each (fun raw st => consider_entry db min_rating raw (count_line st))
           raws st = Ok st' ->
  In c (dkeys (best_by_cleaned st)) -> In c (dkeys (best_by_cleaned st')).
Proof.
  induction raws as [|raw raws IH]; intros st st' c; simpl.
  - by intros [= <-].
  - intros Hrun Hc. apply bind_Ok in Hrun as (st1 & Hstep & Hrest).
    apply (IH st1 st' c Hrest).
    by apply (consider_entry_keeps _ _ _ _ _ _ Hstep).
Qed.

(** C10, the part that fails: a rating field of 4301 digits is a digit
    string outside the range 1-10, and the line is not kept as an unrated
    entry: [int] refuses that many digits, and the load ends with
    [ValueError]. *)
Lemma load_dictionary_rating_too_long :
  Forall (fun c => ascii_isdigit c = true) long_rating /\
  ~ (1 <= decimal long_rating <= 10) /\
  load_dictionary ucd_sample (FileLines [long_rating ++ 9%N :: lit "zoomers"]) 1
  = Raise ValueError.
Proof.
  split; [apply Forall_forall; intros c Hc; apply list_elem_of_In in Hc;
          by apply repeat_spec in Hc as ->|].
  split; [|by vm_compute].
  vm_compute. intros [_ H]. by apply H.
Qed.

(** C10 as amended: a line [n<TAB>word] whose string [n] of ASCII digits,
    no longer than [int] reads, is not a rating between 1 and 10.  The line
    is parsed as one unrated entry, the whole stripped line; [clean_phrase]
    leaves only letters of it (for ASCII text exactly the cleaned word, the
    digits and the tab being dropped); the line raises nothing and counts as
    unrated, in whatever state the loader is; every load of a file with that
    line that returns has the cleaned word in the bucket of its length when
    that length is between 4 and 7, whatever [min_rating] is; and the load
    of the line alone returns just that. *)
Theorem load_dictionary_rating_out_of_range
  (db : UnicodeData) (min_rating : Z) (n word : str) :
  ascii_faithful db ->
  n <> [] -> Forall (fun c => ascii_isdigit c = true) n ->
  over_limit db n = false ->
  ~ (1 <= decimal n <= 10) ->
  let line := n ++ 9%N :: word in
  let entry := strip db line in
  let cleaned := clean_phrase db entry in
  parse_rating db entry = Ok (None, entry) /\
  Forall (fun c => is_AZ c = true) cleaned /\
  (Forall is_ascii word -> cleaned = clean_phrase db word) /\
  (forall st, exists st',
     consider_entry db min_rating line st = Ok st' /\
     parsed_rated st' = parsed_rated st /\
     parsed_unrated st' = parsed_unrated st + 1 /\
     kept_rated_ge_min st' = kept_rated_ge_min st /\
     ((4 <= length cleaned <= 7)%nat ->
      In cleaned (dkeys (best_by_cleaned st')) /\
      kept_unrated st' = kept_unrated st + 1) /\
     (~ (4 <= length cleaned <= 7)%nat ->
      best_by_cleaned st' = best_by_cleaned st)) /\
  (forall before after by_len,
     load_dictionary db (FileLines (before ++ line :: after)) min_rating
     = Ok by_len ->
     (4 <= length cleaned <= 7)%nat ->
     exists ws, dget (length cleaned) by_len = Some ws /\ In cleaned ws) /\
  load_dictionary db (FileLines [line]) min_rating =
  Ok (if ((4 <=? length cleaned) && (length cleaned <=? 7))%nat
      then [(length cleaned, [cleaned])] else []).
Proof.
  intros Hdb Hne Hn Hlim Hr line entry cleaned.
  pose proof (fun st => consider_entry_out_of_range db min_rating n word st
                          Hdb Hne Hn Hlim Hr) as Hstep.
  cbv zeta in Hstep. fold line in Hstep. fold entry in Hstep.
  fold cleaned in Hstep.
  destruct (Hstep initial_state) as (Hparse & HAZ & Hword & _).
  split; [exact Hparse|]. split; [exact HAZ|]. split; [exact Hword|].
  split; [intros st; apply (Hstep st)|].
  split.
  - intros before after by_len Hload Hlen.
    unfold load_dictionary in Hload.
    apply bind_Ok in Hload as (st & Hst & [= <-]).
    rewrite MaskFacts.for_each_app in Hst.
    apply bind_Ok in Hst as (st1 & _ & Hst). simpl in Hst.
    apply bind_Ok in Hst as (st2 & Hline & Hrest).
    destruct (Hstep (count_line st1)) as (_ & _ & _ & st2' & Hrun & _ & _ & _ & Hkept & _).
    rewrite Hrun in Hline. injection Hline as ->.
    apply (build_by_len_lookup (dkeys (best_by_cleaned st)) (length cleaned) cleaned).
    split; [|reflexivity].
    apply (for_each_keeps _ _ _ _ _ _ Hrest). by apply Hkept.
  - unfold load_dictionary. cbn [for_each].
    destruct (Hstep (count_line initial_state))
      as (_ & _ & _ & st' & Hrun & _ & _ & _ & Hkept & Hnot).
    rewrite Hrun. cbv beta iota delta [mbind result_bind bind].
    assert (Hst' : dkeys (best_by_cleaned st') =
                   if ((4 <=? length cleaned) && (length cleaned <=? 7))%nat
                   then [cleaned] else []).
    { clear Hkept Hnot.
      assert (Hentry : entry <> []).
      { unfold entry, line.
        destruct (strip_digit_line db n word Hdb Hne Hn) as [-> _].
        destruct n; [congruence | discriminate]. }
      destruct (Nat.leb_spec 4 (length cleaned)) as [H4|H4];
        destruct (Nat.leb_spec (length cleaned) 7) as [H7|H7]; cbn [andb];
        revert Hrun; unfold consider_entry; fold line; fold entry;
        (destruct entry as [|e0 entry'] eqn:Eentry; [congruence|]);
        rewrite Hparse; simpl; fold cleaned;
        (destruct cleaned as [|c0 cl] eqn:Ecl;
           [simpl in *; try lia; by intros [= <-]|]);
        destruct (Nat.ltb_spec (length (c0 :: cl)) 4);
        destruct (Nat.ltb_spec 7 (length (c0 :: cl))); try lia;
        simpl; by intros [= <-]. }
    rewrite Hst'.
    by destruct ((4 <=? length cleaned) && (length cleaned <=? 7))%nat.
Qed.

Lemma load_dictionary_rating_out_of_range_witness :
  exists by_len ws,
    load_dictionary ucd_sample
      (FileLines [lit "3" ++ 9%N :: lit "abacus";
                  lit "11" ++ 9%N :: lit "zoomers"; lit "cat"]) 9 = Ok by_len /\
    dget 7%nat by_len = Some ws /\ In (lit "ZOOMERS") ws /\
    load_dictionary ucd_sample (FileLines [lit "0" ++ 9%N :: lit "zoomers"]) 9 =
    Ok [(7%nat, [lit "ZOOMERS"])].
Proof.
  destruct (load_dictionary_rating_out_of_range ucd_sample 9 (lit "11")
              (lit "zoomers") ucd_sample_faithful)
    as (_ & _ & _ & _ & Hload & _).
  - discriminate.
  - repeat constructor.
  - reflexivity.
  - vm_compute. intros [_ H]. by apply H.
  - destruct (Hload [lit "3" ++ 9%N :: lit "abacus"] [lit "cat"]
                [(7%nat, [lit "ZOOMERS"])]) as (ws & Hws & Hin).
    + reflexivity.
    + vm_compute. lia.
    + exists [(7%nat, [lit "ZOOMERS"])], ws.
      split; [reflexivity|]. split; [exact Hws|]. split; [exact Hin|].
      reflexivity.
Defined.

End DictionaryMore.

(** ** The geometry helpers of the enumeration *)
Module GeometryMore.
Import PyFacts MaskFacts LayoutFacts RankFacts.

Lemma sorted_Z_ordered (l : list Z) : ordered Z.leb (sorted Z.leb l).
Proof.
  apply sorted_ordered.
  - intros a b Hab. apply Z.leb_le. apply Z.leb_gt in Hab. lia.
  - intros a b c Hab Hbc. apply Z.leb_le in Hab, Hbc. apply Z.leb_le. lia.
Qed.

Lemma ordered_gaps_ok (s : list Z) :
  ordered Z.leb s -> NoDup s ->
  (forall a b, In a s -> In b s -> Z.abs (a - b) <> 1) ->
  gaps_ok s = true.
Proof.
  induction 1 as [|a t Ha Ht IH]; intros Hnd Hfar; [done|].
  apply NoDup_cons in Hnd as [Hat Hnd].
  assert (Hrest : gaps_ok t = true).
  { apply IH; [done|]. intros x y Hx Hy. apply Hfar; by right. }
  destruct t as [|b t]; [done|]. cbn [gaps_ok].
  apply andb_true_iff. split; [|done].
  apply Z.leb_le. apply Forall_cons in Ha as [Hab _]. apply Z.leb_le in Hab.
  assert (a <> b) by (intros ->; apply Hat; by left).
  assert (Z.abs (a - b) <> 1) by (apply Hfar; [by left | right; by left]).
  lia.
Qed.

(** [nonadjacent] accepts a list of indices exactly when no index is
    repeated and no two of them are next to each other, in whatever order the
    indices come. *)
Theorem nonadjacent_iff (indices : list Z) :
  nonadjacent indices = true <->
  NoDup indices /\
  forall a b, In a indices -> In b indices -> Z.abs (a - b) <> 1.
Proof.
  split.
  - intros Hn. split; [by apply nonadjacent_NoDup|].
    intros a b. by apply nonadjacent_apart.
  - intros [Hnd Hfar]. unfold nonadjacent. apply ordered_gaps_ok.
    + apply sorted_Z_ordered.
    + by rewrite (sorted_perm Z.leb indices).
    + intros a b Ha Hb. apply sorted_In in Ha, Hb. by apply Hfar.
Qed.

(** The across lengths offered for a width are the lengths from 4 to the
    width that have the parity of the width; the span of such a length lies
    inside the row, has that many cells, and is centred: its last column is
    the mirror image of its first. *)
Theorem horizontal_spans_centred (w L : Z) :
  (In L (horizontal_lengths_allowed w) <->
   4 <= L <= w /\ L mod 2 = w mod 2) /\
  (In L (horizontal_lengths_allowed w) ->
   0 <= fst (horizontal_segment_for_width w L) /\
   snd (horizontal_segment_for_width w L) < w /\
   snd (horizontal_segment_for_width w L)
   - fst (horizontal_segment_for_width w L) + 1 = L /\
   snd (horizontal_segment_for_width w L)
   = w - 1 - fst (horizontal_segment_for_width w L)).
Proof.
  assert (Hiff : In L (horizontal_lengths_allowed w) <->
                 4 <= L <= w /\ L mod 2 = w mod 2).
  { unfold horizontal_lengths_allowed.
    pose proof (Z.mod_pos_bound w 2 ltac:(lia)) as Hw.
    pose proof (Z.mod_pos_bound L 2 ltac:(lia)) as HL.
    pose proof (Z.div_mod w 2 ltac:(lia)) as Hwd.
    pose proof (Z.div_mod L 2 ltac:(lia)) as HLd.
    destruct (Z.eqb_spec (w mod 2) 0) as [E|E];
      rewrite In_filter, In_range; lia. }
  split; [exact Hiff|].
  intros HL. apply Hiff in HL as [Hr Hpar].
  unfold horizontal_segment_for_width. simpl.
  pose proof (Z.div_mod w 2 ltac:(lia)) as Hwd.
  pose proof (Z.div_mod L 2 ltac:(lia)) as HLd.
  pose proof (Z.div_mod (w - L) 2 ltac:(lia)) as Hdm.
  pose proof (Z.mod_pos_bound (w - L) 2 ltac:(lia)) as Hb.
  lia.
Qed.

(** The down segments offered for a height are the pairs (start, length)
    with at least 4 cells that fit into the column, each of them once. *)
Theorem vertical_segment_options_spec (h s L : Z) :
  (In (s, L) (vertical_segment_options h) <-> 4 <= L /\ 0 <= s /\ s + L <= h) /\
  NoDup (vertical_segment_options h).
Proof.
  unfold vertical_segment_options. split.
  - rewrite in_flat_map. split.
    + intros (L' & HL' & Hin). apply in_map_iff in Hin as (s' & [= <- <-] & Hs').
      apply In_range in HL', Hs'. lia.
    + intros (HL & Hs & Hfit). exists L. split; [apply In_range; lia|].
      apply in_map_iff. exists s. split; [done|]. apply In_range. lia.
  - generalize (range 4 (h + 1)), (NoDup_range 4 (h + 1)).
    intros Ls HLs. induction HLs as [|L0 Ls Hnin HLs IH]; simpl; [constructor|].
    apply NoDup_app. split; [|split; [|exact IH]].
    + apply NoDup_fmap_2; [|apply NoDup_range]. by intros a b [= ->].
    + intros [s1 L1] H1 H2.
      apply list_elem_of_In, in_map_iff in H1 as (s' & [= <- <-] & _).
      apply list_elem_of_In, in_flat_map in H2 as (L' & HL' & Hin).
      apply in_map_iff in Hin as (s'' & [= <- <-] & _).
      apply Hnin. by apply list_elem_of_In.
Qed.

(** The columns of a choice of units are the columns of its units, each
    once and in ascending order; when the units are units of the width [w],
    every column lies inside the grid and comes with its mirror image. *)
Theorem expand_units_to_cols_spec (choice : list vunit) :
  (forall c, In c (expand_units_to_cols choice) <->
             exists u, In u choice /\ In c (unit_cols u)) /\
  NoDup (expand_units_to_cols choice) /\
  ordered Z.leb (expand_units_to_cols choice) /\
  forall w, (forall u, In u choice -> In u (symmetric_vertical_units w)) ->
    forall c, In c (expand_units_to_cols choice) ->
      0 <= c < w /\ In (w - 1 - c) (expand_units_to_cols choice).
Proof.
  assert (Hin : forall c, In c (expand_units_to_cols choice) <->
                          exists u, In u choice /\ In c (unit_cols u)).
  { intros c. unfold expand_units_to_cols.
    rewrite sorted_In, <- list_elem_of_In, elem_of_remove_dups, list_elem_of_In.
    apply in_flat_map. }
  split; [exact Hin|]. split; [|split].
  - unfold expand_units_to_cols. rewrite (sorted_perm Z.leb).
    apply NoDup_remove_dups.
  - apply sorted_Z_ordered.
  - intros w Hunits c Hc. apply Hin in Hc as (u & Hu & Hc).
    pose proof (In_units w u (Hunits u Hu)) as Hm.
    rewrite Hin.
    destruct u as [a b|m]; simpl in Hm, Hc.
    + destruct Hm as [Ha ->].
      destruct Hc as [Hc|[Hc|[]]]; subst c; (split; [lia|]);
        exists (Pair a (w - 1 - a)); (split; [done|]); simpl.
      * auto.
      * left. lia.
    + destruct Hm as [Hm Hmid]. destruct Hc as [Hc|[]]. subst c.
      split; [lia|]. exists (Single m). split; [done|]. simpl. left. lia.
Qed.

End GeometryMore.

(** ** Slots and intersections of a layout *)
Module CrossingFacts.
Import PyFacts MaskFacts LayoutFacts LayoutTheorems MainFacts.

Lemma cell_index_lookup (cs : list (Z * Z)) c p :
  dget c (cell_index cs) = Some p -> cs !! p = Some c.
Proof.
  unfold cell_index. intros Hp.
  apply dict_of_list_In, list_elem_of_In, elem_of_lookup_imap in Hp
    as (j & c' & [= -> ->] & Hj).
  exact Hj.
Qed.

Lemma cell_index_NoDup (cs : list (Z * Z)) c p :
  NoDup cs -> cs !! p = Some c -> dget c (cell_index cs) = Some p.
Proof.
  intros Hnd Hp. unfold cell_index. apply dict_of_list_NoDup.
  - assert (map fst (imap (fun k c => (c, k)) cs) = cs) as ->; [|done].
    clear. change (map fst) with (fmap (M := list) (@fst (Z * Z) nat)).
    rewrite fmap_imap. unfold compose. simpl.
    generalize 0%nat. induction cs as [|c cs IH]; intros n; [done|].
    simpl. f_equal. rewrite <- (IH (S n)) at 2.
    apply imap_ext. done.
  - apply list_elem_of_In, elem_of_lookup_imap. by exists p, c.
Qed.

Lemma crossings_spec (a b : slot) (x : intersection) :
  NoDup (cells a) -> In x (crossings a b) <-> crosses a b x.
Proof.
  intros Hnd. unfold crossings, crosses. split.
  - intros Hx.
    apply list_elem_of_In, list_elem_of_omap in Hx as ([k c] & Hkc & Hx).
    apply elem_of_lookup_imap in Hkc as (i & c' & [= -> ->] & Hi).
    simpl in Hx.
    destruct (dget c' (cell_index (cells a))) as [p|] eqn:Hp; [|done].
    injection Hx as <-. simpl. apply cell_index_lookup in Hp. done.
  - intros (Ha & Hb & Hpa & Hpb).
    apply list_elem_of_In, list_elem_of_omap.
    exists (pos_b x, xcell x). split.
    + apply elem_of_lookup_imap. by exists (pos_b x), (xcell x).
    + simpl. rewrite (cell_index_NoDup _ _ _ Hnd Hpa).
      destruct x. simpl in *. by subst.
Qed.

Lemma all_crossings_spec (slots : list slot) (x : intersection) :
  Forall (fun s => NoDup (cells s)) slots ->
  In x (all_crossings slots) <-> crossing_of slots x.
Proof.
  induction 1 as [|a rest Ha Hrest IH]; simpl.
  - split; [done|]. by intros (i & j & a & b & _ & Hi & _).
  - rewrite in_app_iff, IH, in_flat_map. split.
    + intros [(b & Hb & Hx)|(i & j & a' & b' & Hij & Hi & Hj & Hx)].
      * apply list_elem_of_In, list_elem_of_lookup in Hb as [j Hj].
        exists 0%nat, (S j), a, b. split; [lia|]. split; [done|].
        split; [done|]. by apply crossings_spec.
      * exists (S i), (S j), a', b'. split; [lia | done].
    + intros (i & j & a' & b' & Hij & Hi & Hj & Hx).
      destruct j as [|j]; [lia|]. simpl in Hj. destruct i as [|i].
      * injection Hi as <-. left. exists b'. split.
        { apply list_elem_of_In. by eapply list_elem_of_lookup_2. }
        by apply crossings_spec.
      * right. exists i, j, a', b'. split; [lia | done].
Qed.

Lemma across_slot_cells w rl :
  NoDup (cells (across_slot w rl)) /\
  slot_length (across_slot w rl) = length (cells (across_slot w rl)) /\
  orient (across_slot w rl) = H.
Proof.
  destruct rl as [r L]. unfold across_slot. simpl. split; [|done].
  apply NoDup_fmap_2; [|apply NoDup_range]. by intros c1 c2 [= ->].
Qed.

Lemma down_slot_cells cv :
  NoDup (cells (down_slot cv)) /\
  slot_length (down_slot cv) = length (cells (down_slot cv)) /\
  orient (down_slot cv) = V.
Proof.
  destruct cv as [c [s L]]. unfold down_slot. simpl. split; [|done].
  apply NoDup_fmap_2; [|apply NoDup_range]. by intros r1 r2 [= ->].
Qed.

(** Whatever rows and columns it is given, [build_slots_and_intersections]
    returns slots that do not repeat a cell and whose length is the number of
    their cells, the across slots before the down slots, and as
    intersections exactly the shared cells of two slots, the earlier slot of
    the list as [slot_a], each with the positions of the cell in the two
    slots. *)
Theorem build_intersections_spec
  (w h : Z) (h_rows_with_len : list (Z * Z)) (v_cols_with_seg : dict Z (Z * Z)) :
  let slots := fst (build_slots_and_intersections w h h_rows_with_len v_cols_with_seg) in
  let inter := snd (build_slots_and_intersections w h h_rows_with_len v_cols_with_seg) in
  (forall s, In s slots ->
     NoDup (cells s) /\ slot_length s = length (cells s)) /\
  (exists hs vs, slots = hs ++ vs /\
     length hs = length h_rows_with_len /\ length vs = length v_cols_with_seg /\
     Forall (fun s => orient s = H) hs /\ Forall (fun s => orient s = V) vs) /\
  (forall x, In x inter <-> crossing_of slots x).
Proof.
  unfold build_slots_and_intersections. simpl.
  set (hs := map (across_slot w) (sorted (le_of seg_compare) h_rows_with_len)).
  set (vs := map down_slot (sorted (le_of col_compare) v_cols_with_seg)).
  assert (Hcells : forall s, In s (hs ++ vs) ->
            NoDup (cells s) /\ slot_length s = length (cells s)).
  { intros s Hs. apply in_app_iff in Hs as [Hs|Hs];
      apply in_map_iff in Hs as (y & <- & _).
    - destruct (across_slot_cells w y) as (? & ? & _). done.
    - destruct (down_slot_cells y) as (? & ? & _). done. }
  split; [exact Hcells|]. split.
  - exists hs, vs. split; [done|].
    unfold hs, vs. rewrite !length_map, !sorted_length.
    split; [done|]. split; [done|]. split.
    + apply Forall_forall. intros s Hs.
      apply list_elem_of_In, in_map_iff in Hs as (y & <- & _).
      apply across_slot_cells.
    + apply Forall_forall. intros s Hs.
      apply list_elem_of_In, in_map_iff in Hs as (y & <- & _).
      apply down_slot_cells.
  - intros x. apply all_crossings_spec. apply Forall_forall.
    intros s Hs. apply list_elem_of_In in Hs. by apply Hcells.
Qed.

(** *** The layouts of the enumeration *)
Lemma emitted_crossing lay x :
  emitted lay -> In x (lay_inter lay) ->
  exists rl cv,
    In rl (lay_h_rows lay) /\ In cv (lay_v_cols lay) /\
    crosses (across_slot (lay_w lay) rl) (down_slot cv) x /\
    xcell x = (fst rl, fst cv).
Proof.
  intros E Hx. pose proof (em_geometry lay E) as G.
  destruct (emitted_slot_list lay E) as [Hslots Hinter].
  rewrite Hinter in Hx. apply all_crossings_spec in Hx.
  2:{ apply Forall_forall. intros s Hs. apply list_elem_of_In in Hs.
      by apply (emitted_slot_cells lay s E). }
  destruct Hx as (i & j & a & b & Hij & Hi & Hj & Hx).
  rewrite Hslots in Hi, Hj.
  set (rows := sorted (le_of seg_compare) (lay_h_rows lay)) in *.
  set (cols := sorted (le_of col_compare) (lay_v_cols lay)) in *.
  assert (Hrows : NoDup (map fst rows)).
  { unfold rows. rewrite (sorted_perm _ (lay_h_rows lay)).
    apply (g_rows_nodup _ _ _ _ G). }
  assert (Hcols : NoDup (map fst cols)).
  { unfold cols. rewrite (sorted_perm _ (lay_v_cols lay)).
    apply (g_cols_nodup _ _ _ _ G). }
  destruct Hx as (Hida & Hidb & Hca & Hcb).
  assert (Hina : In (xcell x) (cells a))
    by (eapply list_elem_of_In, list_elem_of_lookup_2, Hca).
  assert (Hinb : In (xcell x) (cells b))
    by (eapply list_elem_of_In, list_elem_of_lookup_2, Hcb).
  destruct (decide (i < length rows)%nat) as [Hil|Hil];
    destruct (decide (j < length rows)%nat) as [Hjl|Hjl].
  - (* two across slots: different rows *)
    exfalso.
    rewrite lookup_app_l in Hi, Hj by (by rewrite length_map).
    rewrite list_lookup_fmap in Hi. rewrite list_lookup_fmap in Hj.
    destruct (rows !! i) as [ri|] eqn:Eri; [|done].
    destruct (rows !! j) as [rj|] eqn:Erj; [|done].
    injection Hi as <-. injection Hj as <-.
    apply (across_slot_row _ ri) in Hina. apply (across_slot_row _ rj) in Hinb.
    assert (i = j); [|lia].
    apply (NoDup_lookup (map fst rows) i j (fst ri) Hrows);
      rewrite list_lookup_fmap; [by rewrite Eri|].
    rewrite Erj. simpl. congruence.
  - rewrite lookup_app_l in Hi by (by rewrite length_map).
    rewrite lookup_app_r in Hj by (rewrite length_map; lia).
    rewrite list_lookup_fmap in Hi. rewrite list_lookup_fmap in Hj.
    destruct (rows !! i) as [ri|] eqn:Eri; [|done].
    destruct (cols !! _) as [cj|] eqn:Ecj; [|done].
    injection Hi as <-. injection Hj as <-.
    exists ri, cj.
    split. { eapply sorted_In, list_elem_of_In, list_elem_of_lookup_2, Eri. }
    split. { eapply sorted_In, list_elem_of_In, list_elem_of_lookup_2, Ecj. }
    split; [done|].
    apply (across_slot_row _ ri) in Hina. apply (down_slot_col cj) in Hinb.
    destruct (xcell x). simpl in *. congruence.
  - exfalso. lia.
  - (* two down slots: different columns *)
    exfalso.
    rewrite lookup_app_r in Hi, Hj by (rewrite length_map; lia).
    rewrite list_lookup_fmap in Hi. rewrite list_lookup_fmap in Hj.
    rewrite length_map in Hi, Hj.
    destruct (cols !! (i - length rows)%nat) as [ci|] eqn:Eci; [|done].
    destruct (cols !! (j - length rows)%nat) as [cj|] eqn:Ecj; [|done].
    injection Hi as <-. injection Hj as <-.
    apply (down_slot_col ci) in Hina. apply (down_slot_col cj) in Hinb.
    assert ((i - length rows)%nat = (j - length rows)%nat); [|lia].
    apply (NoDup_lookup (map fst cols) _ _ (fst ci) Hcols);
      rewrite list_lookup_fmap; [by rewrite Eci|].
    rewrite Ecj. simpl. congruence.
Qed.

Lemma crosses_inj a b x y :
  NoDup (cells a) -> NoDup (cells b) ->
  crosses a b x -> crosses a b y -> xcell x = xcell y -> x = y.
Proof.
  intros Ha Hb (Hxa & Hxb & Hxpa & Hxpb) (Hya & Hyb & Hypa & Hypb) Hc.
  rewrite <- Hc in Hypa, Hypb.
  pose proof (NoDup_lookup _ _ _ _ Ha Hxpa Hypa).
  pose proof (NoDup_lookup _ _ _ _ Hb Hxpb Hypb).
  destruct x, y. simpl in *. congruence.
Qed.

Lemma NoDup_map_inj {A B} (f : A -> B) (l : list A) :
  NoDup l -> (forall x y, In x l -> In y l -> f x = f y -> x = y) ->
  NoDup (map f l).
Proof.
  intros Hnd Hinj. apply (NoDup_fmap_2_strong f); [|done].
  intros x y Hx Hy. apply Hinj; by apply list_elem_of_In.
Qed.

Lemma NoDup_crossings a b : NoDup (cells b) -> NoDup (crossings a b).
Proof.
  intros Hb. unfold crossings.
  set (f := fun kc : nat * (Z * Z) => _).
  assert (Hnd : NoDup (imap (fun k c => (k, c)) (cells b))).
  { apply NoDup_alt. intros i j [k c] Hi Hj.
    rewrite list_lookup_imap in Hi, Hj.
    destruct (cells b !! i); [|done]. destruct (cells b !! j); [|done].
    simpl in *. congruence. }
  revert Hnd. generalize (imap (fun k c => (k, c)) (cells b)).
  intros l Hnd. induction Hnd as [|kc l Hkc Hnd IH]; simpl; [constructor|].
  destruct (f kc) as [x|] eqn:Ex; [|done].
  apply NoDup_cons. split; [|done].
  intros Hin. apply list_elem_of_omap in Hin as (kc' & Hkc' & Ex').
  assert (kc = kc'); [|by subst].
  unfold f in Ex, Ex'.
  destruct (dget (snd kc) _); [|done]. destruct (dget (snd kc') _); [|done].
  injection Ex as <-. injection Ex' as Ex'.
  destruct kc, kc'. simpl in *. congruence.
Qed.

Lemma NoDup_all_crossings slots :
  NoDup (map slot_id slots) -> Forall (fun s => NoDup (cells s)) slots ->
  NoDup (all_crossings slots).
Proof.
  intros Hids Hcells. induction Hcells as [|a rest Ha Hrest IH]; simpl;
    [constructor|].
  simpl in Hids. apply NoDup_cons in Hids as [Haid Hids].
  apply NoDup_app. split; [|split; [|by apply IH]].
  - clear IH. induction Hrest as [|b rest Hb Hrest IH]; simpl; [constructor|].
    simpl in Hids, Haid. apply NoDup_cons in Hids as [Hbid Hids].
    apply NoDup_app. split; [by apply NoDup_crossings|]. split.
    + intros x Hx Hx'.
      apply list_elem_of_In, crossings_wf in Hx as (_ & Hxb & _).
      apply list_elem_of_In, in_flat_map in Hx' as (b' & Hb' & Hx').
      apply crossings_wf in Hx' as (_ & Hxb' & _).
      apply Hbid. rewrite <- Hxb, Hxb'. apply list_elem_of_In, in_map. done.
    + apply IH; [|done]. intros Hin. apply Haid. by right.
  - intros x Hx Hx'.
    apply list_elem_of_In, in_flat_map in Hx as (b & Hb & Hx).
    apply crossings_wf in Hx as (Hxa & _).
    apply list_elem_of_In, all_crossings_wf in Hx' as (a' & _ & Ha' & _ & Hida & _).
    apply Haid. rewrite <- Hxa, <- Hida. apply list_elem_of_In, in_map. done.
Qed.

Lemma emitted_crossing_cells lay :
  emitted lay ->
  NoDup (map xcell (lay_inter lay)) /\
  dup_cells (lay_inter lay) = length (lay_inter lay).
Proof.
  intros E. pose proof (em_geometry lay E) as G.
  assert (Hnd : NoDup (map xcell (lay_inter lay))).
  { apply NoDup_map_inj.
    - destruct (emitted_slot_list lay E) as [_ ->].
      apply NoDup_all_crossings; [by apply emitted_ids_NoDup|].
      apply Forall_forall. intros s Hs. apply list_elem_of_In in Hs.
      by apply (emitted_slot_cells lay s E).
    - intros x y Hx Hy Hc.
      destruct (emitted_crossing lay x E Hx) as (rx & cx & Hrx & Hcx & Hxx & Hxc).
      destruct (emitted_crossing lay y E Hy) as (ry & cy & Hry & Hcy & Hyy & Hyc).
      rewrite Hxc, Hyc in Hc. injection Hc as Hr Hcc.
      destruct rx as [r Lx], ry as [r' Ly]. simpl in Hr. subst r'.
      destruct cx as [c sx], cy as [c' sy]. simpl in Hcc. subst c'.
      assert (Lx = Ly) as ->
        by exact (keyed_inj _ r Lx Ly (g_rows_nodup _ _ _ _ G) Hrx Hry).
      assert (sx = sy) as ->
        by exact (keyed_inj _ c sx sy (g_cols_nodup _ _ _ _ G) Hcx Hcy).
      apply (crosses_inj _ _ x y (proj1 (across_slot_cells _ _))
               (proj1 (down_slot_cells _)) Hxx Hyy).
      by rewrite Hxc, Hyc. }
  split; [exact Hnd|].
  unfold dup_cells. rewrite size_list_to_set by done. apply length_map.
Qed.

(** In every layout [main] attempts, an intersection is the crossing of an
    across slot, its [slot_a], and a down slot, its [slot_b], in the cell of
    the row of the one and the column of the other; no two intersections
    are in the same cell, so the number of distinct crossing cells that ranks
    the layout is the number of its intersections. *)
Theorem crossings_across_down
  (mode : words_mode) (min_intersections : Z) (letters : str) :
  exists layouts,
    feasible_layouts mode min_intersections letters = Ok layouts /\
    forall lay, In lay layouts ->
      (forall x, In x (lay_inter lay) ->
         exists a b, In a (lay_slots lay) /\ In b (lay_slots lay) /\
           orient a = H /\ orient b = V /\ crosses a b x /\
           forall pa pb, In pa (cells a) -> In pb (cells b) ->
             xcell x = (fst pa, snd pb)) /\
      NoDup (map xcell (lay_inter lay)) /\
      dup_cells (lay_inter lay) = length (lay_inter lay).
Proof.
  destruct (feasible_layouts_emitted mode min_intersections letters)
    as (layouts & Hrun & Hall).
  exists layouts. split; [exact Hrun|].
  intros lay Hlay. destruct (Hall lay Hlay) as [E _].
  split; [|by apply emitted_crossing_cells].
  intros x Hx.
  destruct (emitted_crossing lay x E Hx) as (rl & cv & Hrl & Hcv & Hcross & Hcell).
  destruct (emitted_slot_list lay E) as [Hslots _].
  exists (across_slot (lay_w lay) rl), (down_slot cv).
  split. { rewrite Hslots. apply in_app_iff. left. apply in_map, sorted_In, Hrl. }
  split. { rewrite Hslots. apply in_app_iff. right. apply in_map, sorted_In, Hcv. }
  split; [apply across_slot_cells|]. split; [apply down_slot_cells|].
  split; [done|].
  intros pa pb Hpa Hpb.
  apply (across_slot_row _ rl) in Hpa. apply (down_slot_col cv) in Hpb.
  rewrite Hcell. congruence.
Qed.

End CrossingFacts.

(** ** [connected] decides 4-connectedness *)
Module ConnectedFacts.
Import PyFacts MaskFacts.

Section Complete.
Variables (m : list (list Z)) (h w : Z).
Hypothesis Hrect : rect h w m.
Local Abbreviation covered := (covered m h w).
Local Abbreviation frontier := (frontier m h w).

Lemma visit_grows n s d s' d' :
  visit m h w n (s, d) = Ok (s', d') ->
  s ⊆ s' /\
  (forall x, In x d -> In x d') /\
  (forall x, x ∈ s' -> x ∈ s \/ In x d') /\
  ((forall x, In x d -> x ∈ s) -> forall x, In x d' -> x ∈ s') /\
  (inb h w n -> mask_at m n = 1 -> n ∈ s').
Proof.
  unfold visit.
  destruct ((0 <=? fst n) && (fst n <? h) && (0 <=? snd n) && (snd n <? w))
    eqn:Hb.
  - assert (Hin : inb h w n) by (by apply inb_true).
    rewrite (mask_get_rect h w m n Hrect Hin). simpl.
    destruct (Z.eqb_spec (mask_at m n) 1) as [Hv|Hv]; simpl.
    + destruct (bool_decide (n ∈ s)) eqn:Hs; simpl.
      * apply bool_decide_eq_true in Hs. intros [= <- <-].
        split; [done|]. do 3 (split; [auto|]). auto.
      * intros [= <- <-]. split; [set_solver|]. split; [|split; [|split]].
        -- intros x Hx. apply in_app_iff. by left.
        -- intros x Hx. apply elem_of_union in Hx as [Hx|Hx]; [|by left].
           apply elem_of_singleton in Hx as ->. right.
           apply in_app_iff. right. by left.
        -- intros Hd x Hx. apply in_app_iff in Hx as [Hx|[<-|[]]];
             [|set_solver]. apply Hd in Hx. set_solver.
        -- intros _ _. set_solver.
    + intros [= <- <-]. split; [done|]. do 3 (split; [auto|]).
      intros _ Hv'. done.
  - intros [= <- <-]. split; [done|]. do 3 (split; [auto|]).
    intros Hin. apply inb_true in Hin. congruence.
Qed.

Lemma visits_grow ns : forall s d s' d',
  for_each (visit m h w) ns (s, d) = Ok (s', d') ->
  s ⊆ s' /\
  (forall x, In x d -> In x d') /\
  (forall x, x ∈ s' -> x ∈ s \/ In x d') /\
  ((forall x, In x d -> x ∈ s) -> forall x, In x d' -> x ∈ s') /\
  (forall n, In n ns -> inb h w n -> mask_at m n = 1 -> n ∈ s').
Proof.
  induction ns as [|n ns IH]; intros s d s' d' Hrun; cbn [for_each] in Hrun.
  - injection Hrun as <- <-. split; [done|]. do 3 (split; [auto|]).
    by intros n [].
  - destruct (visit m h w n (s, d)) as [[s1 d1]|] eqn:Hv; simpl in Hrun;
      [|done].
    apply visit_grows in Hv as (Hs1 & Hd1 & Hnew1 & Hq1 & Hn1).
    apply IH in Hrun as (Hs2 & Hd2 & Hnew2 & Hq2 & Hn2).
    split; [set_solver|]. split; [auto|]. split; [|split].
    + intros x Hx. apply Hnew2 in Hx as [Hx|Hx]; [|by right].
      apply Hnew1 in Hx as [Hx|Hx]; auto.
    + auto.
    + intros n' [<-|Hn'] Hin Hv'; [|by apply Hn2].
      apply Hs2. by apply Hn1.
Qed.

Lemma bfs_complete fuel : forall seen dq seen',
  frontier seen dq ->
  bfs fuel m h w seen dq = Some (Ok seen') ->
  seen ⊆ seen' /\ forall x, x ∈ seen' -> covered seen' x.
Proof.
  induction fuel as [|fuel IH]; intros seen dq seen' [Hdq Hfr] Hrun.
  - destruct dq; simpl in Hrun; [|done]. injection Hrun as <-.
    split; [done|]. intros x Hx. by destruct (Hfr x Hx) as [[]|].
  - destruct dq as [|p dq]; simpl in Hrun.
    { injection Hrun as <-. split; [done|].
      intros x Hx. by destruct (Hfr x Hx) as [[]|]. }
    destruct (for_each (visit m h w) (neighbours p) (seen, dq))
      as [[s' d']|] eqn:Hv; [|done].
    apply visits_grow in Hv as (Hs & Hd & Hnew & Hq & Hn).
    apply IH in Hrun as [Hsub Hcov]; [split; [set_solver | done]|].
    split.
    + apply Hq. intros x Hx. apply Hdq. by right.
    + intros x Hx. apply Hnew in Hx as [Hx|Hx]; [|by left].
      destruct (Hfr x Hx) as [[<-|Hin]|Hc].
      * right. intros n Hnb Hin Hv'. by apply Hn.
      * left. by apply Hd.
      * right. intros n Hnb Hin Hv'. apply Hs. by apply Hc.
Qed.

Lemma adjacent4_neighbours p q : adjacent4 p q -> In q (neighbours p).
Proof.
  destruct p as [r c], q as [r' c']. unfold adjacent4. simpl.
  intros [[-> Hc]|[-> Hr]].
  - assert (c' = c + 1 \/ c' = c - 1) as [->| ->] by lia; auto.
  - assert (r' = r + 1 \/ r' = r - 1) as [->| ->] by lia; auto.
Qed.

Lemma covered_reach seen start q :
  start ∈ seen -> (forall x, x ∈ seen -> covered seen x) ->
  rtc (step4 m) start q -> q ∈ seen.
Proof.
  intros Hstart Hcov Hpath. revert q Hpath.
  apply (rtc_ind_r (fun q => q ∈ seen)); [done|].
  intros x y _ [Hadj Hy] IH.
  apply (is_filled_rect h w m y Hrect) in Hy as [Hin Hv].
  apply (Hcov x IH y); [by apply adjacent4_neighbours | done | done].
Qed.
End Complete.

Lemma connected_complete h w m :
  rect h w m -> four_connected m -> connected m = Ok true.
Proof.
  intros Hrect [[p Hp] Hall]. unfold connected.
  assert (Hp' := Hp). apply (is_filled_rect h w m p Hrect) in Hp' as [Hinp Hvp].
  assert (Hh : 0 < h) by (destruct Hinp; lia).
  destruct (rect_row h w m 0 Hrect) as (row0 & Hrow0 & Hlen0); [lia|].
  unfold py_index at 1. rewrite py_pos_nonneg by (destruct Hrect; lia).
  simpl. rewrite Hrow0. simpl.
  destruct Hrect as [Hlen Hrows]. rewrite Hlen, Hlen0.
  assert (Hrect : rect h w m) by (by split).
  rewrite (filled_cells_rect h w) by done. simpl.
  set (cells := filter (fun p => mask_at m p = 1) (all_cells h w)).
  assert (Hcells : forall q, q ∈ cells <-> is_filled m q).
  { intros q. unfold cells. rewrite list_elem_of_filter, list_elem_of_In,
      In_all_cells, (is_filled_rect h w m q Hrect). tauto. }
  assert (Hnd : NoDup cells) by apply NoDup_filter, NoDup_all_cells.
  destruct cells as [|start rest] eqn:Ecells.
  { apply Hcells in Hp. by apply elem_of_nil in Hp. }
  assert (Hstart : is_filled m start) by (apply Hcells; by left).
  assert (Hs' := Hstart).
  apply (is_filled_rect h w m start Hrect) in Hs' as [Hins Hvs].
  destruct (bfs_fuel m h w (Z.to_nat h * Z.to_nat w) {[start]} [start])
    as [r Hbfs].
  { rewrite <- length_all_cells. simpl.
    assert (unseen h w {[start]} < length (all_cells h w))%nat; [|lia].
    unfold unseen. apply filter_length_lt with (a := start).
    - by apply In_all_cells.
    - set_solver. }
  rewrite Hbfs.
  edestruct (bfs_sound m h w start Hrect)
    as (seen & Hr & Hreached); [| |exact Hbfs|].
  { intros x Hx. apply elem_of_singleton in Hx as ->.
    split; [done|]. split; [done|]. apply rtc_refl. }
  { intros x [<-|[]]. set_solver. }
  subst r.
  apply (bfs_complete m h w Hrect) in Hbfs as [Hsub Hcov].
  2:{ split.
      - intros x [<-|[]]. set_solver.
      - intros x Hx. apply elem_of_singleton in Hx as ->. left. by left. }
  simpl. do 2 f_equal. apply Nat.eqb_eq.
  assert (Heq : seen = list_to_set (start :: rest)).
  { apply set_eq. intros q. rewrite elem_of_list_to_set, Hcells. split.
    - intros Hq. destruct (Hreached q Hq) as (Hq1 & Hq2 & _).
      by apply (is_filled_rect h w m q Hrect).
    - intros Hq. apply (covered_reach m h w Hrect seen start q);
        [set_solver | done | by apply Hall]. }
  rewrite Heq. by rewrite size_list_to_set.
Qed.

(** On a mask that is a rectangle of [h] rows and [w] columns, with at least
    one row, [connected] raises nothing and returns [True] exactly when the
    mask is 4-connected: it has a filled cell, and from every filled cell
    every other is reached by steps up, down, left or right over filled
    cells.  On the empty mask it raises [IndexError]. *)
Theorem connected_iff (h w : Z) (m : list (list Z)) :
  rect h w m ->
  (0 < h ->
   (connected m = Ok true <-> four_connected m) /\
   (connected m = Ok false <-> ~ four_connected m)) /\
  (h = 0 -> connected m = Raise IndexError).
Proof.
  intros Hrect. split.
  - intros Hh.
    assert (Htrue : connected m = Ok true <-> four_connected m).
    { split; [by apply (connected_sound h w) | by apply (connected_complete h w)]. }
    split; [exact Htrue|].
    destruct (connected_rect h w m Hrect Hh) as [[|] Hb]; rewrite Hb.
    + split; [done|]. intros Hn. destruct Hn. by apply Htrue.
    + split; [|done]. intros _ Hc. apply Htrue in Hc. congruence.
  - intros ->. destruct Hrect as [Hlen _]. by destruct m.
Qed.

Lemma corner_rect : rect 2 2 corner_mask.
Proof. split; [done|]. by repeat constructor. Qed.

Lemma connected_iff_witness : four_connected corner_mask.
Proof.
  destruct (connected_iff 2 2 corner_mask corner_rect) as [Hpos _].
  destruct (Hpos ltac:(lia)) as [[Hconn _] _].
  apply Hconn. vm_compute. reflexivity.
Defined.

End ConnectedFacts.

(** ** The layouts of the enumeration *)
Module EnumerationFacts.
Import PyFacts MaskFacts LayoutFacts LayoutTheorems MainFacts.

(** *** Counting rows and columns *)
Lemma length_zip {A B} (a : list A) (b : list B) :
  length (zip a b) = Nat.min (length a) (length b).
Proof.
  revert b. induction a as [|x a IH]; intros [|y b]; simpl; auto.
Qed.

Lemma map_fst_zip {A B} (a : list A) (b : list B) :
  length a = length b -> map fst (zip a b) = a.
Proof.
  revert b. induction a as [|x a IH]; intros [|y b] Hl; simpl in *;
    try done. f_equal. apply IH. lia.
Qed.

Lemma assign_keys (l : list (vunit * (Z * Z))) : forall (d : dict Z (Z * Z)) c,
  In c (dkeys (fold_left
                 (fun d us =>
                    fold_left (fun d c => dset c (snd us) d) (unit_cols (fst us)) d)
                 l d)) <->
  In c (dkeys d) \/ exists u, In u (map fst l) /\ In c (unit_cols u).
Proof.
  induction l as [|[u seg] l IH]; intros d c; simpl.
  - split; [auto | intros [H|(u & [] & _)]; exact H].
  - rewrite IH. clear IH.
    assert (Hu : In c (dkeys (fold_left (fun d c => dset c seg d) (unit_cols u) d))
                 <-> In c (dkeys d) \/ In c (unit_cols u)).
    { destruct u as [a b|c0]; simpl; rewrite ?dkeys_dset; intuition. }
    rewrite Hu. split.
    + intros [[H|H]|(u' & Hu' & Hc)]; eauto 6.
    + intros [H|(u' & [<-|Hu'] & Hc)]; eauto 6.
Qed.

Lemma assign_units_NoDup v_choice segs : NoDup (dkeys (assign_units v_choice segs)).
Proof.
  unfold assign_units.
  apply (fold_left_inv (fun d : dict Z (Z * Z) => NoDup (dkeys d)));
    [|constructor].
  intros [u seg] d _ Hd.
  apply (fold_left_inv (fun d : dict Z (Z * Z) => NoDup (dkeys d))); [|done].
  intros c d' _. apply dset_NoDup.
Qed.

Lemma length_assign_units v_choice segs :
  length segs = length v_choice ->
  length (assign_units v_choice segs) = length (expand_units_to_cols v_choice).
Proof.
  intros Hlen. unfold expand_units_to_cols. rewrite sorted_length.
  rewrite <- (length_map fst (assign_units v_choice segs)).
  change (map fst (assign_units v_choice segs))
    with (dkeys (assign_units v_choice segs)).
  apply Permutation_length, NoDup_Permutation.
  - apply assign_units_NoDup.
  - apply NoDup_remove_dups.
  - intros c. rewrite elem_of_remove_dups, !list_elem_of_In.
    unfold assign_units. rewrite (assign_keys _ [] c).
    rewrite map_fst_zip by done. rewrite in_flat_map. simpl. tauto.
Qed.

(** *** What the filters let through *)
Section Chosen.
Variables (fams : list (nat * nat)) (min_intersections : Z).
Local Abbreviation chosen := (chosen fams min_intersections).

Lemma emit_chosen w h nH nV hrows vcols layouts layouts' :
  In (nH, nV) fams -> length hrows = nH -> length vcols = nV ->
  ((0 < nV)%nat -> slot_purity_ok hrows vcols w = true) ->
  Forall chosen layouts ->
  emit w h nH nV min_intersections hrows vcols layouts = Ok layouts' ->
  Forall chosen layouts'.
Proof.
  intros Hfam Hrows Hcols Hpure Hls. unfold emit.
  destruct (build_mask w h hrows vcols) as [m|]; [rewrite bind_ret|by simpl].
  destruct (connected m) as [conn|]; [rewrite bind_ret|by simpl].
  destruct conn; cbn [negb]; [|by intros [= <-]].
  destruct (is_plain_rectangle w h hrows vcols) eqn:Hframe; [by intros [= <-]|].
  destruct (build_slots_and_intersections w h hrows vcols) as [slots inter].
  cbn beta iota.
  destruct (Z.ltb_spec (Z.of_nat (length inter)) min_intersections);
    [by intros [= <-]|].
  intros [= <-]. apply Forall_app. split; [done|].
  apply Forall_singleton. by split.
Qed.

Lemma enumerate_family_chosen w h units v_opts h_lens fam layouts layouts' :
  In fam fams -> Forall chosen layouts ->
  enumerate_family w h units v_opts h_lens min_intersections fam layouts
  = Ok layouts' ->
  Forall chosen layouts'.
Proof.
  intros Hfam Hls. destruct fam as [nH nV]. unfold enumerate_family.
  destruct (h <? Z.of_nat nH); [by intros [= <-]|].
  destruct (is_empty (filter nonadjacent (combinations (range 0 h) nH)));
    [by intros [= <-]|].
  destruct ((0 <? nV)%nat && is_empty _); [by intros [= <-]|].
  apply (for_each_ok_inv (Forall chosen)); [|done].
  intros rows ls ls' Hrows Hls1.
  apply list_elem_of_In, list_elem_of_filter in Hrows as [_ Hrows].
  apply list_elem_of_In, In_combinations in Hrows as [Hrows _].
  apply (for_each_ok_inv (Forall chosen)); [|done].
  intros Ls ls2 ls2' HLs Hls2.
  assert (HLs' : length (zip rows Ls) = nH).
  { rewrite length_zip, Hrows. destruct (Nat.ltb_spec 0 nH).
    - apply In_product_repeat in HLs as [-> _]. lia.
    - lia. }
  apply (for_each_ok_inv (Forall chosen)); [|done].
  intros v_choice ls3 ls3' Hvc Hls3.
  destruct (Nat.eqb_spec nV 0) as [HnV|HnV].
  - subst nV. apply emit_chosen; try done. lia.
  - assert (Hvc' : length (expand_units_to_cols v_choice) = nV).
    { destruct (Nat.ltb_spec 0 nV); [|lia].
      unfold unit_subsets_for in Hvc.
      apply in_flat_map in Hvc as (k & _ & Hvc).
      apply list_elem_of_In, list_elem_of_filter in Hvc as [Hok _].
      apply Is_true_true, andb_true_iff in Hok as [Hok _].
      by apply Nat.eqb_eq in Hok. }
    apply (for_each_ok_inv (Forall chosen)); [|done].
    intros segs ls4 ls4' Hsegs Hls4.
    apply In_product_repeat in Hsegs as [Hsegs _].
    destruct (slot_purity_ok _ _ w) eqn:Hpure; simpl; [|by intros [= <-]].
    apply emit_chosen; try done.
    by rewrite length_assign_units.
Qed.

Lemma enumerate_sizes_chosen layouts :
  enumerate_sizes fams min_intersections = Ok layouts -> Forall chosen layouts.
Proof.
  unfold enumerate_sizes.
  apply (for_each_ok_inv (Forall chosen)); [|done].
  intros w ls ls' _ Hls.
  apply (for_each_ok_inv (Forall chosen)); [|done].
  intros h ls1 ls1' _ Hls1.
  destruct (is_empty (symmetric_vertical_units w)); [by intros [= <-]|].
  apply (for_each_ok_inv (Forall chosen)); [|done].
  intros fam ls2 ls2' Hfam Hls2. by apply enumerate_family_chosen.
Qed.
End Chosen.

Lemma chosen_weaken fams fams' mi lay :
  (forall f, In f fams -> In f fams') -> chosen fams mi lay -> chosen fams' mi lay.
Proof. intros Hsub []. split; auto. Qed.

(** *** Deduplication by mask *)
Lemma dedupe_by_mask_NoDup layouts : forall seen,
  NoDup (map lay_mask (dedupe_by_mask seen layouts)) /\
  forall x, In x (map lay_mask (dedupe_by_mask seen layouts)) -> x ∉ seen.
Proof.
  induction layouts as [|lay ls IH]; intros seen; simpl.
  - split; [constructor | intros x []].
  - case_bool_decide as Hseen; [apply IH|].
    destruct (IH (lay_mask lay :: seen)) as [Hnd Hout]. simpl. split.
    + apply NoDup_cons. split; [|done].
      intros Hin. apply list_elem_of_In, Hout in Hin.
      apply Hin. by left.
    + intros x [<-|Hx]; [done|]. apply Hout in Hx.
      intros Hin. apply Hx. by right.
Qed.

Lemma dedupe_by_mask_first layouts : forall seen lay,
  In lay layouts -> lay_mask lay ∉ seen ->
  exists lay', In lay' (dedupe_by_mask seen layouts) /\
               lay_mask lay' = lay_mask lay.
Proof.
  induction layouts as [|x ls IH]; intros seen lay Hin Hseen; [done|].
  simpl. destruct Hin as [->|Hin].
  - rewrite bool_decide_eq_false_2 by done. exists lay. split; [by left | done].
  - case_bool_decide as Hx; [by apply IH|].
    destruct (decide (lay_mask lay = lay_mask x)) as [E|E].
    + exists x. split; [by left | done].
    + destruct (IH (lay_mask x :: seen) lay Hin) as (lay' & Hl & Hm).
      { intros H. apply elem_of_cons in H as [|]; done. }
      exists lay'. split; [by right | done].
Qed.

Lemma enumerate_layouts_chosen min_intersections total_words :
  total_words = 5 \/ total_words = 6 ->
  exists fams layouts,
    allowed_fams total_words = Ok fams /\
    enumerate_layouts min_intersections total_words = Ok layouts /\
    NoDup (map lay_mask layouts) /\
    forall lay, In lay layouts ->
      emitted lay /\ chosen fams min_intersections lay.
Proof.
  intros Htw.
  destruct (enumerate_layouts_emitted min_intersections total_words Htw)
    as (layouts & Hrun & Hem).
  assert (exists fams, allowed_fams total_words = Ok fams) as [fams Hfams].
  { destruct Htw as [-> | ->]; by eexists. }
  exists fams, layouts. split; [exact Hfams|]. split; [exact Hrun|].
  unfold enumerate_layouts in Hrun.
  rewrite Hfams, bind_ret in Hrun.
  destruct (enumerate_sizes fams min_intersections) as [ls|] eqn:Els; [|done].
  rewrite bind_ret in Hrun. injection Hrun as <-.
  apply enumerate_sizes_chosen in Els.
  split; [apply dedupe_by_mask_NoDup|].
  intros lay Hlay. rewrite Forall_forall in Hem.
  split; [by apply Hem, list_elem_of_In|].
  rewrite Forall_forall in Els. apply Els, list_elem_of_In.
  by apply In_dedupe_by_mask in Hlay.
Qed.

Lemma feasible_layouts_chosen mode min_intersections letters :
  exists layouts,
    feasible_layouts mode min_intersections letters = Ok layouts /\
    NoDup (map lay_mask layouts) /\
    forall lay, In lay layouts ->
      emitted lay /\ lay_total lay = Z.of_nat (length letters) /\
      exists tw fams, In tw (modes_of mode) /\ allowed_fams tw = Ok fams /\
                      chosen fams min_intersections lay.
Proof.
  destruct (feasible_layouts_emitted mode min_intersections letters)
    as (layouts & Hrun & Hem).
  exists layouts. split; [exact Hrun|].
  unfold feasible_layouts in Hrun.
  match type of Hrun with
  | (?runs ≫= _) = _ => destruct runs as [all|] eqn:Eall; [|done]
  end.
  rewrite bind_ret in Hrun. injection Hrun as <-.
  split; [apply dedupe_by_mask_NoDup|].
  intros lay Hlay. destruct (Hem lay Hlay) as [E Htot].
  split; [exact E|]. split; [exact Htot|].
  apply In_dedupe_by_mask in Hlay.
  apply list_elem_of_In, list_elem_of_filter in Hlay as [_ Hlay].
  revert lay Hlay E Htot. revert Eall.
  apply (for_each_ok_inv
           (fun acc => forall lay, lay ∈ acc -> emitted lay ->
              lay_total lay = Z.of_nat (length letters) ->
              exists tw fams, In tw (modes_of mode) /\ allowed_fams tw = Ok fams /\
                              chosen fams min_intersections lay));
    [|by intros l H%elem_of_nil].
  intros tw acc acc' Htw Hacc Hstep l Hl El Hlt.
  assert (Htw' : tw = 5 \/ tw = 6) by (destruct mode; simpl in Htw; lia).
  destruct (enumerate_layouts_chosen min_intersections tw Htw')
    as (fams & ls & Hfams & Hls & _ & Hch).
  rewrite Hls, bind_ret in Hstep. injection Hstep as <-.
  apply elem_of_app in Hl as [Hl|Hl]; [by apply Hacc|].
  exists tw, fams. split; [done|]. split; [done|].
  by apply Hch, list_elem_of_In.
Qed.

(** *** Slots of a layout *)
Lemma across_cells w rl : cells (across_slot w rl) = hcells w rl.
Proof. by destruct rl as [r L]. Qed.

Lemma down_cells cv : cells (down_slot cv) = vcells cv.
Proof. by destruct cv as [c [s L]]. Qed.

Lemma emitted_slot_cells_iff lay q :
  emitted lay ->
  In q (slot_cells (lay_w lay) (lay_h_rows lay) (lay_v_cols lay)) <->
  exists s, In s (lay_slots lay) /\ In q (cells s).
Proof.
  intros E. destruct (emitted_slot_list lay E) as [-> _].
  unfold slot_cells. rewrite in_app_iff, !in_flat_map. split.
  - intros [(rl & Hrl & Hq)|(cv & Hcv & Hq)].
    + exists (across_slot (lay_w lay) rl). split; [|by rewrite across_cells].
      apply in_app_iff. left. by apply in_map, sorted_In.
    + exists (down_slot cv). split; [|by rewrite down_cells].
      apply in_app_iff. right. by apply in_map, sorted_In.
  - intros (s & Hs & Hq). apply in_app_iff in Hs as [Hs|Hs];
      apply in_map_iff in Hs as (y & <- & Hy); apply sorted_In in Hy.
    + left. exists y. split; [done|]. by rewrite <- across_cells.
    + right. exists y. split; [done|]. by rewrite <- down_cells.
Qed.

Lemma emitted_mask_of_slots lay : emitted lay -> mask_of_slots lay.
Proof.
  intros E. destruct (emitted_mask lay E) as [Hrect Hat].
  pose proof (slot_cells_inb _ _ _ _ (em_geometry lay E)) as Hinb.
  rewrite Forall_forall in Hinb.
  split; [exact Hrect|]. split.
  - intros s p Hs Hp. apply Hinb, list_elem_of_In.
    apply (emitted_slot_cells_iff lay p E). by exists s.
  - intros q Hq. rewrite (Hat q Hq), <- (emitted_slot_cells_iff lay q E).
    rewrite <- list_elem_of_In. case_bool_decide; split; split; try done; lia.
Qed.

Lemma emitted_slot_counts lay :
  emitted lay ->
  length (filter (fun s => orient s = H) (lay_slots lay))
  = length (lay_h_rows lay) /\
  length (filter (fun s => orient s = V) (lay_slots lay))
  = length (lay_v_cols lay) /\
  length (lay_slots lay) = (length (lay_h_rows lay) + length (lay_v_cols lay))%nat.
Proof.
  intros E. destruct (emitted_slot_list lay E) as [-> _].
  set (hs := map (across_slot (lay_w lay)) _). set (vs := map down_slot _).
  assert (Hhs : Forall (fun s => orient s = H) hs).
  { apply Forall_forall. intros s Hs.
    apply list_elem_of_In, in_map_iff in Hs as ([r L] & <- & _). done. }
  assert (Hvs : Forall (fun s => orient s = V) vs).
  { apply Forall_forall. intros s Hs.
    apply list_elem_of_In, in_map_iff in Hs as ([c [s' L]] & <- & _). done. }
  assert (Hlh : length hs = length (lay_h_rows lay))
    by (unfold hs; by rewrite length_map, sorted_length).
  assert (Hlv : length vs = length (lay_v_cols lay))
    by (unfold vs; by rewrite length_map, sorted_length).
  rewrite !filter_app, !length_app.
  rewrite (RankFacts.filter_all (fun s => orient s = H) hs).
  2:{ intros s Hs. rewrite Forall_forall in Hhs. by apply Hhs, list_elem_of_In. }
  rewrite (RankFacts.filter_none (fun s => orient s = H) vs).
  2:{ intros s Hs. rewrite Forall_forall in Hvs.
      apply list_elem_of_In, Hvs in Hs. congruence. }
  rewrite (RankFacts.filter_none (fun s => orient s = V) hs).
  2:{ intros s Hs. rewrite Forall_forall in Hhs.
      apply list_elem_of_In, Hhs in Hs. congruence. }
  rewrite (RankFacts.filter_all (fun s => orient s = V) vs).
  2:{ intros s Hs. rewrite Forall_forall in Hvs. by apply Hvs, list_elem_of_In. }
  simpl. lia.
Qed.

(** [enumerate_layouts] refuses a word count other than 5 and 6 with
    [ValueError].  For 5 and 6 it returns layouts without raising; each has
    a family (across, down) of the allowed ones for the word count, that
    many across and down slots, so as many slots as there are words, and at
    least [min_intersections] intersections; and no two of the layouts have
    the same mask. *)
Theorem enumerate_layouts_families (min_intersections total_words : Z) :
  (total_words <> 5 -> total_words <> 6 ->
   enumerate_layouts min_intersections total_words = Raise ValueError) /\
  (total_words = 5 \/ total_words = 6 ->
   exists fams layouts,
     allowed_fams total_words = Ok fams /\
     enumerate_layouts min_intersections total_words = Ok layouts /\
     NoDup (map lay_mask layouts) /\
     forall lay, In lay layouts ->
       In (lay_nH lay, lay_nV lay) fams /\
       length (filter (fun s => orient s = H) (lay_slots lay)) = lay_nH lay /\
       length (filter (fun s => orient s = V) (lay_slots lay)) = lay_nV lay /\
       Z.of_nat (length (lay_slots lay)) = total_words /\
       min_intersections <= Z.of_nat (length (lay_inter lay))).
Proof.
  split.
  - intros H5 H6. unfold enumerate_layouts, allowed_fams.
    destruct (Z.eqb_spec total_words 5); [done|].
    destruct (Z.eqb_spec total_words 6); done.
  - intros Htw.
    destruct (enumerate_layouts_chosen min_intersections total_words Htw)
      as (fams & layouts & Hfams & Hrun & Hnd & Hall).
    exists fams, layouts. split; [done|]. split; [done|]. split; [done|].
    intros lay Hlay. destruct (Hall lay Hlay) as [E C].
    destruct (emitted_slot_counts lay E) as (HH & HV & Hlen).
    rewrite (ch_rows _ _ _ C) in HH, Hlen. rewrite (ch_cols _ _ _ C) in HV, Hlen.
    split; [apply C|]. split; [done|]. split; [done|]. split; [|apply C].
    pose proof (ch_family _ _ _ C) as Hfam. rewrite Hlen.
    unfold allowed_fams in Hfams.
    destruct Htw as [-> | ->]; simpl in Hfams; injection Hfams as <-;
      simpl in Hfam;
      repeat (destruct Hfam as [Hfam|Hfam];
              [injection Hfam as <- <-; reflexivity|]);
      destruct Hfam.
Qed.

(** *** The entries of a rectangular mask, cell by cell *)
Lemma tabulate {A} (l : list A) (f : Z -> A) :
  (forall i x, l !! i = Some x -> f (Z.of_nat i) = x) ->
  map f (range 0 (Z.of_nat (length l))) = l.
Proof.
  intros Hf. apply list_eq. intros i.
  change (map f) with (fmap (M := list) f). rewrite list_lookup_fmap.
  unfold range. rewrite Z.sub_0_r.
  destruct (l !! i) as [x|] eqn:Hi.
  - assert (Hlt : (i < length l)%nat) by (by eapply lookup_lt_Some).
    rewrite (proj2 (lookup_seqZ 0 (Z.of_nat (length l)) i (Z.of_nat i)))
      by lia.
    simpl. f_equal. by apply Hf.
  - apply lookup_ge_None in Hi.
    rewrite lookup_seqZ_ge by lia. done.
Qed.

Lemma rect_cells h w m :
  rect h w m -> concat m = map (mask_at m) (all_cells h w).
Proof.
  intros [Hlen Hrows].
  assert (Hm : map (fun r => map (fun c => mask_at m (r, c)) (range 0 w))
                   (range 0 h) = m).
  { rewrite <- Hlen. apply tabulate. intros i row Hi.
    assert (Hw : Z.of_nat (length row) = w).
    { rewrite Forall_forall in Hrows. by eapply Hrows, list_elem_of_lookup_2. }
    rewrite <- Hw. apply tabulate. intros j x Hj.
    unfold mask_at. simpl. rewrite !Nat2Z.id, Hi. simpl. by rewrite Hj. }
  rewrite <- Hm at 1. unfold all_cells.
  rewrite <- flat_map_concat_map.
  generalize (range 0 h). intros rs. induction rs as [|r rs IH]; [done|].
  simpl. rewrite map_app, map_map, IH. done.
Qed.

Lemma filter_map_length {A B} (f : A -> B) (P : B -> Prop)
  `{forall y, Decision (P y)} (l : list A) :
  length (filter P (map f l)) = length (filter (fun x => P (f x)) l).
Proof.
  induction l as [|x l IH]; [done|]. simpl.
  rewrite !filter_cons. destruct (decide (P (f x))); simpl; by rewrite IH.
Qed.

Lemma filled_count_cells h w m :
  rect h w m ->
  filled_count m = length (filter (fun p => mask_at m p = 1) (all_cells h w)).
Proof.
  intros Hrect. unfold filled_count. rewrite (rect_cells h w m Hrect).
  apply filter_map_length.
Qed.

(** *** Purity and the frame *)
Lemma purity_check hrows vcols w r L c s L' :
  slot_purity_ok hrows vcols w = true ->
  NoDup (map fst hrows) -> In (r, L) hrows -> In (c, (s, L')) vcols ->
  (fst (horizontal_segment_for_width w L) <= c
   <= snd (horizontal_segment_for_width w L)) <->
  s <= r <= s + L' - 1.
Proof.
  unfold slot_purity_ok. intros Hok Hnd Hr Hc.
  destruct (is_empty hrows && is_empty vcols); [done|].
  rewrite forallb_forall in Hok. specialize (Hok _ Hc). simpl in Hok.
  rewrite forallb_forall in Hok.
  assert (Hspan : In (r, horizontal_segment_for_width w L)
            (dict_of_list
               (map (fun rl => (fst rl, horizontal_segment_for_width w (snd rl)))
                    hrows))).
  { apply dget_In, dict_of_list_NoDup.
    - by rewrite map_map.
    - apply in_map_iff. by exists (r, L). }
  specialize (Hok _ Hspan).
  unfold horizontal_segment_for_width in *. simpl in Hok |- *.
  destruct (Z.leb_spec ((w - L) / 2) c),
    (Z.leb_spec c ((w - L) / 2 + L - 1)), (Z.leb_spec s r),
    (Z.leb_spec r (s + L' - 1)); simpl in Hok; try done; lia.
Qed.

Lemma chosen_pure fams mi lay :
  emitted lay -> chosen fams mi lay -> row_pure lay /\ col_pure lay.
Proof.
  intros E C. pose proof (em_geometry lay E) as G.
  destruct (emitted_mask lay E) as [Hrect Hat].
  assert (Hfilled : forall q, inb (lay_h lay) (lay_w lay) q ->
            mask_at (lay_mask lay) q = 1 ->
            In q (slot_cells (lay_w lay) (lay_h_rows lay) (lay_v_cols lay))).
  { intros q Hq Hv. rewrite (Hat q Hq) in Hv.
    case_bool_decide; [by apply list_elem_of_In | done]. }
  assert (Hcheck : forall r L c s L',
            In (r, L) (lay_h_rows lay) -> In (c, (s, L')) (lay_v_cols lay) ->
            (fst (horizontal_segment_for_width (lay_w lay) L) <= c
             <= snd (horizontal_segment_for_width (lay_w lay) L)) <->
            s <= r <= s + L' - 1).
  { intros r L c s L' Hr Hc. apply (purity_check (lay_h_rows lay) (lay_v_cols lay));
      try done; [|apply (g_rows_nodup _ _ _ _ G)].
    apply (ch_pure _ _ _ C). rewrite <- (ch_cols _ _ _ C).
    destruct (lay_v_cols lay); [done | simpl; lia]. }
  split.
  - intros a p c Ha Hor Hp Hc Hv.
    destruct (emitted_slots lay a E Ha) as [([r L] & Hrl & ->)|(cv & _ & ->)];
      [|by rewrite (proj1 (down_slot_col cv p)) in Hor].
    rewrite across_cells in Hp |- *. apply In_hcells in Hp as [Hpr Hpc].
    destruct p as [pr pc]. simpl in Hpr, Hpc, Hv |- *. subst pr.
    apply In_hcells. simpl. split; [done|].
    destruct (g_rows _ _ _ _ G r L Hrl) as (Hr & _).
    apply Hfilled in Hv; [|split; simpl; lia].
    apply in_app_iff in Hv as [Hv|Hv];
      apply in_flat_map in Hv as (y & Hy & Hq).
    + destruct y as [r' L']. apply In_hcells in Hq as [Hq1 Hq2].
      simpl in Hq1, Hq2. subst r'.
      assert (L' = L) as ->
        by exact (keyed_inj _ r L' L (g_rows_nodup _ _ _ _ G) Hy Hrl).
      done.
    + destruct y as [c' [s L']]. apply In_vcells in Hq as [Hq1 Hq2].
      simpl in Hq1, Hq2. subst c'.
      pose proof (proj2 (Hcheck r L c s L' Hrl Hy)) as Hin.
      unfold horizontal_segment_for_width in Hin. simpl in Hin. lia.
  - intros b p r Hb Hor Hp Hr Hv.
    destruct (emitted_slots lay b E Hb) as [(rl & _ & ->)|([c [s L]] & Hcv & ->)];
      [by rewrite (proj1 (across_slot_row (lay_w lay) rl p)) in Hor|].
    rewrite down_cells in Hp |- *. apply In_vcells in Hp as [Hpc Hpr].
    destruct p as [pr pc]. simpl in Hpr, Hpc, Hv |- *. subst pc.
    apply In_vcells. simpl. split; [done|].
    destruct (g_cols _ _ _ _ G c s L Hcv) as (Hc & _).
    apply Hfilled in Hv; [|split; simpl; lia].
    apply in_app_iff in Hv as [Hv|Hv];
      apply in_flat_map in Hv as (y & Hy & Hq).
    + destruct y as [r' L']. apply In_hcells in Hq as [Hq1 Hq2].
      simpl in Hq1, Hq2. subst r'.
      pose proof (proj1 (Hcheck r L' c s L Hy Hcv)) as Hin.
      unfold horizontal_segment_for_width in Hin. simpl in Hin. lia.
    + destruct y as [c' [s' L']]. apply In_vcells in Hq as [Hq1 Hq2].
      simpl in Hq1, Hq2. subst c'.
      assert ((s', L') = (s, L)) as [= -> ->]
        by exact (keyed_inj _ c _ _ (g_cols_nodup _ _ _ _ G) Hy Hcv).
      done.
Qed.

Lemma chosen_not_frame fams mi lay :
  emitted lay -> chosen fams mi lay -> ~ plain_frame lay.
Proof.
  intros E C (Htop & Hbot & Hleft & Hright).
  pose proof (em_geometry lay E) as G.
  pose proof (ch_frame _ _ _ C) as Hf. unfold is_plain_rectangle in Hf.
  rewrite (In_dget_nodup _ _ _ (g_cols_nodup _ _ _ _ G) Hleft) in Hf.
  rewrite (In_dget_nodup _ _ _ (g_cols_nodup _ _ _ _ G) Hright) in Hf.
  assert (existsb (fun rl => (fst rl =? 0) && (snd rl =? lay_w lay))
                  (lay_h_rows lay) = true) as Ht.
  { apply existsb_exists. exists (0, lay_w lay). simpl.
    by rewrite !Z.eqb_refl. }
  assert (existsb (fun rl => (fst rl =? lay_h lay - 1) && (snd rl =? lay_w lay))
                  (lay_h_rows lay) = true) as Hb.
  { apply existsb_exists. exists (lay_h lay - 1, lay_w lay). simpl.
    by rewrite !Z.eqb_refl. }
  rewrite Ht, Hb, !Z.eqb_refl in Hf. done.
Qed.

(** In every layout [main] attempts both purities of the docstring of
    [slot_purity_ok] hold on the mask: in the row of an across slot and in the
    column of a down slot, every filled cell is a cell of that slot.  And the
    layout is not the plain rectangle frame. *)
Theorem layouts_pure (mode : words_mode) (min_intersections : Z) (letters : str) :
  exists layouts,
    feasible_layouts mode min_intersections letters = Ok layouts /\
    forall lay, In lay layouts ->
      row_pure lay /\ col_pure lay /\ ~ plain_frame lay.
Proof.
  destruct (feasible_layouts_chosen mode min_intersections letters)
    as (layouts & Hrun & _ & Hall).
  exists layouts. split; [exact Hrun|].
  intros lay Hlay.
  destruct (Hall lay Hlay) as (E & _ & tw & fams & _ & _ & C).
  destruct (chosen_pure fams min_intersections lay E C) as [Hr Hc].
  split; [done|]. split; [done|].
  by apply (chosen_not_frame fams min_intersections).
Qed.

(** In every layout [main] attempts the mask has the height and width of the
    layout, every cell of every slot lies inside it, and the filled cells of
    the mask are exactly the cells of the slots; the total the layout
    records is the number of letters of the phrase, and no two of the
    layouts have the same mask. *)
Theorem layouts_mask_union (mode : words_mode) (min_intersections : Z)
  (letters : str) :
  exists layouts,
    feasible_layouts mode min_intersections letters = Ok layouts /\
    NoDup (map lay_mask layouts) /\
    forall lay, In lay layouts ->
      mask_of_slots lay /\
      lay_total lay = Z.of_nat (length letters) /\
      length (remove_dups (flat_map cells (lay_slots lay))) = length letters.
Proof.
  destruct (feasible_layouts_chosen mode min_intersections letters)
    as (layouts & Hrun & Hnd & Hall).
  exists layouts. split; [exact Hrun|]. split; [exact Hnd|].
  intros lay Hlay. destruct (Hall lay Hlay) as (E & Htot & _).
  pose proof (emitted_mask_of_slots lay E) as Hm.
  split; [exact Hm|]. split; [exact Htot|].
  destruct Hm as (Hrect & Hin & Hiff).
  apply Nat2Z.inj. rewrite <- Htot, (emitted_count lay E).
  f_equal.
  rewrite (filled_count_cells (lay_h lay) (lay_w lay) (lay_mask lay) Hrect).
  apply Permutation_length, NoDup_Permutation.
  - apply NoDup_remove_dups.
  - apply NoDup_filter, NoDup_all_cells.
  - intros q. rewrite elem_of_remove_dups, list_elem_of_filter,
      !list_elem_of_In, In_all_cells, in_flat_map. split.
    + intros (s & Hs & Hq). pose proof (Hin s q Hs Hq) as Hq'.
      split; [|done]. apply (Hiff q Hq'). by exists s.
    + intros [Hv Hq]. by apply (Hiff q Hq).
Qed.

End EnumerationFacts.

(** ** The search: the cap on the number of solutions, and the pools *)
Module SearchMore.
Import PyFacts SolverFacts SolverInvariant SolverSearch SolverTheorems.
Import SolverTotal SolverTotalTheorems.

(** *** The cap *)
Section Cap.
Variable e : env.

Lemma record_goal_solutions st st' :
  record_goal e st = Ok st' ->
  solutions st' = solutions st \/ solutions st' = solutions st ++ [sol st].
Proof.
  unfold record_goal. destruct (forallb _ _ && _); [|intros [= <-]; by left].
  destruct (class_signature (sid_to_class e) (sol st)) as [sig|]; [|done].
  simpl. case_bool_decide; [intros [= <-]; by left|].
  destruct (quiet e); intros [= <-]; by right.
Qed.

Lemma record_goal_cap st st' :
  enough e st = false -> record_goal e st = Ok st' ->
  within_cap (max_solutions e) (solutions st').
Proof.
  unfold enough, within_cap. intros Hen Hrun. apply Z.leb_gt in Hen.
  apply record_goal_solutions in Hrun as [-> | ->];
    rewrite ?length_app; simpl; lia.
Qed.

Opaque past_deadline maybe_ping enough can_place place unplace record_goal.

Lemma try_words_cap next sid ws :
  (forall st st', within_cap (max_solutions e) (solutions st) ->
                  next st = Ok st' ->
                  within_cap (max_solutions e) (solutions st')) ->
  forall st st', within_cap (max_solutions e) (solutions st) ->
  try_words e next sid ws st = Ok st' ->
  within_cap (max_solutions e) (solutions st').
Proof.
  intros Hnext. induction ws as [|w ws IH]; intros st st' HB Hrun;
    simpl in Hrun; [by injection Hrun as <-|].
  pose proof (past_deadline_core e st) as Hc0.
  destruct (past_deadline e st) as [late st0]. simpl in Hc0, Hrun.
  assert (HB0 : within_cap (max_solutions e) (solutions st0))
    by (destruct Hc0; congruence).
  destruct late; [by injection Hrun as <-|].
  destruct (can_place e st0 sid w) as [[|]|]; simpl in Hrun;
    try discriminate; [|by eapply IH].
  destruct (place e st0 sid w) as [st1|] eqn:Eplace; [|discriminate].
  simpl in Hrun.
  destruct (next st1) as [st2|] eqn:Enext; [|discriminate]. simpl in Hrun.
  destruct (unplace e st2 sid w) as [st3|] eqn:Eun; [|discriminate].
  simpl in Hrun.
  apply place_frame in Eplace as [Hp1 _].
  apply unplace_frame in Eun as [Hu1 _].
  assert (HB2 : within_cap (max_solutions e) (solutions st2)).
  { eapply Hnext; [|exact Enext]. congruence. }
  assert (HB3 : within_cap (max_solutions e) (solutions st3)) by congruence.
  destruct (enough e st3); [by injection Hrun as <-|].
  pose proof (past_deadline_core e st3) as Hc3.
  destruct (past_deadline e st3) as [late3 st4]. simpl in Hc3, Hrun.
  assert (HB4 : within_cap (max_solutions e) (solutions st4))
    by (destruct Hc3; congruence).
  destruct late3; [by injection Hrun as <-|].
  eapply IH; [|exact Hrun].
  destruct (maybe_ping_core e st4). congruence.
Qed.

Lemma dfs_cap rest : forall st st',
  within_cap (max_solutions e) (solutions st) ->
  dfs e rest st = Ok st' -> within_cap (max_solutions e) (solutions st').
Proof.
  induction rest as [|sid rest IH]; intros st st' HB Hrun; simpl in Hrun;
    pose proof (past_deadline_core e st) as Hc0;
    destruct (past_deadline e st) as [late st0]; simpl in Hc0, Hrun;
    assert (HB0 : within_cap (max_solutions e) (solutions st0))
      by (destruct Hc0; congruence);
    (destruct late; [by injection Hrun as <-|]);
    (destruct (enough e st0) eqn:Hen; [by injection Hrun as <-|]).
  - by eapply record_goal_cap.
  - destruct (dget sid (cand e)) as [ws|]; [|discriminate]. simpl in Hrun.
    eapply try_words_cap; [|exact HB0|exact Hrun]. apply IH.
Qed.

Transparent past_deadline maybe_ping enough can_place place unplace record_goal.
End Cap.

(** [find_solutions_for_grid] returns at most [max_solutions] solutions, and
    none when [max_solutions] is zero or negative; this holds for every
    input on which it returns, whatever the time limit and the clock. *)
Theorem find_solutions_cap
  (slots : list slot) (intersections : list intersection) (phrase_letters : str)
  (cand : dict str (list str)) (per_grid_time max_solutions : Z)
  (quiet : bool) (clock : nat -> Q) (sols : list (dict str str)) :
  find_solutions_for_grid slots intersections phrase_letters cand
    per_grid_time max_solutions quiet clock = Ok sols ->
  Z.of_nat (length sols) <= Z.max 0 max_solutions /\
  (max_solutions <= 0 -> sols = []).
Proof.
  intros Hrun.
  apply find_solutions_unfold in Hrun
    as (eqc & stc & ordered & st' & _ & _ & Hdfs & ->).
  apply dfs_cap in Hdfs; [|unfold within_cap; simpl; lia].
  unfold within_cap in Hdfs. simpl in Hdfs. split; [exact Hdfs|].
  intros Hmax. destruct (solutions st'); [done|]. simpl in Hdfs. lia.
Qed.

Lemma find_solutions_cap_witness :
  (Z.of_nat (length [able_bole]) <= Z.max 0 5).
Proof.
  destruct (find_solutions_cap [across0; down1] [cross01] (lit "ABLEOLE")
              pools 0 5 true still [able_bole] example_run) as [Hcap _].
  exact Hcap.
Defined.

(** *** The pools *)
Lemma find_solutions_recorded slots inter phrase cand pgt maxs q clock sols :
  NoDup (map slot_id slots) ->
  (forall s, In s slots -> NoDup (cells s)) ->
  find_solutions_for_grid slots inter phrase cand pgt maxs q clock = Ok sols ->
  exists eqc stc ordered,
    slot_equivalence_classes slots inter = Ok (eqc, stc) /\
    order_slots slots cand inter = Ok ordered /\
    Permutation ordered slots /\
    forall sol, In sol sols ->
      good (search_env slots inter cand pgt maxs q clock stc ordered) phrase sol.
Proof.
  intros Hids Hcells Hrun.
  apply find_solutions_unfold in Hrun
    as (eqc & stc & ordered & st' & Heqc & Hord & Hdfs & ->).
  exists eqc, stc, ordered. split; [done|]. split; [done|].
  set (e := search_env slots inter cand pgt maxs q clock stc ordered) in *.
  apply order_slots_perm in Hord. split; [done|].
  assert (Hperm : Permutation (ids e) (map slot_id slots))
    by (by apply Permutation_map).
  assert (Hnd : NoDup (ids e)) by (by rewrite Hperm).
  assert (Hcn : forall sid s, dget sid (by_id e) = Some s -> NoDup (cells s)).
  { intros sid s Hs. apply make_by_id_In in Hs as [Hin _]. by apply Hcells. }
  destruct (dfs_searched e phrase Hcn Hnd (ids e) [] (search_start phrase clock) st')
    as (_ & _ & new & Hnew & Hgood); try done.
  - by apply Inv_initial.
  - intros sid w [].
  - simpl in Hnew. subst new. rewrite Forall_forall in Hgood.
    intros sol Hsol. apply Hgood. by apply list_elem_of_In.
Qed.

(** For slots with distinct ids that do not repeat a cell: a returned
    solution has a word for the slots of the layout and for nothing else,
    in the order of the search; every word is one of the candidates of its
    slot and has a letter for each cell of the slot.  So when the candidate
    list of some slot is empty, nothing is returned, as [main] assumes when
    it skips such a layout. *)
Theorem solutions_use_pools
  (slots : list slot) (intersections : list intersection) (phrase_letters : str)
  (cand : dict str (list str)) (per_grid_time max_solutions : Z)
  (quiet : bool) (clock : nat -> Q) (sols : list (dict str str)) :
  NoDup (map slot_id slots) ->
  (forall s, In s slots -> NoDup (cells s)) ->
  find_solutions_for_grid slots intersections phrase_letters cand
    per_grid_time max_solutions quiet clock = Ok sols ->
  (exists ordered,
     order_slots slots cand intersections = Ok ordered /\
     forall sol, In sol sols -> dkeys sol = map slot_id ordered) /\
  (forall sol, In sol sols ->
     Permutation (dkeys sol) (map slot_id slots) /\
     forall s, In s slots ->
       exists w ws, dget (slot_id s) sol = Some w /\
         dget (slot_id s) cand = Some ws /\ In w ws /\
         (length (cells s) <= length w)%nat) /\
  ((exists s, In s slots /\ dget (slot_id s) cand = Some []) -> sols = []).
Proof.
  intros Hids Hcells Hrun.
  destruct (find_solutions_recorded _ _ _ _ _ _ _ _ _ Hids Hcells Hrun)
    as (eqc & stc & ordered & _ & Hord & Hperm & Hgood).
  set (e := search_env slots intersections cand per_grid_time max_solutions
                       quiet clock stc ordered) in *.
  assert (Hsol : forall sol, In sol sols ->
     Permutation (dkeys sol) (map slot_id slots) /\
     forall s, In s slots ->
       exists w ws, dget (slot_id s) sol = Some w /\
         dget (slot_id s) cand = Some ws /\ In w ws /\
         (length (cells s) <= length w)%nat).
  { intros sol Hsol. destruct (Hgood sol Hsol) as (Hkeys & Hcand & cl & Hspell & _).
    split; [rewrite Hkeys; by apply Permutation_map|].
    intros s Hs.
    assert (Hin : In (slot_id s) (dkeys sol)).
    { rewrite Hkeys. apply in_map. by rewrite Hperm. }
    apply keys_dget in Hin as [w Hw]. apply dget_In in Hw as Hw'.
    destruct (Hcand _ _ Hw') as (ws & Hws & Hwin).
    exists w, ws. split; [done|]. split; [done|]. split; [done|].
    destruct (le_lt_dec (length (cells s)) (length w)) as [|Hlt]; [done|].
    exfalso.
    destruct (lookup_lt_is_Some_2 (cells s) (length w)) as [c Hc]; [lia|].
    destruct (Hspell _ _ Hw' (length w) c) as (ch & Hch & _).
    - unfold cells_of. simpl.
      by rewrite (make_by_id_NoDup slots s Hids Hs).
    - apply lookup_lt_Some in Hch. lia. }
  split; [|split; [exact Hsol|]].
  - exists ordered. split; [done|]. intros sol Hin.
    by destruct (Hgood sol Hin) as (Hkeys & _).
  - intros (s & Hs & Hempty). destruct sols as [|sol sols]; [done|]. exfalso.
    destruct (Hsol sol (or_introl eq_refl)) as [_ Hall].
    destruct (Hall s Hs) as (w & ws & _ & Hws & Hin & _).
    rewrite Hempty in Hws. injection Hws as <-. destruct Hin.
Qed.

Lemma solutions_use_pools_witness :
  exists w ws, dget (slot_id down1) able_bole = Some w /\
    dget (slot_id down1) pools = Some ws /\ In w ws.
Proof.
  destruct (solutions_use_pools [across0; down1] [cross01] (lit "ABLEOLE")
              pools 0 5 true still [able_bole] example_ids example_cells
              example_run) as (_ & Hsol & _).
  destruct (Hsol able_bole (or_introl eq_refl)) as [_ Hall].
  destruct (Hall down1 (or_intror (or_introl eq_refl)))
    as (w & ws & Hw & Hws & Hin & _).
  by exists w, ws.
Defined.

End SearchMore.

(** ** The search: the order of words within an equivalence class *)
Module SymmetryFacts.
Import PyFacts SolverFacts SolverInvariant SolverSearch SolverTheorems.
Import SolverTotal SolverTotalTheorems SearchMore.

Section Sorted.
Variables (e : env) (phrase : str).
Hypothesis cells_NoDup :
  forall sid s, dget sid (by_id e) = Some s -> NoDup (cells s).
Hypothesis ids_NoDup : NoDup (ids e).
Local Abbreviation sorted_sol := (class_sorted (sid_to_class e) (ids e)).
Local Abbreviation Inv := (Inv e phrase).
Local Abbreviation from_cand := (from_cand e).
Local Abbreviation searched := (searched e phrase).

Lemma class_members_In cls l : forall m a,
  class_members e cls l = Ok m ->
  In a m <-> In a l /\ dget a (sid_to_class e) = Some cls.
Proof.
  induction l as [|sid l IH]; intros m a Hm; simpl in Hm.
  - injection Hm as <-. simpl. tauto.
  - destruct (dget sid (sid_to_class e)) as [c|] eqn:Ec; [|done].
    simpl in Hm.
    destruct (class_members e cls l) as [m'|]; [|done]. simpl in Hm.
    injection Hm as <-. specialize (IH m' a eq_refl).
    destruct (decide (c = cls)) as [->|Hne]; simpl; rewrite IH.
    + split; [intros [<-|[? ?]]; auto | intros [[<-|?] ?]; auto].
    + split; [intros [? ?]; auto | intros [[<-|?] ?]; [congruence | auto]].
Qed.

Lemma class_members_app cls l1 l2 : forall m,
  class_members e cls (l1 ++ l2) = Ok m ->
  exists m1 m2, class_members e cls l1 = Ok m1 /\
                class_members e cls l2 = Ok m2 /\ m = m1 ++ m2.
Proof.
  induction l1 as [|sid l1 IH]; intros m Hm; simpl in Hm.
  - exists [], m. done.
  - destruct (dget sid (sid_to_class e)) as [c|] eqn:Ec; [|done].
    simpl in Hm.
    destruct (class_members e cls (l1 ++ l2)) as [m'|] eqn:Em; [|done].
    simpl in Hm. injection Hm as <-.
    destruct (IH m' eq_refl) as (m1 & m2 & H1 & H2 & ->).
    simpl. rewrite Ec. simpl. rewrite H1. simpl.
    destruct (decide (c = cls)); eexists _, m2; done.
Qed.

Lemma symmetry_ok_prefix st sid w pre rest :
  ~ In sid pre -> symmetry_ok st sid w (pre ++ sid :: rest) = true ->
  forall prev pw, In prev pre -> dget prev (sol st) = Some pw ->
    str_ltb w pw = false.
Proof.
  induction pre as [|x pre IH]; intros Hsid Hok prev pw Hprev Hpw;
    [destruct Hprev|].
  simpl in Hok. destruct (decide (x = sid)) as [->|Hne].
  { destruct Hsid. by left. }
  assert (Hrest : symmetry_ok st sid w (pre ++ sid :: rest) = true /\
                  forall xw, dget x (sol st) = Some xw -> str_ltb w xw = false).
  { destruct (dget x (sol st)) as [xw|]; [|done].
    destruct (str_ltb w xw) eqn:E; [done|]. split; [done|]. by intros ? [= <-]. }
  destruct Hrest as [Hok' Hx]. destruct Hprev as [->|Hprev]; [by apply Hx|].
  apply (IH (fun H => Hsid (or_intror H)) Hok' prev pw Hprev Hpw).
Qed.

Lemma can_place_checked st sid w placed rest :
  ids e = placed ++ sid :: rest ->
  can_place e st sid w = Ok true ->
  forall prev pw, In prev placed ->
    dget prev (sid_to_class e) = dget sid (sid_to_class e) ->
    dget prev (sol st) = Some pw -> str_ltb w pw = false.
Proof.
  intros Hids Hcan prev pw Hprev Hcls Hpw. unfold can_place in Hcan.
  destruct (dget sid (by_id e)) as [s|]; [|discriminate]. simpl in Hcan.
  destruct (dget sid (sid_to_class e)) as [cls|] eqn:Ecls; [|discriminate].
  simpl in Hcan.
  destruct (class_members e cls (ids e)) as [members|] eqn:Em; [|discriminate].
  simpl in Hcan.
  destruct (symmetry_ok st sid w members) eqn:Hok; [|discriminate].
  rewrite Hids in Em.
  apply class_members_app in Em as (m1 & m2 & Hm1 & Hm2 & ->).
  simpl in Hm2. rewrite Ecls in Hm2. simpl in Hm2.
  destruct (class_members e cls rest) as [m2'|]; [|discriminate].
  simpl in Hm2. rewrite decide_True in Hm2 by done. injection Hm2 as <-.
  assert (Hfresh : ~ In sid placed).
  { pose proof ids_NoDup as Hnd. rewrite Hids in Hnd.
    apply NoDup_app in Hnd as (_ & Hdisj & _).
    intros Hin. apply (Hdisj sid); [by apply list_elem_of_In | by left]. }
  assert (Hout : ~ In sid m1).
  { intros Hin. apply Hfresh. by apply (class_members_In cls placed m1 sid Hm1). }
  apply (symmetry_ok_prefix st sid w m1 m2' Hout Hok prev pw); [|done].
  apply (class_members_In cls placed m1 prev Hm1). split; [done | congruence].
Qed.

Lemma sorted_core l l' : l' = l -> sorted_sol l -> sorted_sol l'.
Proof. by intros ->. Qed.

Lemma sorted_place placed sid rest l w :
  ids e = placed ++ sid :: rest -> dkeys l = placed ->
  sorted_sol l ->
  (forall prev pw, In prev placed ->
     dget prev (sid_to_class e) = dget sid (sid_to_class e) ->
     dget prev l = Some pw -> str_ltb w pw = false) ->
  sorted_sol (l ++ [(sid, w)]).
Proof.
  intros Hids Hkeys Hs Hcheck i j a b wa wb Hij Hi Hj Hcls Ha Hb.
  pose proof ids_NoDup as Hnd.
  assert (Hn : ids e !! length placed = Some sid).
  { rewrite Hids. by rewrite list_lookup_middle. }
  assert (Hfresh : ~ In sid placed).
  { rewrite Hids in Hnd. apply NoDup_app in Hnd as (_ & Hdisj & _).
    intros Hin. apply (Hdisj sid); [by apply list_elem_of_In | by left]. }
  assert (Hnone : dget sid l = None).
  { apply dget_None_keys. by rewrite Hkeys. }
  assert (Hidx : forall k x, ids e !! k = Some x -> In x placed ->
                             (k < length placed)%nat).
  { intros k x Hk Hx. apply list_elem_of_In, list_elem_of_lookup in Hx as [k' Hk'].
    assert (Hk2 : ids e !! k' = Some x).
    { rewrite Hids. by rewrite lookup_app_l by (by eapply lookup_lt_Some). }
    rewrite (NoDup_lookup _ _ _ _ Hnd Hk Hk2). by eapply lookup_lt_Some. }
  rewrite dget_app in Ha, Hb. simpl in Ha, Hb.
  destruct (dget b l) as [wb'|] eqn:Eb.
  - injection Hb as ->.
    assert (Hjn : (j < length placed)%nat).
    { apply (Hidx j b Hj). rewrite <- Hkeys. by eapply dget_Some_keys. }
    destruct (dget a l) as [wa'|] eqn:Ea.
    + injection Ha as ->. by apply (Hs i j a b).
    + destruct (decide (a = sid)) as [->|]; [|done].
      pose proof (NoDup_lookup _ _ _ _ Hnd Hi Hn). lia.
  - destruct (decide (b = sid)) as [->|]; [|done]. injection Hb as <-.
    pose proof (NoDup_lookup _ _ _ _ Hnd Hj Hn) as ->.
    assert (Hap : In a placed).
    { rewrite Hids, lookup_app_l in Hi by done.
      by eapply list_elem_of_In, list_elem_of_lookup_2. }
    destruct (dget a l) as [wa'|] eqn:Ea.
    + injection Ha as ->. by apply (Hcheck a).
    + apply dget_None_keys in Ea. by rewrite Hkeys in Ea.
Qed.

Lemma record_goal_sorted st st' :
  sorted_sol (sol st) -> Forall sorted_sol (solutions st) ->
  record_goal e st = Ok st' -> Forall sorted_sol (solutions st').
Proof.
  intros Hs HS Hrun.
  apply record_goal_solutions in Hrun as [-> | ->]; [done|].
  apply Forall_app. split; [done|]. by apply Forall_singleton.
Qed.

Opaque past_deadline maybe_ping enough can_place place unplace record_goal.

Section Loop.
Variables (placed : list str) (sid : str) (rest : list str)
          (words : list str) (next : state -> result state).
Hypothesis ids_split : ids e = placed ++ sid :: rest.
Hypothesis cand_sid : dget sid (cand e) = Some words.
Hypothesis next_searched : forall st st',
  dkeys (sol st) = placed ++ [sid] -> Inv st -> from_cand (sol st) ->
  next st = Ok st' -> searched st st'.
Hypothesis next_sorted : forall st st',
  dkeys (sol st) = placed ++ [sid] -> Inv st -> from_cand (sol st) ->
  sorted_sol (sol st) -> Forall sorted_sol (solutions st) ->
  next st = Ok st' -> Forall sorted_sol (solutions st').

Lemma try_words_sorted ws : forall st st',
  (forall w, In w ws -> In w words) ->
  dkeys (sol st) = placed -> Inv st -> from_cand (sol st) ->
  sorted_sol (sol st) -> Forall sorted_sol (solutions st) ->
  try_words e next sid ws st = Ok st' -> Forall sorted_sol (solutions st').
Proof.
  assert (sid_fresh : ~ In sid placed).
  { pose proof ids_NoDup as Hnd. rewrite ids_split in Hnd.
    apply NoDup_app in Hnd as (_ & Hdisj & _).
    intros Hin. apply (Hdisj sid); [by apply list_elem_of_In | by left]. }
  induction ws as [|w ws IH]; intros st st' Hsub Hkeys HI Hcand Hs HS Hrun;
    simpl in Hrun.
  { by injection Hrun as <-. }
  pose proof (past_deadline_core e st) as Hc0.
  destruct (past_deadline e st) as [late st0]. simpl in Hc0, Hrun.
  assert (HI0 : Inv st0) by (destruct Hc0; by apply (Inv_ext e phrase st)).
  assert (Hs0 : sol st0 = sol st) by apply Hc0.
  assert (Hn0 : solutions st0 = solutions st) by apply Hc0.
  assert (Hcand0 : from_cand (sol st0)) by (by rewrite Hs0).
  destruct late; [injection Hrun as <-; by rewrite Hn0|].
  destruct (can_place e st0 sid w) as [[|]|] eqn:Ecan; simpl in Hrun;
    try discriminate; cycle 1.
  { apply (IH st0 st');
      [intros w' Hw'; apply Hsub; by right | congruence | done | done
       | by rewrite Hs0 | by rewrite Hn0 | done]. }
  destruct (place e st0 sid w) as [st1|] eqn:Eplace; [|discriminate].
  simpl in Hrun.
  destruct (next st1) as [st2|] eqn:Enext; [|discriminate]. simpl in Hrun.
  destruct (unplace e st2 sid w) as [st3|] eqn:Eun; [|discriminate].
  simpl in Hrun.
  assert (Hfree : dget sid (sol st0) = None).
  { apply dget_None_keys. rewrite Hs0, Hkeys. done. }
  destruct (place_inv e phrase cells_NoDup st0 sid w st1 HI0 Hfree Ecan Eplace)
    as (HI1 & Hs1 & Hn1 & _).
  assert (Hk1 : dkeys (sol st1) = placed ++ [sid]).
  { rewrite Hs1. unfold dkeys. rewrite map_app. simpl.
    unfold dkeys in Hkeys. by rewrite Hs0, Hkeys. }
  assert (Hc1 : from_cand (sol st1)).
  { intros sid' w' Hin. rewrite Hs1 in Hin.
    apply in_app_iff in Hin as [Hin|[[= <- <-]|[]]].
    - by apply Hcand0.
    - exists words. split; [done|]. apply Hsub. by left. }
  assert (Hsorted1 : sorted_sol (sol st1)).
  { rewrite Hs1. apply (sorted_place placed sid rest); try done.
    - by rewrite Hs0.
    - by rewrite Hs0.
    - by apply (can_place_checked st0 sid w placed rest). }
  assert (HS1 : Forall sorted_sol (solutions st1)) by (by rewrite Hn1, Hn0).
  pose proof (next_searched st1 st2 Hk1 HI1 Hc1 Enext)
    as (HI2 & Hs2 & new & Hn2 & Hg2).
  pose proof (next_sorted st1 st2 Hk1 HI1 Hc1 Hsorted1 HS1 Enext) as HS2.
  apply can_place_spec in Ecan as (s & Hslot & _).
  assert (Hin2 : In (sid, w) (sol st2)).
  { rewrite Hs2, Hs1. apply in_app_iff. right. by left. }
  destruct (unplace_fun e phrase cells_NoDup st2 sid w s st3 HI2 Hin2 Hslot Eun)
    as (HI3 & Hs3 & Hn3 & _).
  assert (Hsol3 : sol st3 = sol st0).
  { rewrite Hs3, Hs2, Hs1. by apply ddel_app_fresh. }
  assert (HS3 : Forall sorted_sol (solutions st3)) by (by rewrite Hn3).
  destruct (enough e st3); [by injection Hrun as <-|].
  pose proof (past_deadline_core e st3) as Hc3.
  destruct (past_deadline e st3) as [late3 st4]. simpl in Hc3, Hrun.
  assert (HI4 : Inv st4) by (destruct Hc3; by apply (Inv_ext e phrase st3)).
  assert (Hs4 : sol st4 = sol st3) by apply Hc3.
  assert (Hn4 : solutions st4 = solutions st3) by apply Hc3.
  destruct late3; [injection Hrun as <-; by rewrite Hn4|].
  pose proof (maybe_ping_core e st4) as Hc4.
  assert (HI5 : Inv (maybe_ping e st4))
    by (destruct Hc4; by apply (Inv_ext e phrase st4)).
  assert (Hs5 : sol (maybe_ping e st4) = sol st4) by apply Hc4.
  assert (Hn5 : solutions (maybe_ping e st4) = solutions st4) by apply Hc4.
  apply (IH (maybe_ping e st4) st');
    [intros w' Hw'; apply Hsub; by right | congruence | done
     | by rewrite Hs5, Hs4, Hsol3 | by rewrite Hs5, Hs4, Hsol3, Hs0
     | by rewrite Hn5, Hn4 | done].
Qed.
End Loop.

Lemma dfs_sorted rest : forall placed st st',
  ids e = placed ++ rest ->
  dkeys (sol st) = placed -> Inv st -> from_cand (sol st) ->
  sorted_sol (sol st) -> Forall sorted_sol (solutions st) ->
  dfs e rest st = Ok st' -> Forall sorted_sol (solutions st').
Proof.
  induction rest as [|sid rest IH];
    intros placed st st' Hids Hkeys HI Hcand Hs HS Hrun; simpl in Hrun;
    pose proof (past_deadline_core e st) as Hc0;
    destruct (past_deadline e st) as [late st0]; simpl in Hc0, Hrun;
    assert (HI0 : Inv st0) by (destruct Hc0; by apply (Inv_ext e phrase st));
    assert (Hs0 : sol st0 = sol st) by apply Hc0;
    assert (Hn0 : solutions st0 = solutions st) by apply Hc0;
    (destruct late; [injection Hrun as <-; by rewrite Hn0|]);
    (destruct (enough e st0); [injection Hrun as <-; by rewrite Hn0|]).
  - apply (record_goal_sorted st0 st'); [by rewrite Hs0 | by rewrite Hn0 | done].
  - destruct (dget sid (cand e)) as [ws|] eqn:Ews; [|discriminate].
    simpl in Hrun.
    assert (Hnext1 : forall st1 st1',
      dkeys (sol st1) = placed ++ [sid] -> Inv st1 -> from_cand (sol st1) ->
      dfs e rest st1 = Ok st1' -> searched st1 st1').
    { intros st1 st1' Hk1 HI1 Hc1 Hrun1.
      apply (dfs_searched e phrase cells_NoDup ids_NoDup rest (placed ++ [sid]));
        try done. by rewrite <- app_assoc. }
    assert (Hnext2 : forall st1 st1',
      dkeys (sol st1) = placed ++ [sid] -> Inv st1 -> from_cand (sol st1) ->
      sorted_sol (sol st1) -> Forall sorted_sol (solutions st1) ->
      dfs e rest st1 = Ok st1' -> Forall sorted_sol (solutions st1')).
    { intros st1 st1' Hk1 HI1 Hc1 Hs1 HS1 Hrun1.
      apply (IH (placed ++ [sid]) st1); try done. by rewrite <- app_assoc. }
    apply (try_words_sorted placed sid rest ws (dfs e rest) Hids Ews
             Hnext1 Hnext2 ws st0 st');
      [done | congruence | done | by rewrite Hs0 | by rewrite Hs0
       | by rewrite Hn0 | done].
Qed.

Transparent past_deadline maybe_ping enough can_place place unplace record_goal.
End Sorted.

(** The symmetry break of [can_place]: in a returned solution, of two
    slots of the same equivalence class the one that is filled later never
    has the smaller word. *)
Theorem solutions_class_sorted
  (slots : list slot) (intersections : list intersection) (phrase_letters : str)
  (cand : dict str (list str)) (per_grid_time max_solutions : Z)
  (quiet : bool) (clock : nat -> Q) (sols : list (dict str str)) :
  NoDup (map slot_id slots) ->
  (forall s, In s slots -> NoDup (cells s)) ->
  find_solutions_for_grid slots intersections phrase_letters cand
    per_grid_time max_solutions quiet clock = Ok sols ->
  exists eq_classes sid_to_class ordered,
    slot_equivalence_classes slots intersections = Ok (eq_classes, sid_to_class) /\
    order_slots slots cand intersections = Ok ordered /\
    forall sol, In sol sols ->
    forall i j a b wa wb, (i < j)%nat ->
      ordered !! i = Some a -> ordered !! j = Some b ->
      dget (slot_id a) sid_to_class = dget (slot_id b) sid_to_class ->
      dget (slot_id a) sol = Some wa -> dget (slot_id b) sol = Some wb ->
      str_ltb wb wa = false.
Proof.
  intros Hids Hcells Hrun.
  apply find_solutions_unfold in Hrun
    as (eqc & stc & ordered & st' & Heqc & Hord & Hdfs & ->).
  exists eqc, stc, ordered. split; [done|]. split; [done|].
  set (e := search_env slots intersections cand per_grid_time max_solutions
                       quiet clock stc ordered) in *.
  apply order_slots_perm in Hord.
  assert (Hperm : Permutation (ids e) (map slot_id slots))
    by (by apply Permutation_map).
  assert (Hnd : NoDup (ids e)) by (by rewrite Hperm).
  assert (Hcn : forall sid s, dget sid (by_id e) = Some s -> NoDup (cells s)).
  { intros sid s Hs. apply make_by_id_In in Hs as [Hin _]. by apply Hcells. }
  assert (HS : Forall (class_sorted (sid_to_class e) (ids e)) (solutions st')).
  { apply (dfs_sorted e phrase_letters Hcn Hnd (ids e) []
             (search_start phrase_letters clock) st');
      [done | done | by apply Inv_initial | intros sid w []
       | intros i j a b wa wb _ _ _ _ [=] | constructor | done]. }
  intros sol Hsol i j a b wa wb Hij Hi Hj Hcls Ha Hb.
  rewrite Forall_forall in HS.
  apply (HS sol (proj2 (list_elem_of_In _ _) Hsol) i j (slot_id a) (slot_id b));
    try done; simpl; rewrite list_lookup_fmap.
  - by rewrite Hi.
  - by rewrite Hj.
Qed.

Lemma ladder_ids : NoDup (map slot_id (fst ladder)).
Proof. apply (bool_decide_unpack _). by vm_compute. Qed.

Lemma ladder_cells s : In s (fst ladder) -> NoDup (cells s).
Proof.
  intros Hs. apply list_elem_of_In in Hs. vm_compute in Hs.
  repeat (apply elem_of_cons in Hs as [->|Hs]);
    try (by apply not_elem_of_nil in Hs);
    apply (bool_decide_unpack _); by vm_compute.
Qed.

Lemma ladder_run :
  find_solutions_for_grid (fst ladder) (snd ladder) ladder_phrase ladder_cand
    0 5 true still = Ok [ladder_fill].
Proof. by vm_compute. Qed.

Lemma ladder_class_run :
  exists eqc, slot_equivalence_classes (fst ladder) (snd ladder)
              = Ok (eqc, ladder_classes).
Proof. eexists. by vm_compute. Qed.

Lemma ladder_order_run :
  order_slots (fst ladder) ladder_cand (snd ladder) = Ok (fst ladder).
Proof. by vm_compute. Qed.

(** On the ladder the two down slots are one class, the slot of column 0 is
    searched before the slot of column 3, and the one solution that is
    returned has the smaller word ACADA in column 0: the fill with the two
    words the other way round is not returned.  The three across slots are
    one class too, with the same word. *)
Lemma solutions_class_sorted_witness :
  exists (sid_to_class : dict str nat) (ordered : list slot) (a b c : slot),
    find_solutions_for_grid (fst ladder) (snd ladder) ladder_phrase ladder_cand
      0 5 true still = Ok [ladder_fill] /\
    ordered !! 2%nat = Some c /\
    ordered !! 3%nat = Some a /\ ordered !! 4%nat = Some b /\
    dget (slot_id a) sid_to_class = Some 1%nat /\
    dget (slot_id b) sid_to_class = Some 1%nat /\
    dget (slot_id c) sid_to_class = Some 0%nat /\
    dget (slot_id a) ladder_fill = Some (lit "ACADA") /\
    dget (slot_id b) ladder_fill = Some (lit "AXAYA") /\
    str_ltb (lit "AXAYA") (lit "ACADA") = false /\
    str_ltb (lit "ACADA") (lit "AXAYA") = true.
Proof.
  destruct (solutions_class_sorted (fst ladder) (snd ladder) ladder_phrase
              ladder_cand 0 5 true still [ladder_fill] ladder_ids ladder_cells
              ladder_run) as (eqc & stc & ordered & Hcls & Hord & Hsorted).
  destruct ladder_class_run as [eqc' Hcls'].
  rewrite Hcls' in Hcls. injection Hcls as <- <-.
  rewrite ladder_order_run in Hord. injection Hord as <-.
  exists ladder_classes, (fst ladder), (down_slot (0, (0, 5))),
    (down_slot (3, (0, 5))), (across_slot 4 (4, 4)).
  split; [exact ladder_run|].
  split; [reflexivity|]. split; [reflexivity|]. split; [reflexivity|].
  split; [reflexivity|]. split; [reflexivity|]. split; [reflexivity|].
  split; [reflexivity|]. split; [reflexivity|].
  split; [|reflexivity].
  apply (Hsorted ladder_fill (or_introl eq_refl) 3%nat 4%nat
           (down_slot (0, (0, 5))) (down_slot (3, (0, 5)))
           (lit "ACADA") (lit "AXAYA")); [lia | reflexivity..].
Defined.

End SymmetryFacts.

(** ** Candidates and the order of the slots *)
Module CandidateFacts.
Import PyFacts SolverFacts SolverInvariant SolverTheorems SolverTotal.
Import MainFacts RankFacts.

(** *** [Counter] and the budget test *)
Lemma Counter_from_keys (p : str) : forall (m : gmap N Z) ch,
  is_Some (fold_left (fun m ch => counter_add ch 1 m) p m !! ch) <->
  is_Some (m !! ch) \/ In ch p.
Proof.
  induction p as [|x p IH]; intros m ch; simpl; [tauto|].
  rewrite IH. unfold counter_add.
  destruct (decide (x = ch)) as [->|Hne].
  - rewrite lookup_insert_eq. split; [auto | intros _; left; by eexists].
  - rewrite lookup_insert_ne by done. split; [tauto|].
    intros [H|[H|H]]; auto. done.
Qed.

Lemma Counter_lookup (w : str) ch v :
  Counter w !! ch = Some v <->
  In ch w /\ v = Z.of_nat (count_occ N.eq_dec w ch).
Proof.
  pose proof (Counter_from_keys w ∅ ch) as Hkeys. fold (Counter w) in Hkeys.
  pose proof (counter_get_Counter w ch) as Hget. unfold counter_get in Hget.
  split.
  - intros Hv. rewrite Hv in Hget. simpl in Hget. split; [|done].
    destruct (proj1 Hkeys) as [[? H]|H]; [by eexists | | done].
    by rewrite lookup_empty in H.
  - intros [Hin ->]. destruct (proj2 Hkeys (or_intror Hin)) as [v Hv].
    rewrite Hv in Hget. simpl in Hget. by rewrite Hv, Hget.
Qed.

Lemma fits_budget_spec (w : str) (budget : gmap char Z) :
  fits_budget w budget = true <-> letters_within w budget.
Proof.
  unfold fits_budget, letters_within. rewrite forallb_forall. split.
  - intros Hall ch Hin.
    specialize (Hall (ch, Z.of_nat (count_occ N.eq_dec w ch))). simpl in Hall.
    apply Z.leb_le, Hall, list_elem_of_In, elem_of_map_to_list.
    by apply Counter_lookup.
  - intros Hall [ch v] Hin.
    apply list_elem_of_In, elem_of_map_to_list, Counter_lookup in Hin
      as [Hin ->].
    simpl. apply Z.leb_le. by apply Hall.
Qed.

Lemma dict_of_list_keys {K V} `{EqDecision K} (l : list (K * V)) k :
  In k (dkeys (dict_of_list l)) <-> In k (map fst l).
Proof.
  unfold dict_of_list.
  assert (Hgen : forall d0 : dict K V,
    In k (dkeys (fold_left (fun d kv => dset (fst kv) (snd kv) d) l d0)) <->
    In k (dkeys d0) \/ In k (map fst l)).
  { induction l as [|[k1 v1] l IH]; intros d0; simpl; [tauto|].
    rewrite IH, dkeys_dset. intuition congruence. }
  rewrite Hgen. simpl. tauto.
Qed.

(** [prefilter_candidates] gives every slot id a list, and gives nothing
    else one.  The list of an id is taken from the pool of a slot with that
    id, the words of the length of the slot: it keeps the order of the pool,
    and has exactly the words of the pool that ask for no letter more often
    than the budget has it.  With the letters of a phrase as the budget,
    these are the words whose letters can be taken out of the phrase. *)
Theorem prefilter_candidates_spec (words_by_len : dict nat (list str))
  (slots : list slot) (budget : gmap char Z) :
  (forall sid, In sid (dkeys (prefilter_candidates words_by_len slots budget))
               <-> In sid (map slot_id slots)) /\
  (forall sid ws,
     dget sid (prefilter_candidates words_by_len slots budget) = Some ws ->
     exists s, In s slots /\ slot_id s = sid /\
       sublist ws (pool_of words_by_len s) /\
       forall w, In w ws <->
                 In w (pool_of words_by_len s) /\ letters_within w budget) /\
  (forall (phrase w : str),
     letters_within w (Counter phrase) <->
     forall ch, (count_occ N.eq_dec w ch <= count_occ N.eq_dec phrase ch)%nat).
Proof.
  split; [|split].
  - intros sid. rewrite prefilter_candidates_dict, dict_of_list_keys.
    by rewrite map_map.
  - intros sid ws Hget. rewrite prefilter_candidates_dict in Hget.
    apply dict_of_list_In, in_map_iff in Hget as (s & [= <- <-] & Hs).
    exists s. split; [done|]. split; [done|]. split.
    + apply sublist_filter.
    + intros w. rewrite <- list_elem_of_In, list_elem_of_filter.
      rewrite fits_budget_spec, list_elem_of_In. unfold pool_of. tauto.
  - intros phrase w. unfold letters_within. split.
    + intros Hall ch.
      destruct (in_dec N.eq_dec ch w) as [Hin|Hout].
      * specialize (Hall ch Hin). rewrite counter_get_Counter in Hall. lia.
      * apply (count_occ_not_In N.eq_dec) in Hout. lia.
    + intros Hall ch _. rewrite counter_get_Counter. specialize (Hall ch). lia.
Qed.

(** *** The crossings counted by [order_slots] *)
Lemma inter_counts_from (inter : list intersection) sid : forall d : dict str Z,
  default 0 (dget sid
    (fold_left
       (fun d x =>
          let d := dset (slot_a x) (default 0 (dget (slot_a x) d) + 1) d in
          dset (slot_b x) (default 0 (dget (slot_b x) d) + 1) d)
       inter d))
  = default 0 (dget sid d) + Z.of_nat (crossing_count inter sid).
Proof.
  induction inter as [|x inter IH]; intros d; simpl.
  - unfold crossing_count. simpl. lia.
  - rewrite IH. unfold crossing_count. rewrite !filter_cons.
    rewrite !dget_dset.
    destruct (decide (slot_a x = sid)) as [Ha|Ha];
      destruct (decide (slot_b x = sid)) as [Hb|Hb];
      repeat (case_decide; try congruence); simpl; subst;
      rewrite ?dget_dset; repeat (case_decide; try congruence); simpl; lia.
Qed.

Lemma inter_counts_spec inter sid :
  default 0 (dget sid (inter_counts inter))
  = Z.of_nat (crossing_count inter sid).
Proof. unfold inter_counts. rewrite inter_counts_from. simpl. lia. Qed.

(** *** The keys *)
Lemma slot_keys_Ok cand inter slots keyed :
  slot_keys cand (inter_counts inter) slots = Ok keyed ->
  keyed = map (fun s => (search_key cand inter s, s)) slots /\
  forall s, In s slots -> is_Some (dget (slot_id s) cand).
Proof.
  revert keyed. induction slots as [|s slots IH]; intros keyed Hrun;
    simpl in Hrun.
  - injection Hrun as <-. split; [done|]. by intros s [].
  - destruct (dget (slot_id s) cand) as [c|] eqn:Ec; [|discriminate].
    simpl in Hrun.
    destruct (slot_keys cand _ slots) as [k|]; [|discriminate].
    simpl in Hrun. injection Hrun as <-.
    destruct (IH k eq_refl) as [-> Hall]. split.
    + simpl. f_equal. unfold search_key, candidate_count.
      by rewrite Ec, inter_counts_spec.
    + intros s' [<-|Hs']; [by eexists | by apply Hall].
Qed.

Lemma slot_keys_Raise cand ic slots e :
  slot_keys cand ic slots = Raise e ->
  e = KeyError /\ exists s, In s slots /\ dget (slot_id s) cand = None.
Proof.
  induction slots as [|s slots IH]; intros Hrun; simpl in Hrun; [discriminate|].
  destruct (dget (slot_id s) cand) as [c|] eqn:Ec.
  - simpl in Hrun.
    destruct (slot_keys cand ic slots) as [k|e'] eqn:Ek; [discriminate|].
    simpl in Hrun. injection Hrun as ->.
    destruct (IH eq_refl) as [-> (s' & Hs' & Hnone)].
    split; [done|]. exists s'. split; [by right | done].
  - simpl in Hrun. injection Hrun as <-. split; [done|]. exists s.
    split; [by left | done].
Qed.

Lemma slot_key_le (a b : slot_key) :
  le_of slot_key_compare a b = true <->
  (a.1.1 < b.1.1)%nat \/
  (a.1.1 = b.1.1 /\ (a.1.2 < b.1.2 \/ (a.1.2 = b.1.2 /\ (a.2 <= b.2)%nat))).
Proof.
  destruct a as [[n1 z1] l1], b as [[n2 z2] l2].
  unfold le_of, slot_key_compare, pair_compare. simpl.
  destruct (Nat.compare_spec n1 n2); destruct (Z.compare_spec z1 z2);
    destruct (Nat.compare_spec l1 l2); split; try done; try lia;
    intros _; lia.
Qed.

Lemma slot_key_total (a b : slot_key) :
  le_of slot_key_compare a b = false -> le_of slot_key_compare b a = true.
Proof.
  intros Hab. apply slot_key_le.
  destruct (le_of slot_key_compare a b) eqn:E; [done|].
  assert (Hn : ~ le_of slot_key_compare a b = true) by congruence.
  rewrite slot_key_le in Hn. lia.
Qed.

Lemma slot_key_trans (a b c : slot_key) :
  le_of slot_key_compare a b = true -> le_of slot_key_compare b c = true ->
  le_of slot_key_compare a c = true.
Proof. rewrite !slot_key_le. lia. Qed.

(** *** A stable sort: what it keeps *)
Section Stable.
Context {A : Type} (leb : A -> A -> bool) (P : A -> Prop)
        `{forall x, Decision (P x)}.

Lemma insert_sorted_filter x l :
  (forall y, In y l -> P x -> P y -> leb x y = true) ->
  filter P (insert_sorted leb x l) = filter P (x :: l).
Proof.
  induction l as [|y l IH]; intros Hle; simpl; [done|].
  destruct (leb x y) eqn:Hxy; [done|].
  rewrite filter_cons, IH by (intros z Hz; apply Hle; by right).
  rewrite !filter_cons.
  destruct (decide (P x)) as [Hx|Hx]; [|done].
  destruct (decide (P y)) as [Hy|Hy]; [|done].
  rewrite Hle in Hxy; [done | by left | done | done].
Qed.

Lemma sorted_stable l :
  (forall x y, In x l -> In y l -> P x -> P y -> leb x y = true) ->
  filter P (sorted leb l) = filter P l.
Proof.
  induction l as [|x l IH]; intros Hle; [done|].
  change (sorted leb (x :: l)) with (insert_sorted leb x (sorted leb l)).
  rewrite insert_sorted_filter.
  - rewrite !filter_cons, IH; [done|].
    intros a b Ha Hb. apply Hle; by right.
  - intros y Hy. apply sorted_In in Hy. apply Hle; [by left | by right].
Qed.
End Stable.

Lemma filter_map_comm {A B} (f : A -> B) (Q : B -> Prop)
  `{forall y, Decision (Q y)} (l : list A) :
  filter Q (map f l) = map f (filter (fun x => Q (f x)) l).
Proof.
  induction l as [|x l IH]; [done|]. simpl. rewrite !filter_cons, IH.
  by destruct (decide (Q (f x))).
Qed.

Lemma ordered_lookup {A} (leb : A -> A -> bool) (l : list A) :
  ordered leb l ->
  forall i j a b, (i < j)%nat -> l !! i = Some a -> l !! j = Some b ->
    leb a b = true.
Proof.
  induction 1 as [|x l Hx Hl IH]; intros i j a b Hij Hi Hj; [done|].
  destruct j as [|j]; [lia|]. simpl in Hj.
  destruct i as [|i]; simpl in Hi.
  - injection Hi as <-. rewrite Forall_forall in Hx. apply Hx.
    by eapply list_elem_of_lookup_2.
  - apply (IH i j); [lia | done | done].
Qed.

(** [order_slots] raises [KeyError], and nothing else, exactly when some
    slot has no entry in [cand].  Otherwise it returns the slots in another
    order: a slot with fewer candidates comes first; of two with as many
    candidates, the one with more crossings; of two with as many of both, the
    shorter one; and slots that agree in all three stay in the order they
    had. *)
Theorem order_slots_sorted (slots : list slot) (cand : dict str (list str))
  (intersections : list intersection) :
  ((exists e, order_slots slots cand intersections = Raise e) <->
   exists s, In s slots /\ dget (slot_id s) cand = None) /\
  (forall e, order_slots slots cand intersections = Raise e -> e = KeyError) /\
  forall ordered, order_slots slots cand intersections = Ok ordered ->
    Permutation ordered slots /\
    (forall i j a b, (i < j)%nat ->
       ordered !! i = Some a -> ordered !! j = Some b ->
       may_precede cand intersections a b) /\
    forall k,
      filter (fun s => search_key cand intersections s = k) ordered
      = filter (fun s => search_key cand intersections s = k) slots.
Proof.
  unfold order_slots.
  destruct (slot_keys cand (inter_counts intersections) slots)
    as [keyed|e] eqn:Ek; simpl.
  - apply slot_keys_Ok in Ek as [-> Hall]. split; [|split].
    + split; [by intros [e [=]]|]. intros (s & Hs & Hnone).
      destruct (Hall s Hs) as [c Hc]. congruence.
    + by intros e [=].
    + intros ordered [= <-].
      set (keyed := map (fun s => (search_key cand intersections s, s)) slots).
      set (leb := fun a b : slot_key * slot =>
                    le_of slot_key_compare (fst a) (fst b)).
      assert (Hform : forall ks, In ks (sorted leb keyed) ->
                fst ks = search_key cand intersections (snd ks)).
      { intros ks Hks. apply sorted_In in Hks.
        apply in_map_iff in Hks as (s & <- & _). done. }
      split; [|split].
      * rewrite (sorted_perm leb keyed). unfold keyed.
        rewrite map_map. simpl. by rewrite map_id.
      * intros i j a b Hij Hi Hj.
        change (map snd (sorted leb keyed)) with (snd <$> sorted leb keyed)
          in Hi, Hj.
        rewrite list_lookup_fmap in Hi. rewrite list_lookup_fmap in Hj.
        destruct (sorted leb keyed !! i) as [ka|] eqn:Ea; [|done].
        destruct (sorted leb keyed !! j) as [kb|] eqn:Eb; [|done].
        simpl in Hi, Hj. injection Hi as <-. injection Hj as <-.
        assert (Hord : ordered leb (sorted leb keyed)).
        { apply sorted_ordered.
          - intros x y. apply slot_key_total.
          - intros x y z. apply slot_key_trans. }
        pose proof (ordered_lookup leb _ Hord i j ka kb Hij Ea Eb) as Hle.
        unfold leb in Hle. apply slot_key_le in Hle.
        rewrite (Hform ka), (Hform kb) in Hle
          by (apply list_elem_of_In; by eapply list_elem_of_lookup_2).
        unfold search_key in Hle. simpl in Hle. unfold may_precede. lia.
      * intros k.
        rewrite filter_map_comm.
        rewrite (sorted_stable leb
                   (fun ks => search_key cand intersections (snd ks) = k)).
        -- unfold keyed.
           rewrite (filter_map_comm
                      (fun s => (search_key cand intersections s, s))
                      (fun ks => search_key cand intersections (snd ks) = k)).
           rewrite map_map. simpl. by rewrite map_id.
        -- intros x y Hx Hy Px Py. simpl in Px, Py. unfold leb.
           apply in_map_iff in Hx as (sx & <- & _).
           apply in_map_iff in Hy as (sy & <- & _). simpl in *.
           rewrite Px, Py. apply slot_key_le. lia.
  - apply slot_keys_Raise in Ek as [-> Hnone]. split; [|split].
    + split; [done | by eexists].
    + by intros e [= <-].
    + by intros ordered [=].
Qed.

End CandidateFacts.

(** ** Equivalence classes *)
Module ClassFacts.
Import PyFacts SolverFacts SolverInvariant SolverTheorems SolverTotal.
Import SolverTotalTheorems MaskFacts LayoutFacts.

Lemma slot_patterns_from_spec by_id inter (slots : list slot) :
  forall d d' : dict str pattern,
  for_each (fun s patterns =>
              touches ← touches_of by_id (slot_id s) inter;
              Ok (dset (slot_id s)
                       (orient s, slot_length s,
                        sorted (le_of touch_compare) touches)
                       patterns)) slots d = Ok d' ->
  (NoDup (dkeys d) -> NoDup (dkeys d')) /\
  (forall sid, In sid (dkeys d') <->
               In sid (dkeys d) \/ In sid (map slot_id slots)) /\
  (forall sid pat, dget sid d' = Some pat ->
     dget sid d = Some pat \/
     exists s t, In s slots /\ slot_id s = sid /\
       touches_of by_id sid inter = Ok t /\
       pat = (orient s, slot_length s, sorted (le_of touch_compare) t)).
Proof.
  induction slots as [|s slots IH]; intros d d' Hrun; cbn [for_each] in Hrun.
  - injection Hrun as <-. split; [done|]. split; [|by left].
    intros sid. simpl. tauto.
  - destruct (touches_of by_id (slot_id s) inter) as [t|] eqn:Et;
      [|by simpl in Hrun].
    rewrite bind_ret in Hrun.
    apply IH in Hrun as (Hnd & Hkeys & Hget). split; [|split].
    + intros Hd. by apply Hnd, dset_NoDup.
    + intros sid. rewrite Hkeys, dkeys_dset. simpl. intuition congruence.
    + intros sid pat Hpat. apply Hget in Hpat as [Hpat|(s' & t' & Hs' & H')].
      * rewrite dget_dset in Hpat.
        destruct (decide (sid = slot_id s)) as [->|Hne]; [|by left].
        injection Hpat as <-. right. exists s, t. split; [by left | done].
      * right. exists s', t'. split; [by right | done].
Qed.

Lemma groups_NoDup {A K V} `{EqDecision K} (key : A -> K) (val : A -> V)
  (l : list A) :
  NoDup (dkeys (fold_left (fun g a => dappend (key a) (val a) g) l [])).
Proof.
  apply (fold_left_inv (fun g : dict K (list V) => NoDup (dkeys g)));
    [|constructor].
  intros a g _ Hg. unfold dappend.
  destruct (dget (key a) g); by apply dset_NoDup.
Qed.

Lemma number_classes_lookup classes : forall i (d : dict str nat) sid c,
  dget sid (number_classes i classes d) = Some c ->
  (exists k pat ids, classes !! k = Some (pat, ids) /\ In sid ids /\
                     c = (i + k)%nat) \/
  dget sid d = Some c.
Proof.
  induction classes as [|[pat ids] classes IH]; intros i d sid c Hget;
    simpl in Hget; [by right|].
  apply IH in Hget as [(k & pat' & ids' & Hk & Hin & ->)|Hget].
  - left. exists (S k), pat', ids'. split; [done|]. split; [done | lia].
  - assert (Hfold : forall (l : list str) (d0 : dict str nat),
              dget sid (fold_left (fun d sid => dset sid i d) l d0) = Some c ->
              (In sid l /\ c = i) \/ dget sid d0 = Some c).
    { induction l as [|x l IHl]; intros d0 H0; simpl in H0; [by right|].
      apply IHl in H0 as [[Hin ->]|H0]; [left; split; [by right | done]|].
      rewrite dget_dset in H0. destruct (decide (sid = x)) as [->|Hne];
        [|by right].
      injection H0 as <-. left. split; [by left | done]. }
    apply Hfold in Hget as [[Hin ->]|Hget]; [|by right].
    left. exists 0%nat, pat, ids. split; [done|]. split; [done | lia].
Qed.

(** When [slot_equivalence_classes] returns, every slot id has a pattern
    and a class number.  The pattern is made of the orientation and the
    length of the slot and of its sorted touches; the class number is the
    place in [eq_classes] of the class with this pattern, whose id list
    holds exactly the ids with this pattern.  No pattern has two classes, so
    two slot ids have the same class number exactly when they have the same
    pattern. *)
Theorem classes_by_pattern (slots : list slot)
  (intersections : list intersection)
  (eq_classes : list (pattern * list str)) (sid_to_class : dict str nat) :
  slot_equivalence_classes slots intersections = Ok (eq_classes, sid_to_class) ->
  exists patterns,
    slot_patterns slots intersections = Ok patterns /\
    (forall sid, In sid (map slot_id slots) ->
       exists pat c, dget sid patterns = Some pat /\
                     dget sid sid_to_class = Some c) /\
    (forall sid pat, dget sid patterns = Some pat ->
       has_pattern slots intersections sid pat) /\
    (forall sid c, dget sid sid_to_class = Some c ->
       exists pat ids, eq_classes !! c = Some (pat, ids) /\
                       dget sid patterns = Some pat /\ In sid ids) /\
    (forall pat ids, In (pat, ids) eq_classes ->
       forall sid, In sid ids <-> dget sid patterns = Some pat) /\
    NoDup (map fst eq_classes) /\
    (forall a b ca cb pa pb,
       dget a sid_to_class = Some ca -> dget b sid_to_class = Some cb ->
       dget a patterns = Some pa -> dget b patterns = Some pb ->
       (ca = cb <-> pa = pb)).
Proof.
  unfold slot_equivalence_classes. intros Hrun.
  destruct (slot_patterns slots intersections) as [patterns|] eqn:Hpat;
    [|by simpl in Hrun].
  rewrite bind_ret in Hrun. injection Hrun as Heqc Hstc.
  exists patterns. split; [done|].
  unfold slot_patterns in Hpat.
  apply slot_patterns_from_spec in Hpat as (Hnd & Hkeys & Hget).
  specialize (Hnd (NoDup_nil_2 : NoDup (dkeys []))).
  set (groups := fold_left (fun g sp => dappend (snd sp) (fst sp) g) patterns [])
    in *.
  assert (Hgroups : forall pat sid,
            (exists sids, dget pat groups = Some sids /\ In sid sids) <->
            dget sid patterns = Some pat).
  { intros pat sid. unfold groups.
    rewrite (fold_dappend_lookup (A:=str * pattern) snd fst patterns [] pat sid).
    split.
    - intros [(vs & [=] & _)|([sid' pat'] & Hin & <- & <-)].
      by apply In_dget_nodup.
    - intros Hp. right. exists (sid, pat). split; [by apply dget_In | done]. }
  assert (Hgnd : NoDup (dkeys groups)) by apply groups_NoDup.
  set (classes0 := map (fun g : pattern * list str =>
                          (fst g, sorted (le_of str_compare) (snd g))) groups)
    in *.
  assert (Hperm : Permutation eq_classes classes0).
  { rewrite <- Heqc. apply sorted_perm. }
  assert (Hmembers : forall pat ids, In (pat, ids) eq_classes ->
            forall sid, In sid ids <-> dget sid patterns = Some pat).
  { intros pat ids Hin sid. apply (Permutation_in _ Hperm) in Hin.
    apply in_map_iff in Hin as ([pat' sids] & [= <- <-] & Hin). simpl.
    rewrite sorted_In, <- Hgroups. split.
    - intros Hsid. exists sids. split; [by apply In_dget_nodup | done].
    - intros (sids' & Hsids' & Hsid).
      apply (In_dget_nodup _ _ _ Hgnd) in Hin. congruence. }
  assert (Hpats : NoDup (map fst eq_classes)).
  { rewrite Hperm. unfold classes0. rewrite map_map. simpl. exact Hgnd. }
  assert (Hnum : forall sid c, dget sid sid_to_class = Some c ->
            exists pat ids, eq_classes !! c = Some (pat, ids) /\
                            dget sid patterns = Some pat /\ In sid ids).
  { intros sid c Hc. rewrite <- Hstc, Heqc in Hc.
    apply number_classes_lookup in Hc
      as [(k & pat & ids & Hk & Hin & ->)|Hc]; [|done].
    exists pat, ids. split; [done|]. split; [|done].
    apply (Hmembers pat ids); [|done].
    apply list_elem_of_In. by eapply list_elem_of_lookup_2. }
  split; [|split; [|split; [|split; [|split]]]].
  - intros sid Hsid.
    assert (Hk : In sid (dkeys patterns)) by (apply Hkeys; by right).
    apply keys_dget in Hk as [pat Hp]. exists pat.
    destruct (keys_dget sid sid_to_class) as [c Hc]; [|by exists c].
    rewrite <- Hstc, Heqc. apply number_classes_keys. right.
    destruct (proj2 (Hgroups pat sid) Hp) as (sids & Hsids & Hin).
    exists pat, (sorted (le_of str_compare) sids). split; [|by apply sorted_In].
    apply (Permutation_in _ (Permutation_sym Hperm)).
    apply in_map_iff. exists (pat, sids). split; [done | by apply dget_In].
  - intros sid pat Hp. apply Hget in Hp as [Hp|Hp]; [done | exact Hp].
  - exact Hnum.
  - exact Hmembers.
  - exact Hpats.
  - intros a b ca cb pa pb Ha Hb Hpa Hpb.
    destruct (Hnum a ca Ha) as (pa' & idsa & Hka & Hpa' & _).
    destruct (Hnum b cb Hb) as (pb' & idsb & Hkb & Hpb' & _).
    assert (pa' = pa) as -> by congruence.
    assert (pb' = pb) as -> by congruence.
    split.
    + intros <-. congruence.
    + intros <-.
      apply (NoDup_lookup (map fst eq_classes) ca cb pa Hpats).
      * change (map fst eq_classes) with (fst <$> eq_classes).
        by rewrite list_lookup_fmap, Hka.
      * change (map fst eq_classes) with (fst <$> eq_classes).
        by rewrite list_lookup_fmap, Hkb.
Qed.

Lemma classes_by_pattern_witness :
  exists patterns : dict str pattern,
    slot_patterns [across0; down1] [cross01] = Ok patterns /\
    forall sid, In sid (map slot_id [across0; down1]) ->
      exists pat, dget sid patterns = Some pat.
Proof.
  edestruct (classes_by_pattern [across0; down1] [cross01])
    as (patterns & Hp & Hall & _); [vm_compute; reflexivity|].
  exists patterns. split; [exact Hp|].
  intros sid Hsid. destruct (Hall sid Hsid) as (pat & c & Hpat & _).
  by exists pat.
Defined.

End ClassFacts.

(** ** [main]: the loop over the selected layouts *)
Module MainLoopFacts.
Import PyFacts SolverFacts SolverInvariant SolverSearch SolverTheorems.
Import SolverTotal SolverTotalTheorems MaskFacts LayoutFacts LayoutTheorems.
Import MainFacts RankFacts RankTheorems SearchMore CandidateFacts DictionaryMore.

Lemma find_solutions_within slots inter phrase cand pgt maxs q clock sols :
  find_solutions_for_grid slots inter phrase cand pgt maxs q clock = Ok sols ->
  within_cap maxs sols.
Proof.
  intros Hrun.
  apply find_solutions_unfold in Hrun
    as (eqc & stc & ordered & st' & _ & _ & Hdfs & ->).
  apply dfs_cap in Hdfs; [exact Hdfs|]. unfold within_cap. simpl. lia.
Qed.

Lemma any_empty_ok cand slots :
  (forall s, In s slots -> is_Some (dget (slot_id s) cand)) ->
  exists b, any_empty cand slots = Ok b.
Proof.
  induction slots as [|s slots IH]; intros Hall; simpl; [by eexists|].
  destruct (Hall s (or_introl eq_refl)) as [c ->]. simpl.
  destruct (length c =? 0)%nat; [by eexists|].
  apply IH. intros s' Hs'. apply Hall. by right.
Qed.

Lemma any_empty_true cand slots :
  any_empty cand slots = Ok true ->
  exists s, In s slots /\ dget (slot_id s) cand = Some [].
Proof.
  induction slots as [|s slots IH]; intros Hrun; simpl in Hrun; [done|].
  destruct (dget (slot_id s) cand) as [c|] eqn:Ec; [|done]. simpl in Hrun.
  destruct c as [|w c]; simpl in Hrun.
  - exists s. split; [by left | done].
  - destruct (IH Hrun) as (s' & Hs' & Hnone). exists s'.
    split; [by right | done].
Qed.

Section Loop.
Variables (args : Args) (global_cap : Z).
Variables (phrase_letters : str) (words_by_len : dict nat (list str)).
Variable clocks : nat -> nat -> Q.
Local Abbreviation attempt_grid :=
  (attempt_grid args global_cap phrase_letters words_by_len clocks).
Local Abbreviation attempt_grids :=
  (attempt_grids args global_cap phrase_letters words_by_len clocks).
Local Abbreviation grid_max := (grid_max_solutions args global_cap).
Local Abbreviation cand_of :=
  (fun lay => prefilter_candidates words_by_len (lay_slots lay)
                (Counter phrase_letters)).

(** What one turn of the loop does to the tally. *)
Lemma attempt_grid_spec idx lay t t' stop :
  attempt_grid idx lay t = Ok (t', stop) ->
  exists sols,
    written t' = written t ++ [{| block_layout := lay; block_solutions := sols |}] /\
    total_solutions t' = total_solutions t + Z.of_nat (length sols) /\
    solved_count t' = solved_count t + (if is_empty sols then 0 else 1) /\
    within_cap (grid_max (total_solutions t)) sols /\
    ((sols = [] /\ stop = false /\
      exists s, In s (lay_slots lay) /\ dget (slot_id s) (cand_of lay) = Some [])
     \/
     (stop = flag_cap_on args &&
             (args_total_solutions_cap args <=? total_solutions t') /\
      find_solutions_for_grid (lay_slots lay) (lay_inter lay) phrase_letters
        (cand_of lay) (args_per_grid_time args)
        (grid_max (total_solutions t)) (args_quiet args) (clocks idx) = Ok sols)).
Proof.
  unfold MainLoop.attempt_grid.
  destruct (any_empty _ (lay_slots lay)) as [skip|] eqn:Eskip; [|by simpl].
  rewrite bind_ret. destruct skip.
  - intros [= <- <-]. exists []. simpl. split; [done|].
    split; [lia|]. split; [lia|]. split; [unfold within_cap; simpl; lia|].
    left. split; [done|]. split; [done|]. by apply any_empty_true.
  - destruct (find_solutions_for_grid _ _ _ _ _ _ _ _) as [sols|] eqn:Erun;
      [|by simpl].
    rewrite bind_ret. intros [= <- <-]. exists sols.
    pose proof (find_solutions_within _ _ _ _ _ _ _ _ _ Erun) as Hcap.
    destruct sols as [|sol sols]; simpl.
    + split; [done|]. split; [lia|]. split; [lia|]. split; [done|].
      by right.
    + split; [done|]. split; [done|]. split; [done|]. split; [done|].
      by right.
Qed.

Lemma grid_max_le total : grid_max total <= args_solutions_per_grid args.
Proof.
  unfold grid_max_solutions. destruct (0 <? global_cap); lia.
Qed.

Lemma grid_max_prompt total :
  0 < global_cap -> total <= global_cap ->
  Z.max 0 (grid_max total) <= global_cap - total.
Proof.
  intros Hcap Htotal. unfold grid_max_solutions.
  destruct (Z.ltb_spec 0 global_cap); [|lia].
  destruct (Z.leb_spec (global_cap - total) 0); lia.
Qed.

(** The accounting of the loop. *)
Lemma attempt_grids_tally selected : forall idx t t',
  attempt_grids idx selected t = Ok t' ->
  exists new,
    written t' = written t ++ new /\
    total_solutions t' =
      total_solutions t + Z.of_nat (length (flat_map block_solutions new)) /\
    solved_count t' =
      solved_count t
      + Z.of_nat (length (filter (fun b => block_solutions b <> []) new)) /\
    Forall (fun b => Z.of_nat (length (block_solutions b))
                     <= Z.max 0 (args_solutions_per_grid args)) new /\
    map block_layout new `prefix_of` selected /\
    (flag_cap_on args &&
       (args_total_solutions_cap args <=? total_solutions t') = false ->
     map block_layout new = selected).
Proof.
  induction selected as [|lay rest IH]; intros idx t t' Hrun; simpl in Hrun.
  - injection Hrun as <-. exists []. rewrite app_nil_r. simpl.
    split; [done|]. split; [lia|]. split; [lia|]. split; [constructor|].
    split; [done | done].
  - destruct (attempt_grid idx lay t) as [[t1 stop]|] eqn:Estep; [|by simpl].
    rewrite bind_ret in Hrun.
    apply attempt_grid_spec in Estep
      as (sols & Hw & Htot & Hsolved & Hcap & Hstop).
    assert (Hsize : Z.of_nat (length sols)
                    <= Z.max 0 (args_solutions_per_grid args)).
    { unfold within_cap in Hcap.
      pose proof (grid_max_le (total_solutions t)). lia. }
    assert (Hone : Z.of_nat (length (filter (fun b => block_solutions b <> [])
                     [{| block_layout := lay; block_solutions := sols |}]))
                   = if is_empty sols then 0 else 1).
    { rewrite filter_cons. simpl. by destruct sols. }
    destruct stop.
    + injection Hrun as <-.
      exists [{| block_layout := lay; block_solutions := sols |}].
      split; [done|]. split; [simpl; rewrite app_nil_r; lia|].
      split; [lia|]. split; [by apply Forall_singleton|].
      split; [by exists rest|]. intros Hoff.
      destruct Hstop as [(_ & Hno & _)|[Hstop _]]; congruence.
    + apply IH in Hrun as (new & Hw' & Htot' & Hsolved' & Hsizes & Hpre & Hall).
      exists ({| block_layout := lay; block_solutions := sols |} :: new).
      split; [by rewrite Hw', Hw, <- app_assoc|].
      split; [simpl; rewrite length_app; lia|].
      split.
      { rewrite filter_cons. rewrite filter_cons in Hone. simpl in *.
        destruct (decide (sols <> [])); simpl in *; lia. }
      split; [by constructor|].
      split; [simpl; by apply prefix_cons|].
      intros Hoff. simpl. f_equal. by apply Hall.
Qed.

(** The prompt's cap. *)
Lemma attempt_grids_prompt_cap selected : forall idx t t',
  0 < global_cap -> total_solutions t <= global_cap ->
  attempt_grids idx selected t = Ok t' ->
  total_solutions t' <= global_cap.
Proof.
  induction selected as [|lay rest IH]; intros idx t t' Hcap Ht Hrun;
    simpl in Hrun; [by injection Hrun as <-|].
  destruct (attempt_grid idx lay t) as [[t1 stop]|] eqn:Estep; [|by simpl].
  rewrite bind_ret in Hrun.
  apply attempt_grid_spec in Estep as (sols & _ & Htot & _ & Hwithin & _).
  assert (Ht1 : total_solutions t1 <= global_cap).
  { unfold within_cap in Hwithin.
    pose proof (grid_max_prompt (total_solutions t) Hcap Ht). lia. }
  destruct stop; [by injection Hrun as <- | by eapply IH].
Qed.

(** The cap of the command line. *)
Lemma attempt_grids_flag_cap selected : forall idx t t',
  0 < args_total_solutions_cap args ->
  total_solutions t < args_total_solutions_cap args ->
  attempt_grids idx selected t = Ok t' ->
  total_solutions t'
  < args_total_solutions_cap args + Z.max 0 (args_solutions_per_grid args).
Proof.
  induction selected as [|lay rest IH]; intros idx t t' Hcap Ht Hrun;
    simpl in Hrun; [injection Hrun as <-; lia|].
  destruct (attempt_grid idx lay t) as [[t1 stop]|] eqn:Estep; [|by simpl].
  rewrite bind_ret in Hrun.
  apply attempt_grid_spec in Estep
    as (sols & _ & Htot & _ & Hwithin & Hstop).
  assert (Hsize : Z.of_nat (length sols)
                  <= Z.max 0 (args_solutions_per_grid args)).
  { unfold within_cap in Hwithin.
    pose proof (grid_max_le (total_solutions t)). lia. }
  destruct stop; [injection Hrun as <-; lia|].
  apply (IH (S idx) t1 t' Hcap); [|done].
  destruct Hstop as [(-> & _)|[Hstop _]]; [simpl in Htot; lia|].
  symmetry in Hstop. apply andb_false_iff in Hstop as [Hoff|Hlt].
  - unfold flag_cap_on in Hoff. apply andb_false_iff in Hoff as [Hz|Hn].
    + apply negb_false_iff, Z.eqb_eq in Hz. lia.
    + apply Z.ltb_ge in Hn. lia.
  - apply Z.leb_gt in Hlt. lia.
Qed.

(** The loop raises nothing on the layouts of the enumeration. *)
Lemma attempt_grids_ok selected :
  length_buckets words_by_len ->
  args_per_grid_time args < float_int_limit ->
  (forall lay, In lay selected -> emitted lay) ->
  forall idx t, exists t', attempt_grids idx selected t = Ok t'.
Proof.
  intros Hbuckets Hlt. induction selected as [|lay rest IH]; intros Hall idx t;
    simpl; [by eexists|].
  assert (E : emitted lay) by (apply Hall; by left).
  pose proof (emitted_well_formed lay words_by_len (Counter phrase_letters)
                E Hbuckets) as Hwf.
  unfold MainLoop.attempt_grid.
  destruct (any_empty_ok (cand_of lay) (lay_slots lay)) as [skip ->].
  { intros s Hs. destruct (wf_cand _ _ _ Hwf s Hs) as (ws & -> & _).
    by eexists. }
  rewrite bind_ret. destruct skip.
  - rewrite bind_ret. apply IH. intros lay' Hlay'. apply Hall. by right.
  - destruct (find_solutions_ok _ _ phrase_letters _ (args_per_grid_time args)
                (grid_max (total_solutions t)) (args_quiet args) (clocks idx)
                Hwf Hlt) as [sols ->].
    rewrite !bind_ret. destruct (_ && _); [by eexists|].
    apply IH. intros lay' Hlay'. apply Hall. by right.
Qed.

(** With a time limit that does not convert to a float, the loop raises at
    the first layout that it does not skip. *)
Lemma attempt_grids_overflow selected :
  length_buckets words_by_len ->
  float_int_limit <= args_per_grid_time args ->
  (forall lay, In lay selected -> emitted lay) ->
  forall idx t,
    (Exists (not_skipped phrase_letters words_by_len) selected /\
     attempt_grids idx selected t = Raise OverflowError) \/
    (~ Exists (not_skipped phrase_letters words_by_len) selected /\
     exists t', attempt_grids idx selected t = Ok t').
Proof.
  intros Hbuckets Hbig. induction selected as [|lay rest IH]; intros Hall idx t;
    simpl.
  { right. split; [by intros H%Exists_nil | by eexists]. }
  assert (E : emitted lay) by (apply Hall; by left).
  pose proof (emitted_well_formed lay words_by_len (Counter phrase_letters)
                E Hbuckets) as Hwf.
  unfold MainLoop.attempt_grid.
  destruct (any_empty_ok (cand_of lay) (lay_slots lay)) as [skip Hskip].
  { intros s Hs. destruct (wf_cand _ _ _ Hwf s Hs) as (ws & -> & _).
    by eexists. }
  rewrite Hskip, bind_ret. destruct skip.
  - rewrite bind_ret.
    destruct (IH (fun l H => Hall l (or_intror H)) (S idx)
                (write_grid_block lay [] t)) as [[Hex Hr]|[Hex Hr]].
    + left. split; [by apply Exists_cons_tl | done].
    + right. split; [|done]. intros H. apply Exists_cons in H as [H|H]; [|done].
      unfold not_skipped in H. congruence.
  - rewrite find_solutions_overflow by done.
    left. split; [by apply Exists_cons_hd | reflexivity].
Qed.

End Loop.

(** For every run of the loop of [main] that returns: the total is the
    number of solutions handed to [write_grid_block], and [solved_count] the
    number of blocks with a solution; no block has more than
    [solutions_per_grid] solutions; the layouts written are the first of the
    selected ones, in their order, and all of them unless the cap of the
    command line is set and reached. *)
Theorem loop_tally (args : Args) (global_cap : Z) (phrase_letters : str)
  (words_by_len : dict nat (list str)) (clocks : nat -> nat -> Q)
  (selected : list layout) :
  forall t,
    attempt_grids args global_cap phrase_letters words_by_len clocks 1
      selected start_tally = Ok t ->
    total_solutions t = solutions_written t /\
    solved_count t = grids_solved t /\
    Forall (fun b => Z.of_nat (length (block_solutions b))
                     <= Z.max 0 (args_solutions_per_grid args)) (written t) /\
    map block_layout (written t) `prefix_of` selected /\
    (flag_cap_on args &&
       (args_total_solutions_cap args <=? total_solutions t) = false ->
     map block_layout (written t) = selected).
Proof.
  intros t Hrun.
  apply attempt_grids_tally in Hrun
    as (new & Hw & Htot & Hsolved & Hsizes & Hpre & Hall).
  simpl in Hw, Htot, Hsolved. unfold solutions_written, grids_solved.
  rewrite Hw. done.
Qed.

Lemma crossing_run :
  exists t,
    attempt_grids (crossing_args 5 1) 0 (lit "LAMEBLE") crossing_words
      (fun _ => still) 1 [crossing_layout; crossing_layout] start_tally = Ok t /\
    total_solutions t = 2 /\ length (written t) = 1%nat.
Proof. eexists. split; [by vm_compute|]. by vm_compute. Qed.

Lemma loop_tally_witness :
  exists t,
    total_solutions t = 2 /\ total_solutions t = solutions_written t /\
    map block_layout (written t) `prefix_of` [crossing_layout; crossing_layout].
Proof.
  destruct crossing_run as (t & Hrun & Htotal & _).
  destruct (loop_tally _ _ _ _ _ _ t Hrun) as (Hw & _ & _ & Hpre & _).
  exists t. split; [exact Htotal|]. split; [exact Hw | exact Hpre].
Defined.

(** When the prompt's cap is positive, the loop of [main] never counts more
    solutions than the cap, whatever the other arguments are. *)
Theorem prompt_cap_bounds_total (args : Args) (global_cap : Z)
  (phrase_letters : str) (words_by_len : dict nat (list str))
  (clocks : nat -> nat -> Q) (selected : list layout) (t : tally) :
  0 < global_cap ->
  attempt_grids args global_cap phrase_letters words_by_len clocks 1
    selected start_tally = Ok t ->
  total_solutions t <= global_cap /\ solutions_written t <= global_cap.
Proof.
  intros Hcap Hrun.
  assert (Ht : total_solutions t <= global_cap).
  { eapply attempt_grids_prompt_cap; [exact Hcap | | exact Hrun]. simpl. lia. }
  split; [exact Ht|].
  apply attempt_grids_tally in Hrun as (new & Hw & Htot & _).
  simpl in Hw, Htot. unfold solutions_written. rewrite Hw. lia.
Qed.

Lemma prompt_cap_run :
  exists t,
    attempt_grids (crossing_args 5 0) 1 (lit "LAMEBLE") crossing_words
      (fun _ => still) 1 [crossing_layout; crossing_layout] start_tally = Ok t /\
    total_solutions t = 1 /\ length (written t) = 2%nat.
Proof. eexists. split; [by vm_compute|]. by vm_compute. Qed.

Lemma prompt_cap_bounds_total_witness :
  exists t, total_solutions t = 1 /\ total_solutions t <= 1.
Proof.
  destruct prompt_cap_run as (t & Hrun & Htotal & _).
  destruct (prompt_cap_bounds_total (crossing_args 5 0) 1 _ _ _ _ t
              ltac:(lia) Hrun) as [Hle _].
  exists t. split; [exact Htotal | exact Hle].
Defined.

(** The cap of the command line, [--total_solutions_cap], does not limit the
    search of a grid: with the prompt's cap off, every grid is searched for up
    to [solutions_per_grid] solutions.  The loop stops after the first grid
    at which the total has reached the cap, so the total stays below the cap
    plus [solutions_per_grid], and it can go over the cap. *)
Theorem flag_cap_overshoot (args : Args) (global_cap : Z)
  (phrase_letters : str) (words_by_len : dict nat (list str))
  (clocks : nat -> nat -> Q) (selected : list layout) (t : tally) :
  0 < args_total_solutions_cap args ->
  attempt_grids args global_cap phrase_letters words_by_len clocks 1
    selected start_tally = Ok t ->
  total_solutions t
  < args_total_solutions_cap args + Z.max 0 (args_solutions_per_grid args) /\
  (global_cap <= 0 ->
   forall total, grid_max_solutions args global_cap total
                 = args_solutions_per_grid args) /\
  (total_solutions t < args_total_solutions_cap args ->
   map block_layout (written t) = selected).
Proof.
  intros Hcap Hrun. split; [|split].
  - eapply attempt_grids_flag_cap; [exact Hcap | | exact Hrun]. simpl. lia.
  - intros Hoff total. unfold grid_max_solutions.
    destruct (Z.ltb_spec 0 global_cap); [lia | done].
  - intros Hbelow.
    apply attempt_grids_tally in Hrun as (new & Hw & _ & _ & _ & _ & Hall).
    simpl in Hw. rewrite Hw. apply Hall.
    apply andb_false_iff. right. by apply Z.leb_gt.
Qed.

Lemma flag_cap_overshoot_witness :
  exists t,
    attempt_grids (crossing_args 5 1) 0 (lit "LAMEBLE") crossing_words
      (fun _ => still) 1 [crossing_layout; crossing_layout] start_tally = Ok t /\
    1 < total_solutions t < 1 + 5.
Proof.
  destruct crossing_run as (t & Hrun & Htotal & _).
  destruct (flag_cap_overshoot (crossing_args 5 1) 0 _ _ _ _ t
              ltac:(simpl; lia) Hrun) as [Hlt _].
  exists t. split; [exact Hrun|]. simpl in Hlt. lia.
Defined.

(** *** The whole of [main] *)
Lemma rank_layouts_perm R layouts seed :
  shuffle_permutes R -> Permutation (rank_layouts R layouts seed) layouts.
Proof.
  intros Hperm. rewrite rank_layouts_spec.
  rewrite (flat_map_perm_in _ (tie layouts));
    [|intros d _; by apply tie_order_perm].
  rewrite (sorted_desc_perm (first_seen (map dup_of layouts))).
  apply ties_cover; [apply first_seen_NoDup|].
  intros x Hx. apply first_seen_In, in_map_iff. by exists x.
Qed.

Lemma selected_In R layouts seed k lay :
  shuffle_permutes R ->
  In lay (selected (rank_layouts R layouts seed) k) -> In lay layouts.
Proof.
  intros Hperm Hin. unfold selected in Hin.
  apply (Permutation_in _ (rank_layouts_perm R layouts seed Hperm)).
  rewrite <- (take_drop (Z.to_nat (Z.max 0 k)) (rank_layouts R layouts seed)).
  apply in_app_iff. by left.
Qed.

Lemma rank_layouts_falling R layouts seed :
  shuffle_permutes R -> falling (rank_layouts R layouts seed).
Proof.
  intros Hperm. rewrite rank_layouts_spec.
  apply falling_ties; [done|]. apply sorted_desc_ordered.
Qed.

Lemma falling_split l1 l2 :
  falling (l1 ++ l2) ->
  forall a b, In a l1 -> In b l2 -> (dup_of b <= dup_of a)%nat.
Proof.
  induction l1 as [|x l1 IH]; intros Hf a b Ha Hb; [destruct Ha|].
  simpl in Hf. inversion Hf as [|? ? Hx Hrest]; subst.
  destruct Ha as [<-|Ha]; [|by apply IH].
  rewrite Forall_forall in Hx. apply Hx, list_elem_of_In, in_app_iff.
  by right.
Qed.

(** The layouts [main] attempts are the [max_grids] first of the ranking
    (none when [max_grids] is negative), and these are layouts with the most
    crossing cells: no layout that is left out has more crossing cells than
    one that is attempted.  (For a generator whose [shuffle] rearranges its
    argument.) *)
Theorem selected_top (R : Random) (layouts : list layout)
  (grid_seed max_grids : Z) :
  shuffle_permutes R ->
  length (selected (rank_layouts R layouts grid_seed) max_grids)
  = Nat.min (Z.to_nat max_grids) (length layouts) /\
  exists left_out,
    rank_layouts R layouts grid_seed
    = selected (rank_layouts R layouts grid_seed) max_grids ++ left_out /\
    Permutation
      (selected (rank_layouts R layouts grid_seed) max_grids ++ left_out)
      layouts /\
    forall a b,
      In a (selected (rank_layouts R layouts grid_seed) max_grids) ->
      In b left_out -> (dup_of b <= dup_of a)%nat.
Proof.
  intros Hperm. unfold selected.
  pose proof (rank_layouts_perm R layouts grid_seed Hperm) as Hp.
  split.
  - rewrite length_take, (Permutation_length Hp). lia.
  - exists (drop (Z.to_nat (Z.max 0 max_grids)) (rank_layouts R layouts grid_seed)).
    rewrite take_drop. split; [done|]. split; [done|].
    apply falling_split. rewrite take_drop.
    by apply rank_layouts_falling.
Qed.

Lemma selected_top_witness :
  length (selected (rank_layouts reversing [sample_a; sample_b; sample_c] 7) 1)
  = 1%nat.
Proof.
  destruct (selected_top reversing [sample_a; sample_b; sample_c] 7 1
              reversing_permutes) as [Hlen _].
  exact Hlen.
Defined.

Lemma main_cases db R clocks args min_rating phrase global_cap :
  shuffle_permutes R ->
  let rating := if 10 <? (if min_rating <? 1 then 1 else min_rating) then 10
                else if min_rating <? 1 then 1 else min_rating in
  let letters := clean_phrase db phrase in
  (letters = [] /\ main db R clocks args min_rating phrase global_cap = Ok None)
  \/
  (letters <> [] /\
   exists e,
     load_fails db (args_dict args) e /\
     load_dictionary db (args_dict args) rating = Raise e /\
     main db R clocks args min_rating phrase global_cap = Raise e)
  \/
  (letters <> [] /\
   (forall e, ~ load_fails db (args_dict args) e) /\
   exists words_by_len layouts,
     load_dictionary db (args_dict args) rating = Ok words_by_len /\
     feasible_layouts (args_words_mode args) (args_min_intersections args)
       letters = Ok layouts /\
     ((layouts = [] /\
       main db R clocks args min_rating phrase global_cap = Ok None) \/
      (layouts <> [] /\
       ((exists t,
           attempt_grids args global_cap letters words_by_len clocks 1
             (selected (rank_layouts R layouts (args_grid_seed args))
                       (args_max_grids args)) start_tally = Ok t /\
           main db R clocks args min_rating phrase global_cap = Ok (Some t) /\
           (float_int_limit <= args_per_grid_time args ->
            ~ Exists (not_skipped letters words_by_len)
                (selected (rank_layouts R layouts (args_grid_seed args))
                          (args_max_grids args)))) \/
        (float_int_limit <= args_per_grid_time args /\
         Exists (not_skipped letters words_by_len)
           (selected (rank_layouts R layouts (args_grid_seed args))
                     (args_max_grids args)) /\
         main db R clocks args min_rating phrase global_cap
         = Raise OverflowError))))).
Proof.
  intros Hperm rating letters. unfold main. fold rating. fold letters.
  destruct letters as [|ch rest] eqn:El; [by left|]. right.
  cbn [is_empty].
  destruct (load_dictionary_cases db (args_dict args) rating)
    as [(e & Hbad & Hr)|[Hgood [words_by_len Hr]]]; rewrite Hr.
  { left. split; [done|]. by exists e. }
  right. split; [done|]. split; [exact Hgood|]. rewrite bind_ret.
  destruct (feasible_layouts_emitted (args_words_mode args)
              (args_min_intersections args) (ch :: rest))
    as (layouts & Hl & Hall).
  rewrite Hl, bind_ret. exists words_by_len, layouts.
  split; [done|]. split; [done|].
  destruct layouts as [|lay0 more] eqn:Elay; [left; done|]. right.
  split; [done|]. rewrite <- Elay in *. cbn [length Nat.eqb].
  assert (Hlen : (length layouts =? 0)%nat = false) by (by rewrite Elay).
  rewrite Hlen. fold start_tally.
  assert (Hsel : forall lay,
            In lay (selected (rank_layouts R layouts (args_grid_seed args))
                             (args_max_grids args)) -> emitted lay).
  { intros lay Hlay. apply (selected_In R) in Hlay; [|done].
    by destruct (Hall lay Hlay). }
  destruct (Z.lt_ge_cases (args_per_grid_time args) float_int_limit) as [Hlt|Hbig].
  - destruct (attempt_grids_ok args global_cap (ch :: rest) words_by_len clocks
                (selected (rank_layouts R layouts (args_grid_seed args))
                          (args_max_grids args))
                (load_dictionary_buckets _ _ _ _ Hr) Hlt Hsel 1%nat start_tally)
      as [t Ht].
    left. exists t. split; [exact Ht|]. split; [by rewrite Ht|]. lia.
  - destruct (attempt_grids_overflow args global_cap (ch :: rest) words_by_len
                clocks
                (selected (rank_layouts R layouts (args_grid_seed args))
                          (args_max_grids args))
                (load_dictionary_buckets _ _ _ _ Hr) Hbig Hsel 1%nat start_tally)
      as [[Hex Ht]|[Hex [t Ht]]].
    + right. split; [done|]. split; [done|]. by rewrite Ht.
    + left. exists t. split; [exact Ht|]. split; [by rewrite Ht | done].
Qed.

(** [main] raises an exception in two cases only, both with a phrase that
    has a letter.  One is a load of the dictionary that fails: with
    [ValueError] for a line whose rating field passes [isdigit] and that [int]
    refuses, or with the exception of a read that fails.  The other is a time
    limit of [2^1024 - 2^970] or more, when the dictionary loads and one of
    the selected layouts has a candidate for each of its slots: the search of
    the first such layout raises [OverflowError].  Nothing else raises on the
    way: not the enumeration, not the ranking, not the filter of the
    candidates, not the search itself.  (For a generator whose [shuffle]
    rearranges its argument; opening the output file, and what is printed or
    written, are not part of the model.) *)
Theorem main_raises_exactly (db : UnicodeData) (R : Random)
  (clocks : nat -> nat -> Q) (args : Args) (min_rating : Z) (phrase : str)
  (global_cap : Z) :
  shuffle_permutes R ->
  let rating := if 10 <? (if min_rating <? 1 then 1 else min_rating) then 10
                else if min_rating <? 1 then 1 else min_rating in
  let letters := clean_phrase db phrase in
  forall e,
    main db R clocks args min_rating phrase global_cap = Raise e <->
    letters <> [] /\
    (match args_dict args with
     | FileNotFound => False
     | FileLines raws => Exists (bad_rating db) raws /\ e = ValueError
     | FileError raws e' =>
         Exists (bad_rating db) raws /\ e = ValueError \/
         ~ Exists (bad_rating db) raws /\ e = e'
     end \/
     e = OverflowError /\
     float_int_limit <= args_per_grid_time args /\
     exists words_by_len layouts,
       load_dictionary db (args_dict args) rating = Ok words_by_len /\
       feasible_layouts (args_words_mode args) (args_min_intersections args)
         letters = Ok layouts /\
       Exists (not_skipped letters words_by_len)
         (selected (rank_layouts R layouts (args_grid_seed args))
                   (args_max_grids args))).
Proof.
  intros Hperm rating letters e.
  change (match args_dict args with
          | FileNotFound => False
          | FileLines raws => Exists (bad_rating db) raws /\ e = ValueError
          | FileError raws e' =>
              Exists (bad_rating db) raws /\ e = ValueError \/
              ~ Exists (bad_rating db) raws /\ e = e'
          end) with (load_fails db (args_dict args) e).
  destruct (main_cases db R clocks args min_rating phrase global_cap Hperm)
    as [[Hl Hm]|[(Hl & e0 & Hbad & Hr & Hm)|
                 (Hl & Hgood & wbl & layouts & Hr & Hf & Hm)]];
    try fold rating in Hr; fold letters in Hl; try fold letters in Hf;
    try fold letters in Hm.
  - rewrite Hm. split; [discriminate | by intros [Hne _]].
  - rewrite Hm. split.
    + intros [= <-]. split; [done | by left].
    + intros [_ [Hbad'|(_ & _ & wbl & layouts & Hr' & _)]]; [|congruence].
      apply (load_dictionary_raise_iff db (args_dict args) rating) in Hbad'.
      congruence.
  - destruct Hm as [[-> Hm]|[Hne [(t & _ & Hm & Hno)|(Hbig & Hex & Hm)]]];
      rewrite Hm.
    + split; [discriminate|].
      intros [_ [Hbad|(_ & _ & wbl' & layouts' & Hr' & Hf' & Hex)]];
        [by destruct (Hgood e)|].
      assert (layouts' = []) as -> by congruence.
      pose proof (rank_layouts_perm R [] (args_grid_seed args) Hperm) as Hp.
      apply Permutation_nil_r in Hp. rewrite Hp in Hex.
      unfold selected in Hex. rewrite take_nil in Hex.
      by apply Exists_nil in Hex.
    + split; [discriminate|].
      intros [_ [Hbad|(_ & Hbig & wbl' & layouts' & Hr' & Hf' & Hex)]];
        [by destruct (Hgood e)|].
      assert (wbl' = wbl) as -> by congruence.
      assert (layouts' = layouts) as -> by congruence.
      by destruct (Hno Hbig).
    + split.
      * intros [= <-]. split; [done|]. right. split; [done|]. split; [done|].
        by exists wbl, layouts.
      * intros [_ [Hbad|(-> & _)]]; [by destruct (Hgood e) | done].
Qed.

Lemma main_overflow_run :
  main ucd_sample reversing (fun _ => still)
    (sample_args_with
       (FileLines [lit "fajbn"; lit "hcldp"; lit "efgh"; lit "ijkl"; lit "mnop"])
       (2 ^ 1024)) 1 (lit "abcd efgh ijkl mnop") 0
  = Raise OverflowError.
Proof. by vm_compute. Qed.

(** Three runs that raise: a rating field "²" in the dictionary, a
    dictionary file that is not UTF-8, and a time limit of [2^1024]. *)
Lemma main_raises_exactly_witness :
  main ucd_superscripts reversing (fun _ => still)
    (sample_args_with (FileLines [0xB2%N :: 9%N :: lit "word"]) 5)
    1 (lit "a phrase") 0 = Raise ValueError /\
  main ucd_sample reversing (fun _ => still)
    (sample_args_with (FileError [lit "fajbn"] UnicodeDecodeError) 5)
    1 (lit "a phrase") 0 = Raise UnicodeDecodeError /\
  (float_int_limit <= 2 ^ 1024 /\
   exists words_by_len layouts,
     load_dictionary ucd_sample
       (FileLines [lit "fajbn"; lit "hcldp"; lit "efgh"; lit "ijkl"; lit "mnop"])
       1 = Ok words_by_len /\
     feasible_layouts Mode5 0
       (clean_phrase ucd_sample (lit "abcd efgh ijkl mnop")) = Ok layouts /\
     Exists (not_skipped (clean_phrase ucd_sample (lit "abcd efgh ijkl mnop"))
                      words_by_len)
       (selected (rank_layouts reversing layouts 0) 1)).
Proof.
  split; [|split].
  - apply (main_raises_exactly ucd_superscripts reversing (fun _ => still)
             (sample_args_with (FileLines [0xB2%N :: 9%N :: lit "word"]) 5)
             1 (lit "a phrase") 0 reversing_permutes ValueError).
    split; [by vm_compute|]. left. split; [|reflexivity].
    apply Exists_cons_hd. unfold bad_rating. eexists _, _.
    split; [by vm_compute|]. split; by vm_compute.
  - apply (main_raises_exactly ucd_sample reversing (fun _ => still)
             (sample_args_with (FileError [lit "fajbn"] UnicodeDecodeError) 5)
             1 (lit "a phrase") 0 reversing_permutes UnicodeDecodeError).
    split; [by vm_compute|]. left. right. split; [|reflexivity].
    intros Hbad. apply Exists_cons in Hbad as [Hbad|Hbad];
      [|by apply Exists_nil in Hbad].
    destruct Hbad as (lft & rgt & Hsplit & _). by vm_compute in Hsplit.
  - destruct (proj1 (main_raises_exactly ucd_sample reversing (fun _ => still)
               (sample_args_with
                  (FileLines [lit "fajbn"; lit "hcldp"; lit "efgh";
                              lit "ijkl"; lit "mnop"]) (2 ^ 1024))
               1 (lit "abcd efgh ijkl mnop") 0 reversing_permutes
               OverflowError) main_overflow_run)
      as [_ [Hbad|(_ & Hbig & Hrest)]].
    + destruct Hbad as [_ [=]].
    + split; [exact Hbig | exact Hrest].
Defined.




End MainLoopFacts.
